(** * Picasso Average3: registration and averaging engine

    A shallow embedding of the numerical core of [picasso/gui/average3.py]
    (rendering, anisotropic rotation, cross-correlation alignment of groups,
    group index, centre-of-mass recentring, symmetrised references), in real
    arithmetic: numpy's float arrays are lists of [R], integer indices are
    [nat] or [Z], Python exceptions are [None]. *)

From Stdlib Require Import String.
From Stdlib Require Import Reals Lra Lia List ZArith Bool Permutation Sorted.
Import ListNotations.
Open Scope R_scope.

(** ** Exceptions *)

Definition bind {A B : Type} (o : option A) (k : A -> option B) : option B :=
  match o with
  | Some a => k a
  | None => None
  end.

Notation "x <- e ;; k" := (bind e (fun x => k))
  (at level 61, e at next level, right associativity).
Notation "' p <- e ;; k" := (bind e (fun p => k))
  (at level 61, p pattern, e at next level, right associativity).

(** ** numpy primitives *)

(** Boolean comparisons of floats. *)
Definition Rltb (a b : R) : bool := if Rlt_dec a b then true else false.

(** [np.ceil], followed by [int(...)] where the source converts. *)
Definition ceil (v : R) : Z := (- Int_part (- v))%Z.

(** [astype(int32)]: truncation towards zero. *)
Definition trunc (v : R) : Z :=
  if Rlt_dec v 0 then (- Int_part (- v))%Z else Int_part v.

(** [np.sum] of a one-dimensional array. *)
Definition Rsum (l : list R) : R := fold_right Rplus 0 l.

(** [np.mean] of a one-dimensional array. *)
Definition mean (l : list R) : R := Rsum l / INR (length l).

(** A two-dimensional float array, as the list of its rows. *)
Definition Image := list (list R).

(** [np.zeros((rows, cols))]. *)
Definition zeros (rows cols : nat) : Image := repeat (repeat 0 cols) rows.

(** [image.shape]. *)
Definition shape {A : Type} (image : list (list A)) : nat * nat :=
  (length image, length (hd [] image)).

(** Every row has the width the shape announces. *)
Definition rectangular {A : Type} (image : list (list A)) : Prop :=
  Forall (fun row => length row = snd (shape image)) image.

(** In-place update of the element at position [n]; a position outside the
    list changes nothing here, callers check the range where numpy raises. *)
Fixpoint upd {A : Type} (f : A -> A) (n : nat) (l : list A) : list A :=
  match l, n with
  | [], _ => []
  | a :: t, O => f a :: t
  | a :: t, S n' => a :: upd f n' t
  end.

Definition get2 (M : Image) (k j : nat) : R := nth j (nth k M []) 0.

(** [M[k, j] = v]; an index outside the array is an [IndexError]. *)
Definition set2 (M : Image) (k j : nat) (v : R) : option Image :=
  if (k <? length M)%nat && (j <? length (nth k M []))%nat
  then Some (upd (upd (fun _ => v) j) k M)
  else None.

(** [np.argmax] of a flat array: the first index of the maximum; the empty
    array raises [ValueError]. *)
Fixpoint argmax_from (best : nat) (bv : R) (i : nat) (l : list R) : nat :=
  match l with
  | [] => best
  | v :: t =>
      if Rlt_dec bv v then argmax_from i v (S i) t
      else argmax_from best bv (S i) t
  end.

Definition argmax (l : list R) : option nat :=
  match l with
  | [] => None
  | v :: t => Some (argmax_from 0 v 1 t)
  end.

(** Fancy indexing [a[index]]; an index outside the array is an
    [IndexError]. *)
Definition gather (a : list R) (index : list nat) : option (list R) :=
  if forallb (fun i => (i <? length a)%nat) index
  then Some (map (fun i => nth i a 0) index)
  else None.

(** Fancy assignment [a[index] = vals], element by element in order. *)
Definition scatter (a : list R) (index : list nat) (vals : list R)
  : option (list R) :=
  if forallb (fun i => (i <? length a)%nat) index
     && (length index =? length vals)%nat
  then Some (fold_left (fun acc iv => upd (fun _ => snd iv) (fst iv) acc)
                       (combine index vals) a)
  else None.

(** [a[index] -= d]: numpy gathers, subtracts and assigns back. *)
Definition isub (a : list R) (index : list nat) (d : R) : option (list R) :=
  vals <- gather a index ;;
  scatter a index (map (fun v => v - d) vals).

(** ** Module-level functions of average3.py *)

(** Modelled from the spec: [render._fill] lives in picasso/render.py, which
    is not part of the sources at hand; the specification asks for nearest
    deposition into a dense image: every point adds one count to the pixel
    whose column is the truncated first coordinate and whose row is the
    truncated second coordinate.  A point outside the image deposits
    nothing. *)
Definition deposit (image : Image) (i j : Z) : Image :=
  if (i <? 0)%Z || (j <? 0)%Z then image
  else upd (upd (fun v => v + 1) (Z.to_nat i)) (Z.to_nat j) image.

Definition render_fill (image : Image) (x y : list R) : Image :=
  fold_left (fun img p => deposit img (trunc (fst p)) (trunc (snd p)))
            (combine x y) image.

(** The mask [(a > a_min) & (b > b_min) & (a < a_max) & (b < b_max)]. *)
Definition in_view (a_min a_max b_min b_max : R) (p : R * R) : bool :=
  Rltb a_min (fst p) && Rltb b_min (snd p)
  && Rltb (fst p) a_max && Rltb (snd p) b_max.

(** [render_histxyz(a, b, oversampling, a_min, a_max, b_min, b_max)];
    [np.zeros] raises on a negative dimension.  The two coordinate arrays
    have one length in every caller. *)
Definition render_histxyz (a b : list R) (oversampling a_min a_max b_min b_max : R)
  : option (nat * Image) :=
  let n_pixel_a := ceil (oversampling * (a_max - a_min)) in
  let n_pixel_b := ceil (oversampling * (b_max - b_min)) in
  let kept := filter (in_view a_min a_max b_min b_max) (combine a b) in
  let a' := map (fun p => oversampling * (fst p - a_min)) kept in
  let b' := map (fun p => oversampling * (snd p - b_min)) kept in
  if (n_pixel_a <? 0)%Z || (n_pixel_b <? 0)%Z then None
  else
    let image := zeros (Z.to_nat n_pixel_b) (Z.to_nat n_pixel_a) in
    Some (length a', render_fill image a' b').

(** [render_hist(x, y, oversampling, t_min, t_max)], the square variant. *)
Definition render_hist (x y : list R) (oversampling t_min t_max : R)
  : option (nat * Image) :=
  let n_pixel := ceil (oversampling * (t_max - t_min)) in
  let kept := filter (in_view t_min t_max t_min t_max) (combine x y) in
  let x' := map (fun p => oversampling * (fst p - t_min)) kept in
  let y' := map (fun p => oversampling * (snd p - t_min)) kept in
  if (n_pixel <? 0)%Z then None
  else
    let image := zeros (Z.to_nat n_pixel) (Z.to_nat n_pixel) in
    Some (length x', render_fill image x' y').

(** [rotate_axis(axis, vx, vy, vz, angle, pixelsize)] on one coordinate
    triple; an axis other than 'x', 'y', 'z' leaves the results unbound
    ([UnboundLocalError]). *)
Definition rotate_axis (axis : string) (vx vy vz angle pixelsize : R)
  : option (R * R * R) :=
  if String.eqb axis "z" then
    Some (cos angle * vx - sin angle * vy,
          sin angle * vx + cos angle * vy,
          vz)
  else if String.eqb axis "y" then
    Some (cos angle * vx + sin angle * (vz / pixelsize),
          vy,
          - sin angle * vx * pixelsize + cos angle * vz)
  else if String.eqb axis "x" then
    Some (vx,
          cos angle * vy - sin angle * (vz / pixelsize),
          sin angle * vy * pixelsize + cos angle * vz)
  else None.

(** [rotate_axis] on coordinate arrays: numpy applies the same formulas
    element by element. *)
Fixpoint mapM {A B : Type} (f : A -> option B) (l : list A) : option (list B) :=
  match l with
  | [] => Some []
  | a :: t => b <- f a ;; r <- mapM f t ;; Some (b :: r)
  end.

Definition rotate_axis_arr (axis : string) (vx vy vz : list R)
    (angle pixelsize : R) : option (list R * list R * list R) :=
  _ <- rotate_axis axis 0 0 0 angle pixelsize ;;
  pts <- mapM (fun p => rotate_axis axis (fst (fst p)) (snd (fst p)) (snd p)
                                    angle pixelsize)
              (combine (combine vx vy) vz) ;;
  Some (map (fun q => fst (fst q)) pts,
        map (fun q => snd (fst q)) pts,
        map (fun q => snd q) pts).

(** *** Discrete Fourier transforms of numpy, by their definition *)

Definition C : Type := R * R.
Definition C0 : C := (0, 0).
Definition RtoC (v : R) : C := (v, 0).
Definition Cadd (a b : C) : C := (fst a + fst b, snd a + snd b).
Definition Cmul (a b : C) : C :=
  (fst a * fst b - snd a * snd b, fst a * snd b + snd a * fst b).
Definition Cconj (a : C) : C := (fst a, - snd a).
Definition Cscale (c : R) (a : C) : C := (c * fst a, c * snd a).
Definition cis (t : R) : C := (cos t, sin t).
Definition Csum (l : list C) : C := fold_right Cadd C0 l.

Definition CImage := list (list C).

Definition dft2 (sign : R) (X : CImage) : CImage :=
  let M := length X in
  let N := length (hd [] X) in
  map (fun u =>
    map (fun v =>
      Csum (map (fun m =>
        Csum (map (fun n =>
          Cmul (nth n (nth m X []) C0)
               (cis (sign * (2 * PI)
                     * (INR u * INR m / INR M + INR v * INR n / INR N))))
          (seq 0 N)))
        (seq 0 M)))
      (seq 0 N))
    (seq 0 M).

(** [np.fft.fft2] and [np.fft.ifft2]. *)
Definition fft2 (X : CImage) : CImage := dft2 (-1) X.
Definition ifft2 (X : CImage) : CImage :=
  map (map (Cscale (/ (INR (length X) * INR (length (hd [] X)))))) (dft2 1 X).

(** [np.roll(l, s)] and [np.fft.fftshift] over both axes. *)
Definition roll {A : Type} (d : A) (s : nat) (l : list A) : list A :=
  map (fun i => nth ((i + (length l - s)) mod length l) l d)
      (seq 0 (length l)).

Definition fftshift (X : Image) : Image :=
  roll [] (length X / 2) (map (fun row => roll 0 (length row / 2) row) X).

(** Element-wise product of two arrays of one shape; arrays of different
    shapes are taken to raise (numpy's broadcasting of a dimension of size
    one does not occur between renders of one macro-operation). *)
Definition same_shape {A B : Type} (X : list (list A)) (Y : list (list B))
  : bool :=
  (length X =? length Y)%nat
  && forallb (fun p => (length (fst p) =? length (snd p))%nat) (combine X Y).

Definition zip2 {A B D : Type} (f : A -> B -> D)
    (X : list (list A)) (Y : list (list B)) : option (list (list D)) :=
  if same_shape X Y
  then Some (map (fun p => map (fun q => f (fst q) (snd q))
                               (combine (fst p) (snd p)))
                 (combine X Y))
  else None.

(** [compute_xcorr(CF_image_avg, image)]. *)
Definition compute_xcorr (CF_image_avg : CImage) (image : Image)
  : option Image :=
  let F_image := fft2 (map (map RtoC) image) in
  prod <- zip2 Cmul F_image CF_image_avg ;;
  Some (fftshift (map (map fst) (ifft2 prod))).

(** ** The window state *)

(** One channel: the columns of its localization record array. *)
Record Locs := {
  x : list R;
  y : list R;
  z : list R;
  group : list Z
}.

Record Window := {
  locs : list Locs;
  group_index : list (list (list nat));
    (* per channel, per row of the sparse matrix: its nonzero columns *)
  checks : list bool;          (* dataset_dialog.checks[j].isChecked() *)
  translatebtn : bool;
  radio_sym : bool;
  radio_sym_custom : bool;
  symEdit : Z;
  symcustomEdit : list R;      (* the comma-separated degrees, parsed *)
  dialog_oversampling : R;     (* parameters_dialog.oversampling.value() *)
  pixelsize : R;
  oversampling : R;
  t_min : R;
  t_max : R;
  z_min : R;
  z_max : R;
  r : R;
  r_z : R;
  n_groups : nat
}.

Definition set_locs (w : Window) (ls : list Locs) : Window :=
  {| locs := ls; group_index := group_index w; checks := checks w;
     translatebtn := translatebtn w; radio_sym := radio_sym w;
     radio_sym_custom := radio_sym_custom w; symEdit := symEdit w;
     symcustomEdit := symcustomEdit w;
     dialog_oversampling := dialog_oversampling w;
     pixelsize := pixelsize w; oversampling := oversampling w;
     t_min := t_min w; t_max := t_max w; z_min := z_min w; z_max := z_max w;
     r := r w; r_z := r_z w; n_groups := n_groups w |}.

(** The session with another oversampling. *)
Definition set_oversampling (w : Window) (v : R) : Window :=
  {| locs := locs w; group_index := group_index w; checks := checks w;
     translatebtn := translatebtn w; radio_sym := radio_sym w;
     radio_sym_custom := radio_sym_custom w; symEdit := symEdit w;
     symcustomEdit := symcustomEdit w;
     dialog_oversampling := dialog_oversampling w;
     pixelsize := pixelsize w; oversampling := v;
     t_min := t_min w; t_max := t_max w; z_min := z_min w; z_max := z_max w;
     r := r w; r_z := r_z w; n_groups := n_groups w |}.

(** [hist_multi_channel(self.locs)] as far as the session goes.  It stores
    the dialog's oversampling, renders every checked channel with
    [render.render_hist3d] and has pixmap_from_colors turn the renders into
    three pixmaps.  The renders and the pixmaps are not part of the session.
    The failures are those this code decides: the step [1 / n_channels] of
    the hues raises without a channel, [checks[i]] raises for a channel
    without a check box, and [Y, X = image.shape[1:]] raises when no channel
    is checked, the array of renders being empty then. *)
Definition hist_multi_channel (w : Window) : option Window :=
  match locs w with
  | [] => None
  | _ =>
      checked <- mapM (fun i => nth_error (checks w) i)
                      (seq 0 (length (locs w))) ;;
      if existsb (fun c : bool => c) checked
      then Some (set_oversampling w (dialog_oversampling w))
      else None
  end.

(** [updateLayout()]: the three pixmaps of hist_multi_channel go to the
    views. *)
Definition updateLayout (w : Window) : option Window :=
  hist_multi_channel w.

(** *** The group index built by [add] *)

(** [np.unique]: the sorted distinct values. *)
Fixpoint insert_unique (g : Z) (l : list Z) : list Z :=
  match l with
  | [] => [g]
  | h :: t =>
      if (g <? h)%Z then g :: l
      else if (g =? h)%Z then l
      else h :: insert_unique g t
  end.

Definition unique (l : list Z) : list Z := fold_right insert_unique [] l.

(** [np.where(groups == g)[0]]. *)
Fixpoint where_from (n : nat) (g : Z) (groups : list Z) : list nat :=
  match groups with
  | [] => []
  | h :: t =>
      if (h =? g)%Z then n :: where_from (S n) g t
      else where_from (S n) g t
  end.

Definition where_eq (groups : list Z) (g : Z) : list nat :=
  where_from 0 g groups.

(** The loop [for i, group in enumerate(groups): group_index[i, index] = True],
    read back row by row as [group_index[i].nonzero()[1]]. *)
Definition build_group_index (l : Locs) : list (list nat) :=
  map (where_eq (group l)) (unique (group l)).

(** [self.group_index[j][g].nonzero()[1]]. *)
Definition members (w : Window) (j g : nat) : option (list nat) :=
  gi <- nth_error (group_index w) j ;;
  nth_error gi g.

(** *** render_planes *)

(** The branch on [proplane]: the two arrays to render and their bounds;
    another token leaves the bounds unbound ([UnboundLocalError]). *)
Definition plane_args (w : Window) (xdata ydata zdata : list R)
    (proplane : string) (pixelsize : R)
  : option (list R * list R * R * R * R * R) :=
  if String.eqb proplane "xy" then
    Some (xdata, ydata, t_min w, t_max w, t_min w, t_max w)
  else if String.eqb proplane "yz" then
    Some (ydata, map (fun v => v / pixelsize) zdata, t_min w, t_max w,
          z_min w / pixelsize, z_max w / pixelsize)
  else if String.eqb proplane "xz" then
    Some (xdata, map (fun v => v / pixelsize) zdata, t_min w, t_max w,
          z_min w / pixelsize, z_max w / pixelsize)
  else None.

(** [render_planes(xdata, ydata, zdata, proplane, pixelsize)] with the
    retained-point count [N] that the source drops on return. *)
Definition render_planes_N (w : Window) (xdata ydata zdata : list R)
    (proplane : string) (pixelsize : R) : option (nat * Image) :=
  '(a_render, b_render, aval_min, aval_max, bval_min, bval_max) <-
    plane_args w xdata ydata zdata proplane pixelsize ;;
  render_histxyz a_render b_render (oversampling w)
                 aval_min aval_max bval_min bval_max.

Definition render_planes (w : Window) (xdata ydata zdata : list R)
    (proplane : string) (pixelsize : R) : option Image :=
  '(N, plane) <- render_planes_N w xdata ydata zdata proplane pixelsize ;;
  Some plane.

(** *** The per-group search shared by align_group and
        rotatexy_convolution_group *)

Fixpoint foldM {A S : Type} (f : S -> A -> option S) (l : list A) (s : S)
  : option S :=
  match l with
  | [] => Some s
  | a :: t => s' <- f s a ;; foldM f t s'
  end.

(** The local variables of the search that the loops assign. *)
Record Scores := {
  all_xcorr : Image;
  all_da : Image;
  all_db : Image;
  angles : list R;
  n_angles : nat
}.

(** The body of [for k in range(n_angles)], up to the rendered image; [record]
    is what the function at hand does with the image. *)
Definition score_angle {T : Type}
    (record : Window -> T -> Image -> nat -> nat -> Scores -> option Scores)
    (w : Window) (CF_image_avg : list T) (rotaxis proplane : string)
    (x_original y_original z_original : list R) (j : nat)
    (st : Scores) (k : nat) : option Scores :=
  angle <- nth_error (angles st) k ;;
  '(x_rot, y_rot, z_rot) <-
    rotate_axis_arr rotaxis x_original y_original z_original angle
                    (pixelsize w) ;;
  image <- render_planes w x_rot y_rot z_rot proplane (pixelsize w) ;;
  CFj <- nth_error CF_image_avg j ;;
  record w CFj image k j st.

(** The body of [for j in range(n_channels)] of the scoring loop. *)
Definition score_channel {T : Type}
    (record : Window -> T -> Image -> nat -> nat -> Scores -> option Scores)
    (w : Window) (CF_image_avg : list T) (g : nat) (rotaxis proplane : string)
    (st : Scores) (j : nat) : option Scores :=
  checked <- nth_error (checks w) j ;;
  if checked : bool then
    lj <- nth_error (locs w) j ;;
    index <- members w j g ;;
    x_original <- gather (x lj) index ;;
    y_original <- gather (y lj) index ;;
    z_original <- gather (z lj) index ;;
    let st :=
      if translatebtn w
      then {| all_xcorr := all_xcorr st; all_da := all_da st;
              all_db := all_db st; angles := [0]; n_angles := 1 |}
      else st in
    foldM (score_angle record w CF_image_avg rotaxis proplane
                       x_original y_original z_original j)
          (seq 0 (n_angles st)) st
  else Some st.

Definition score_all {T : Type}
    (record : Window -> T -> Image -> nat -> nat -> Scores -> option Scores)
    (w : Window) (CF_image_avg : list T) (angles0 : list R) (g : nat)
    (rotaxis proplane : string) : option Scores :=
  let n_channels := length (locs w) in
  let n_angles := length angles0 in
  foldM (score_channel record w CF_image_avg g rotaxis proplane)
        (seq 0 n_channels)
        {| all_xcorr := zeros n_angles n_channels;
           all_da := zeros n_angles n_channels;
           all_db := zeros n_angles n_channels;
           angles := angles0; n_angles := n_angles |}.

(** [maximumcc], [rotfinal], [dafinal] and [dbfinal]. *)
Definition choose (st : Scores) : option (nat * R * R * R) :=
  maximumcc <- argmax (map Rsum (all_xcorr st)) ;;
  rotfinal <- nth_error (angles st) maximumcc ;;
  let dafinal := mean (nth maximumcc (all_da st) []) in
  let dbfinal := mean (nth maximumcc (all_db st) []) in
  Some (maximumcc, rotfinal, dafinal, dbfinal).

(** What align_group computes from one image: the peak of the
    cross-correlation and its offset from the image centre, as
    [(xcorr[b_max, a_max], da, db)]. *)
Definition peak (w : Window) (CFj : CImage) (image : Image)
  : option (R * R * R) :=
  xcorr <- compute_xcorr CFj image ;;
  let '(n_pixelb, n_pixela) := shape image in
  let image_halfa := INR n_pixela / 2 in
  let image_halfb := INR n_pixelb / 2 in
  flat <- argmax (concat xcorr) ;;
  let b_max := (flat / snd (shape xcorr))%nat in
  let a_max := (flat mod snd (shape xcorr))%nat in
  Some (get2 xcorr b_max a_max,
        IZR (ceil (INR a_max - image_halfa)) / oversampling w,
        IZR (ceil (INR b_max - image_halfb)) / oversampling w).

(** ... and where it stores them. *)
Definition record_peak (w : Window) (CFj : CImage) (image : Image)
    (k j : nat) (st : Scores) : option Scores :=
  '(xcorr_peak, da_kj, db_kj) <- peak w CFj image ;;
  xc <- set2 (all_xcorr st) k j xcorr_peak ;;
  db <- set2 (all_db st) k j db_kj ;;
  da <- set2 (all_da st) k j da_kj ;;
  Some {| all_xcorr := xc; all_da := da; all_db := db;
          angles := angles st; n_angles := n_angles st |}.

(** What rotatexy_convolution_group computes from one image: the
    product-sum with the reference. *)
Definition conv_score (CFj : Image) (image : Image) : option R :=
  prod <- zip2 Rmult CFj image ;;
  Some (Rsum (map Rsum prod)).

Definition record_conv (w : Window) (CFj : Image) (image : Image)
    (k j : nat) (st : Scores) : option Scores :=
  xcorr <- conv_score CFj image ;;
  xc <- set2 (all_xcorr st) k j xcorr ;;
  Some {| all_xcorr := xc; all_da := all_da st; all_db := all_db st;
          angles := angles st; n_angles := n_angles st |}.

(** The rotation written back to the members of group [g] in one channel. *)
Definition rotate_members (w : Window) (j g : nat) (rotaxis : string)
    (rotfinal : R) (lj : Locs) : option Locs :=
  index <- members w j g ;;
  x_original <- gather (x lj) index ;;
  y_original <- gather (y lj) index ;;
  z_original <- gather (z lj) index ;;
  '(x_rot, y_rot, z_rot) <-
    rotate_axis_arr rotaxis x_original y_original z_original rotfinal
                    (pixelsize w) ;;
  lx <- scatter (x lj) index x_rot ;;
  ly <- scatter (y lj) index y_rot ;;
  lz <- scatter (z lj) index z_rot ;;
  Some {| x := lx; y := ly; z := lz; group := group lj |}.

(** The shift written back by align_group. *)
Definition shift_members (w : Window) (j g : nat) (proplane : string)
    (dafinal dbfinal : R) (lj : Locs) : option Locs :=
  index <- members w j g ;;
  let dbfinal := if translatebtn w then 0 else dbfinal in
  if String.eqb proplane "xy" then
    lx <- isub (x lj) index dafinal ;;
    ly <- isub (y lj) index dbfinal ;;
    Some {| x := lx; y := ly; z := z lj; group := group lj |}
  else if String.eqb proplane "yz" then
    ly <- isub (y lj) index dafinal ;;
    lz <- isub (z lj) index (dbfinal * pixelsize w) ;;
    Some {| x := x lj; y := ly; z := lz; group := group lj |}
  else if String.eqb proplane "xz" then
    lz <- isub (z lj) index dafinal ;;
    lx <- isub (x lj) index (dbfinal * pixelsize w) ;;
    Some {| x := lx; y := y lj; z := lz; group := group lj |}
  else Some lj.

(** [for j in range(n_channels)] over the channels, with the channel number. *)
Fixpoint mapMi {A B : Type} (f : nat -> A -> option B) (j : nat) (l : list A)
  : option (list B) :=
  match l with
  | [] => Some []
  | a :: t => b <- f j a ;; rest <- mapMi f (S j) t ;; Some (b :: rest)
  end.

(** [align_group(CF_image_avg, angles, group, rotaxis, proplane)]. *)
Definition align_group (w : Window) (CF_image_avg : list CImage)
    (angles0 : list R) (g : nat) (rotaxis proplane : string)
  : option Window :=
  st <- score_all record_peak w CF_image_avg angles0 g rotaxis proplane ;;
  '(maximumcc, rotfinal, dafinal, dbfinal) <- choose st ;;
  ls <- mapMi (fun j lj =>
                 lj' <- rotate_members w j g rotaxis rotfinal lj ;;
                 shift_members w j g proplane dafinal dbfinal lj')
              0 (locs w) ;;
  Some (set_locs w ls).

(** [rotatexy_convolution_group(CF_image_avg, angles, group, rotaxis,
    proplane)]. *)
Definition rotatexy_convolution_group (w : Window) (CF_image_avg : list Image)
    (angles0 : list R) (g : nat) (rotaxis proplane : string)
  : option Window :=
  st <- score_all record_conv w CF_image_avg angles0 g rotaxis proplane ;;
  '(maximumcc, rotfinal, dafinal, dbfinal) <- choose st ;;
  ls <- mapMi (fun j lj => rotate_members w j g rotaxis rotfinal lj)
              0 (locs w) ;;
  Some (set_locs w ls).

(** *** centerofmass *)

(** The body of [for i in range(n_groups)]: the mean over the stacked
    members of row [i] of every channel, subtracted from those members. *)
Definition centerofmass_group (w : Window) (ls : list Locs) (i : nat)
  : option (list Locs) :=
  sel <- mapMi (fun j lj =>
                  index <- members w j i ;;
                  sel_locs_x <- gather (x lj) index ;;
                  sel_locs_y <- gather (y lj) index ;;
                  sel_locs_z <- gather (z lj) index ;;
                  Some (sel_locs_x, sel_locs_y, sel_locs_z))
               0 ls ;;
  let out_locs_x := concat (map (fun s => fst (fst s)) sel) in
  let out_locs_y := concat (map (fun s => snd (fst s)) sel) in
  let out_locs_z := concat (map (fun s => snd s) sel) in
  let mean_x := mean out_locs_x in
  let mean_y := mean out_locs_y in
  let mean_z := mean out_locs_z in
  mapMi (fun j lj =>
           index <- members w j i ;;
           lx <- isub (x lj) index mean_x ;;
           ly <- isub (y lj) index mean_y ;;
           lz <- isub (z lj) index mean_z ;;
           Some {| x := lx; y := ly; z := lz; group := group lj |})
        0 ls.

(** [3 * np.sqrt(np.mean(x**2 + y**2))] and [5 * np.sqrt(np.mean(z**2))]. *)
Definition spread_xy (lj : Locs) : R :=
  3 * sqrt (mean (map (fun p => fst p ^ 2 + snd p ^ 2) (combine (x lj) (y lj)))).

Definition spread_z (lj : Locs) : R :=
  5 * sqrt (mean (map (fun v => v ^ 2) (z lj))).

(** [centerofmass()] up to its last statement, the call of updateLayout:
    the session that is handed to the redraw.  [self.n_groups] exists once
    a dataset is loaded. *)
Definition centerofmass_state (w : Window) : option Window :=
  match locs w with
  | [] => None
  | _ =>
      ls <- foldM (centerofmass_group w) (seq 0 (n_groups w)) (locs w) ;;
      let r' := fold_left (fun acc lj => Rmax (spread_xy lj) acc) ls 0 in
      let r_z' := fold_left (fun acc lj => Rmax (spread_z lj) acc) ls 0 in
      Some
        {| locs := ls; group_index := group_index w; checks := checks w;
           translatebtn := translatebtn w; radio_sym := radio_sym w;
           radio_sym_custom := radio_sym_custom w; symEdit := symEdit w;
           symcustomEdit := symcustomEdit w;
           dialog_oversampling := dialog_oversampling w;
           pixelsize := pixelsize w; oversampling := 5;
           t_min := - r'; t_max := r'; z_min := - r_z'; z_max := r_z';
           r := r'; r_z := r_z'; n_groups := n_groups w |}
  end.

(** [centerofmass()]. *)
Definition centerofmass (w : Window) : option Window :=
  w1 <- centerofmass_state w ;;
  updateLayout w1.

(** *** The symmetrised reference of rotate_groups and rotatexy_convolution *)

Section Symmetry.

(** [scipy.ndimage.interpolation.rotate(input, angle, axes=(1, 0),
    reshape=False)]: the spline rotation of the library, in degrees. *)
Variable ndimage_rotate : Image -> R -> Image.

(** [image[0] += other]. *)
Definition iadd (image other : Image) : option Image :=
  zip2 Rplus image other.

(** The block under [if self.radio_sym.isChecked()]. *)
Definition symmetrize_order (symmetry : Z) (image : list Image)
  : option (list Image) :=
  match image with
  | [] => None
  | image0 :: others =>
      let imageold := image0 in
      image0' <-
        foldM (fun acc i =>
                 iadd acc (ndimage_rotate imageold
                             ((INR i + 1) * 360 / IZR symmetry)))
              (seq 0 (Z.to_nat (symmetry - 1))) image0 ;;
      Some (image0' :: others)
  end.

(** The block under [if self.radio_sym_custom.isChecked()]. *)
Definition symmetrize_custom (symmetry_txt : list R) (image : list Image)
  : option (list Image) :=
  match image with
  | [] => None
  | image0 :: others =>
      let imageold := image0 in
      image0' <-
        foldM (fun acc degree => iadd acc (ndimage_rotate imageold degree))
              symmetry_txt image0 ;;
      Some (image0' :: others)
  end.

(** Both blocks in the order of the source. *)
Definition symmetrize (w : Window) (image : list Image)
  : option (list Image) :=
  image1 <- (if radio_sym w then symmetrize_order (symEdit w) image
             else Some image) ;;
  if radio_sym_custom w then symmetrize_custom (symcustomEdit w) image1
  else Some image1.

(** [CF_image_avg] of rotate_groups: the conjugate transform of every
    reference. *)
Definition rotate_groups_reference (w : Window) (image : list Image)
  : option (list CImage) :=
  image' <- symmetrize w image ;;
  Some (map (fun im => map (map Cconj) (fft2 (map (map RtoC) im))) image').

(** [CF_image_avg] of rotatexy_convolution: the references themselves. *)
Definition rotatexy_convolution_reference (w : Window) (image : list Image)
  : option (list Image) :=
  symmetrize w image.

(** [rotate_groups()] from the projected reference renders on, up to its
    call of updateLayout. *)
Definition rotate_groups_state (w : Window) (image : list Image)
    (angles0 : list R) (rotaxis proplane : string) : option Window :=
  gi0 <- nth_error (group_index w) 0 ;;
  CF_image_avg <- rotate_groups_reference w image ;;
  foldM (fun w i => align_group w CF_image_avg angles0 i rotaxis proplane)
        (seq 0 (length gi0)) w.

(** [rotate_groups()] from the projected reference renders on. *)
Definition rotate_groups (w : Window) (image : list Image)
    (angles0 : list R) (rotaxis proplane : string) : option Window :=
  w1 <- rotate_groups_state w image angles0 rotaxis proplane ;;
  updateLayout w1.

(** [rotatexy_convolution()] from the projected reference renders on, up to
    its call of updateLayout. *)
Definition rotatexy_convolution_state (w : Window) (image : list Image)
    (angles0 : list R) (rotaxis proplane : string) : option Window :=
  gi0 <- nth_error (group_index w) 0 ;;
  CF_image_avg <- rotatexy_convolution_reference w image ;;
  foldM (fun w i => rotatexy_convolution_group w CF_image_avg angles0
                                               i rotaxis proplane)
        (seq 0 (length gi0)) w.

(** [rotatexy_convolution()] from the projected reference renders on. *)
Definition rotatexy_convolution (w : Window) (image : list Image)
    (angles0 : list R) (rotaxis proplane : string) : option Window :=
  w1 <- rotatexy_convolution_state w image angles0 rotaxis proplane ;;
  updateLayout w1.

End Symmetry.

(** ** Auxiliary notions used in the statements *)

(** The pixel a point in pixel coordinates falls into. *)
Definition hits_pixel (col row : nat) (p : R * R) : bool :=
  (trunc (fst p) =? Z.of_nat col)%Z && (trunc (snd p) =? Z.of_nat row)%Z.

(** The pixel coordinates render_histxyz gives a retained point. *)
Definition to_pixel (oversampling a_min b_min : R) (p : R * R) : R * R :=
  (oversampling * (fst p - a_min), oversampling * (snd p - b_min)).

(** One localization of a channel. *)
Definition point (lj : Locs) (i : nat) : R * R * R :=
  (nth i (x lj) 0, nth i (y lj) 0, nth i (z lj) 0).

(** [rotate_axis] as a map on coordinate triples, for a known axis. *)
Definition rotated (axis : string) (angle pixelsize : R) (p : R * R * R)
  : R * R * R :=
  match rotate_axis axis (fst (fst p)) (snd (fst p)) (snd p) angle pixelsize
  with
  | Some q => q
  | None => p
  end.

(** The shift align_group subtracts, as a map on coordinate triples
    (the branches of its write-back, coordinate by coordinate). *)
Definition shifted (proplane : string) (dafinal dbfinal pixelsize : R)
    (p : R * R * R) : R * R * R :=
  if String.eqb proplane "xy" then
    (fst (fst p) - dafinal, snd (fst p) - dbfinal, snd p)
  else if String.eqb proplane "yz" then
    (fst (fst p), snd (fst p) - dafinal, snd p - dbfinal * pixelsize)
  else if String.eqb proplane "xz" then
    (fst (fst p) - dbfinal * pixelsize, snd (fst p), snd p - dafinal)
  else p.

(** A channel and its group index fit: the three coordinate columns have
    one length and every member index is a row number of the channel. *)
Record channel_ok (lj : Locs) (rows : list (list nat)) : Prop := {
  columns_xy : length (x lj) = length (y lj);
  columns_yz : length (y lj) = length (z lj);
  rows_in_range : Forall (Forall (fun i => (i < length (x lj))%nat)) rows
}.

Definition well_formed (w : Window) : Prop :=
  length (checks w) = length (locs w)
  /\ Forall2 channel_ok (locs w) (group_index w).

(** Group [g] has a row in the index of every channel. *)
Definition group_present (w : Window) (g : nat) : Prop :=
  Forall (fun rows : list (list nat) => (g < length rows)%nat)
         (group_index w).

(** The shape [(n_pixel_b, n_pixel_a)] of every render of a plane. *)
Definition plane_shape (w : Window) (proplane : string) : Z * Z :=
  match plane_args w [] [] [] proplane (pixelsize w) with
  | Some (_, _, aval_min, aval_max, bval_min, bval_max) =>
      (ceil (oversampling w * (bval_max - bval_min)),
       ceil (oversampling w * (aval_max - aval_min)))
  | None => (0%Z, 0%Z)
  end.

(** The plane is known and its render has at least one pixel per axis. *)
Definition view_ok (w : Window) (proplane : string) : Prop :=
  In proplane ["xy"; "yz"; "xz"]%string
  /\ (0 < fst (plane_shape w proplane))%Z
  /\ (0 < snd (plane_shape w proplane))%Z.

(** Every channel has a reference of the shape of the renders. *)
Definition references_fit {T : Type} (w : Window) (proplane : string)
    (CF_image_avg : list (list (list T))) : Prop :=
  length CF_image_avg = length (locs w)
  /\ Forall (fun CFj =>
        same_shape (zeros (Z.to_nat (fst (plane_shape w proplane)))
                          (Z.to_nat (snd (plane_shape w proplane)))) CFj
        = true)
      CF_image_avg.

(** The render of the members [index] of a channel, rotated by [angle],
    with its retained-point count. *)
Definition group_image (w : Window) (lj : Locs) (index : list nat)
    (rotaxis proplane : string) (angle : R) : option (nat * Image) :=
  x_original <- gather (x lj) index ;;
  y_original <- gather (y lj) index ;;
  z_original <- gather (z lj) index ;;
  '(x_rot, y_rot, z_rot) <-
    rotate_axis_arr rotaxis x_original y_original z_original angle
                    (pixelsize w) ;;
  render_planes_N w x_rot y_rot z_rot proplane (pixelsize w).

(** The scalar score of rotatexy_convolution_group with the two shifts it
    never computes. *)
Definition conv3 (w : Window) (CFj : Image) (image : Image)
  : option (R * R * R) :=
  xcorr <- conv_score CFj image ;;
  Some (xcorr, 0, 0).

(** The entry [(all_xcorr[k, j], all_da[k, j], all_db[k, j])] the scoring
    loop leaves for angle [k] and channel [j]: zero for a channel that is
    not checked. *)
Definition entry {T : Type} (f : Window -> T -> Image -> option (R * R * R))
    (w : Window) (CF_image_avg : list T) (angles0 : list R) (g : nat)
    (rotaxis proplane : string) (k j : nat) : R * R * R :=
  if nth j (checks w) false then
    match (lj <- nth_error (locs w) j ;;
           index <- members w j g ;;
           angle <- nth_error angles0 k ;;
           '(N, image) <- group_image w lj index rotaxis proplane angle ;;
           CFj <- nth_error CF_image_avg j ;;
           f w CFj image)
    with
    | Some t => t
    | None => (0, 0, 0)
    end
  else (0, 0, 0).

(** The summed score of angle [k] over all channels. *)
Definition summed_score {T : Type}
    (f : Window -> T -> Image -> option (R * R * R))
    (w : Window) (CF_image_avg : list T) (angles0 : list R) (g : nat)
    (rotaxis proplane : string) (k : nat) : R :=
  Rsum (map (fun j => fst (fst (entry f w CF_image_avg angles0 g
                                      rotaxis proplane k j)))
            (seq 0 (length (locs w)))).

(** A [rows] by [cols] array. *)
Definition shaped {A : Type} (M : list (list A)) (rows cols : nat) : Prop :=
  length M = rows /\ Forall (fun row => length row = cols) M.

(** The entries the scoring loops have assigned when they are at channel
    [j], angle [k]. *)
Definition processed (j k : nat) (k' j' : nat) : bool :=
  (j' <? j)%nat || ((j' =? j)%nat && (k' <? k)%nat).

(** The loop invariant of the scoring loops: the assigned entries hold the
    values of [entry], the others are still zero. *)
Definition filled {T : Type} (f : Window -> T -> Image -> option (R * R * R))
    (w : Window) (CF_image_avg : list T) (angles0 : list R) (g : nat)
    (rotaxis proplane : string) (done : nat -> nat -> bool) (st : Scores)
  : Prop :=
  angles st = angles0
  /\ n_angles st = length angles0
  /\ shaped (all_xcorr st) (length angles0) (length (locs w))
  /\ shaped (all_da st) (length angles0) (length (locs w))
  /\ shaped (all_db st) (length angles0) (length (locs w))
  /\ forall k j, (k < length angles0)%nat -> (j < length (locs w))%nat ->
       (get2 (all_xcorr st) k j, get2 (all_da st) k j, get2 (all_db st) k j)
       = if done k j
         then entry f w CF_image_avg angles0 g rotaxis proplane k j
         else (0, 0, 0).

(** No step of the scoring of a checked channel raises. *)
Definition cells_defined {T : Type}
    (f : Window -> T -> Image -> option (R * R * R))
    (w : Window) (CF_image_avg : list T) (angles0 : list R) (g : nat)
    (rotaxis proplane : string) : Prop :=
  forall k j lj index angle,
    nth_error (checks w) j = Some true ->
    nth_error (locs w) j = Some lj ->
    members w j g = Some index ->
    nth_error angles0 k = Some angle ->
    exists N image CFj t,
      group_image w lj index rotaxis proplane angle = Some (N, image)
      /\ nth_error CF_image_avg j = Some CFj
      /\ f w CFj image = Some t.

(** The mean over all channels of the shifts stored for angle [k]. *)
Definition mean_da {T : Type} (f : Window -> T -> Image -> option (R * R * R))
    (w : Window) (CF_image_avg : list T) (angles0 : list R) (g : nat)
    (rotaxis proplane : string) (k : nat) : R :=
  Rsum (map (fun j => snd (fst (entry f w CF_image_avg angles0 g
                                      rotaxis proplane k j)))
            (seq 0 (length (locs w))))
  / INR (length (locs w)).

Definition mean_db {T : Type} (f : Window -> T -> Image -> option (R * R * R))
    (w : Window) (CF_image_avg : list T) (angles0 : list R) (g : nat)
    (rotaxis proplane : string) (k : nat) : R :=
  Rsum (map (fun j => snd (entry f w CF_image_avg angles0 g
                                 rotaxis proplane k j))
            (seq 0 (length (locs w))))
  / INR (length (locs w)).

(** The conditions under which a per-group search runs: the channels fit
    their group index, the group has a row in every channel, axis and plane
    are known tokens, the view has pixels, and the pixel size, by which z is
    divided, is not zero. *)
Definition search_ready (w : Window) (g : nat) (rotaxis proplane : string)
  : Prop :=
  well_formed w
  /\ group_present w g
  /\ In rotaxis ["x"; "y"; "z"]%string
  /\ view_ok w proplane
  /\ pixelsize w <> 0.

(** The numbers of the checked channels. *)
Definition enabled_channels (w : Window) : list nat :=
  filter (fun j => nth j (checks w) false) (seq 0 (length (locs w))).

(** The mean shift as the specification words it: the mean, over the
    enabled channels only, of the shifts stored for angle [k]. *)
Definition mean_da_enabled {T : Type}
    (f : Window -> T -> Image -> option (R * R * R))
    (w : Window) (CF_image_avg : list T) (angles0 : list R) (g : nat)
    (rotaxis proplane : string) (k : nat) : R :=
  mean (map (fun j => snd (fst (entry f w CF_image_avg angles0 g
                                      rotaxis proplane k j)))
            (enabled_channels w)).

(** The shift the peak search stores for a render without any point: the
    offset of flat index 0 from the image centre. *)
Definition corner_shift (w : Window) (n_pixel : Z) : R :=
  IZR (ceil (0 - INR (Z.to_nat n_pixel) / 2)) / oversampling w.

(** ** Small concrete sessions *)

(** A session with the given channels, group indices and check boxes: view
    [(-1, 1)] on every axis, one pixel per unit, unit pixelsize, rotation
    mode, no symmetry. *)
Definition session (ls : list Locs) (gi : list (list (list nat)))
    (cs : list bool) : Window :=
  {| locs := ls; group_index := gi; checks := cs;
     translatebtn := false; radio_sym := false; radio_sym_custom := false;
     symEdit := 8; symcustomEdit := [90; 180; 270];
     dialog_oversampling := 1; pixelsize := 1; oversampling := 1;
     t_min := -1; t_max := 1; z_min := -1; z_max := 1;
     r := 1; r_z := 1; n_groups := 1 |}.

(** One localization, in group 0. *)
Definition single (vx vy vz : R) : Locs :=
  {| x := [vx]; y := [vy]; z := [vz]; group := [0%Z] |}.

(** One checked channel whose only group lies outside the view. *)
Definition outlier_session : Window :=
  session [single 5 5 0] [build_group_index (single 5 5 0)] [true].

(** The same channel, and an unchecked second channel whose group lies
    inside the view. *)
Definition mixed_session : Window :=
  session [single 5 5 0; single (1 / 4) (1 / 4) 0]
          [build_group_index (single 5 5 0);
           build_group_index (single (1 / 4) (1 / 4) 0)]
          [true; false].

(** References of the shape of the view, one per channel. *)
Definition flat_reference : CImage := [[(1, 0); (1, 0)]; [(1, 0); (1, 0)]].
Definition flat_image : Image := [[1; 1]; [1; 1]].

Definition mean_db_enabled {T : Type}
    (f : Window -> T -> Image -> option (R * R * R))
    (w : Window) (CF_image_avg : list T) (angles0 : list R) (g : nat)
    (rotaxis proplane : string) (k : nat) : R :=
  mean (map (fun j => snd (entry f w CF_image_avg angles0 g
                                 rotaxis proplane k j))
            (enabled_channels w)).

(** The write-back as the specification words it: at some winning angle,
    the members of the group are rotated in every channel, and shifted by the
    mean over the enabled channels in the enabled channels only. *)
Definition claimed_translation (w w' : Window) (CF_image_avg : list CImage)
    (angles0 : list R) (g : nat) (rotaxis proplane : string) : Prop :=
  exists maximumcc rotfinal,
    nth_error angles0 maximumcc = Some rotfinal
    /\ forall j lj lj' index i,
         nth_error (locs w) j = Some lj ->
         nth_error (locs w') j = Some lj' ->
         members w j g = Some index -> In i index ->
         point lj' i
         = if nth j (checks w) false then
             shifted proplane
               (mean_da_enabled peak w CF_image_avg angles0 g rotaxis
                                proplane maximumcc)
               (mean_db_enabled peak w CF_image_avg angles0 g rotaxis
                                proplane maximumcc)
               (pixelsize w)
               (rotated rotaxis rotfinal (pixelsize w) (point lj i))
           else rotated rotaxis rotfinal (pixelsize w) (point lj i).

(** Every channel retains fewer than two points of the group at every
    candidate angle. *)
Definition degenerate_group (w : Window) (angles0 : list R) (g : nat)
    (rotaxis proplane : string) : Prop :=
  forall j lj index k angle,
    nth_error (locs w) j = Some lj ->
    members w j g = Some index ->
    nth_error angles0 k = Some angle ->
    exists N image,
      group_image w lj index rotaxis proplane angle = Some (N, image)
      /\ (N < 2)%nat.

(** The failure semantics as the specification words them: a degenerate
    group is left where it is, without an exception. *)
Definition claimed_identity (w : Window) (CF_image_avg : list CImage)
    (angles0 : list R) (g : nat) (rotaxis proplane : string) : Prop :=
  degenerate_group w angles0 g rotaxis proplane ->
  exists w',
    align_group w CF_image_avg angles0 g rotaxis proplane = Some w'
    /\ locs w' = locs w.

(** ** Notions for the recentring step *)

(** A map over the channels with the channel number. *)
Fixpoint imap {A B : Type} (f : nat -> A -> B) (j : nat) (l : list A)
  : list B :=
  match l with
  | [] => []
  | a :: t => f j a :: imap f (S j) t
  end.

(** One coordinate column of the members of row [i] in channel [j]. *)
Definition member_coords (w : Window) (i : nat) (col : Locs -> list R)
    (j : nat) (lj : Locs) : list R :=
  match members w j i with
  | Some index => map (fun m => nth m (col lj) 0) index
  | None => []
  end.

(** The centroid of row [i] over the stacked members of all channels. *)
Definition centroid (w : Window) (ls : list Locs) (i : nat) : R * R * R :=
  (mean (concat (imap (member_coords w i x) 0 ls)),
   mean (concat (imap (member_coords w i y) 0 ls)),
   mean (concat (imap (member_coords w i z) 0 ls))).

(** The centroid as the specification words it: over the members of the
    enabled channels only. *)
Definition centroid_enabled (w : Window) (ls : list Locs) (i : nat)
  : R * R * R :=
  let pick col j lj :=
    if nth j (checks w) false then member_coords w i col j lj else [] in
  (mean (concat (imap (pick x) 0 ls)),
   mean (concat (imap (pick y) 0 ls)),
   mean (concat (imap (pick z) 0 ls))).

Definition minus3 (p c : R * R * R) : R * R * R :=
  (fst (fst p) - fst (fst c), snd (fst p) - snd (fst c), snd p - snd c).

(** No row number is a member of two rows of one channel's group index. *)
Definition rows_disjoint (rows : list (list nat)) : Prop :=
  forall k1 k2 m index1 index2,
    nth_error rows k1 = Some index1 -> nth_error rows k2 = Some index2 ->
    In m index1 -> In m index2 -> k1 = k2.

(** The conditions under which centerofmass runs: at least one channel,
    channels that fit a partitioning group index, and [n_groups] rows in the
    index of every channel. *)
Definition recentring_ready (w : Window) : Prop :=
  locs w <> []
  /\ Forall2 channel_ok (locs w) (group_index w)
  /\ Forall rows_disjoint (group_index w)
  /\ forall i, (i < n_groups w)%nat -> group_present w i.

(** The recentring as the specification words it: every member of every
    group is moved by the centroid over the enabled channels. *)
Definition claimed_recentring (w w' : Window) : Prop :=
  forall i j lj lj' index m,
    (i < n_groups w)%nat ->
    nth_error (locs w) j = Some lj ->
    nth_error (locs w') j = Some lj' ->
    members w j i = Some index -> In m index ->
    point lj' m = minus3 (point lj m) (centroid_enabled w (locs w) i).

(** Two channels with one localization each, the second one unchecked. *)
Definition pair_session : Window :=
  session [single 0 0 0; single 2 2 2]
          [build_group_index (single 0 0 0);
           build_group_index (single 2 2 2)]
          [true; false].

(** The loop invariant of centerofmass: the rows before [i] are recentred
    by their centroid in the initial state, everything else is where it
    was. *)
Definition recentred_upto (w : Window) (ls : list Locs) (i : nat) : Prop :=
  length ls = length (locs w)
  /\ Forall2 channel_ok ls (group_index w)
  /\ forall j lj rows,
       nth_error (locs w) j = Some lj ->
       nth_error (group_index w) j = Some rows ->
       exists lj',
         nth_error ls j = Some lj'
         /\ group lj' = group lj
         /\ (forall i' index m,
               (i' < i)%nat -> nth_error rows i' = Some index -> In m index ->
               point lj' m = minus3 (point lj m) (centroid w (locs w) i'))
         /\ (forall m,
               (forall i' index, (i' < i)%nat ->
                  nth_error rows i' = Some index -> ~ In m index) ->
               point lj' m = point lj m).

(** ** Notions for further properties *)

(** The coordinate along a rotation axis, and the squared distance to the
    axis with the axial coordinate in pixel units. *)
Definition axis_coordinate (axis : string) (p : R * R * R) : R :=
  if String.eqb axis "z" then snd p
  else if String.eqb axis "y" then snd (fst p)
  else fst (fst p).

Definition axis_distance2 (axis : string) (pixelsize : R) (p : R * R * R)
  : R :=
  if String.eqb axis "z" then fst (fst p) ^ 2 + snd (fst p) ^ 2
  else if String.eqb axis "y" then fst (fst p) ^ 2 + (snd p / pixelsize) ^ 2
  else snd (fst p) ^ 2 + (snd p / pixelsize) ^ 2.

(** The sum of all pixels of an image. *)
Definition total (image : Image) : R := Rsum (map Rsum image).

(** The structure [add] gives a session: the group index of every channel
    is the one built from its group column, the columns of a channel have
    one length, and every channel has its check box. *)
Definition loaded (w : Window) : Prop :=
  group_index w = map build_group_index (locs w)
  /\ length (checks w) = length (locs w)
  /\ Forall (fun lj => length (x lj) = length (y lj)
                       /\ length (y lj) = length (z lj)
                       /\ length (z lj) = length (group lj)) (locs w).

(** ** centerofmass_all *)

(** [centerofmass_all()]: the mean of the coordinates stacked over all
    channels is subtracted from every channel. *)
Definition centerofmass_all (w : Window) : Window :=
  let out_locs_x := concat (map x (locs w)) in
  let out_locs_y := concat (map y (locs w)) in
  let out_locs_z := concat (map z (locs w)) in
  let mean_x := mean out_locs_x in
  let mean_y := mean out_locs_y in
  let mean_z := mean out_locs_z in
  set_locs w
    (map (fun lj => {| x := map (fun v => v - mean_x) (x lj);
                       y := map (fun v => v - mean_y) (y lj);
                       z := map (fun v => v - mean_z) (z lj);
                       group := group lj |})
         (locs w)).

(** ** add *)

(** The record array [add] receives from the loader, after
    [lib.ensure_sanity]: the columns x and y, and z and group where the file
    has them. *)
Record Loaded := {
  file_x : list R;
  file_y : list R;
  file_z : option (list R);
  file_group : option (list Z)
}.

(** [np.min] and [np.max] of an array; the empty array raises. *)
Definition np_min (l : list R) : option R :=
  match l with
  | [] => None
  | v :: t => Some (fold_left Rmin t v)
  end.

Definition np_max (l : list R) : option R :=
  match l with
  | [] => None
  | v :: t => Some (fold_left Rmax t v)
  end.

(** What [add(path)] does to the session, on the data the loader returns;
    [answer] is what the pixelsize dialog returns when it is shown and
    accepted.  The session is updated in the order of the source; for a
    further file [hist_multi_channel] stores the dialog's oversampling, the
    new channel being checked.  The colours, the median precision and the
    drawing ([fit_in_view] or [update_scene], the render of the first
    channel by [render.render_hist3d] and its three [histtoImage] pixmaps)
    are not part of the session and are left out, with whatever they raise:
    where the source returns, it returns the session given here, and the
    statements about [add] are about the loads that return. *)
Definition add (w : Window) (data : Loaded) (answer : option Z)
  : option Window :=
  let pixelsize0 := match locs w with [] => 0 | _ => pixelsize w end in
  match file_group data with
  | None =>
      Some {| locs := locs w; group_index := group_index w;
              checks := checks w; translatebtn := translatebtn w;
              radio_sym := radio_sym w;
              radio_sym_custom := radio_sym_custom w; symEdit := symEdit w;
              symcustomEdit := symcustomEdit w;
              dialog_oversampling := dialog_oversampling w;
              pixelsize := pixelsize0; oversampling := oversampling w;
              t_min := t_min w; t_max := t_max w;
              z_min := z_min w; z_max := z_max w;
              r := r w; r_z := r_z w; n_groups := n_groups w |}
  | Some groups =>
      let zs := match file_z data with
                | None => file_x data
                | Some zs => zs
                end in
      let pixelsize1 :=
        match file_z data with
        | None => 1
        | Some _ =>
            if Req_dec_T pixelsize0 0
            then match answer with Some v => IZR v | None => 130 end
            else pixelsize0
        end in
      let lj := {| x := file_x data; y := file_y data; z := zs;
                   group := groups |} in
      min_x <- np_min (x lj) ;;
      min_y <- np_min (y lj) ;;
      max_x <- np_max (x lj) ;;
      max_y <- np_max (y lj) ;;
      min_z <- np_min (z lj) ;;
      max_z <- np_max (z lj) ;;
      let first := match locs w with [] => true | _ => false end in
      Some {| locs := locs w ++ [lj];
              group_index := group_index w ++ [build_group_index lj];
              checks := checks w ++ [true];
              translatebtn := translatebtn w; radio_sym := radio_sym w;
              radio_sym_custom := radio_sym_custom w; symEdit := symEdit w;
              symcustomEdit := symcustomEdit w;
              dialog_oversampling := dialog_oversampling w;
              pixelsize := pixelsize1;
              oversampling := if first then 1 else dialog_oversampling w;
              t_min := if first then Rmin min_x min_y
                       else Rmin (Rmin min_x min_y) (t_min w);
              t_max := if first then Rmax max_x max_y
                       else Rmax (Rmax max_x max_y) (t_max w);
              z_min := if first then min_z else Rmin min_z (z_min w);
              z_max := if first then max_z else Rmin max_z (z_max w);
              r := r w; r_z := r_z w;
              n_groups := length (unique groups) |}
  end.

(** The columns of a file have one length. *)
Definition file_ok (data : Loaded) : Prop :=
  length (file_x data) = length (file_y data)
  /\ (forall zs, file_z data = Some zs -> length zs = length (file_x data))
  /\ (forall gs, file_group data = Some gs ->
        length gs = length (file_x data)).

(** The lateral bounds enclose every x and y of every channel, and the
    axial bounds every z. *)
Definition enclosed (w : Window) : Prop :=
  forall lj, In lj (locs w) ->
    (forall v, In v (x lj) \/ In v (y lj) -> t_min w <= v <= t_max w)
    /\ (forall v, In v (z lj) -> z_min w <= v <= z_max w).

(** The part of it that further loads keep: the lateral bounds and the
    lower axial bound. *)
Definition enclosed_below (w : Window) : Prop :=
  forall lj, In lj (locs w) ->
    (forall v, In v (x lj) \/ In v (y lj) -> t_min w <= v <= t_max w)
    /\ (forall v, In v (z lj) -> z_min w <= v).

(** A session before any file is loaded, and a file of two localizations
    in two groups. *)
Definition empty_session : Window := session [] [] [].

Definition two_groups_file : Loaded :=
  {| file_x := [0; 2]; file_y := [1; 3]; file_z := Some [4; 6];
     file_group := Some [7%Z; 5%Z] |}.

(** ** The loops over the groups *)

(** Angle number [k], of value [rot], wins the search for group [g] in
    session [w]: it is the first angle of maximal summed score. *)
Definition best_angle {T : Type}
    (f : Window -> T -> Image -> option (R * R * R))
    (w : Window) (CF_image_avg : list T) (angles0 : list R)
    (rotaxis proplane : string) (g k : nat) (rot : R) : Prop :=
  nth_error angles0 k = Some rot
  /\ (forall k', (k' < length angles0)%nat ->
        summed_score f w CF_image_avg angles0 g rotaxis proplane k'
        <= summed_score f w CF_image_avg angles0 g rotaxis proplane k)
  /\ (forall k', (k' < k)%nat ->
        summed_score f w CF_image_avg angles0 g rotaxis proplane k'
        < summed_score f w CF_image_avg angles0 g rotaxis proplane k).

(** What align_group does to a member of group [g] when angle [k] wins:
    the rotation, then the mean shift over all channels, both computed in
    session [w]. *)
Definition align_move (w : Window) (CF_image_avg : list CImage)
    (angles0 : list R) (rotaxis proplane : string) (g k : nat) (rot : R)
    (p : R * R * R) : R * R * R :=
  shifted proplane
    (mean_da peak w CF_image_avg angles0 g rotaxis proplane k)
    (mean_db peak w CF_image_avg angles0 g rotaxis proplane k)
    (pixelsize w)
    (rotated rotaxis rot (pixelsize w) p).

(** What rotatexy_convolution_group does to a member: the rotation only. *)
Definition rotate_move (w : Window) (rotaxis : string) (g k : nat) (rot : R)
    (p : R * R * R) : R * R * R :=
  rotated rotaxis rot (pixelsize w) p.

(** The loop invariant of the loops over the groups: the groups before [i]
    have been moved by the transform found for them in the initial session
    [w], every other localization is where it was. *)
Definition groups_done (w : Window) (best : nat -> nat -> R -> Prop)
    (move : nat -> nat -> R -> R * R * R -> R * R * R)
    (ls : list Locs) (i : nat) : Prop :=
  Forall2 channel_ok ls (group_index w)
  /\ (forall g, (g < i)%nat ->
        exists k rot,
          best g k rot
          /\ forall j lj lj' index m,
               nth_error (locs w) j = Some lj ->
               nth_error ls j = Some lj' ->
               members w j g = Some index -> In m index ->
               point lj' m = move g k rot (point lj m))
  /\ (forall j lj lj' m,
        nth_error (locs w) j = Some lj ->
        nth_error ls j = Some lj' ->
        (forall g index, (g < i)%nat -> members w j g = Some index ->
                         ~ In m index) ->
        point lj' m = point lj m).

(** One channel with two groups of one localization each, both inside the
    view of [session]. *)
Definition two_groups_channel : Locs :=
  {| x := [0; 1 / 2]; y := [0; 1 / 2]; z := [0; 0]; group := [7%Z; 5%Z] |}.

Definition two_groups_session : Window :=
  session [two_groups_channel] [build_group_index two_groups_channel] [true].

(** ** adjust_viewport_to_view *)

(** [[(y_min, x_min), (y_max, x_max)]]. *)
Definition Viewport : Type := (R * R) * (R * R).

(** Python's [/] on numbers: [ZeroDivisionError] on a zero divisor. *)
Definition pydiv (a b : R) : option R :=
  if Req_dec_T b 0 then None else Some (a / b).

(** [adjust_viewport_to_view(viewport)], with the size of the widget
    ([self.height()], [self.width()]) as arguments. *)
Definition adjust_viewport_to_view (view_height view_width : R)
    (viewport : Viewport) : option Viewport :=
  let viewport_height := fst (snd viewport) - fst (fst viewport) in
  let viewport_width := snd (snd viewport) - snd (fst viewport) in
  viewport_aspect <- pydiv viewport_width viewport_height ;;
  view_aspect <- pydiv view_width view_height ;;
  if Rle_dec viewport_aspect view_aspect then
    let y_min := fst (fst viewport) in
    let y_max := fst (snd viewport) in
    let x_range := viewport_height * view_aspect in
    let x_margin := (x_range - viewport_width) / 2 in
    let x_min := snd (fst viewport) - x_margin in
    let x_max := snd (snd viewport) + x_margin in
    Some ((y_min, x_min), (y_max, x_max))
  else
    let x_min := snd (fst viewport) in
    let x_max := snd (snd viewport) in
    y_range <- pydiv viewport_width view_aspect ;;
    let y_margin := (y_range - viewport_height) / 2 in
    let y_min := fst (fst viewport) - y_margin in
    let y_max := fst (snd viewport) + y_margin in
    Some ((y_min, x_min), (y_max, x_max)).

(** Height and width of a viewport. *)
Definition viewport_size (v : Viewport) : R * R :=
  (fst (snd v) - fst (fst v), snd (snd v) - snd (fst v)).

(** [inner] lies within [outer]. *)
Definition viewport_within (inner outer : Viewport) : Prop :=
  fst (fst outer) <= fst (fst inner) /\ snd (fst outer) <= snd (fst inner)
  /\ fst (snd inner) <= fst (snd outer) /\ snd (snd inner) <= snd (snd outer).

(** ** translate_group and translate *)

(** [scipy.signal.correlate(in1, in2)] of two one-dimensional real arrays,
    in its default mode "full": entry [k], for [k = 0 .. M + N - 2], is the
    sum of [in1[l] * in2[l - k + N - 1]] over the [l] for which both
    entries exist.  On an empty input the library returns an empty array or
    raises, depending on the method it selects; the caller takes [np.max]
    of the result, which raises on the empty array, so both are the empty
    result here. *)
Definition correlate (in1 in2 : list R) : list R :=
  match in1, in2 with
  | [], _ | _, [] => []
  | _, _ =>
      let M := length in1 in
      let N := length in2 in
      map (fun k =>
             Rsum (map (fun l =>
                          if (k <=? l + (N - 1))%nat
                             && (l + (N - 1) - k <? N)%nat
                          then nth l in1 0 * nth (l + (N - 1) - k) in2 0
                          else 0)
                       (seq 0 M)))
          (seq 0 (M + N - 1))
  end.

(** [np.sum(plane, axis=0)]: the sums of the columns. *)
Definition sum_axis0 (plane : Image) : list R :=
  map (fun c => Rsum (map (fun row => nth c row 0) plane))
      (seq 0 (snd (shape plane))).

(** [np.sum(plane, axis=1)]: the sums of the rows. *)
Definition sum_axis1 (plane : Image) : list R := map Rsum plane.

(** The branch on [translateaxis] that binds [proplane]. *)
Definition translate_plane (translateaxis : string) : option string :=
  if String.eqb translateaxis "x" then Some "xy"%string
  else if String.eqb translateaxis "y" then Some "xy"%string
  else if String.eqb translateaxis "z" then Some "xz"%string
  else None.

(** The branch on [translateaxis] that binds [projection]. *)
Definition projection_of (translateaxis : string) (plane : Image)
  : option (list R) :=
  if String.eqb translateaxis "x" then Some (sum_axis0 plane)
  else if String.eqb translateaxis "y" then Some (sum_axis1 plane)
  else if String.eqb translateaxis "z" then Some (sum_axis1 plane)
  else None.

(** [a[index] += d]: numpy gathers, adds and assigns back. *)
Definition iadd_at (a : list R) (index : list nat) (d : R)
  : option (list R) :=
  vals <- gather a index ;;
  scatter a index (map (fun v => v + d) vals).

(** [projection] for channel [j]: the render of the members of the group,
    summed along one axis. *)
Definition group_projection (w : Window) (g : nat) (translateaxis : string)
    (j : nat) : option (list R) :=
  lj <- nth_error (locs w) j ;;
  index <- members w j g ;;
  x_rot <- gather (x lj) index ;;
  y_rot <- gather (y lj) index ;;
  z_rot <- gather (z lj) index ;;
  proplane <- translate_plane translateaxis ;;
  plane <- render_planes w x_rot y_rot z_rot proplane (pixelsize w) ;;
  projection_of translateaxis plane.

(** What the first loop of translate_group computes for a checked channel:
    [(corrval, shiftval / self.oversampling)]. *)
Definition translate_score (w : Window) (signalimg : list (list R))
    (g : nat) (translateaxis : string) (j : nat) : option (R * R) :=
  projection <- group_projection w g translateaxis j ;;
  sig <- nth_error signalimg j ;;
  let corr := correlate sig projection in
  corrval <- np_max corr ;;
  am <- argmax corr ;;
  let shiftval := (Z.of_nat am - Z.of_nat (length sig) + 1)%Z in
  Some (corrval, IZR shiftval / oversampling w).

(** The body of the first [for j in range(n_channels)]; the state is
    [(all_xcorr, all_da)]. *)
Definition translate_channel (w : Window) (signalimg : list (list R))
    (g : nat) (translateaxis : string) (st : Image * Image) (j : nat)
  : option (Image * Image) :=
  checked <- nth_error (checks w) j ;;
  if checked : bool then
    '(corrval, da_j) <- translate_score w signalimg g translateaxis j ;;
    xc <- set2 (fst st) 0 j corrval ;;
    da <- set2 (snd st) 0 j da_j ;;
    Some (xc, da)
  else Some st.

(** The body of the second [for j in range(n_channels)]. *)
Definition translate_member (w : Window) (j g : nat) (translateaxis : string)
    (dafinal : R) (lj : Locs) : option Locs :=
  index <- members w j g ;;
  if String.eqb translateaxis "x" then
    lx <- iadd_at (x lj) index dafinal ;;
    Some {| x := lx; y := y lj; z := z lj; group := group lj |}
  else if String.eqb translateaxis "y" then
    ly <- iadd_at (y lj) index dafinal ;;
    Some {| x := x lj; y := ly; z := z lj; group := group lj |}
  else if String.eqb translateaxis "z" then
    lz <- iadd_at (z lj) index (dafinal * pixelsize w) ;;
    Some {| x := x lj; y := y lj; z := lz; group := group lj |}
  else Some lj.

(** [translate_group(signalimg, group, translateaxis)]. *)
Definition translate_group (w : Window) (signalimg : list (list R))
    (g : nat) (translateaxis : string) : option Window :=
  let n_channels := length (locs w) in
  '(all_xcorr, all_da) <-
    foldM (translate_channel w signalimg g translateaxis)
          (seq 0 n_channels)
          (zeros 1 n_channels, zeros 1 n_channels) ;;
  maximumcc <- argmax (map Rsum all_xcorr) ;;
  let dafinal := mean (nth maximumcc all_da []) in
  ls <- mapMi (fun j lj => translate_member w j g translateaxis dafinal lj)
              0 (locs w) ;;
  Some (set_locs w ls).

(** [translate(translateaxis)] from the projected signals on, up to its
    call of updateLayout: [signalimg] is bound for the three axis tokens
    only, every group is translated, then the whole session is recentred. *)
Definition translate_state (w : Window) (signalimg : list (list R))
    (translateaxis : string) : option Window :=
  _ <- translate_plane translateaxis ;;
  gi0 <- nth_error (group_index w) 0 ;;
  w' <- foldM (fun w i => translate_group w signalimg i translateaxis)
              (seq 0 (length gi0)) w ;;
  Some (centerofmass_all w').

(** [translate(translateaxis)] from the projected signals on. *)
Definition translate (w : Window) (signalimg : list (list R))
    (translateaxis : string) : option Window :=
  w1 <- translate_state w signalimg translateaxis ;;
  updateLayout w1.

(** The shift translate_group stores for channel [j]: zero for a channel
    that is not checked. *)
Definition lag (w : Window) (signalimg : list (list R)) (g : nat)
    (translateaxis : string) (j : nat) : R :=
  if nth j (checks w) false then
    match translate_score w signalimg g translateaxis j with
    | Some t => snd t
    | None => 0
    end
  else 0.

(** The mean of the stored shifts over all channels. *)
Definition mean_lag (w : Window) (signalimg : list (list R)) (g : nat)
    (translateaxis : string) : R :=
  Rsum (map (lag w signalimg g translateaxis) (seq 0 (length (locs w))))
  / INR (length (locs w)).

(** The translation as a map on coordinate triples (the branches of the
    write-back of translate_group). *)
Definition translated (translateaxis : string) (dafinal pixelsize : R)
    (p : R * R * R) : R * R * R :=
  if String.eqb translateaxis "x" then
    (fst (fst p) + dafinal, snd (fst p), snd p)
  else if String.eqb translateaxis "y" then
    (fst (fst p), snd (fst p) + dafinal, snd p)
  else if String.eqb translateaxis "z" then
    (fst (fst p), snd (fst p), snd p + dafinal * pixelsize)
  else p.

(** The conditions under which translate_group runs. *)
Definition translate_ready (w : Window) (signalimg : list (list R))
    (translateaxis : string) : Prop :=
  well_formed w
  /\ (exists proplane,
        translate_plane translateaxis = Some proplane
        /\ view_ok w proplane)
  /\ length signalimg = length (locs w)
  /\ Forall (fun s : list R => s <> []) signalimg.

(** The loop invariant of the first loop of translate_group: the shifts of
    the channels before [j] are stored, the other entries are still zero. *)
Definition lags_stored (w : Window) (signalimg : list (list R)) (g : nat)
    (translateaxis : string) (j : nat) (st : Image * Image) : Prop :=
  shaped (fst st) 1 (length (locs w))
  /\ shaped (snd st) 1 (length (locs w))
  /\ forall j', (j' < length (locs w))%nat ->
       get2 (snd st) 0 j'
       = if (j' <? j)%nat then lag w signalimg g translateaxis j' else 0.

(** The autocorrelation of a signal at lag [d]: the sum of the products of
    entries [d] apart. *)
Definition autocorrelation (s : list R) (d : nat) : R :=
  Rsum (map (fun l => nth l s 0 * nth (l + d) s 0) (seq 0 (length s))).

(** ** The viewport methods of render.py's View *)

(** What the viewport methods of a view read and write: the size of the
    widget ([self.width()], [self.height()]), the current viewport and the
    number of loaded channels ([len(self.locs)]). *)
Record View := {
  width : R;
  height : R;
  viewport : Viewport;
  n_loaded : nat
}.

(** [viewport_height()], [viewport_width()] and [viewport_center()]. *)
Definition viewport_height (v : Viewport) : R := fst (snd v) - fst (fst v).
Definition viewport_width (v : Viewport) : R := snd (snd v) - snd (fst v).
Definition viewport_center (v : Viewport) : R * R :=
  ((fst (snd v) + fst (fst v)) / 2, (snd (snd v) + snd (fst v)) / 2).

(** [display_pixels_per_viewport_pixels()]. *)
Definition display_pixels_per_viewport_pixels (s : View) : option R :=
  os_horizontal <- pydiv (width s) (viewport_width (viewport s)) ;;
  os_vertical <- pydiv (height s) (viewport_height (viewport s)) ;;
  Some (Rmax os_horizontal os_vertical).

(** The effect of [update_scene(viewport)] on the viewport: with a channel
    loaded, [draw_scene] stores the adjusted viewport and reads the zoom
    of the new viewport for the settings dialog; rendering and the pixmaps
    are display only. *)
Definition update_scene (s : View) (new : Viewport) : option View :=
  if (n_loaded s =? 0)%nat then Some s
  else
    v' <- adjust_viewport_to_view (height s) (width s) new ;;
    let s' := {| width := width s; height := height s; viewport := v';
                 n_loaded := n_loaded s |} in
    _ <- display_pixels_per_viewport_pixels s' ;;
    Some s'.

(** [zoom(factor)]. *)
Definition zoom (s : View) (factor : R) : option View :=
  let viewport_height := viewport_height (viewport s) in
  let viewport_width := viewport_width (viewport s) in
  let new_viewport_height_half := 0.5 * viewport_height * factor in
  let new_viewport_width_half := 0.5 * viewport_width * factor in
  let '(viewport_center_y, viewport_center_x) :=
    viewport_center (viewport s) in
  update_scene s
    ((viewport_center_y - new_viewport_height_half,
      viewport_center_x - new_viewport_width_half),
     (viewport_center_y + new_viewport_height_half,
      viewport_center_x + new_viewport_width_half)).

Definition ZOOM : R := 10 / 7.

(** [zoom_in()] and [zoom_out()]. *)
Definition zoom_in (s : View) : option View :=
  f <- pydiv 1 ZOOM ;; zoom s f.
Definition zoom_out (s : View) : option View := zoom s ZOOM.

(** [set_zoom(zoom)]. *)
Definition set_zoom (s : View) (z : R) : option View :=
  current_zoom <- display_pixels_per_viewport_pixels s ;;
  f <- pydiv current_zoom z ;;
  zoom s f.

(** [pan_relative(dy, dx)]. *)
Definition pan_relative (s : View) (dy dx : R) : option View :=
  let viewport_height := viewport_height (viewport s) in
  let viewport_width := viewport_width (viewport s) in
  let x_move := dx * viewport_width in
  let y_move := dy * viewport_height in
  let x_min := snd (fst (viewport s)) - x_move in
  let x_max := snd (snd (viewport s)) - x_move in
  let y_min := fst (fst (viewport s)) - y_move in
  let y_max := fst (snd (viewport s)) - y_move in
  update_scene s ((y_min, x_min), (y_max, x_max)).

(** [map_to_movie(position)], from display units to camera units; the
    result is [(x_movie, y_movie)]. *)
Definition map_to_movie (s : View) (position_x position_y : R)
  : option (R * R) :=
  x_rel <- pydiv position_x (width s) ;;
  let x_movie := x_rel * viewport_width (viewport s)
                 + snd (fst (viewport s)) in
  y_rel <- pydiv position_y (height s) ;;
  let y_movie := y_rel * viewport_height (viewport s)
                 + fst (fst (viewport s)) in
  Some (x_movie, y_movie).

(** [map_to_view(x, y)], from camera units to display units; the result is
    [(cx, cy)]. *)
Definition map_to_view (s : View) (x y : R) : option (R * R) :=
  cx <- pydiv (width s * (x - snd (fst (viewport s))))
              (viewport_width (viewport s)) ;;
  cy <- pydiv (height s * (y - fst (fst (viewport s))))
              (viewport_height (viewport s)) ;;
  Some (cx, cy).

(** A view as [draw_scene] leaves it: widget and viewport of positive
    size, of one aspect ratio, with a channel loaded. *)
Definition fitted (s : View) : Prop :=
  0 < width s /\ 0 < height s
  /\ 0 < viewport_height (viewport s) /\ 0 < viewport_width (viewport s)
  /\ viewport_width (viewport s) * height s
     = viewport_height (viewport s) * width s
  /\ n_loaded s <> 0%nat.

(** ** align_all *)

(** The branch on [alignaxis] that binds [proplane] and [rotaxis]. *)
Definition align_planes (alignaxis : string) : option (string * string) :=
  if String.eqb alignaxis "zz" then Some ("yz", "x")%string
  else if String.eqb alignaxis "zy" then Some ("yz", "x")%string
  else if String.eqb alignaxis "y" then Some ("xy", "z")%string
  else if String.eqb alignaxis "x" then Some ("xy", "z")%string
  else None.

(** A Python index into an axis of length [n]: a negative index counts
    from the end, an index outside the axis is an [IndexError]. *)
Definition pyindex (n : nat) (i : Z) : option nat :=
  if (0 <=? i)%Z && (i <? Z.of_nat n)%Z then Some (Z.to_nat i)
  else if (- Z.of_nat n <=? i)%Z && (i <? 0)%Z
       then Some (Z.to_nat (i + Z.of_nat n))
       else None.

(** [M[i, :] += v] and [M[:, i] += v]. *)
Definition add_row (M : Image) (i : Z) (v : R) : option Image :=
  r <- pyindex (fst (shape M)) i ;;
  Some (upd (map (fun u => u + v)) r M).

Definition add_col (M : Image) (i : Z) (v : R) : option Image :=
  c <- pyindex (snd (shape M)) i ;;
  Some (map (upd (fun u => u + v) c) M).

(** The block under [if alignimage == []]: the template of the shape of
    the render, three rows or three columns around the middle. *)
Definition template (alignaxis : string) (rows cols : nat) : option Image :=
  let alignimage := zeros rows cols in
  let half0 := Z.of_nat (rows / 2) in
  let half1 := Z.of_nat (cols / 2) in
  if String.eqb alignaxis "zz" then
    a1 <- add_row alignimage half0 2 ;;
    a2 <- add_row a1 (half0 + 1) 1 ;;
    add_row a2 (half0 - 1) 1
  else if String.eqb alignaxis "zy" then
    a1 <- add_col alignimage half0 2 ;;
    a2 <- add_col a1 (half0 + 1) 1 ;;
    add_col a2 (half0 - 1) 1
  else if String.eqb alignaxis "y" then
    a1 <- add_col alignimage half1 2 ;;
    a2 <- add_col a1 (half1 - 1) 1 ;;
    add_col a2 (half1 + 1) 1
  else if String.eqb alignaxis "x" then
    a1 <- add_row alignimage half0 2 ;;
    a2 <- add_row a1 (half0 + 1) 1 ;;
    add_row a2 (half0 - 1) 1
  else Some alignimage.

(** The local variables of align_all that its loops assign: [all_corr],
    [rotaxis] (unbound at first) and, within a channel, [alignimage]
    (the empty list at first). *)
Record Aligning := {
  all_corr : Image;
  rotaxis_bound : option string;
  alignimage : option Image
}.

(** The body of [for k in range(n_angles)]. *)
Definition align_angle (w : Window) (angles0 : list R) (alignaxis : string)
    (lj : Locs) (j : nat) (st : Aligning) (k : nat) : option Aligning :=
  angle <- nth_error angles0 k ;;
  '(proplane, rotaxis) <- align_planes alignaxis ;;
  '(x_rot, y_rot, z_rot) <-
    rotate_axis_arr rotaxis (x lj) (y lj) (z lj) angle (pixelsize w) ;;
  image <- render_planes w x_rot y_rot z_rot proplane (pixelsize w) ;;
  alignimage' <-
    match alignimage st with
    | None => template alignaxis (fst (shape image)) (snd (shape image))
    | Some a => Some a
    end ;;
  prod <- zip2 Rmult alignimage' image ;;
  corr <- set2 (all_corr st) k j (Rsum (map Rsum prod)) ;;
  Some {| all_corr := corr; rotaxis_bound := Some rotaxis;
          alignimage := Some alignimage' |}.

(** The body of the first [for j in range(n_channels)]. *)
Definition align_channel (w : Window) (angles0 : list R) (alignaxis : string)
    (st : Aligning) (j : nat) : option Aligning :=
  checked <- nth_error (checks w) j ;;
  if checked : bool then
    lj <- nth_error (locs w) j ;;
    foldM (align_angle w angles0 alignaxis lj j)
          (seq 0 (length angles0))
          {| all_corr := all_corr st; rotaxis_bound := rotaxis_bound st;
             alignimage := None |}
  else Some st.

(** [align_all(alignaxis)] from the candidate angles on. *)
Definition align_all (w : Window) (angles0 : list R) (alignaxis : string)
  : option Window :=
  let n_channels := length (locs w) in
  let n_angles := length angles0 in
  st <- foldM (align_channel w angles0 alignaxis) (seq 0 n_channels)
              {| all_corr := zeros n_angles n_channels;
                 rotaxis_bound := None; alignimage := None |} ;;
  maximumcc <- argmax (map Rsum (all_corr st)) ;;
  rotfinal <- nth_error angles0 maximumcc ;;
  ls <- mapM (fun lj =>
                rotaxis <- rotaxis_bound st ;;
                '(x_rot, y_rot, z_rot) <-
                  rotate_axis_arr rotaxis (x lj) (y lj) (z lj) rotfinal
                                  (pixelsize w) ;;
                Some {| x := x_rot; y := y_rot; z := z_rot;
                        group := group lj |})
             (locs w) ;;
  updateLayout (set_locs w ls).

(** The template of align_all fits a render of the given shape: its three
    rows, or three columns, exist.  For 'zy' the columns are located from
    the number of rows, as the source does. *)
Definition template_fits (alignaxis : string) (rows cols : nat) : Prop :=
  ((alignaxis = "zz" \/ alignaxis = "x")%string /\ (3 <= rows)%nat)
  \/ (alignaxis = "y"%string /\ (1 <= rows)%nat /\ (3 <= cols)%nat)
  \/ (alignaxis = "zy"%string /\ (1 <= rows)%nat
      /\ (rows / 2 + 1 < cols)%nat).

(** The entry [all_corr[k, j]] the loops of align_all leave for angle [k]
    and channel [j]: zero for a channel that is not checked. *)
Definition align_entry (w : Window) (angles0 : list R) (alignaxis : string)
    (k j : nat) : R :=
  if nth j (checks w) false then
    match (lj <- nth_error (locs w) j ;;
           angle <- nth_error angles0 k ;;
           '(proplane, rotaxis) <- align_planes alignaxis ;;
           '(x_rot, y_rot, z_rot) <-
             rotate_axis_arr rotaxis (x lj) (y lj) (z lj) angle
                             (pixelsize w) ;;
           image <- render_planes w x_rot y_rot z_rot proplane
                                  (pixelsize w) ;;
           a <- template alignaxis (fst (shape image)) (snd (shape image)) ;;
           prod <- zip2 Rmult a image ;;
           Some (Rsum (map Rsum prod)))
    with
    | Some v => v
    | None => 0
    end
  else 0.

(** The summed score of angle [k] over all channels. *)
Definition align_score (w : Window) (angles0 : list R) (alignaxis : string)
    (k : nat) : R :=
  Rsum (map (align_entry w angles0 alignaxis k) (seq 0 (length (locs w)))).

(** The conditions under which align_all runs: every channel has its check
    box and columns of one length, a channel is checked, the axis token is
    known, the view has pixels and the template fits it. *)
Definition align_all_ready (w : Window) (alignaxis : string) : Prop :=
  length (checks w) = length (locs w)
  /\ Forall (fun lj => length (x lj) = length (y lj)
                       /\ length (y lj) = length (z lj)) (locs w)
  /\ (exists j, nth_error (checks w) j = Some true)
  /\ exists proplane rotaxis,
       align_planes alignaxis = Some (proplane, rotaxis)
       /\ view_ok w proplane
       /\ template_fits alignaxis
            (Z.to_nat (fst (plane_shape w proplane)))
            (Z.to_nat (snd (plane_shape w proplane))).

(** The loop invariant of the scoring loops of align_all. *)
Definition correlations_stored (w : Window) (angles0 : list R)
    (alignaxis : string) (done : nat -> nat -> bool) (st : Aligning)
  : Prop :=
  shaped (all_corr st) (length angles0) (length (locs w))
  /\ forall k j, (k < length angles0)%nat -> (j < length (locs w))%nat ->
       get2 (all_corr st) k j
       = if done k j then align_entry w angles0 alignaxis k j else 0.

(** One checked channel with one localization, in a view of four pixels
    per axis. *)
Definition wide_session : Window :=
  {| locs := [single 0 0 0];
     group_index := [build_group_index (single 0 0 0)];
     checks := [true];
     translatebtn := false; radio_sym := false; radio_sym_custom := false;
     symEdit := 8; symcustomEdit := [];
     dialog_oversampling := 1; pixelsize := 1; oversampling := 1;
     t_min := -2; t_max := 2; z_min := -2; z_max := 2;
     r := 1; r_z := 1; n_groups := 1 |}.

(** ** The cross-correlation compute_xcorr computes *)

(** The phase of one term of a two-dimensional transform of an [M] by [N]
    array. *)
Definition phase (M N : nat) (sign : R) (u v m n : nat) : R :=
  sign * (2 * PI) * (INR u * INR m / INR M + INR v * INR n / INR N).

(** The transform of an array given by its entries. *)
Definition spectrum (M N : nat) (h : nat -> nat -> R) (sign : R)
    (u v : nat) : C :=
  Csum (map (fun m =>
    Csum (map (fun n => Cmul (RtoC (h m n)) (cis (phase M N sign u v m n)))
              (seq 0 N)))
    (seq 0 M)).

(** The circular cross-correlation of [g] with [f] at displacement
    [(u, v)]: the sum over the grid of [g[m, n] * f[m + u, n + v]], with
    the indices of [f] taken modulo the size of the grid. *)
Definition circular_correlation (M N : nat) (g f : nat -> nat -> R)
    (u v : nat) : R :=
  Rsum (map (fun m =>
    Rsum (map (fun n => g m n * f ((m + u) mod M) ((n + v) mod N))
              (seq 0 N)))
    (seq 0 M)).

(** ** scale_contrast and to_8bit *)

(** One pixel of [scale_contrast]: [(v - lower) / (upper - lower)] with
    [lower = 0], a non-finite quotient (a division by zero) replaced by
    zero, then clipped to [[0, 1]]. *)
Definition scale_with (upper v : R) : R :=
  let lower := 0 in
  let q := if Req_dec_T (upper - lower) 0 then 0
           else (v - lower) / (upper - lower) in
  Rmax (Rmin q 1) 0.

(** [scale_contrast(image)] on a two-dimensional image; [contrast] is the
    value of the contrast field.  [image.max()] raises on an image without
    pixels. *)
Definition scale_contrast (contrast : R) (image : Image) : option Image :=
  max_ <- np_max (concat image) ;;
  let upper := contrast * max_ in
  Some (map (map (scale_with upper)) image).

(** [np.round]: to the nearest integer, a half to the even neighbour. *)
Definition round_half_even (v : R) : Z :=
  let f := Int_part v in
  let fr := v - IZR f in
  if Rlt_dec fr (1 / 2) then f
  else if Rlt_dec (1 / 2) fr then (f + 1)%Z
       else if Z.even f then f else (f + 1)%Z.

(** [to_8bit(image)]: [np.round(255 * image).astype('uint8')], the cast
    wrapping modulo 256. *)
Definition to_8bit (image : Image) : list (list Z) :=
  map (map (fun v => (round_half_even (255 * v) mod 256)%Z)) image.

(** ** Groups by their id *)

(** One coordinate column of the localizations of a channel that carry the
    group id [gid], in the order of the channel. *)
Definition labelled_coords (gid : Z) (col : Locs -> list R) (lj : Locs)
  : list R :=
  map (fun m => nth m (col lj) 0) (where_eq (group lj) gid).

(** The centroid of the group with id [gid]: the means of the coordinates
    of its localizations, stacked over all channels. *)
Definition group_centroid (ls : list Locs) (gid : Z) : R * R * R :=
  (mean (concat (map (labelled_coords gid x) ls)),
   mean (concat (map (labelled_coords gid y) ls)),
   mean (concat (map (labelled_coords gid z) ls))).

(** Every channel carries the same group ids [ids] (sorted, as [np.unique]
    returns them), the group index is the one [add] builds, and [n_groups]
    is the number of the ids: row [i] of every channel is then the group
    with the [i]-th id. *)
Definition shared_groups (w : Window) (ids : list Z) : Prop :=
  group_index w = map build_group_index (locs w)
  /\ (forall lj, In lj (locs w) -> unique (group lj) = ids)
  /\ n_groups w = length ids.

(** Two channels with the groups 5 and 7, the second channel unchecked. *)
Definition shared_session : Window :=
  {| locs := [ {| x := [0; 4]; y := [0; 0]; z := [1; 1];
                  group := [7%Z; 5%Z] |};
               {| x := [2; 8]; y := [2; 0]; z := [3; 1];
                  group := [5%Z; 7%Z] |} ];
     group_index :=
       [ build_group_index {| x := [0; 4]; y := [0; 0]; z := [1; 1];
                              group := [7%Z; 5%Z] |};
         build_group_index {| x := [2; 8]; y := [2; 0]; z := [3; 1];
                              group := [5%Z; 7%Z] |} ];
     checks := [true; false];
     translatebtn := false; radio_sym := false; radio_sym_custom := false;
     symEdit := 8; symcustomEdit := [90; 180; 270];
     dialog_oversampling := 1; pixelsize := 1; oversampling := 1;
     t_min := -1; t_max := 1; z_min := -1; z_max := 1;
     r := 1; r_z := 1; n_groups := 2 |}.

(** ** The score tables and the winner, written out *)

(** The three entries the scoring loops keep for angle [k] and channel
    [j]. *)
Definition stored (st : Scores) (k j : nat) : R * R * R :=
  (get2 (all_xcorr st) k j, get2 (all_da st) k j, get2 (all_db st) k j).

(** A channel is checked. *)
Definition any_checked (w : Window) : bool :=
  existsb (fun j => nth j (checks w) false) (seq 0 (length (locs w))).

(** The angles at which a checked channel renders the group: with
    "Translate only" on, the single angle 0. *)
Definition scored_angles (w : Window) (angles0 : list R) : list R :=
  if translatebtn w then [0] else angles0.

(** The list [angles] after the scoring loops: with "Translate only" on, a
    checked channel has replaced it. *)
Definition final_angles (w : Window) (angles0 : list R) : list R :=
  if translatebtn w && any_checked w then [0] else angles0.

(** [(b_max, a_max)] is where the largest entry of [M] is first met, row by
    row: [np.unravel_index(M.argmax(), M.shape)]. *)
Definition first_largest (M : Image) (b_max a_max : nat) : Prop :=
  (b_max < length M)%nat /\ (a_max < length (nth b_max M []))%nat
  /\ (forall b a, (b < length M)%nat -> (a < length (nth b M []))%nat ->
        get2 M b a <= get2 M b_max a_max)
  /\ (forall b a, (b < length M)%nat -> (a < length (nth b M []))%nat ->
        (b < b_max)%nat \/ (b = b_max /\ (a < a_max)%nat) ->
        get2 M b a < get2 M b_max a_max).

(** What align_group keeps of one render: the largest value of the
    cross-correlation with the reference, and the offset of the place where
    it is first met from the centre of the image, over the oversampling. *)
Definition peak_spec (w : Window) (CFj : CImage) (image : Image)
    (t : R * R * R) : Prop :=
  exists xcorr b_max a_max,
    compute_xcorr CFj image = Some xcorr
    /\ first_largest xcorr b_max a_max
    /\ t = (get2 xcorr b_max a_max,
            IZR (ceil (INR a_max - INR (snd (shape image)) / 2))
            / oversampling w,
            IZR (ceil (INR b_max - INR (fst (shape image)) / 2))
            / oversampling w).

(** [np.sum(np.multiply(A, B))] for two arrays of one shape: the sum over
    the pixels of the products. *)
Definition product_sum (A B : Image) : R :=
  Rsum (map (fun b =>
               Rsum (map (fun a => get2 A b a * get2 B b a)
                         (seq 0 (snd (shape A)))))
            (seq 0 (fst (shape A)))).

(** What rotatexy_convolution_group keeps of one render. *)
Definition conv_spec (w : Window) (CFj image : Image) (t : R * R * R)
  : Prop :=
  t = (product_sum CFj image, 0, 0).

(** The same as a score function, for the statements about the loop over
    the groups. *)
Definition product3 (w : Window) (CFj image : Image)
  : option (R * R * R) :=
  Some (product_sum CFj image, 0, 0).

(** The tables after the scoring loops.  They have a row per candidate
    angle and a column per channel.  The entries of a channel that is not
    checked, and those of the rows that are not scored, are zero.  The entry
    of a checked channel in a scored row meets [spec] for the render of the
    group at the angle of the row. *)
Definition table_of {T : Type}
    (spec : Window -> T -> Image -> R * R * R -> Prop)
    (w : Window) (CF_image_avg : list T) (angles0 : list R) (g : nat)
    (rotaxis proplane : string) (st : Scores) : Prop :=
  shaped (all_xcorr st) (length angles0) (length (locs w))
  /\ shaped (all_da st) (length angles0) (length (locs w))
  /\ shaped (all_db st) (length angles0) (length (locs w))
  /\ (forall k j,
        nth j (checks w) false = false
        \/ (length (scored_angles w angles0) <= k)%nat ->
        stored st k j = (0, 0, 0))
  /\ forall k j lj index angle,
       nth_error (checks w) j = Some true ->
       nth_error (locs w) j = Some lj ->
       members w j g = Some index ->
       nth_error (scored_angles w angles0) k = Some angle ->
       exists N image CFj,
         group_image w lj index rotaxis proplane angle = Some (N, image)
         /\ nth_error CF_image_avg j = Some CFj
         /\ spec w CFj image (stored st k j).

(** [np.argmax(np.sum(all_xcorr, axis=1))]: the first row of largest
    sum. *)
Definition winning_row (table : Image) (maximumcc : nat) : Prop :=
  (maximumcc < length table)%nat
  /\ (forall k, (k < length table)%nat ->
        Rsum (nth k table []) <= Rsum (nth maximumcc table []))
  /\ (forall k, (k < maximumcc)%nat ->
        Rsum (nth k table []) < Rsum (nth maximumcc table [])).

(** From [w] to [w'] the members of group [g] are moved by [move] in every
    channel; all other localizations and the group ids stay. *)
Definition group_moved (w w' : Window) (g : nat)
    (move : R * R * R -> R * R * R) : Prop :=
  forall j lj, nth_error (locs w) j = Some lj ->
    exists lj' index,
      nth_error (locs w') j = Some lj'
      /\ members w j g = Some index
      /\ group lj' = group lj
      /\ (forall i, In i index -> point lj' i = move (point lj i))
      /\ (forall i, ~ In i index -> point lj' i = point lj i).

(** The loops over a scored table end with the entries of [entry] in every
    position, for the angles that are scored. *)
Definition tabulated {T : Type}
    (f : Window -> T -> Image -> option (R * R * R))
    (w : Window) (CF_image_avg : list T) (angles0 : list R) (g : nat)
    (rotaxis proplane : string) (st : Scores) : Prop :=
  angles st = final_angles w angles0
  /\ shaped (all_xcorr st) (length angles0) (length (locs w))
  /\ shaped (all_da st) (length angles0) (length (locs w))
  /\ shaped (all_db st) (length angles0) (length (locs w))
  /\ forall k j, (k < length angles0)%nat -> (j < length (locs w))%nat ->
       stored st k j
       = entry f w CF_image_avg (scored_angles w angles0) g rotaxis proplane
               k j.

(** The loop invariant of the scoring loops with "Translate only" on, when
    they are at channel [j]. *)
Definition filled_translate {T : Type}
    (f : Window -> T -> Image -> option (R * R * R))
    (w : Window) (CF_image_avg : list T) (angles0 : list R) (g : nat)
    (rotaxis proplane : string) (j : nat) (st : Scores) : Prop :=
  angles st
  = (if existsb (fun j' => nth j' (checks w) false) (seq 0 j)
     then [0] else angles0)
  /\ n_angles st = length (angles st)
  /\ shaped (all_xcorr st) (length angles0) (length (locs w))
  /\ shaped (all_da st) (length angles0) (length (locs w))
  /\ shaped (all_db st) (length angles0) (length (locs w))
  /\ forall k j', (k < length angles0)%nat -> (j' < length (locs w))%nat ->
       stored st k j'
       = if (j' <? j)%nat
         then entry f w CF_image_avg [0] g rotaxis proplane k j'
         else (0, 0, 0).

(** Two channels whose only group lies inside the view, the second one
    unchecked. *)
Definition lit_session : Window :=
  session [single (1 / 4) (1 / 4) 0; single (- (1 / 4)) (1 / 4) 0]
          [build_group_index (single (1 / 4) (1 / 4) 0);
           build_group_index (single (- (1 / 4)) (1 / 4) 0)]
          [true; false].

(** The two channels of [lit_session], both checked, with both symmetry
    options on: order 2 and the custom angle 90. *)
Definition symmetric_session : Window :=
  {| locs := locs lit_session; group_index := group_index lit_session;
     checks := [true; true];
     translatebtn := false; radio_sym := true; radio_sym_custom := true;
     symEdit := 2; symcustomEdit := [90];
     dialog_oversampling := 1; pixelsize := 1; oversampling := 1;
     t_min := -1; t_max := 1; z_min := -1; z_max := 1;
     r := 1; r_z := 1; n_groups := 1 |}.

(** * Properties *)

(** Equality of tuples, component by component. *)
Ltac split_pairs :=
  repeat match goal with
         | |- (_, _) = (_, _) => f_equal
         end.

(** Decide the comparisons of concrete reals met in the goal. *)
Ltac decide_Rlt :=
  repeat match goal with
         | |- context [Rlt_dec ?u ?v] => destruct (Rlt_dec u v); try lra
         end.

(** ** Lists, updates and rounding *)

Lemma Rltb_true_iff (a b : R) : Rltb a b = true <-> a < b.
Proof.
  unfold Rltb. destruct (Rlt_dec a b); split; intros; auto; discriminate.
Qed.

Lemma ceil_bounds (v : R) : IZR (ceil v) - 1 < v <= IZR (ceil v).
Proof.
  unfold ceil. rewrite opp_IZR.
  destruct (base_Int_part (- v)) as [H1 H2]. lra.
Qed.

Lemma ceil_unique (v : R) (n : Z) : IZR n - 1 < v <= IZR n -> ceil v = n.
Proof.
  intros [H1 H2]. unfold ceil.
  rewrite <- (Int_part_spec (- v) (- n)%Z).
  - lia.
  - rewrite opp_IZR. lra.
Qed.

Lemma ceil_pos (v : R) : 0 < v -> (0 < ceil v)%Z.
Proof.
  intros H. destruct (ceil_bounds v) as [_ H2].
  apply lt_IZR. lra.
Qed.

Lemma trunc_nonneg (v : R) : 0 <= v -> IZR (trunc v) <= v < IZR (trunc v) + 1.
Proof.
  intros H. unfold trunc. destruct (Rlt_dec v 0); [lra|].
  destruct (base_Int_part v). lra.
Qed.

Lemma upd_length {A : Type} (f : A -> A) (n : nat) (l : list A) :
  length (upd f n l) = length l.
Proof.
  revert n. induction l as [|a t IH]; intros [|n]; simpl; auto.
Qed.

Lemma nth_upd_same {A : Type} (f : A -> A) (n : nat) (l : list A) (d : A) :
  (n < length l)%nat -> nth n (upd f n l) d = f (nth n l d).
Proof.
  revert n. induction l as [|a t IH]; intros [|n] H; simpl in *;
    try lia; auto.
  apply IH. lia.
Qed.

Lemma nth_upd_other {A : Type} (f : A -> A) (n k : nat) (l : list A) (d : A) :
  k <> n -> nth k (upd f n l) d = nth k l d.
Proof.
  revert n k. induction l as [|a t IH]; intros [|n] [|k] H; simpl;
    try congruence; auto.
Qed.

Lemma upd_out_of_range {A : Type} (f : A -> A) (n : nat) (l : list A) :
  (length l <= n)%nat -> upd f n l = l.
Proof.
  revert n. induction l as [|a t IH]; intros [|n] H; simpl in *;
    try lia; auto.
  f_equal. apply IH. lia.
Qed.

Lemma zeros_length (rows cols : nat) : length (zeros rows cols) = rows.
Proof. apply repeat_length. Qed.

Lemma zeros_row (rows cols k : nat) :
  (k < rows)%nat -> nth k (zeros rows cols) [] = repeat 0 cols.
Proof.
  intros H. unfold zeros. apply nth_repeat_lt. exact H.
Qed.

Lemma zeros_rows_length (rows cols : nat) :
  Forall (fun row => length row = cols) (zeros rows cols).
Proof.
  apply Forall_forall. intros row H.
  apply repeat_spec in H. subst. apply repeat_length.
Qed.

Lemma get2_zeros (rows cols k j : nat) : get2 (zeros rows cols) k j = 0.
Proof.
  unfold get2. destruct (Nat.lt_ge_cases k rows) as [H|H].
  - rewrite zeros_row by exact H.
    destruct (Nat.lt_ge_cases j cols).
    + apply nth_repeat_lt; auto.
    + apply nth_overflow. rewrite repeat_length. auto.
  - rewrite (nth_overflow (zeros rows cols)).
    + now destruct j.
    + rewrite zeros_length. exact H.
Qed.

(** ** Rotation *)

Lemma cos_sin_unit (a : R) : cos a * cos a + sin a * sin a = 1.
Proof.
  generalize (sin2_cos2 a). unfold Rsqr. lra.
Qed.

(** C4: for each of the axes 'x', 'y', 'z', a nonzero pixelsize, any angle
    and any coordinate triple, rotating by [angle] and then by [- angle]
    about the same axis gives back the triple exactly. *)
Theorem rotate_axis_round_trip (axis : string) (vx vy vz angle pixelsize : R) :
  In axis ["x"; "y"; "z"]%string ->
  pixelsize <> 0 ->
  (p <- rotate_axis axis vx vy vz angle pixelsize ;;
   rotate_axis axis (fst (fst p)) (snd (fst p)) (snd p) (- angle) pixelsize)
  = Some (vx, vy, vz).
Proof.
  intros Hax Hp.
  assert (U := cos_sin_unit angle).
  simpl in Hax.
  destruct Hax as [<- | [<- | [<- | []]]]; unfold rotate_axis; simpl;
    rewrite cos_neg, sin_neg; f_equal; split_pairs; try reflexivity;
    match goal with
    | |- _ = ?v =>
        transitivity (v * (cos angle * cos angle + sin angle * sin angle));
        [field; exact Hp | rewrite U; ring]
    end.
Qed.

Lemma rotate_axis_round_trip_witness :
  In "y"%string ["x"; "y"; "z"]%string /\ 130 <> 0 /\
  (p <- rotate_axis "y" 1 2 3 (PI / 2) 130 ;;
   rotate_axis "y" (fst (fst p)) (snd (fst p)) (snd p) (- (PI / 2)) 130)
  = Some (1, 2, 3).
Proof.
  assert (Ha : In "y"%string ["x"; "y"; "z"]%string) by (simpl; auto).
  assert (Hp : 130 <> 0) by lra.
  split; [exact Ha | split; [exact Hp |]].
  exact (rotate_axis_round_trip "y" 1 2 3 (PI / 2) 130 Ha Hp).
Defined.

(** ** Rendering *)

Lemma in_view_true_iff (a_min a_max b_min b_max : R) (p : R * R) :
  in_view a_min a_max b_min b_max p = true <->
  a_min < fst p < a_max /\ b_min < snd p < b_max.
Proof.
  unfold in_view. rewrite !andb_true_iff, !Rltb_true_iff. tauto.
Qed.

Lemma deposit_length (image : Image) (i j : Z) :
  length (deposit image i j) = length image.
Proof.
  unfold deposit. destruct ((i <? 0)%Z || (j <? 0)%Z); auto.
  apply upd_length.
Qed.

Lemma deposit_row_length (image : Image) (i j : Z) (k : nat) :
  length (nth k (deposit image i j) []) = length (nth k image []).
Proof.
  unfold deposit. destruct ((i <? 0)%Z || (j <? 0)%Z); auto.
  destruct (Nat.eq_dec k (Z.to_nat j)) as [->|Hk].
  - destruct (Nat.lt_ge_cases (Z.to_nat j) (length image)) as [H|H].
    + rewrite nth_upd_same by exact H. apply upd_length.
    + rewrite upd_out_of_range by exact H. reflexivity.
  - rewrite nth_upd_other by exact Hk. reflexivity.
Qed.

Lemma deposit_get2 (image : Image) (i j : Z) (row col : nat) :
  (row < length image)%nat ->
  (col < length (nth row image []))%nat ->
  get2 (deposit image i j) row col
  = get2 image row col
    + (if (i =? Z.of_nat col)%Z && (j =? Z.of_nat row)%Z then 1 else 0).
Proof.
  intros Hr Hc. unfold deposit, get2.
  destruct (Z.ltb_spec i 0) as [Hi|Hi]; simpl.
  { destruct (Z.eqb_spec i (Z.of_nat col)); [lia | simpl; lra]. }
  destruct (Z.ltb_spec j 0) as [Hj|Hj]; simpl.
  { destruct (Z.eqb_spec j (Z.of_nat row)); [lia|].
    rewrite andb_false_r. lra. }
  destruct (Z.eqb_spec j (Z.of_nat row)) as [Ej|Ej].
  - replace (Z.to_nat j) with row by lia.
    rewrite nth_upd_same by exact Hr.
    destruct (Z.eqb_spec i (Z.of_nat col)) as [Ei|Ei]; simpl.
    + replace (Z.to_nat i) with col by lia.
      rewrite nth_upd_same by exact Hc. reflexivity.
    + rewrite nth_upd_other by lia. lra.
  - rewrite andb_false_r.
    rewrite (nth_upd_other _ (Z.to_nat j) row) by lia. lra.
Qed.

Lemma fill_length (pts : list (R * R)) (image : Image) :
  length (fold_left (fun img p => deposit img (trunc (fst p)) (trunc (snd p)))
                    pts image)
  = length image.
Proof.
  revert image. induction pts as [|p t IH]; intros image; simpl; auto.
  rewrite IH. apply deposit_length.
Qed.

Lemma fill_row_length (pts : list (R * R)) (image : Image) (k : nat) :
  length (nth k (fold_left (fun img p =>
                              deposit img (trunc (fst p)) (trunc (snd p)))
                           pts image) [])
  = length (nth k image []).
Proof.
  revert image. induction pts as [|p t IH]; intros image; simpl; auto.
  rewrite IH. apply deposit_row_length.
Qed.

Lemma fill_get2 (pts : list (R * R)) (image : Image) (row col : nat) :
  (row < length image)%nat ->
  (col < length (nth row image []))%nat ->
  get2 (fold_left (fun img p => deposit img (trunc (fst p)) (trunc (snd p)))
                  pts image) row col
  = get2 image row col + INR (length (filter (hits_pixel col row) pts)).
Proof.
  revert image. induction pts as [|p t IH]; intros image Hr Hc; simpl.
  - lra.
  - rewrite IH.
    + rewrite deposit_get2 by assumption.
      unfold hits_pixel at 2.
      destruct ((trunc (fst p) =? Z.of_nat col)%Z
                && (trunc (snd p) =? Z.of_nat row)%Z).
      * change (length (p :: filter (hits_pixel col row) t))
          with (S (length (filter (hits_pixel col row) t))).
        rewrite S_INR. lra.
      * lra.
    + rewrite deposit_length. exact Hr.
    + rewrite deposit_row_length. exact Hc.
Qed.

Lemma combine_map_same {A B D : Type} (f : A -> B) (g : A -> D) (l : list A) :
  combine (map f l) (map g l) = map (fun a => (f a, g a)) l.
Proof.
  induction l as [|a t IH]; simpl; auto. now rewrite IH.
Qed.

Lemma render_histxyz_unfold (a b : list R)
    (oversampling a_min a_max b_min b_max : R) :
  (0 <= ceil (oversampling * (a_max - a_min)))%Z ->
  (0 <= ceil (oversampling * (b_max - b_min)))%Z ->
  render_histxyz a b oversampling a_min a_max b_min b_max
  = Some (length (filter (in_view a_min a_max b_min b_max) (combine a b)),
          fold_left (fun img p => deposit img (trunc (fst p)) (trunc (snd p)))
            (map (to_pixel oversampling a_min b_min)
                 (filter (in_view a_min a_max b_min b_max) (combine a b)))
            (zeros (Z.to_nat (ceil (oversampling * (b_max - b_min))))
                   (Z.to_nat (ceil (oversampling * (a_max - a_min)))))).
Proof.
  intros Ha Hb. unfold render_histxyz, render_fill.
  destruct (Z.ltb_spec (ceil (oversampling * (a_max - a_min))) 0); [lia|].
  destruct (Z.ltb_spec (ceil (oversampling * (b_max - b_min))) 0); [lia|].
  simpl. rewrite combine_map_same, length_map. reflexivity.
Qed.

Lemma filter_map_length {A B : Type} (f : B -> bool) (g : A -> B) (l : list A) :
  length (filter f (map g l)) = length (filter (fun a => f (g a)) l).
Proof.
  induction l as [|a t IH]; simpl; auto.
  destruct (f (g a)); simpl; auto.
Qed.

Lemma rows_of_nth {A : Type} (P : list A -> Prop) (image : list (list A)) :
  (forall k, (k < length image)%nat -> P (nth k image [])) ->
  Forall P image.
Proof.
  intros H. apply Forall_forall. intros row Hin.
  destruct (In_nth _ _ [] Hin) as (k & Hk & <-). apply H. exact Hk.
Qed.

(** The square variant is the general one with the same bounds on both
    axes. *)
Lemma render_hist_square (x y : list R) (oversampling t_min t_max : R) :
  render_hist x y oversampling t_min t_max
  = render_histxyz x y oversampling t_min t_max t_min t_max.
Proof.
  unfold render_hist, render_histxyz.
  destruct (ceil (oversampling * (t_max - t_min)) <? 0)%Z; reflexivity.
Qed.

(** C5: with [max > min] on both axes and a positive oversampling,
    render_histxyz returns an image with [ceil(oversampling * (max - min))]
    pixels along each axis together with the number of points strictly
    inside the bounds on both axes; exactly those points are deposited, each
    in a pixel of the image, and with no such point the image is all
    zeros. *)
Theorem render_histxyz_spec (a b : list R)
    (oversampling a_min a_max b_min b_max : R) :
  length a = length b ->
  a_min < a_max -> b_min < b_max -> 0 < oversampling ->
  let n_a := ceil (oversampling * (a_max - a_min)) in
  let n_b := ceil (oversampling * (b_max - b_min)) in
  let kept := filter (in_view a_min a_max b_min b_max) (combine a b) in
  exists image,
    render_histxyz a b oversampling a_min a_max b_min b_max
      = Some (length kept, image)
    /\ Z.of_nat (length image) = n_b
    /\ Forall (fun row => Z.of_nat (length row) = n_a) image
    /\ (forall p, In p kept <->
                  In p (combine a b)
                  /\ a_min < fst p < a_max /\ b_min < snd p < b_max)
    /\ (forall p, In p kept ->
          (0 <= trunc (fst (to_pixel oversampling a_min b_min p)) < n_a)%Z
          /\ (0 <= trunc (snd (to_pixel oversampling a_min b_min p)) < n_b)%Z)
    /\ (forall row col, (Z.of_nat row < n_b)%Z -> (Z.of_nat col < n_a)%Z ->
          get2 image row col
          = INR (length (filter
                   (fun p => hits_pixel col row
                               (to_pixel oversampling a_min b_min p))
                   kept)))
    /\ (kept = [] -> image = zeros (Z.to_nat n_b) (Z.to_nat n_a)).
Proof.
  intros Hlen Ha Hb Hos n_a n_b kept.
  assert (Pa : (0 < n_a)%Z) by (apply ceil_pos; nra).
  assert (Pb : (0 < n_b)%Z) by (apply ceil_pos; nra).
  eexists. split; [apply render_histxyz_unfold; fold n_a; fold n_b; lia|].
  fold n_a n_b kept.
  split; [rewrite fill_length, zeros_length; lia|].
  split.
  { apply rows_of_nth. intros k Hk.
    rewrite fill_length, zeros_length in Hk.
    rewrite fill_row_length, zeros_row by exact Hk.
    rewrite repeat_length. lia. }
  split.
  { intros p. unfold kept. rewrite filter_In, in_view_true_iff. tauto. }
  split.
  { intros p Hp. unfold kept in Hp.
    apply filter_In in Hp. destruct Hp as [_ Hp].
    apply in_view_true_iff in Hp. destruct Hp as [[A1 A2] [B1 B2]].
    unfold to_pixel; simpl.
    assert (Xa : 0 <= oversampling * (fst p - a_min)) by nra.
    assert (Xb : 0 <= oversampling * (snd p - b_min)) by nra.
    destruct (trunc_nonneg _ Xa) as [Ta1 Ta2].
    destruct (trunc_nonneg _ Xb) as [Tb1 Tb2].
    destruct (ceil_bounds (oversampling * (a_max - a_min))) as [_ Ca].
    destruct (ceil_bounds (oversampling * (b_max - b_min))) as [_ Cb].
    fold n_a in Ca. fold n_b in Cb.
    assert (Ya : oversampling * (fst p - a_min)
                 < oversampling * (a_max - a_min)) by nra.
    assert (Yb : oversampling * (snd p - b_min)
                 < oversampling * (b_max - b_min)) by nra.
    split; split.
    - apply le_IZR. apply Rnot_lt_le. intros F.
      assert (IZR (trunc (oversampling * (fst p - a_min))) <= -1).
      { apply (IZR_le _ (-1)). apply lt_IZR in F. lia. }
      lra.
    - apply lt_IZR. lra.
    - apply le_IZR. apply Rnot_lt_le. intros F.
      assert (IZR (trunc (oversampling * (snd p - b_min))) <= -1).
      { apply (IZR_le _ (-1)). apply lt_IZR in F. lia. }
      lra.
    - apply lt_IZR. lra. }
  split.
  { intros row col Hr Hc.
    rewrite fill_get2.
    - rewrite get2_zeros, filter_map_length. lra.
    - rewrite zeros_length. lia.
    - rewrite zeros_row by lia. rewrite repeat_length. lia. }
  intros E. rewrite E. reflexivity.
Qed.

Lemma render_histxyz_spec_witness :
  exists image,
    render_histxyz [1 / 2; 2; 1] [1 / 2; 0; 0] 1 (-1) 1 (-1) 1
      = Some (1%nat, image)
    /\ Z.of_nat (length image) = ceil (1 * (1 - -1)).
Proof.
  assert (Hlen : length [1 / 2; 2; 1] = length [1 / 2; 0; 0]) by reflexivity.
  assert (Ha : -1 < 1) by lra.
  assert (Hos : 0 < 1) by lra.
  destruct (render_histxyz_spec [1 / 2; 2; 1] [1 / 2; 0; 0] 1 (-1) 1 (-1) 1
              Hlen Ha Ha Hos) as (image & E & Hrows & _).
  exists image. split; [|exact Hrows].
  rewrite E. do 2 f_equal. simpl. unfold in_view, Rltb; simpl.
  decide_Rlt; reflexivity.
Defined.

(** ** The group index *)

Lemma insert_unique_In (g v : Z) (l : list Z) :
  In v (insert_unique g l) <-> v = g \/ In v l.
Proof.
  induction l as [|h t IH]; simpl.
  - intuition.
  - destruct (Z.ltb_spec g h); [simpl; intuition|].
    destruct (Z.eqb_spec g h); simpl; [subst; intuition|].
    rewrite IH. intuition.
Qed.

Lemma insert_unique_sorted (g : Z) (l : list Z) :
  StronglySorted Z.lt l -> StronglySorted Z.lt (insert_unique g l).
Proof.
  induction l as [|h t IH]; intros S; simpl.
  - repeat constructor.
  - apply StronglySorted_inv in S. destruct S as [St Ht].
    destruct (Z.ltb_spec g h).
    + constructor; [constructor; assumption|].
      constructor; [assumption|].
      eapply Forall_impl; [|exact Ht]. simpl. intros; lia.
    + destruct (Z.eqb_spec g h); [constructor; assumption|].
      constructor; [apply IH; exact St|].
      apply Forall_forall. intros v Hv.
      apply insert_unique_In in Hv. destruct Hv as [->|Hv]; [lia|].
      rewrite Forall_forall in Ht. apply Ht. exact Hv.
Qed.

Lemma unique_sorted (l : list Z) : StronglySorted Z.lt (unique l).
Proof.
  induction l as [|g t IH]; simpl; [constructor|].
  apply insert_unique_sorted. exact IH.
Qed.

Lemma unique_In (l : list Z) (v : Z) : In v (unique l) <-> In v l.
Proof.
  induction l as [|g t IH]; simpl; [tauto|].
  rewrite insert_unique_In, IH. intuition.
Qed.

Lemma sorted_NoDup (l : list Z) : StronglySorted Z.lt l -> NoDup l.
Proof.
  induction l as [|h t IH]; intros S; [constructor|].
  apply StronglySorted_inv in S. destruct S as [St Ht].
  constructor; [|apply IH; exact St].
  intros Hin. rewrite Forall_forall in Ht. specialize (Ht _ Hin). lia.
Qed.

Lemma where_from_In (n : nat) (g : Z) (groups : list Z) (i : nat) :
  In i (where_from n g groups) <->
  (n <= i < n + length groups)%nat /\ nth_error groups (i - n) = Some g.
Proof.
  revert n. induction groups as [|h t IH]; intros n; simpl.
  - split; [tauto | lia].
  - assert (Step : forall P : Prop,
              (P <-> (S n <= i < S n + length t)%nat
                     /\ nth_error t (i - S n) = Some g) ->
              ((n = i /\ h = g) \/ P <->
               (n <= i < n + S (length t))%nat
               /\ nth_error (h :: t) (i - n) = Some g)).
    { intros P HP. rewrite HP. split.
      - intros [[-> ->] | [Hr He]].
        + split; [lia|]. now rewrite Nat.sub_diag.
        + split; [lia|].
          replace (i - n)%nat with (S (i - S n)) by lia. exact He.
      - intros [Hr He]. destruct (Nat.eq_dec n i) as [->|Hne].
        + left. rewrite Nat.sub_diag in He. simpl in He.
          split; congruence.
        + right. split; [lia|].
          replace (i - n)%nat with (S (i - S n)) in He by lia. exact He. }
    destruct (Z.eqb_spec h g) as [E|E]; simpl.
    + rewrite <- (Step _ (IH (S n))). intuition.
    + rewrite <- (Step _ (IH (S n))). intuition.
Qed.

Lemma where_from_NoDup (n : nat) (g : Z) (groups : list Z) :
  NoDup (where_from n g groups).
Proof.
  revert n. induction groups as [|h t IH]; intros n; simpl; [constructor|].
  destruct (h =? g)%Z; [|apply IH].
  constructor; [|apply IH].
  rewrite where_from_In. lia.
Qed.

Lemma where_eq_In (groups : list Z) (g : Z) (i : nat) :
  In i (where_eq groups g) <-> nth_error groups i = Some g.
Proof.
  unfold where_eq. rewrite where_from_In, Nat.sub_0_r. split.
  - tauto.
  - intros H. split; [|exact H].
    assert (nth_error groups i <> None) by congruence.
    apply nth_error_Some in H0. lia.
Qed.

Lemma concat_where_NoDup (groups us : list Z) :
  NoDup us -> NoDup (concat (map (where_eq groups) us)).
Proof.
  induction us as [|g t IH]; intros N; simpl; [constructor|].
  apply NoDup_cons_iff in N. destruct N as [Hg Nt].
  apply NoDup_app.
  - apply where_from_NoDup.
  - apply IH. exact Nt.
  - intros i Hi Hc. apply where_eq_In in Hi.
    apply in_concat in Hc. destruct Hc as (row & Hrow & Hin).
    apply in_map_iff in Hrow. destruct Hrow as (g' & <- & Hg').
    apply where_eq_In in Hin.
    assert (g' = g) by congruence. subst. contradiction.
Qed.

(** C8: the rows of the group index built for a channel partition the
    channel's row numbers: put together they are a rearrangement of
    [0 .. n-1], and no row number is a member of two different rows. *)
Theorem group_index_partition (l : Locs) :
  Permutation (concat (build_group_index l)) (seq 0 (length (group l)))
  /\ forall k1 k2 i,
       (k1 < length (build_group_index l))%nat ->
       (k2 < length (build_group_index l))%nat ->
       In i (nth k1 (build_group_index l) []) ->
       In i (nth k2 (build_group_index l) []) ->
       k1 = k2.
Proof.
  unfold build_group_index.
  assert (N : NoDup (unique (group l)))
    by (apply sorted_NoDup, unique_sorted).
  split.
  - apply NoDup_Permutation.
    + apply concat_where_NoDup. exact N.
    + apply seq_NoDup.
    + intros i. rewrite in_seq, in_concat. split.
      * intros (row & Hrow & Hin).
        apply in_map_iff in Hrow. destruct Hrow as (g & <- & _).
        apply where_eq_In in Hin.
        assert (nth_error (group l) i <> None) by congruence.
        apply nth_error_Some in H. lia.
      * intros [_ Hi]. simpl in Hi.
        destruct (nth_error (group l) i) as [g|] eqn:E.
        -- exists (where_eq (group l) g). split.
           ++ apply in_map, unique_In. eapply nth_error_In. exact E.
           ++ apply where_eq_In. exact E.
        -- apply nth_error_None in E. lia.
  - intros k1 k2 i H1 H2 I1 I2.
    rewrite length_map in H1, H2.
    rewrite (nth_indep _ [] (where_eq (group l) 0%Z)) in I1
      by (rewrite length_map; assumption).
    rewrite (nth_indep _ [] (where_eq (group l) 0%Z)) in I2
      by (rewrite length_map; assumption).
    rewrite map_nth in I1, I2.
    apply where_eq_In in I1, I2.
    apply (proj1 (NoDup_nth _ 0%Z) N); auto. congruence.
Qed.

(** ** Arrays of one shape *)

Lemma same_shape_spec {A B : Type} (X : list (list A)) (Y : list (list B)) :
  same_shape X Y = true <->
  length X = length Y
  /\ forall k, (k < length X)%nat ->
               length (nth k X []) = length (nth k Y []).
Proof.
  unfold same_shape. rewrite andb_true_iff, Nat.eqb_eq, forallb_forall.
  split.
  - intros [HL HF]. split; [exact HL|]. intros k Hk.
    apply Nat.eqb_eq.
    apply (HF (nth k X [], nth k Y [])).
    rewrite <- combine_nth by exact HL.
    apply nth_In. rewrite length_combine. lia.
  - intros [HL HR]. split; [exact HL|]. intros [rx ry] Hin.
    destruct (In_nth _ _ ([], []) Hin) as (k & Hk & E).
    rewrite combine_nth in E by exact HL.
    rewrite length_combine in Hk.
    inversion E; subst. simpl. apply Nat.eqb_eq. apply HR. lia.
Qed.

Lemma same_shape_refl {A : Type} (X : list (list A)) : same_shape X X = true.
Proof. apply same_shape_spec. auto. Qed.

Lemma same_shape_trans {A B D : Type}
    (X : list (list A)) (Y : list (list B)) (Z : list (list D)) :
  same_shape X Y = true -> same_shape Y Z = true -> same_shape X Z = true.
Proof.
  rewrite !same_shape_spec. intros [L1 R1] [L2 R2].
  split; [congruence|]. intros k Hk.
  rewrite R1 by exact Hk. apply R2. lia.
Qed.

Lemma same_shape_sym {A B : Type} (X : list (list A)) (Y : list (list B)) :
  same_shape X Y = true -> same_shape Y X = true.
Proof.
  rewrite !same_shape_spec. intros [L1 R1].
  split; [congruence|]. intros k Hk. symmetry. apply R1. lia.
Qed.

Lemma nth_map_lt {A B : Type} (f : A -> B) (l : list A) (k : nat)
    (da : A) (db : B) :
  (k < length l)%nat -> nth k (map f l) db = f (nth k l da).
Proof.
  revert k. induction l as [|a t IH]; intros [|k] H; simpl in *;
    try lia; auto.
  apply IH. lia.
Qed.

Lemma zip2_shape {A B D : Type} (f : A -> B -> D)
    (X : list (list A)) (Y : list (list B)) (S : list (list D)) :
  zip2 f X Y = Some S -> same_shape X S = true.
Proof.
  unfold zip2. destruct (same_shape X Y) eqn:E; [|discriminate].
  intros H. inversion H; subst; clear H.
  apply same_shape_spec in E. destruct E as [HL HR].
  apply same_shape_spec. split.
  - rewrite length_map, length_combine. lia.
  - intros k Hk.
    rewrite (nth_map_lt _ _ _ ([], [])) by (rewrite length_combine; lia).
    rewrite combine_nth by exact HL. simpl.
    rewrite length_map, length_combine, <- HR by exact Hk. lia.
Qed.

Lemma zip2_nth {A B D : Type} (f : A -> B -> D)
    (X : list (list A)) (Y : list (list B)) (S : list (list D))
    (a : A) (b : B) (d : D) (row col : nat) :
  zip2 f X Y = Some S ->
  (row < length X)%nat -> (col < length (nth row X []))%nat ->
  nth col (nth row S []) d
  = f (nth col (nth row X []) a) (nth col (nth row Y []) b).
Proof.
  unfold zip2. destruct (same_shape X Y) eqn:E; [|discriminate].
  intros H Hr Hc. inversion H; subst; clear H.
  apply same_shape_spec in E. destruct E as [HL HR].
  rewrite (nth_map_lt _ _ _ ([], [])) by (rewrite length_combine; lia).
  rewrite combine_nth by exact HL. simpl.
  rewrite (nth_map_lt _ _ _ (a, b))
    by (rewrite length_combine, <- HR by exact Hr; lia).
  rewrite combine_nth by (apply HR; exact Hr).
  reflexivity.
Qed.

Lemma zip2_defined {A B D : Type} (f : A -> B -> D)
    (X : list (list A)) (Y : list (list B)) :
  same_shape X Y = true -> exists S, zip2 f X Y = Some S.
Proof.
  intros E. unfold zip2. rewrite E. eexists. reflexivity.
Qed.

(** ** The symmetrised reference *)

Section SymmetryProperties.

Variable ndimage_rotate : Image -> R -> Image.

(** [reshape=False]: the rotated copy has the shape of its input. *)
Hypothesis rotate_keeps_shape :
  forall image angle, same_shape image (ndimage_rotate image angle) = true.

Lemma sum_of_copies {T : Type} (ang : T -> R) (base : Image) (l : list T)
    (acc : Image) :
  same_shape base acc = true ->
  exists out,
    foldM (fun acc i => iadd acc (ndimage_rotate base (ang i))) l acc
      = Some out
    /\ same_shape base out = true
    /\ forall row col,
         (row < length base)%nat -> (col < length (nth row base []))%nat ->
         get2 out row col
         = get2 acc row col
           + Rsum (map (fun i => get2 (ndimage_rotate base (ang i)) row col)
                       l).
Proof.
  revert acc. induction l as [|i t IH]; intros acc Hacc; simpl.
  - exists acc. repeat split; auto. intros; lra.
  - assert (Hs : same_shape acc (ndimage_rotate base (ang i)) = true).
    { eapply same_shape_trans; [apply same_shape_sym; exact Hacc|].
      apply rotate_keeps_shape. }
    destruct (zip2_defined Rplus _ _ Hs) as (S & ES).
    unfold iadd at 1. rewrite ES. simpl.
    assert (HS : same_shape base S = true).
    { eapply same_shape_trans; [exact Hacc|]. eapply zip2_shape; exact ES. }
    destruct (IH S HS) as (out & Eo & Ho & Hv).
    exists out. repeat split; auto.
    intros row col Hr Hc. rewrite Hv by assumption.
    apply same_shape_spec in Hacc. destruct Hacc as [La Ra].
    unfold get2 at 1.
    rewrite (zip2_nth Rplus _ _ _ 0 0 0 row col ES)
      by (rewrite <- ?Ra; lia).
    unfold get2. lra.
Qed.

(** C9: for a symmetry order [k >= 2] the symmetrised reference of the
    first channel is, pixel by pixel, the base image plus its [k - 1]
    copies rotated by [i * 360 / k] degrees, [i = 1 .. k-1]; for a list of
    angles it is the base plus one rotated copy per listed angle; in both
    cases it has the shape of the base image. *)
Theorem symmetry_builder_sum (k : Z) (degrees : list R) (base : Image)
    (others : list Image) :
  (2 <= k)%Z ->
  (exists out,
     symmetrize_order ndimage_rotate k (base :: others)
       = Some (out :: others)
     /\ same_shape base out = true
     /\ forall row col,
          (row < length base)%nat -> (col < length (nth row base []))%nat ->
          get2 out row col
          = get2 base row col
            + Rsum (map (fun i => get2 (ndimage_rotate base
                                          (INR i * 360 / IZR k)) row col)
                        (seq 1 (Z.to_nat (k - 1)))))
  /\ (exists out,
        symmetrize_custom ndimage_rotate degrees (base :: others)
          = Some (out :: others)
        /\ same_shape base out = true
        /\ forall row col,
             (row < length base)%nat ->
             (col < length (nth row base []))%nat ->
             get2 out row col
             = get2 base row col
               + Rsum (map (fun d => get2 (ndimage_rotate base d) row col)
                           degrees)).
Proof.
  intros Hk. split.
  - destruct (sum_of_copies (fun i => (INR i + 1) * 360 / IZR k) base
                (seq 0 (Z.to_nat (k - 1))) base (same_shape_refl base))
      as (out & Eo & Ho & Hv).
    exists out. unfold symmetrize_order. rewrite Eo. simpl.
    repeat split; auto.
    intros row col Hr Hc. rewrite Hv by assumption. f_equal. f_equal.
    rewrite <- seq_shift, map_map.
    apply map_ext. intros i. now rewrite S_INR.
  - destruct (sum_of_copies (fun d : R => d) base degrees base
                (same_shape_refl base)) as (out & Eo & Ho & Hv).
    exists out. unfold symmetrize_custom. rewrite Eo. simpl.
    repeat split; auto.
Qed.

(** C10.  In rotate_groups and in rotatexy_convolution the two symmetry
    blocks replace the reference of the first channel only.  With the order
    [symEdit] requested, the first reference becomes, pixel by pixel, the
    plain render plus its copies rotated by [i * 360 / symEdit] degrees,
    [i = 1 .. symEdit - 1]; with custom angles requested, one copy of the
    image the first block has left, rotated by each listed angle, is added
    to it.  The references of all other channels are their plain renders
    (their conjugate transforms in rotate_groups), and these are the
    references every group is scored against. *)
Theorem symmetry_first_channel_only (w : Window) (base : Image)
    (others : list Image) :
  exists o1 out,
    rotatexy_convolution_reference ndimage_rotate w (base :: others)
      = Some (out :: others)
    /\ rotate_groups_reference ndimage_rotate w (base :: others)
       = Some (map (fun im => map (map Cconj) (fft2 (map (map RtoC) im)))
                   (out :: others))
    /\ same_shape base o1 = true
    /\ same_shape base out = true
    /\ (forall row col,
          (row < length base)%nat -> (col < length (nth row base []))%nat ->
          get2 o1 row col
          = get2 base row col
            + (if radio_sym w
               then Rsum (map (fun i =>
                                 get2 (ndimage_rotate base
                                         (INR i * 360 / IZR (symEdit w)))
                                      row col)
                              (seq 1 (Z.to_nat (symEdit w - 1))))
               else 0))
    /\ (forall row col,
          (row < length base)%nat -> (col < length (nth row base []))%nat ->
          get2 out row col
          = get2 o1 row col
            + (if radio_sym_custom w
               then Rsum (map (fun d => get2 (ndimage_rotate o1 d) row col)
                              (symcustomEdit w))
               else 0))
    /\ (radio_sym w = false -> o1 = base)
    /\ (radio_sym_custom w = false -> out = o1)
    /\ (forall angles0 rotaxis proplane,
          rotatexy_convolution_state ndimage_rotate w (base :: others)
                                     angles0 rotaxis proplane
          = (gi0 <- nth_error (group_index w) 0 ;;
             foldM (fun w i =>
                      rotatexy_convolution_group w (out :: others) angles0
                                                 i rotaxis proplane)
                   (seq 0 (length gi0)) w))
    /\ (forall angles0 rotaxis proplane,
          rotate_groups_state ndimage_rotate w (base :: others)
                              angles0 rotaxis proplane
          = (gi0 <- nth_error (group_index w) 0 ;;
             foldM (fun w i =>
                      align_group w
                        (map (fun im =>
                                map (map Cconj) (fft2 (map (map RtoC) im)))
                             (out :: others))
                        angles0 i rotaxis proplane)
                   (seq 0 (length gi0)) w)).
Proof.
  assert (Ord : exists o1,
            (if radio_sym w
             then symmetrize_order ndimage_rotate (symEdit w)
                                   (base :: others)
             else Some (base :: others)) = Some (o1 :: others)
            /\ same_shape base o1 = true
            /\ (forall row col,
                  (row < length base)%nat ->
                  (col < length (nth row base []))%nat ->
                  get2 o1 row col
                  = get2 base row col
                    + (if radio_sym w
                       then Rsum (map (fun i =>
                                         get2 (ndimage_rotate base
                                                 (INR i * 360
                                                  / IZR (symEdit w)))
                                              row col)
                                      (seq 1 (Z.to_nat (symEdit w - 1))))
                       else 0))
            /\ (radio_sym w = false -> o1 = base)).
  { destruct (radio_sym w).
    - destruct (sum_of_copies (fun i => (INR i + 1) * 360 / IZR (symEdit w))
                  base (seq 0 (Z.to_nat (symEdit w - 1))) base
                  (same_shape_refl base)) as (o1 & Eo & Ho & Hv).
      exists o1. unfold symmetrize_order. rewrite Eo. simpl.
      split; [reflexivity|]. split; [exact Ho|]. split; [|discriminate].
      intros row col Hr Hc. rewrite Hv by assumption. f_equal. f_equal.
      rewrite <- seq_shift, map_map.
      apply map_ext. intros i. now rewrite S_INR.
    - exists base. split; [reflexivity|].
      split; [apply same_shape_refl|]. split; [intros; ring | reflexivity]. }
  destruct Ord as (o1 & E1 & S1 & V1 & B1).
  assert (Cus : exists o2,
            (if radio_sym_custom w
             then symmetrize_custom ndimage_rotate (symcustomEdit w)
                                    (o1 :: others)
             else Some (o1 :: others)) = Some (o2 :: others)
            /\ same_shape o1 o2 = true
            /\ (forall row col,
                  (row < length o1)%nat ->
                  (col < length (nth row o1 []))%nat ->
                  get2 o2 row col
                  = get2 o1 row col
                    + (if radio_sym_custom w
                       then Rsum (map (fun d =>
                                         get2 (ndimage_rotate o1 d) row col)
                                      (symcustomEdit w))
                       else 0))
            /\ (radio_sym_custom w = false -> o2 = o1)).
  { destruct (radio_sym_custom w).
    - destruct (sum_of_copies (fun d : R => d) o1 (symcustomEdit w) o1
                  (same_shape_refl o1)) as (o2 & Eo & Ho & Hv).
      exists o2. unfold symmetrize_custom. rewrite Eo. simpl.
      split; [reflexivity|]. split; [exact Ho|]. split; [|discriminate].
      exact Hv.
    - exists o1. split; [reflexivity|].
      split; [apply same_shape_refl|]. split; [intros; ring | reflexivity]. }
  destruct Cus as (o2 & E2 & S2 & V2 & B2).
  assert (E : symmetrize ndimage_rotate w (base :: others)
              = Some (o2 :: others)).
  { unfold symmetrize. rewrite E1. simpl. exact E2. }
  exists o1, o2.
  unfold rotatexy_convolution_state, rotate_groups_state,
    rotatexy_convolution_reference, rotate_groups_reference.
  rewrite E. cbn [bind].
  split; [reflexivity|]. split; [reflexivity|]. split; [exact S1|].
  split; [eapply same_shape_trans; eassumption|].
  split; [exact V1|]. split.
  { intros row col Hr Hc. apply V2.
    - apply same_shape_spec in S1. destruct S1 as [L _]. lia.
    - apply same_shape_spec in S1. destruct S1 as [L Rw].
      rewrite <- Rw by exact Hr. exact Hc. }
  split; [exact B1|]. split; [exact B2|].
  split; intros angles0 rotaxis proplane;
    destruct (nth_error (group_index w) 0); reflexivity.
Qed.

End SymmetryProperties.

(** ** Fancy indexing *)

Lemma in_range_forallb (n : nat) (index : list nat) :
  forallb (fun i => (i <? n)%nat) index = true <->
  Forall (fun i => (i < n)%nat) index.
Proof.
  rewrite forallb_forall, Forall_forall.
  split; intros H i Hi; specialize (H i Hi); apply Nat.ltb_lt; exact H.
Qed.

Lemma gather_in_range (a : list R) (index : list nat) :
  Forall (fun i => (i < length a)%nat) index ->
  gather a index = Some (map (fun i => nth i a 0) index).
Proof.
  intros H. unfold gather.
  rewrite (proj2 (in_range_forallb _ _) H). reflexivity.
Qed.

Lemma scatter_fold (F : nat -> R) (index : list nat) (a : list R) :
  Forall (fun i => (i < length a)%nat) index ->
  let a' := fold_left (fun acc iv => upd (fun _ => snd iv) (fst iv) acc)
                      (combine index (map F index)) a in
  length a' = length a
  /\ (forall i, In i index -> nth i a' 0 = F i)
  /\ (forall i, ~ In i index -> nth i a' 0 = nth i a 0).
Proof.
  revert a. induction index as [|i0 t IH]; intros a Hr; simpl.
  - repeat split; tauto.
  - apply Forall_cons_iff in Hr. destruct Hr as [H0 Ht].
    assert (Ht' : Forall (fun i => (i < length (upd (fun _ => F i0) i0 a))%nat)
                         t)
      by (rewrite upd_length; exact Ht).
    destruct (IH _ Ht') as (L & Hin & Hout).
    rewrite upd_length in L.
    split; [exact L|]. split.
    + intros i [<- | Hi].
      * destruct (in_dec Nat.eq_dec i0 t) as [Hi|Hi]; [apply Hin; exact Hi|].
        rewrite Hout by exact Hi. apply nth_upd_same. exact H0.
      * apply Hin. exact Hi.
    + intros i Hi.
      rewrite Hout by tauto. apply nth_upd_other. intros ->. tauto.
Qed.

Lemma scatter_pointwise (F : nat -> R) (index : list nat) (a : list R) :
  Forall (fun i => (i < length a)%nat) index ->
  exists a',
    scatter a index (map F index) = Some a'
    /\ length a' = length a
    /\ (forall i, In i index -> nth i a' 0 = F i)
    /\ (forall i, ~ In i index -> nth i a' 0 = nth i a 0).
Proof.
  intros H. unfold scatter.
  rewrite (proj2 (in_range_forallb _ _) H), length_map, Nat.eqb_refl. simpl.
  eexists. split; [reflexivity|]. apply scatter_fold. exact H.
Qed.

Lemma isub_pointwise (a : list R) (index : list nat) (d : R) :
  Forall (fun i => (i < length a)%nat) index ->
  exists a',
    isub a index d = Some a'
    /\ length a' = length a
    /\ (forall i, In i index -> nth i a' 0 = nth i a 0 - d)
    /\ (forall i, ~ In i index -> nth i a' 0 = nth i a 0).
Proof.
  intros H. unfold isub. rewrite gather_in_range by exact H. simpl.
  rewrite map_map.
  apply (scatter_pointwise (fun i => nth i a 0 - d)). exact H.
Qed.

Lemma mapM_In {A B : Type} (f : A -> option B) (g : A -> B) (l : list A) :
  (forall a, In a l -> f a = Some (g a)) -> mapM f l = Some (map g l).
Proof.
  induction l as [|a t IH]; intros H; [reflexivity|].
  cbn [mapM map]. rewrite (H a) by (simpl; auto). cbn [bind].
  rewrite IH by (intros; apply H; simpl; auto). reflexivity.
Qed.

Lemma mapM_total {A B : Type} (f : A -> option B) (g : A -> B) (l : list A) :
  (forall a, f a = Some (g a)) -> mapM f l = Some (map g l).
Proof.
  intros H. induction l as [|a t IH]; simpl; auto.
  rewrite H, IH. reflexivity.
Qed.

Lemma rotate_axis_known (axis : string) (vx vy vz angle pixelsize : R) :
  In axis ["x"; "y"; "z"]%string ->
  rotate_axis axis vx vy vz angle pixelsize
  = Some (rotated axis angle pixelsize (vx, vy, vz)).
Proof.
  intros H. simpl in H.
  destruct H as [<- | [<- | [<- | []]]]; reflexivity.
Qed.

Lemma rotate_axis_arr_members (axis : string) (fx fy fz : nat -> R)
    (index : list nat) (angle pixelsize : R) :
  In axis ["x"; "y"; "z"]%string ->
  rotate_axis_arr axis (map fx index) (map fy index) (map fz index)
                  angle pixelsize
  = Some
      (map (fun i => fst (fst (rotated axis angle pixelsize
                                       (fx i, fy i, fz i)))) index,
       map (fun i => snd (fst (rotated axis angle pixelsize
                                       (fx i, fy i, fz i)))) index,
       map (fun i => snd (rotated axis angle pixelsize
                                  (fx i, fy i, fz i))) index).
Proof.
  intros H. unfold rotate_axis_arr.
  rewrite (rotate_axis_known axis 0 0 0 angle pixelsize H). simpl.
  rewrite !combine_map_same.
  rewrite (mapM_total _
             (fun p => rotated axis angle pixelsize p)).
  - simpl. rewrite !map_map. reflexivity.
  - intros [[a b] c]. simpl. apply rotate_axis_known. exact H.
Qed.

(** ** Channels and their members *)

Lemma Forall2_nth_error_l {A B : Type} (P : A -> B -> Prop)
    (l : list A) (l' : list B) (j : nat) (a : A) :
  Forall2 P l l' -> nth_error l j = Some a ->
  exists b, nth_error l' j = Some b /\ P a b.
Proof.
  intros H. revert j. induction H as [|a0 b0 l l' H0 H IH]; intros j E.
  - destruct j; discriminate.
  - destruct j as [|j]; simpl in *.
    + inversion E; subst. eauto.
    + apply IH. exact E.
Qed.

Lemma members_ok (w : Window) (g j : nat) (lj : Locs) :
  well_formed w -> group_present w g ->
  nth_error (locs w) j = Some lj ->
  exists index,
    members w j g = Some index
    /\ Forall (fun i => (i < length (x lj))%nat) index
    /\ length (x lj) = length (y lj)
    /\ length (y lj) = length (z lj).
Proof.
  intros [_ WF] GP E.
  destruct (Forall2_nth_error_l _ _ _ _ _ WF E) as (rows & Er & [Cxy Cyz Rr]).
  unfold group_present in GP. rewrite Forall_forall in GP.
  assert (Hg : (g < length rows)%nat)
    by (apply GP; eapply nth_error_In; exact Er).
  destruct (nth_error rows g) as [index|] eqn:Ei.
  - exists index. unfold members. rewrite Er. simpl. rewrite Ei.
    repeat split; auto.
    rewrite Forall_forall in Rr. apply Rr. eapply nth_error_In. exact Ei.
  - apply nth_error_None in Ei. lia.
Qed.

Lemma mapMi_pointwise {A B : Type} (f : nat -> A -> option B)
    (P : nat -> A -> B -> Prop) (l : list A) (j0 : nat) :
  (forall j a, nth_error l j = Some a ->
               exists b, f (j0 + j)%nat a = Some b /\ P (j0 + j)%nat a b) ->
  exists l',
    mapMi f j0 l = Some l'
    /\ Forall2 (fun a b => exists j, P j a b) l l'
    /\ forall j a, nth_error l j = Some a ->
                   exists b, nth_error l' j = Some b /\ P (j0 + j)%nat a b.
Proof.
  revert j0. induction l as [|a t IH]; intros j0 H; simpl.
  - exists []. repeat split; auto. intros [|j] a E; discriminate.
  - destruct (H 0%nat a eq_refl) as (b & Eb & Pb).
    rewrite Nat.add_0_r in Eb, Pb. rewrite Eb. simpl.
    destruct (IH (S j0)) as (t' & Et & F2 & Hn).
    { intros j a' E. specialize (H (S j) a' E).
      now rewrite Nat.add_succ_r in H. }
    rewrite Et. simpl. exists (b :: t'). split; [reflexivity|]. split.
    + constructor; eauto.
    + intros [|j] a' E; simpl in *.
      * inversion E; subst. exists b. rewrite Nat.add_0_r. auto.
      * destruct (Hn j a' E) as (b' & Eb' & Pb').
        exists b'. rewrite Nat.add_succ_r. auto.
Qed.

Lemma rotate_members_effect (w : Window) (j g : nat) (rotaxis : string)
    (rotfinal : R) (lj : Locs) (index : list nat) :
  In rotaxis ["x"; "y"; "z"]%string ->
  members w j g = Some index ->
  Forall (fun i => (i < length (x lj))%nat) index ->
  length (x lj) = length (y lj) -> length (y lj) = length (z lj) ->
  exists lj',
    rotate_members w j g rotaxis rotfinal lj = Some lj'
    /\ group lj' = group lj
    /\ length (x lj') = length (x lj)
    /\ length (y lj') = length (y lj)
    /\ length (z lj') = length (z lj)
    /\ (forall i, In i index ->
          point lj' i = rotated rotaxis rotfinal (pixelsize w) (point lj i))
    /\ (forall i, ~ In i index -> point lj' i = point lj i).
Proof.
  intros Hax Hm Hx Lxy Lyz.
  assert (Hy : Forall (fun i => (i < length (y lj))%nat) index)
    by (rewrite <- Lxy; exact Hx).
  assert (Hz : Forall (fun i => (i < length (z lj))%nat) index)
    by (rewrite <- Lyz; exact Hy).
  unfold rotate_members. rewrite Hm. simpl.
  rewrite !gather_in_range by assumption. simpl.
  rewrite rotate_axis_arr_members by exact Hax. simpl.
  destruct (scatter_pointwise
              (fun i => fst (fst (rotated rotaxis rotfinal (pixelsize w)
                                          (point lj i)))) index (x lj) Hx)
    as (lx & Ex & Lx & Ix & Ox).
  destruct (scatter_pointwise
              (fun i => snd (fst (rotated rotaxis rotfinal (pixelsize w)
                                          (point lj i)))) index (y lj) Hy)
    as (ly & Ey & Ly & Iy & Oy).
  destruct (scatter_pointwise
              (fun i => snd (rotated rotaxis rotfinal (pixelsize w)
                                     (point lj i))) index (z lj) Hz)
    as (lz & Ez & Lz & Iz & Oz).
  unfold point in Ex, Ey, Ez. rewrite Ex, Ey, Ez. simpl.
  eexists. split; [reflexivity|]. simpl.
  repeat split; auto.
  - intros i Hi. unfold point at 1. simpl.
    rewrite Ix, Iy, Iz by exact Hi.
    now destruct (rotated rotaxis rotfinal (pixelsize w) (point lj i))
      as [[a b] c].
  - intros i Hi. unfold point. simpl.
    rewrite Ox, Oy, Oz by exact Hi. reflexivity.
Qed.

Lemma shift_members_effect (w : Window) (j g : nat) (proplane : string)
    (dafinal dbfinal : R) (lj : Locs) (index : list nat) :
  members w j g = Some index ->
  Forall (fun i => (i < length (x lj))%nat) index ->
  length (x lj) = length (y lj) -> length (y lj) = length (z lj) ->
  exists lj',
    shift_members w j g proplane dafinal dbfinal lj = Some lj'
    /\ group lj' = group lj
    /\ length (x lj') = length (x lj)
    /\ length (y lj') = length (y lj)
    /\ length (z lj') = length (z lj)
    /\ (forall i, In i index ->
          point lj' i
          = shifted proplane dafinal (if translatebtn w then 0 else dbfinal)
                    (pixelsize w) (point lj i))
    /\ (forall i, ~ In i index -> point lj' i = point lj i).
Proof.
  intros Hm Hx Lxy Lyz.
  assert (Hy : Forall (fun i => (i < length (y lj))%nat) index)
    by (rewrite <- Lxy; exact Hx).
  assert (Hz : Forall (fun i => (i < length (z lj))%nat) index)
    by (rewrite <- Lyz; exact Hy).
  unfold shift_members, shifted. rewrite Hm. simpl.
  set (db := if translatebtn w then 0 else dbfinal).
  destruct (String.eqb proplane "xy").
  { destruct (isub_pointwise (x lj) index dafinal Hx) as (lx & Ex & Lx & Ix & Ox).
    destruct (isub_pointwise (y lj) index db Hy) as (ly & Ey & Ly & Iy & Oy).
    rewrite Ex, Ey. simpl. eexists. split; [reflexivity|]. simpl.
    repeat split; auto.
    - intros i Hi. unfold point. simpl. now rewrite Ix, Iy by exact Hi.
    - intros i Hi. unfold point. simpl. now rewrite Ox, Oy by exact Hi. }
  destruct (String.eqb proplane "yz").
  { destruct (isub_pointwise (y lj) index dafinal Hy) as (ly & Ey & Ly & Iy & Oy).
    destruct (isub_pointwise (z lj) index (db * pixelsize w) Hz)
      as (lz & Ez & Lz & Iz & Oz).
    rewrite Ey, Ez. simpl. eexists. split; [reflexivity|]. simpl.
    repeat split; auto.
    - intros i Hi. unfold point. simpl. now rewrite Iy, Iz by exact Hi.
    - intros i Hi. unfold point. simpl. now rewrite Oy, Oz by exact Hi. }
  destruct (String.eqb proplane "xz").
  { destruct (isub_pointwise (z lj) index dafinal Hz) as (lz & Ez & Lz & Iz & Oz).
    destruct (isub_pointwise (x lj) index (db * pixelsize w) Hx)
      as (lx & Ex & Lx & Ix & Ox).
    rewrite Ez, Ex. simpl. eexists. split; [reflexivity|]. simpl.
    repeat split; auto.
    - intros i Hi. unfold point. simpl. now rewrite Ix, Iz by exact Hi.
    - intros i Hi. unfold point. simpl. now rewrite Ox, Oz by exact Hi. }
  exists lj. repeat split; auto.
Qed.

(** The write-back loop of align_group: every channel, checked or not, has
    the members of the group rotated and then shifted. *)
Lemma align_writeback (w : Window) (g : nat) (rotaxis proplane : string)
    (rotfinal dafinal dbfinal : R) :
  well_formed w -> group_present w g ->
  In rotaxis ["x"; "y"; "z"]%string ->
  exists ls,
    mapMi (fun j lj =>
             lj' <- rotate_members w j g rotaxis rotfinal lj ;;
             shift_members w j g proplane dafinal dbfinal lj')
          0 (locs w) = Some ls
    /\ forall j lj, nth_error (locs w) j = Some lj ->
         exists lj' index,
           nth_error ls j = Some lj'
           /\ members w j g = Some index
           /\ group lj' = group lj
           /\ (forall i, In i index ->
                 point lj' i
                 = shifted proplane dafinal
                     (if translatebtn w then 0 else dbfinal) (pixelsize w)
                     (rotated rotaxis rotfinal (pixelsize w) (point lj i)))
           /\ (forall i, ~ In i index -> point lj' i = point lj i).
Proof.
  intros WF GP Hax.
  destruct (mapMi_pointwise
              (fun j lj =>
                 lj' <- rotate_members w j g rotaxis rotfinal lj ;;
                 shift_members w j g proplane dafinal dbfinal lj')
              (fun j lj lj' =>
                 exists index,
                   members w j g = Some index
                   /\ group lj' = group lj
                   /\ (forall i, In i index ->
                         point lj' i
                         = shifted proplane dafinal
                             (if translatebtn w then 0 else dbfinal)
                             (pixelsize w)
                             (rotated rotaxis rotfinal (pixelsize w)
                                      (point lj i)))
                   /\ (forall i, ~ In i index -> point lj' i = point lj i))
              (locs w) 0%nat) as (ls & Els & _ & Hn).
  - intros j lj E. simpl.
    destruct (members_ok w g j lj WF GP E) as (index & Hm & Hx & Lxy & Lyz).
    destruct (rotate_members_effect w j g rotaxis rotfinal lj index
                Hax Hm Hx Lxy Lyz)
      as (l1 & E1 & G1 & X1 & Y1 & Z1 & I1 & O1).
    rewrite E1. simpl.
    destruct (shift_members_effect w j g proplane dafinal dbfinal l1 index Hm)
      as (l2 & E2 & G2 & X2 & Y2 & Z2 & I2 & O2);
      try congruence.
    { rewrite X1. exact Hx. }
    exists l2. split; [exact E2|]. exists index.
    repeat split; auto; try congruence.
    + intros i Hi. rewrite I2, I1 by exact Hi. reflexivity.
    + intros i Hi. rewrite O2, O1 by exact Hi. reflexivity.
  - exists ls. split; [exact Els|].
    intros j lj E. destruct (Hn j lj E) as (lj' & E' & index & H).
    exists lj', index. simpl in H. tauto.
Qed.

(** The write-back loop of rotatexy_convolution_group: a rotation only. *)
Lemma rotate_writeback (w : Window) (g : nat) (rotaxis : string)
    (rotfinal : R) :
  well_formed w -> group_present w g ->
  In rotaxis ["x"; "y"; "z"]%string ->
  exists ls,
    mapMi (fun j lj => rotate_members w j g rotaxis rotfinal lj)
          0 (locs w) = Some ls
    /\ forall j lj, nth_error (locs w) j = Some lj ->
         exists lj' index,
           nth_error ls j = Some lj'
           /\ members w j g = Some index
           /\ group lj' = group lj
           /\ (forall i, In i index ->
                 point lj' i
                 = rotated rotaxis rotfinal (pixelsize w) (point lj i))
           /\ (forall i, ~ In i index -> point lj' i = point lj i).
Proof.
  intros WF GP Hax.
  destruct (mapMi_pointwise
              (fun j lj => rotate_members w j g rotaxis rotfinal lj)
              (fun j lj lj' =>
                 exists index,
                   members w j g = Some index
                   /\ group lj' = group lj
                   /\ (forall i, In i index ->
                         point lj' i
                         = rotated rotaxis rotfinal (pixelsize w) (point lj i))
                   /\ (forall i, ~ In i index -> point lj' i = point lj i))
              (locs w) 0%nat) as (ls & Els & _ & Hn).
  - intros j lj E. simpl.
    destruct (members_ok w g j lj WF GP E) as (index & Hm & Hx & Lxy & Lyz).
    destruct (rotate_members_effect w j g rotaxis rotfinal lj index
                Hax Hm Hx Lxy Lyz)
      as (l1 & E1 & G1 & X1 & Y1 & Z1 & I1 & O1).
    exists l1. split; [exact E1|]. exists index. repeat split; auto.
  - exists ls. split; [exact Els|].
    intros j lj E. destruct (Hn j lj E) as (lj' & E' & index & H).
    exists lj', index. simpl in H. tauto.
Qed.

(** ** Score arrays *)

Lemma zeros_shaped (rows cols : nat) : shaped (zeros rows cols) rows cols.
Proof.
  split; [apply zeros_length | apply zeros_rows_length].
Qed.

Lemma shaped_row {A : Type} (M : list (list A)) (rows cols k : nat) :
  shaped M rows cols -> (k < rows)%nat -> length (nth k M []) = cols.
Proof.
  intros [L F] Hk. rewrite Forall_forall in F. apply F.
  apply nth_In. lia.
Qed.

Lemma set2_shaped (M : Image) (rows cols k j : nat) (v : R) :
  shaped M rows cols -> (k < rows)%nat -> (j < cols)%nat ->
  exists M',
    set2 M k j v = Some M'
    /\ shaped M' rows cols
    /\ forall k' j',
         get2 M' k' j'
         = if (k' =? k)%nat && (j' =? j)%nat then v else get2 M k' j'.
Proof.
  intros S Hk Hj. assert (Lr := shaped_row M rows cols k S Hk).
  destruct S as [L F]. unfold set2.
  replace (k <? length M)%nat with true by (symmetry; apply Nat.ltb_lt; lia).
  replace (j <? length (nth k M []))%nat with true
    by (symmetry; apply Nat.ltb_lt; lia).
  simpl. eexists. split; [reflexivity|]. split.
  - split; [rewrite upd_length; exact L|].
    apply rows_of_nth. intros k' Hk'. rewrite upd_length in Hk'.
    destruct (Nat.eq_dec k' k) as [->|Hne].
    + rewrite nth_upd_same by lia. rewrite upd_length. exact Lr.
    + rewrite nth_upd_other by exact Hne.
      rewrite Forall_forall in F. apply F. apply nth_In. exact Hk'.
  - intros k' j'. unfold get2.
    destruct (Nat.eqb_spec k' k) as [->|Hne]; simpl.
    + rewrite nth_upd_same by lia.
      destruct (Nat.eqb_spec j' j) as [->|Hnj].
      * apply nth_upd_same. lia.
      * apply nth_upd_other. exact Hnj.
    + rewrite nth_upd_other by exact Hne. reflexivity.
Qed.

(** ** The scoring loops *)

Lemma filled_ext {T : Type} (f : Window -> T -> Image -> option (R * R * R))
    (w : Window) (CF : list T) (angles0 : list R) (g : nat)
    (rotaxis proplane : string) (done done' : nat -> nat -> bool)
    (st : Scores) :
  (forall k j, (k < length angles0)%nat -> (j < length (locs w))%nat ->
               done k j = done' k j) ->
  filled f w CF angles0 g rotaxis proplane done st ->
  filled f w CF angles0 g rotaxis proplane done' st.
Proof.
  intros E (A & N & S1 & S2 & S3 & V).
  repeat split; try assumption; try apply S1; try apply S2; try apply S3.
  intros k j Hk Hj. rewrite <- E by assumption. apply V; assumption.
Qed.

Section Search.

Context {T : Type}.
Variable record :
  Window -> T -> Image -> nat -> nat -> Scores -> option Scores.
Variable f : Window -> T -> Image -> option (R * R * R).

(** What the loops need of [record]: it stores the triple [f] computes at
    [k, j] and touches nothing else. *)
Hypothesis record_stores :
  forall w CFj image k j st s da db rows cols,
    f w CFj image = Some (s, da, db) ->
    shaped (all_xcorr st) rows cols ->
    shaped (all_da st) rows cols ->
    shaped (all_db st) rows cols ->
    (k < rows)%nat -> (j < cols)%nat ->
    get2 (all_da st) k j = 0 -> get2 (all_db st) k j = 0 ->
    exists st',
      record w CFj image k j st = Some st'
      /\ angles st' = angles st
      /\ n_angles st' = n_angles st
      /\ shaped (all_xcorr st') rows cols
      /\ shaped (all_da st') rows cols
      /\ shaped (all_db st') rows cols
      /\ forall k' j',
           (get2 (all_xcorr st') k' j', get2 (all_da st') k' j',
            get2 (all_db st') k' j')
           = if (k' =? k)%nat && (j' =? j)%nat then (s, da, db)
             else (get2 (all_xcorr st) k' j', get2 (all_da st) k' j',
                   get2 (all_db st) k' j').

Variable w : Window.
Variable CF : list T.
Variable angles0 : list R.
Variable g : nat.
Variables rotaxis proplane : string.

Hypothesis WF : well_formed w.
Hypothesis GP : group_present w g.
Hypothesis rotation_mode : translatebtn w = false.
Hypothesis cells : cells_defined f w CF angles0 g rotaxis proplane.

Local Abbreviation Filled := (filled f w CF angles0 g rotaxis proplane).

Lemma entry_of_cell (k j : nat) (lj : Locs) (index : list nat) (angle : R)
    (N : nat) (image : Image) (CFj : T) (t : R * R * R) :
  nth_error (checks w) j = Some true ->
  nth_error (locs w) j = Some lj ->
  members w j g = Some index ->
  nth_error angles0 k = Some angle ->
  group_image w lj index rotaxis proplane angle = Some (N, image) ->
  nth_error CF j = Some CFj ->
  f w CFj image = Some t ->
  entry f w CF angles0 g rotaxis proplane k j = t.
Proof.
  intros Hc Hl Hm Ha Hg HC Hf. unfold entry.
  rewrite (nth_error_nth _ _ false Hc), Hl. simpl.
  rewrite Hm. simpl. rewrite Ha. simpl. rewrite Hg. simpl.
  rewrite HC. simpl. rewrite Hf. reflexivity.
Qed.

Lemma score_angle_step (j k : nat) (lj : Locs) (index : list nat)
    (st : Scores) :
  nth_error (checks w) j = Some true ->
  nth_error (locs w) j = Some lj ->
  members w j g = Some index ->
  Forall (fun i => (i < length (x lj))%nat) index ->
  length (x lj) = length (y lj) -> length (y lj) = length (z lj) ->
  (k < length angles0)%nat ->
  Filled (processed j k) st ->
  exists st',
    score_angle record w CF rotaxis proplane
      (map (fun i => nth i (x lj) 0) index)
      (map (fun i => nth i (y lj) 0) index)
      (map (fun i => nth i (z lj) 0) index) j st k = Some st'
    /\ Filled (processed j (S k)) st'.
Proof.
  intros Hc Hl Hm Hx Lxy Lyz Hk (A & N & S1 & S2 & S3 & V).
  assert (Hj : (j < length (locs w))%nat).
  { apply nth_error_Some. congruence. }
  destruct (nth_error angles0 k) as [angle|] eqn:Ea;
    [|apply nth_error_None in Ea; lia].
  destruct (cells k j lj index angle Hc Hl Hm Ea)
    as (Ni & image & CFj & [[s da] db] & Hg & HC & Hf).
  assert (Et := entry_of_cell k j lj index angle Ni image CFj _
                  Hc Hl Hm Ea Hg HC Hf).
  unfold group_image in Hg.
  rewrite !gather_in_range in Hg
    by (try rewrite <- Lyz; try rewrite <- Lxy; exact Hx).
  simpl in Hg.
  unfold score_angle. rewrite A, Ea. simpl.
  destruct (rotate_axis_arr rotaxis _ _ _ angle (pixelsize w))
    as [[[xr yr] zr]|]; [|discriminate].
  simpl in *. unfold render_planes. rewrite Hg. simpl. rewrite HC. simpl.
  assert (V0 := V k j Hk Hj).
  unfold processed in V0 at 1.
  rewrite Nat.ltb_irrefl, Nat.ltb_irrefl, andb_false_r in V0.
  simpl in V0. injection V0 as Vx Vda Vdb.
  destruct (record_stores w CFj image k j st s da db _ _ Hf S1 S2 S3
              Hk Hj Vda Vdb)
    as (st' & Er & A' & N' & S1' & S2' & S3' & V').
  exists st'. split; [exact Er|].
  repeat split; try congruence;
    try apply S1'; try apply S2'; try apply S3'.
  intros k' j' Hk' Hj'. rewrite V'.
  unfold processed.
  destruct (Nat.eqb_spec k' k) as [->|Hne];
    destruct (Nat.eqb_spec j' j) as [->|Hnj]; simpl.
  - replace (k <? S k)%nat with true by (symmetry; apply Nat.ltb_lt; lia).
    rewrite orb_true_r. symmetry. exact Et.
  - rewrite V by assumption. unfold processed.
    destruct (Nat.eqb_spec j' j); [contradiction|]. reflexivity.
  - rewrite V by assumption. unfold processed.
    rewrite Nat.eqb_refl. simpl.
    replace (k' <? S k)%nat with (k' <? k)%nat; [reflexivity|].
    destruct (Nat.ltb_spec k' k), (Nat.ltb_spec k' (S k)); auto; lia.
  - rewrite V by assumption. unfold processed.
    destruct (Nat.eqb_spec j' j); [contradiction|]. reflexivity.
Qed.

Lemma score_angles_loop (j : nat) (lj : Locs) (index : list nat) (m : nat) :
  nth_error (checks w) j = Some true ->
  nth_error (locs w) j = Some lj ->
  members w j g = Some index ->
  Forall (fun i => (i < length (x lj))%nat) index ->
  length (x lj) = length (y lj) -> length (y lj) = length (z lj) ->
  forall k0 st,
    (k0 + m <= length angles0)%nat ->
    Filled (processed j k0) st ->
    exists st',
      foldM (score_angle record w CF rotaxis proplane
               (map (fun i => nth i (x lj) 0) index)
               (map (fun i => nth i (y lj) 0) index)
               (map (fun i => nth i (z lj) 0) index) j)
            (seq k0 m) st = Some st'
      /\ Filled (processed j (k0 + m)) st'.
Proof.
  intros Hc Hl Hm Hx Lxy Lyz.
  induction m as [|m IH]; intros k0 st Hle Hf; simpl.
  - exists st. rewrite Nat.add_0_r. auto.
  - destruct (score_angle_step j k0 lj index st Hc Hl Hm Hx Lxy Lyz)
      as (st1 & E1 & F1); [lia | exact Hf |].
    rewrite E1. simpl.
    destruct (IH (S k0) st1) as (st' & E' & F'); [lia | exact F1 |].
    exists st'. split; [exact E'|].
    now rewrite Nat.add_succ_r.
Qed.

Lemma score_channel_step (j : nat) (st : Scores) :
  (j < length (locs w))%nat ->
  Filled (processed j 0) st ->
  exists st',
    score_channel record w CF g rotaxis proplane st j = Some st'
    /\ Filled (processed (S j) 0) st'.
Proof.
  intros Hj Hf. unfold score_channel.
  destruct (nth_error (checks w) j) as [checked|] eqn:Ec;
    [|apply nth_error_None in Ec; destruct WF as [Lc _]; lia].
  destruct (nth_error (locs w) j) as [lj|] eqn:El;
    [|apply nth_error_None in El; lia].
  simpl. destruct checked.
  - destruct (members_ok w g j lj WF GP El) as (index & Hm & Hx & Lxy & Lyz).
    rewrite Hm. simpl.
    rewrite !gather_in_range
      by (try rewrite <- Lyz; try rewrite <- Lxy; exact Hx).
    simpl. rewrite rotation_mode.
    assert (Hn : n_angles st = length angles0) by apply Hf.
    rewrite Hn.
    destruct (score_angles_loop j lj index (length angles0)
                Ec El Hm Hx Lxy Lyz 0%nat st) as (st' & E' & F');
      [lia | exact Hf |].
    exists st'. split; [exact E'|].
    eapply filled_ext; [|exact F']. intros k j' Hk Hj'.
    unfold processed. simpl.
    replace (k <? length angles0)%nat with true
      by (symmetry; apply Nat.ltb_lt; lia).
    rewrite andb_true_r, andb_false_r, orb_false_r.
    destruct (Nat.ltb_spec j' j), (Nat.eqb_spec j' j),
      (Nat.ltb_spec j' (S j)); simpl; auto; lia.
  - exists st. split; [reflexivity|].
    destruct Hf as (A & N & S1 & S2 & S3 & V).
    repeat split; try assumption; try apply S1; try apply S2; try apply S3.
    intros k j' Hk Hj'. rewrite V by assumption.
    unfold processed. simpl. rewrite !andb_false_r, !orb_false_r.
    destruct (Nat.ltb_spec j' j), (Nat.ltb_spec j' (S j));
      try reflexivity; try lia.
    assert (j' = j) by lia. subst j'.
    unfold entry. rewrite (nth_error_nth _ _ false Ec). reflexivity.
Qed.

Lemma score_channels_loop (m : nat) :
  forall j0 st,
    (j0 + m <= length (locs w))%nat ->
    Filled (processed j0 0) st ->
    exists st',
      foldM (score_channel record w CF g rotaxis proplane) (seq j0 m) st
        = Some st'
      /\ Filled (processed (j0 + m) 0) st'.
Proof.
  induction m as [|m IH]; intros j0 st Hle Hf; simpl.
  - exists st. rewrite Nat.add_0_r. auto.
  - destruct (score_channel_step j0 st) as (st1 & E1 & F1);
      [lia | exact Hf |].
    rewrite E1. simpl.
    destruct (IH (S j0) st1) as (st' & E' & F'); [lia | exact F1 |].
    exists st'. split; [exact E'|].
    now rewrite Nat.add_succ_r.
Qed.

(** The scoring loops return, and leave [entry] in every position. *)
Lemma score_all_filled :
  exists st,
    score_all record w CF angles0 g rotaxis proplane = Some st
    /\ Filled (fun _ _ => true) st.
Proof.
  unfold score_all.
  destruct (score_channels_loop (length (locs w)) 0%nat
              {| all_xcorr := zeros (length angles0) (length (locs w));
                 all_da := zeros (length angles0) (length (locs w));
                 all_db := zeros (length angles0) (length (locs w));
                 angles := angles0; n_angles := length angles0 |})
    as (st & E & F).
  - lia.
  - repeat split; simpl; try apply zeros_shaped.
    intros k j _ _. rewrite !get2_zeros. unfold processed. simpl.
    now rewrite andb_false_r.
  - exists st. split; [exact E|].
    eapply filled_ext; [|exact F]. intros k j Hk Hj.
    unfold processed. simpl.
    replace (j <? length (locs w))%nat with true
      by (symmetry; apply Nat.ltb_lt; lia).
    reflexivity.
Qed.

End Search.

(** ** What the two functions store *)

Lemma record_peak_stores :
  forall w CFj image k j st s da db rows cols,
    peak w CFj image = Some (s, da, db) ->
    shaped (all_xcorr st) rows cols ->
    shaped (all_da st) rows cols ->
    shaped (all_db st) rows cols ->
    (k < rows)%nat -> (j < cols)%nat ->
    get2 (all_da st) k j = 0 -> get2 (all_db st) k j = 0 ->
    exists st',
      record_peak w CFj image k j st = Some st'
      /\ angles st' = angles st
      /\ n_angles st' = n_angles st
      /\ shaped (all_xcorr st') rows cols
      /\ shaped (all_da st') rows cols
      /\ shaped (all_db st') rows cols
      /\ forall k' j',
           (get2 (all_xcorr st') k' j', get2 (all_da st') k' j',
            get2 (all_db st') k' j')
           = if (k' =? k)%nat && (j' =? j)%nat then (s, da, db)
             else (get2 (all_xcorr st) k' j', get2 (all_da st) k' j',
                   get2 (all_db st) k' j').
Proof.
  intros w CFj image k j st s da db rows cols Hp S1 S2 S3 Hk Hj _ _.
  unfold record_peak. rewrite Hp. simpl.
  destruct (set2_shaped _ rows cols k j s S1 Hk Hj) as (M1 & E1 & T1 & V1).
  destruct (set2_shaped _ rows cols k j db S3 Hk Hj) as (M3 & E3 & T3 & V3).
  destruct (set2_shaped _ rows cols k j da S2 Hk Hj) as (M2 & E2 & T2 & V2).
  rewrite E1. simpl. rewrite E3. simpl. rewrite E2. simpl.
  eexists. split; [reflexivity|]. simpl. repeat split;
    try apply T1; try apply T2; try apply T3.
  intros k' j'. rewrite V1, V2, V3.
  destruct ((k' =? k)%nat && (j' =? j)%nat); reflexivity.
Qed.

Lemma record_conv_stores :
  forall w CFj image k j st s da db rows cols,
    conv3 w CFj image = Some (s, da, db) ->
    shaped (all_xcorr st) rows cols ->
    shaped (all_da st) rows cols ->
    shaped (all_db st) rows cols ->
    (k < rows)%nat -> (j < cols)%nat ->
    get2 (all_da st) k j = 0 -> get2 (all_db st) k j = 0 ->
    exists st',
      record_conv w CFj image k j st = Some st'
      /\ angles st' = angles st
      /\ n_angles st' = n_angles st
      /\ shaped (all_xcorr st') rows cols
      /\ shaped (all_da st') rows cols
      /\ shaped (all_db st') rows cols
      /\ forall k' j',
           (get2 (all_xcorr st') k' j', get2 (all_da st') k' j',
            get2 (all_db st') k' j')
           = if (k' =? k)%nat && (j' =? j)%nat then (s, da, db)
             else (get2 (all_xcorr st) k' j', get2 (all_da st) k' j',
                   get2 (all_db st) k' j').
Proof.
  intros w CFj image k j st s da db rows cols Hp S1 S2 S3 Hk Hj Zda Zdb.
  unfold conv3 in Hp. unfold record_conv.
  destruct (conv_score CFj image) as [v|]; [|discriminate].
  simpl in *. inversion Hp; subst; clear Hp.
  destruct (set2_shaped _ rows cols k j s S1 Hk Hj) as (M1 & E1 & T1 & V1).
  rewrite E1. simpl.
  eexists. split; [reflexivity|]. simpl. repeat split;
    try apply T1; try apply S2; try apply S3.
  intros k' j'. rewrite V1.
  destruct (Nat.eqb_spec k' k) as [->|]; simpl; [|reflexivity].
  destruct (Nat.eqb_spec j' j) as [->|]; simpl; [|reflexivity].
  now rewrite Zda, Zdb.
Qed.

(** ** The arg-max *)

Lemma argmax_from_spec (l pre : list R) (best : nat) :
  (best < length pre)%nat ->
  (forall p, (p < length pre)%nat ->
             nth p (pre ++ l) 0 <= nth best (pre ++ l) 0) ->
  (forall p, (p < best)%nat -> nth p (pre ++ l) 0 < nth best (pre ++ l) 0) ->
  let k := argmax_from best (nth best (pre ++ l) 0) (length pre) l in
  (k < length (pre ++ l))%nat
  /\ (forall p, (p < length (pre ++ l))%nat ->
                nth p (pre ++ l) 0 <= nth k (pre ++ l) 0)
  /\ (forall p, (p < k)%nat -> nth p (pre ++ l) 0 < nth k (pre ++ l) 0).
Proof.
  revert pre best. induction l as [|v t IH]; intros pre best Hb Hmax Hfirst.
  - simpl. rewrite app_nil_r in *. auto.
  - simpl.
    assert (Ev : nth (length pre) (pre ++ v :: t) 0 = v).
    { rewrite app_nth2, Nat.sub_diag by lia. reflexivity. }
    assert (Eapp : pre ++ v :: t = (pre ++ [v]) ++ t)
      by (rewrite <- app_assoc; reflexivity).
    assert (Elen : length (pre ++ [v]) = S (length pre))
      by (rewrite length_app; simpl; lia).
    destruct (Rlt_dec (nth best (pre ++ v :: t) 0) v) as [Hlt|Hge].
    + specialize (IH (pre ++ [v]) (length pre)).
      rewrite <- Eapp, Elen, Ev in IH. apply IH.
      * lia.
      * intros p Hp. destruct (Nat.eq_dec p (length pre)) as [->|Hne].
        -- rewrite Ev. lra.
        -- specialize (Hmax p). lapply Hmax; [lra | lia].
      * intros p Hp. specialize (Hmax p Hp). lra.
    + specialize (IH (pre ++ [v]) best).
      rewrite <- Eapp, Elen in IH. apply IH.
      * lia.
      * intros p Hp. destruct (Nat.eq_dec p (length pre)) as [->|Hne].
        -- rewrite Ev. lra.
        -- apply Hmax. lia.
      * exact Hfirst.
Qed.

Lemma argmax_spec (l : list R) :
  l <> [] ->
  exists k,
    argmax l = Some k
    /\ (k < length l)%nat
    /\ (forall p, (p < length l)%nat -> nth p l 0 <= nth k l 0)
    /\ (forall p, (p < k)%nat -> nth p l 0 < nth k l 0).
Proof.
  destruct l as [|v t]; [congruence|]. intros _.
  exists (argmax_from 0 v 1 t). split; [reflexivity|].
  apply (argmax_from_spec t [v] 0%nat); simpl.
  - lia.
  - intros p Hp. assert (p = 0%nat) by lia. subst. lra.
  - intros p Hp. lia.
Qed.

Lemma Rsum_nth (l : list R) :
  Rsum l = Rsum (map (fun j => nth j l 0) (seq 0 (length l))).
Proof.
  f_equal. apply (nth_ext _ _ 0 0).
  - now rewrite length_map, length_seq.
  - intros n Hn.
    rewrite (nth_map_lt _ _ _ 0%nat) by (rewrite length_seq; exact Hn).
    rewrite seq_nth by exact Hn. reflexivity.
Qed.

Lemma filled_row {T : Type} (f : Window -> T -> Image -> option (R * R * R))
    (w : Window) (CF : list T) (angles0 : list R) (g : nat)
    (rotaxis proplane : string) (st : Scores) (k : nat) :
  filled f w CF angles0 g rotaxis proplane (fun _ _ => true) st ->
  (k < length angles0)%nat ->
  Rsum (nth k (all_xcorr st) [])
  = summed_score f w CF angles0 g rotaxis proplane k
  /\ mean (nth k (all_da st) []) = mean_da f w CF angles0 g rotaxis proplane k
  /\ mean (nth k (all_db st) []) = mean_db f w CF angles0 g rotaxis proplane k.
Proof.
  intros (A & N & S1 & S2 & S3 & V) Hk.
  assert (L1 := shaped_row _ _ _ k S1 Hk).
  assert (L2 := shaped_row _ _ _ k S2 Hk).
  assert (L3 := shaped_row _ _ _ k S3 Hk).
  assert (P : forall j, In j (seq 0 (length (locs w))) ->
              get2 (all_xcorr st) k j
              = fst (fst (entry f w CF angles0 g rotaxis proplane k j))
              /\ get2 (all_da st) k j
                 = snd (fst (entry f w CF angles0 g rotaxis proplane k j))
              /\ get2 (all_db st) k j
                 = snd (entry f w CF angles0 g rotaxis proplane k j)).
  { intros j Hj. apply in_seq in Hj.
    assert (E := V k j Hk (proj2 Hj)). simpl in E.
    rewrite <- E. simpl. auto. }
  unfold summed_score, mean_da, mean_db, mean.
  rewrite (Rsum_nth (nth k (all_xcorr st) [])),
          (Rsum_nth (nth k (all_da st) [])),
          (Rsum_nth (nth k (all_db st) [])), L1, L2, L3.
  assert (Q : forall (u v : nat -> R) n,
            (forall j, In j (seq 0 n) -> u j = v j) ->
            Rsum (map u (seq 0 n)) = Rsum (map v (seq 0 n))).
  { intros u v n H. apply (f_equal Rsum). apply map_ext_in. exact H. }
  repeat split.
  - apply Q. intros j Hj. apply (P j Hj).
  - apply (f_equal (fun v => v / INR (length (locs w)))).
    apply Q. intros j Hj. apply (P j Hj).
  - apply (f_equal (fun v => v / INR (length (locs w)))).
    apply Q. intros j Hj. apply (P j Hj).
Qed.

(** The choice after the loops: the first angle of maximal summed score and
    the means of the stored shifts. *)
Lemma choose_spec {T : Type} (f : Window -> T -> Image -> option (R * R * R))
    (w : Window) (CF : list T) (angles0 : list R) (g : nat)
    (rotaxis proplane : string) (st : Scores) :
  filled f w CF angles0 g rotaxis proplane (fun _ _ => true) st ->
  angles0 <> [] ->
  exists maximumcc rotfinal,
    choose st
    = Some (maximumcc, rotfinal,
            mean_da f w CF angles0 g rotaxis proplane maximumcc,
            mean_db f w CF angles0 g rotaxis proplane maximumcc)
    /\ nth_error angles0 maximumcc = Some rotfinal
    /\ (forall k, (k < length angles0)%nat ->
          summed_score f w CF angles0 g rotaxis proplane k
          <= summed_score f w CF angles0 g rotaxis proplane maximumcc)
    /\ (forall k, (k < maximumcc)%nat ->
          summed_score f w CF angles0 g rotaxis proplane k
          < summed_score f w CF angles0 g rotaxis proplane maximumcc).
Proof.
  intros Hf Hne.
  assert (Hf' := Hf). destruct Hf' as (A & N & S1 & S2 & S3 & V).
  assert (Lm : length (map Rsum (all_xcorr st)) = length angles0)
    by (rewrite length_map; apply S1).
  assert (Hrow : forall k, (k < length angles0)%nat ->
            nth k (map Rsum (all_xcorr st)) 0
            = summed_score f w CF angles0 g rotaxis proplane k).
  { intros k Hk.
    rewrite (nth_map_lt _ _ _ []) by (destruct S1 as [L _]; lia).
    apply (filled_row f w CF angles0 g rotaxis proplane st k Hf Hk). }
  destruct (argmax_spec (map Rsum (all_xcorr st))) as (k & Ek & Hk & Hmax & Hfst).
  { intros E. rewrite E in Lm. simpl in Lm.
    destruct angles0; [congruence | discriminate]. }
  rewrite Lm in Hk, Hmax.
  destruct (nth_error angles0 k) as [rot|] eqn:Er;
    [|apply nth_error_None in Er; lia].
  exists k, rot. unfold choose. rewrite Ek. simpl. rewrite A, Er. simpl.
  destruct (filled_row f w CF angles0 g rotaxis proplane st k Hf Hk)
    as (_ & Eda & Edb).
  rewrite Eda, Edb. repeat split.
  - intros k' Hk'. rewrite <- !Hrow by assumption. apply Hmax. exact Hk'.
  - intros k' Hk'. rewrite <- !Hrow by lia. apply Hfst. exact Hk'.
Qed.

(** ** Shapes through the transforms *)

Lemma shaped_hd {A : Type} (M : list (list A)) (rows cols : nat) :
  shaped M rows cols -> (0 < rows)%nat -> length (hd [] M) = cols.
Proof.
  intros S H. rewrite <- (shaped_row M rows cols 0 S H).
  now destruct M.
Qed.

Lemma shaped_map {A B : Type} (f : A -> B) (M : list (list A))
    (rows cols : nat) :
  shaped M rows cols -> shaped (map (map f) M) rows cols.
Proof.
  intros [L F]. split; [now rewrite length_map|].
  apply Forall_map. eapply Forall_impl; [|exact F].
  simpl. intros row H. now rewrite length_map.
Qed.

Lemma shaped_same_shape {A B : Type} (X : list (list A)) (Y : list (list B))
    (rows cols : nat) :
  shaped X rows cols -> shaped Y rows cols -> same_shape X Y = true.
Proof.
  intros SX SY. apply same_shape_spec. split.
  - destruct SX, SY. congruence.
  - intros k Hk. destruct SX as [LX FX].
    rewrite (shaped_row X rows cols k) by (try split; auto; lia).
    rewrite (shaped_row Y rows cols k) by (auto; lia).
    reflexivity.
Qed.

Lemma same_shape_shaped {A B : Type} (X : list (list A)) (Y : list (list B))
    (rows cols : nat) :
  shaped X rows cols -> same_shape X Y = true -> shaped Y rows cols.
Proof.
  intros SX E. apply same_shape_spec in E. destruct E as [L Rw].
  split; [destruct SX; congruence|].
  apply rows_of_nth. intros k Hk.
  rewrite <- Rw by lia.
  apply (shaped_row X rows cols k SX). destruct SX. lia.
Qed.

Lemma dft2_shaped (sign : R) (X : CImage) :
  shaped (dft2 sign X) (length X) (length (hd [] X)).
Proof.
  unfold dft2. split.
  - now rewrite length_map, length_seq.
  - apply Forall_map, Forall_forall. intros u _.
    now rewrite length_map, length_seq.
Qed.

Lemma roll_length {A : Type} (d : A) (s : nat) (l : list A) :
  length (roll d s l) = length l.
Proof.
  unfold roll. now rewrite length_map, length_seq.
Qed.

Lemma roll_In {A : Type} (d : A) (s : nat) (l : list A) (a : A) :
  In a (roll d s l) -> In a l.
Proof.
  unfold roll. intros H. apply in_map_iff in H.
  destruct H as (i & <- & Hi). apply in_seq in Hi.
  apply nth_In. apply Nat.mod_upper_bound. lia.
Qed.

Lemma fftshift_shaped (X : Image) (rows cols : nat) :
  shaped X rows cols -> shaped (fftshift X) rows cols.
Proof.
  intros [L F]. unfold fftshift. split.
  - now rewrite roll_length, length_map.
  - apply Forall_forall. intros row Hr.
    apply roll_In in Hr. apply in_map_iff in Hr.
    destruct Hr as (row0 & <- & H0).
    rewrite roll_length. rewrite Forall_forall in F. apply F. exact H0.
Qed.

Lemma compute_xcorr_shaped (CFj : CImage) (image : Image) (rows cols : nat) :
  shaped image rows cols -> (0 < rows)%nat ->
  same_shape (zeros rows cols) CFj = true ->
  exists xcorr,
    compute_xcorr CFj image = Some xcorr /\ shaped xcorr rows cols.
Proof.
  intros SI Hr HC.
  assert (SC : shaped CFj rows cols)
    by (eapply same_shape_shaped; [apply zeros_shaped | exact HC]).
  assert (SF : shaped (fft2 (map (map RtoC) image)) rows cols).
  { unfold fft2.
    assert (S' := shaped_map RtoC image rows cols SI).
    replace rows with (length (map (map RtoC) image)) at 1 by apply S'.
    replace cols with (length (hd [] (map (map RtoC) image)))
      by (eapply shaped_hd; eassumption).
    apply dft2_shaped. }
  unfold compute_xcorr.
  destruct (zip2_defined Cmul _ _ (shaped_same_shape _ _ _ _ SF SC))
    as (prod & Ep).
  rewrite Ep. simpl. eexists. split; [reflexivity|].
  assert (SP : shaped prod rows cols).
  { eapply same_shape_shaped; [exact SF|]. eapply zip2_shape. exact Ep. }
  apply fftshift_shaped, shaped_map. unfold ifft2. apply shaped_map.
  replace rows with (length prod) at 1 by apply SP.
  replace cols with (length (hd [] prod))
    by (eapply shaped_hd; eassumption).
  apply dft2_shaped.
Qed.

Lemma concat_nonempty {A : Type} (M : list (list A)) (rows cols : nat) :
  shaped M rows cols -> (0 < rows)%nat -> (0 < cols)%nat -> concat M <> [].
Proof.
  intros S Hr Hc E.
  assert (H0 := shaped_row M rows cols 0 S Hr).
  destruct M as [|row t]; [destruct S; simpl in *; lia|].
  simpl in *. apply app_eq_nil in E. destruct E as [-> _].
  simpl in H0. lia.
Qed.

Lemma peak_defined (w : Window) (CFj : CImage) (image : Image)
    (rows cols : nat) :
  shaped image rows cols -> (0 < rows)%nat -> (0 < cols)%nat ->
  same_shape (zeros rows cols) CFj = true ->
  exists t, peak w CFj image = Some t.
Proof.
  intros SI Hr Hc HC.
  destruct (compute_xcorr_shaped CFj image rows cols SI Hr HC)
    as (xcorr & Ex & Sx).
  destruct (argmax_spec (concat xcorr)) as (flat & Ef & _).
  { eapply concat_nonempty; eassumption. }
  unfold peak. rewrite Ex. simpl. rewrite Ef. simpl.
  eexists. reflexivity.
Qed.

Lemma conv3_defined (w : Window) (CFj image : Image) (rows cols : nat) :
  shaped image rows cols ->
  same_shape (zeros rows cols) CFj = true ->
  exists t, conv3 w CFj image = Some t.
Proof.
  intros SI HC.
  assert (SC : shaped CFj rows cols)
    by (eapply same_shape_shaped; [apply zeros_shaped | exact HC]).
  destruct (zip2_defined Rmult _ _ (shaped_same_shape _ _ _ _ SC SI))
    as (prod & Ep).
  unfold conv3, conv_score. rewrite Ep. simpl. eexists. reflexivity.
Qed.

(** ** The render of a group *)

Lemma render_histxyz_shaped (a b : list R)
    (oversampling a_min a_max b_min b_max : R) :
  (0 <= ceil (oversampling * (a_max - a_min)))%Z ->
  (0 <= ceil (oversampling * (b_max - b_min)))%Z ->
  exists N image,
    render_histxyz a b oversampling a_min a_max b_min b_max = Some (N, image)
    /\ shaped image (Z.to_nat (ceil (oversampling * (b_max - b_min))))
                    (Z.to_nat (ceil (oversampling * (a_max - a_min))))
    /\ (N = 0%nat ->
        image = zeros (Z.to_nat (ceil (oversampling * (b_max - b_min))))
                      (Z.to_nat (ceil (oversampling * (a_max - a_min))))).
Proof.
  intros Ha Hb. rewrite render_histxyz_unfold by assumption.
  eexists. eexists. split; [reflexivity|]. split.
  - split; [now rewrite fill_length, zeros_length|].
    apply rows_of_nth. intros k Hk.
    rewrite fill_length, zeros_length in Hk.
    rewrite fill_row_length, zeros_row by exact Hk.
    apply repeat_length.
  - intros E. apply length_zero_iff_nil in E. rewrite E. reflexivity.
Qed.

Lemma render_planes_N_defined (w : Window) (xdata ydata zdata : list R)
    (proplane : string) :
  view_ok w proplane ->
  exists N image,
    render_planes_N w xdata ydata zdata proplane (pixelsize w)
      = Some (N, image)
    /\ shaped image (Z.to_nat (fst (plane_shape w proplane)))
                    (Z.to_nat (snd (plane_shape w proplane)))
    /\ (N = 0%nat ->
        image = zeros (Z.to_nat (fst (plane_shape w proplane)))
                      (Z.to_nat (snd (plane_shape w proplane)))).
Proof.
  intros (Hp & Hb & Ha). simpl in Hp.
  destruct Hp as [<- | [<- | [<- | []]]];
    unfold plane_shape in *; unfold render_planes_N; simpl in *;
    apply render_histxyz_shaped; lia.
Qed.

Lemma group_image_defined (w : Window) (lj : Locs) (index : list nat)
    (rotaxis proplane : string) (angle : R) :
  In rotaxis ["x"; "y"; "z"]%string ->
  view_ok w proplane ->
  Forall (fun i => (i < length (x lj))%nat) index ->
  length (x lj) = length (y lj) -> length (y lj) = length (z lj) ->
  exists N image,
    group_image w lj index rotaxis proplane angle = Some (N, image)
    /\ shaped image (Z.to_nat (fst (plane_shape w proplane)))
                    (Z.to_nat (snd (plane_shape w proplane)))
    /\ (N = 0%nat ->
        image = zeros (Z.to_nat (fst (plane_shape w proplane)))
                      (Z.to_nat (snd (plane_shape w proplane)))).
Proof.
  intros Hax Hv Hx Lxy Lyz. unfold group_image.
  rewrite !gather_in_range
    by (try rewrite <- Lyz; try rewrite <- Lxy; exact Hx).
  simpl. rewrite rotate_axis_arr_members by exact Hax. simpl.
  apply render_planes_N_defined. exact Hv.
Qed.

Lemma references_nth {T : Type} (w : Window) (proplane : string)
    (CF : list (list (list T))) (j : nat) :
  references_fit w proplane CF -> (j < length (locs w))%nat ->
  exists CFj,
    nth_error CF j = Some CFj
    /\ same_shape (zeros (Z.to_nat (fst (plane_shape w proplane)))
                         (Z.to_nat (snd (plane_shape w proplane)))) CFj
       = true.
Proof.
  intros [L F] Hj.
  destruct (nth_error CF j) as [CFj|] eqn:E;
    [|apply nth_error_None in E; lia].
  exists CFj. split; [reflexivity|].
  rewrite Forall_forall in F. apply F. eapply nth_error_In. exact E.
Qed.

Lemma members_rows (w : Window) (g j : nat) (lj : Locs) (index : list nat) :
  well_formed w -> group_present w g ->
  nth_error (locs w) j = Some lj -> members w j g = Some index ->
  Forall (fun i => (i < length (x lj))%nat) index
  /\ length (x lj) = length (y lj) /\ length (y lj) = length (z lj).
Proof.
  intros WF GP El Hm.
  destruct (members_ok w g j lj WF GP El) as (index' & Hm' & H).
  assert (index' = index) by congruence. subst. exact H.
Qed.

Lemma peak_cells_defined (w : Window) (CF : list CImage) (angles0 : list R)
    (g : nat) (rotaxis proplane : string) :
  well_formed w -> group_present w g ->
  In rotaxis ["x"; "y"; "z"]%string ->
  view_ok w proplane -> references_fit w proplane CF ->
  cells_defined peak w CF angles0 g rotaxis proplane.
Proof.
  intros WF GP Hax Hv HR k j lj index angle Hc Hl Hm Ha.
  destruct (members_rows w g j lj index WF GP Hl Hm) as (Hx & Lxy & Lyz).
  destruct (group_image_defined w lj index rotaxis proplane angle
              Hax Hv Hx Lxy Lyz) as (N & image & Eg & Si & _).
  destruct (references_nth w proplane CF j HR) as (CFj & EC & SC).
  { apply nth_error_Some. congruence. }
  destruct Hv as (_ & Hb & Hpa).
  destruct (peak_defined w CFj image _ _ Si) as (t & Et); try lia; auto.
  exists N, image, CFj, t. auto.
Qed.

Lemma conv_cells_defined (w : Window) (CF : list Image) (angles0 : list R)
    (g : nat) (rotaxis proplane : string) :
  well_formed w -> group_present w g ->
  In rotaxis ["x"; "y"; "z"]%string ->
  view_ok w proplane -> references_fit w proplane CF ->
  cells_defined conv3 w CF angles0 g rotaxis proplane.
Proof.
  intros WF GP Hax Hv HR k j lj index angle Hc Hl Hm Ha.
  destruct (members_rows w g j lj index WF GP Hl Hm) as (Hx & Lxy & Lyz).
  destruct (group_image_defined w lj index rotaxis proplane angle
              Hax Hv Hx Lxy Lyz) as (N & image & Eg & Si & _).
  destruct (references_nth w proplane CF j HR) as (CFj & EC & SC).
  { apply nth_error_Some. congruence. }
  destruct (conv3_defined w CFj image _ _ Si SC) as (t & Et).
  exists N, image, CFj, t. auto.
Qed.

(** ** The cross-correlation of an empty render *)

Lemma map_const_seq {A : Type} (a : A) (s n : nat) :
  map (fun _ => a) (seq s n) = repeat a n.
Proof.
  revert s. induction n as [|n IH]; intros s; simpl; auto.
  now rewrite IH.
Qed.

Lemma Cmul_0_l (c : C) : Cmul C0 c = C0.
Proof.
  unfold Cmul, C0. simpl. f_equal; ring.
Qed.

Lemma Csum_zero {A : Type} (l : list A) : Csum (map (fun _ => C0) l) = C0.
Proof.
  induction l as [|a t IH]; simpl; auto.
  rewrite IH. unfold Cadd, C0. simpl. f_equal; ring.
Qed.

Lemma nth2_default {A : Type} (X : list (list A)) (d : A) :
  (forall m n, (m < length X)%nat -> (n < length (nth m X []))%nat ->
               nth n (nth m X []) d = d) ->
  forall m n, nth n (nth m X []) d = d.
Proof.
  intros H m n.
  destruct (Nat.lt_ge_cases m (length X)) as [Hm|Hm].
  - destruct (Nat.lt_ge_cases n (length (nth m X []))) as [Hn|Hn].
    + apply H; assumption.
    + apply nth_overflow. exact Hn.
  - rewrite (nth_overflow X) by exact Hm. now destruct n.
Qed.

Lemma dft2_zero (sign : R) (X : CImage) (rows cols : nat) :
  shaped X rows cols ->
  (forall m n, nth n (nth m X []) C0 = C0) ->
  dft2 sign X = repeat (repeat C0 cols) rows.
Proof.
  intros S Z. destruct rows as [|rows].
  - destruct S as [L _]. apply length_zero_iff_nil in L. subst. reflexivity.
  - assert (Eh : length (hd [] X) = cols)
      by (eapply shaped_hd; [exact S | lia]).
    destruct S as [L _]. unfold dft2. rewrite L, Eh.
    transitivity (map (fun _ : nat => map (fun _ : nat => C0) (seq 0 cols))
                      (seq 0 (S rows))).
    + apply map_ext. intros u. apply map_ext. intros v.
      transitivity (Csum (map (fun _ : nat => C0) (seq 0 (S rows))));
        [|apply Csum_zero].
      apply (f_equal Csum). apply map_ext. intros m.
      transitivity (Csum (map (fun _ : nat => C0) (seq 0 cols)));
        [|apply Csum_zero].
      apply (f_equal Csum). apply map_ext. intros n.
      rewrite Z. apply Cmul_0_l.
    + now rewrite !map_const_seq.
Qed.

Lemma repeat2_nth {A : Type} (a : A) (rows cols m n : nat) :
  nth n (nth m (repeat (repeat a cols) rows) []) a = a.
Proof.
  apply nth2_default. intros m' n' Hm Hn.
  rewrite repeat_length in Hm.
  rewrite nth_repeat_lt in * by exact Hm.
  rewrite repeat_length in Hn. apply nth_repeat_lt. exact Hn.
Qed.

Lemma repeat2_shaped {A : Type} (a : A) (rows cols : nat) :
  shaped (repeat (repeat a cols) rows) rows cols.
Proof.
  split; [apply repeat_length|].
  apply Forall_forall. intros row H. apply repeat_spec in H. subst.
  apply repeat_length.
Qed.

Lemma roll_repeat {A : Type} (d a : A) (s n : nat) :
  roll d s (repeat a n) = repeat a n.
Proof.
  unfold roll. rewrite repeat_length.
  transitivity (map (fun _ : nat => a) (seq 0 n)); [|apply map_const_seq].
  apply map_ext_in. intros i Hi. apply in_seq in Hi.
  apply nth_repeat_lt. apply Nat.mod_upper_bound. lia.
Qed.

Lemma fftshift_zeros (rows cols : nat) :
  fftshift (zeros rows cols) = zeros rows cols.
Proof.
  unfold fftshift, zeros. rewrite map_repeat, roll_repeat, repeat_length.
  now rewrite roll_repeat.
Qed.

Lemma compute_xcorr_zeros (CFj : CImage) (rows cols : nat) :
  same_shape (zeros rows cols) CFj = true ->
  compute_xcorr CFj (zeros rows cols) = Some (zeros rows cols).
Proof.
  intros HC.
  assert (SC : shaped CFj rows cols)
    by (eapply same_shape_shaped; [apply zeros_shaped | exact HC]).
  unfold compute_xcorr, fft2.
  assert (E1 : map (map RtoC) (zeros rows cols) = repeat (repeat C0 cols) rows).
  { unfold zeros. now rewrite !map_repeat. }
  rewrite E1.
  rewrite (dft2_zero (-1) _ rows cols)
    by (try apply repeat2_shaped; intros; apply repeat2_nth).
  destruct (zip2_defined Cmul (repeat (repeat C0 cols) rows) CFj)
    as (prod & Ep).
  { eapply shaped_same_shape; [apply repeat2_shaped | exact SC]. }
  rewrite Ep. simpl. f_equal.
  assert (SP : shaped prod rows cols).
  { eapply same_shape_shaped; [apply (repeat2_shaped C0)|].
    eapply zip2_shape. exact Ep. }
  assert (ZP : forall m n, nth n (nth m prod []) C0 = C0).
  { apply nth2_default. intros m n Hm Hn.
    destruct SP as [LP FP].
    assert (Hm' : (m < rows)%nat) by lia.
    assert (Hn' : (n < cols)%nat).
    { rewrite Forall_forall in FP.
      rewrite (FP (nth m prod [])) in Hn by (apply nth_In; exact Hm).
      exact Hn. }
    rewrite (zip2_nth Cmul _ _ _ C0 C0 C0 m n Ep).
    - rewrite repeat2_nth. apply Cmul_0_l.
    - now rewrite repeat_length.
    - rewrite nth_repeat_lt by exact Hm'. now rewrite repeat_length. }
  unfold ifft2. rewrite (dft2_zero 1 prod rows cols SP ZP).
  rewrite !map_repeat. simpl. rewrite Rmult_0_r.
  apply fftshift_zeros.
Qed.

Lemma argmax_all_zero (l : list R) :
  l <> [] -> (forall v, In v l -> v = 0) -> argmax l = Some 0%nat.
Proof.
  intros Hne Hz.
  destruct (argmax_spec l Hne) as (k & Ek & Hk & _ & Hfst).
  destruct k as [|k]; [exact Ek|].
  specialize (Hfst 0%nat (Nat.lt_0_succ k)).
  rewrite (Hz (nth 0 l 0)) in Hfst by (apply nth_In; lia).
  rewrite (Hz (nth (S k) l 0)) in Hfst by (apply nth_In; exact Hk).
  lra.
Qed.

(** The peak of the cross-correlation of an all-zero render: score zero, at
    flat index 0, hence at the offset of the corner from the centre. *)
Lemma peak_zeros (w : Window) (CFj : CImage) (rows cols : nat) :
  (0 < rows)%nat -> (0 < cols)%nat ->
  same_shape (zeros rows cols) CFj = true ->
  peak w CFj (zeros rows cols)
  = Some (0,
          IZR (ceil (0 - INR cols / 2)) / oversampling w,
          IZR (ceil (0 - INR rows / 2)) / oversampling w).
Proof.
  intros Hr Hc HC. unfold peak.
  rewrite compute_xcorr_zeros by exact HC. simpl.
  assert (Eh : length (hd [] (zeros rows cols)) = cols)
    by (eapply shaped_hd; [apply zeros_shaped | exact Hr]).
  rewrite argmax_all_zero.
  - simpl. rewrite Eh, zeros_length.
    rewrite Nat.Div0.div_0_l, Nat.Div0.mod_0_l, get2_zeros. reflexivity.
  - eapply concat_nonempty; [apply zeros_shaped | exact Hr | exact Hc].
  - intros v Hv. apply in_concat in Hv. destruct Hv as (row & Hrow & Hin).
    apply repeat_spec in Hrow. subst. apply repeat_spec in Hin. exact Hin.
Qed.

(** ** The tables in both modes *)

Lemma entry_no_angle {T : Type}
    (f : Window -> T -> Image -> option (R * R * R))
    (w : Window) (CF : list T) (angles0 : list R) (g : nat)
    (rotaxis proplane : string) (k j : nat) :
  nth_error angles0 k = None ->
  entry f w CF angles0 g rotaxis proplane k j = (0, 0, 0).
Proof.
  intros E. unfold entry.
  destruct (nth j (checks w) false); [|reflexivity].
  destruct (nth_error (locs w) j); [|reflexivity]. cbn [bind].
  destruct (members w j g); [|reflexivity]. cbn [bind].
  rewrite E. reflexivity.
Qed.

Lemma entry_unchecked {T : Type}
    (f : Window -> T -> Image -> option (R * R * R))
    (w : Window) (CF : list T) (angles0 : list R) (g : nat)
    (rotaxis proplane : string) (k j : nat) :
  nth j (checks w) false = false ->
  entry f w CF angles0 g rotaxis proplane k j = (0, 0, 0).
Proof.
  intros E. unfold entry. rewrite E. reflexivity.
Qed.

Lemma existsb_seq_S (p : nat -> bool) (j : nat) :
  existsb p (seq 0 (S j)) = existsb p (seq 0 j) || p j.
Proof.
  rewrite seq_S, existsb_app. simpl. now rewrite orb_false_r.
Qed.

Section SearchTranslate.

Context {T : Type}.
Variable record :
  Window -> T -> Image -> nat -> nat -> Scores -> option Scores.
Variable f : Window -> T -> Image -> option (R * R * R).

Hypothesis record_stores :
  forall w CFj image k j st s da db rows cols,
    f w CFj image = Some (s, da, db) ->
    shaped (all_xcorr st) rows cols ->
    shaped (all_da st) rows cols ->
    shaped (all_db st) rows cols ->
    (k < rows)%nat -> (j < cols)%nat ->
    get2 (all_da st) k j = 0 -> get2 (all_db st) k j = 0 ->
    exists st',
      record w CFj image k j st = Some st'
      /\ angles st' = angles st
      /\ n_angles st' = n_angles st
      /\ shaped (all_xcorr st') rows cols
      /\ shaped (all_da st') rows cols
      /\ shaped (all_db st') rows cols
      /\ forall k' j',
           (get2 (all_xcorr st') k' j', get2 (all_da st') k' j',
            get2 (all_db st') k' j')
           = if (k' =? k)%nat && (j' =? j)%nat then (s, da, db)
             else (get2 (all_xcorr st) k' j', get2 (all_da st) k' j',
                   get2 (all_db st) k' j').

Variable w : Window.
Variable CF : list T.
Variable angles0 : list R.
Variable g : nat.
Variables rotaxis proplane : string.

Hypothesis WF : well_formed w.
Hypothesis GP : group_present w g.
Hypothesis translate_mode : translatebtn w = true.
Hypothesis some_angle : angles0 <> [].
Hypothesis cells : cells_defined f w CF [0] g rotaxis proplane.

Local Abbreviation FilledT :=
  (filled_translate f w CF angles0 g rotaxis proplane).

Lemma single_angle_channel_step (j : nat) (st : Scores) :
  (j < length (locs w))%nat ->
  FilledT j st ->
  exists st',
    score_channel record w CF g rotaxis proplane st j = Some st'
    /\ FilledT (S j) st'.
Proof.
  intros Hj (A & N & S1 & S2 & S3 & V). unfold score_channel.
  assert (Hn0 : (0 < length angles0)%nat).
  { destruct angles0; [congruence | simpl; lia]. }
  destruct (nth_error (checks w) j) as [checked|] eqn:Ec;
    [|apply nth_error_None in Ec; destruct WF as [Lc _]; lia].
  destruct (nth_error (locs w) j) as [lj|] eqn:El;
    [|apply nth_error_None in El; lia].
  assert (Ecn : nth j (checks w) false = checked)
    by (apply nth_error_nth; exact Ec).
  cbn [bind]. destruct checked.
  - destruct (members_ok w g j lj WF GP El) as (index & Hm & Hx & Lxy & Lyz).
    rewrite Hm. cbn [bind].
    rewrite !gather_in_range
      by (try rewrite <- Lyz; try rewrite <- Lxy; exact Hx).
    cbn [bind]. rewrite translate_mode. cbn [n_angles seq foldM].
    destruct (cells 0%nat j lj index 0 Ec El Hm eq_refl)
      as (Ni & image & CFj & [[s da] db] & Hg & HC & Hf).
    assert (Et := entry_of_cell f w CF [0] g rotaxis proplane 0 j lj index 0
                    Ni image CFj _ Ec El Hm eq_refl Hg HC Hf).
    unfold group_image in Hg.
    rewrite !gather_in_range in Hg
      by (try rewrite <- Lyz; try rewrite <- Lxy; exact Hx).
    cbn [bind] in Hg.
    unfold score_angle. cbn [angles nth_error bind pixelsize].
    destruct (rotate_axis_arr rotaxis _ _ _ 0 (pixelsize w))
      as [[[xr yr] zr]|]; [|discriminate].
    cbn [bind] in *. unfold render_planes. rewrite Hg. cbn [bind].
    rewrite HC. cbn [bind].
    assert (V0 := V 0%nat j Hn0 Hj).
    rewrite Nat.ltb_irrefl in V0. unfold stored in V0.
    injection V0 as Vx Vda Vdb.
    destruct (record_stores w CFj image 0%nat j
                {| all_xcorr := all_xcorr st; all_da := all_da st;
                   all_db := all_db st; angles := [0]; n_angles := 1 |}
                s da db _ _ Hf S1 S2 S3 Hn0 Hj Vda Vdb)
      as (st' & Er & A' & N' & S1' & S2' & S3' & V').
    cbn [all_xcorr all_da all_db angles n_angles] in *.
    exists st'. rewrite Er. cbn [bind]. split; [reflexivity|].
    split.
    { rewrite A', existsb_seq_S, Ecn, orb_true_r. reflexivity. }
    split; [rewrite A', N'; reflexivity|].
    split; [exact S1'|]. split; [exact S2'|]. split; [exact S3'|].
    intros k' j' Hk' Hj'. unfold stored. rewrite V'.
    destruct (Nat.eqb_spec j' j) as [->|Hnj].
    + replace (j <? S j)%nat with true
        by (symmetry; apply Nat.ltb_lt; lia).
      destruct (Nat.eqb_spec k' 0) as [->|Hnk]; cbn [andb].
      * symmetry. exact Et.
      * assert (Vk := V k' j Hk' Hj). rewrite Nat.ltb_irrefl in Vk.
        unfold stored in Vk. rewrite Vk. symmetry.
        apply entry_no_angle. apply nth_error_None. simpl. lia.
    + rewrite andb_false_r.
      assert (Vk := V k' j' Hk' Hj'). unfold stored in Vk. rewrite Vk.
      replace (j' <? S j)%nat with (j' <? j)%nat; [reflexivity|].
      destruct (Nat.ltb_spec j' j), (Nat.ltb_spec j' (S j)); auto; lia.
  - exists st. split; [reflexivity|]. split.
    { rewrite A, existsb_seq_S, Ecn, orb_false_r. reflexivity. }
    split; [exact N|].
    split; [exact S1|]. split; [exact S2|]. split; [exact S3|].
    intros k' j' Hk' Hj'. rewrite V by assumption.
    destruct (Nat.ltb_spec j' j), (Nat.ltb_spec j' (S j));
      try reflexivity; try lia.
    assert (j' = j) by lia. subst j'. symmetry.
    apply entry_unchecked. exact Ecn.
Qed.

Lemma single_angle_channels_loop (m : nat) :
  forall j0 st,
    (j0 + m <= length (locs w))%nat ->
    FilledT j0 st ->
    exists st',
      foldM (score_channel record w CF g rotaxis proplane) (seq j0 m) st
        = Some st'
      /\ FilledT (j0 + m) st'.
Proof.
  induction m as [|m IH]; intros j0 st Hle Hf; simpl.
  - exists st. rewrite Nat.add_0_r. auto.
  - destruct (single_angle_channel_step j0 st) as (st1 & E1 & F1);
      [lia | exact Hf |].
    rewrite E1. simpl.
    destruct (IH (S j0) st1) as (st' & E' & F'); [lia | exact F1 |].
    exists st'. split; [exact E'|].
    now rewrite Nat.add_succ_r.
Qed.

(** With "Translate only" on the scoring loops return, and leave the
    scores at the angle 0 in the first row of the tables. *)
Lemma score_all_single_angle :
  exists st,
    score_all record w CF angles0 g rotaxis proplane = Some st
    /\ FilledT (length (locs w)) st.
Proof.
  unfold score_all.
  destruct (single_angle_channels_loop (length (locs w)) 0%nat
              {| all_xcorr := zeros (length angles0) (length (locs w));
                 all_da := zeros (length angles0) (length (locs w));
                 all_db := zeros (length angles0) (length (locs w));
                 angles := angles0; n_angles := length angles0 |})
    as (st & E & F).
  - lia.
  - repeat split; simpl; try apply zeros_shaped.
    intros k j _ _. unfold stored. cbn [all_xcorr all_da all_db].
    rewrite !get2_zeros. reflexivity.
  - exists st. split; [exact E | exact F].
Qed.

End SearchTranslate.


(** In both modes the scoring loops return, with the tables filled for the
    angles that are scored. *)
Lemma score_all_tabulated {T : Type}
    (record : Window -> T -> Image -> nat -> nat -> Scores -> option Scores)
    (f : Window -> T -> Image -> option (R * R * R))
    (w : Window) (CF : list T) (angles0 : list R) (g : nat)
    (rotaxis proplane : string) :
  (forall w CFj image k j st s da db rows cols,
     f w CFj image = Some (s, da, db) ->
     shaped (all_xcorr st) rows cols ->
     shaped (all_da st) rows cols ->
     shaped (all_db st) rows cols ->
     (k < rows)%nat -> (j < cols)%nat ->
     get2 (all_da st) k j = 0 -> get2 (all_db st) k j = 0 ->
     exists st',
       record w CFj image k j st = Some st'
       /\ angles st' = angles st
       /\ n_angles st' = n_angles st
       /\ shaped (all_xcorr st') rows cols
       /\ shaped (all_da st') rows cols
       /\ shaped (all_db st') rows cols
       /\ forall k' j',
            (get2 (all_xcorr st') k' j', get2 (all_da st') k' j',
             get2 (all_db st') k' j')
            = if (k' =? k)%nat && (j' =? j)%nat then (s, da, db)
              else (get2 (all_xcorr st) k' j', get2 (all_da st) k' j',
                    get2 (all_db st) k' j')) ->
  well_formed w -> group_present w g -> angles0 <> [] ->
  cells_defined f w CF (scored_angles w angles0) g rotaxis proplane ->
  exists st,
    score_all record w CF angles0 g rotaxis proplane = Some st
    /\ tabulated f w CF angles0 g rotaxis proplane st.
Proof.
  intros RS WF GP Hne cells.
  unfold tabulated, scored_angles, final_angles in *.
  destruct (translatebtn w) eqn:Htr.
  - destruct (score_all_single_angle record f RS w CF angles0 g rotaxis
                proplane WF GP Htr Hne cells)
      as (st & E & A & N & S1 & S2 & S3 & V).
    exists st. split; [exact E|]. cbn [andb].
    split; [exact A|].
    split; [exact S1|]. split; [exact S2|]. split; [exact S3|].
    intros k j Hk Hj. rewrite V by assumption.
    replace (j <? length (locs w))%nat with true
      by (symmetry; apply Nat.ltb_lt; exact Hj).
    reflexivity.
  - destruct (score_all_filled record f RS w CF angles0 g rotaxis proplane
                WF GP Htr cells) as (st & E & A & N & S1 & S2 & S3 & V).
    exists st. split; [exact E|]. cbn [andb].
    split; [exact A|].
    split; [exact S1|]. split; [exact S2|]. split; [exact S3|].
    intros k j Hk Hj. unfold stored. apply V; assumption.
Qed.

(** The sums and means of the rows of the tables. *)
Lemma tabulated_row {T : Type}
    (f : Window -> T -> Image -> option (R * R * R))
    (w : Window) (CF : list T) (angles0 : list R) (g : nat)
    (rotaxis proplane : string) (st : Scores) (k : nat) :
  tabulated f w CF angles0 g rotaxis proplane st ->
  (k < length angles0)%nat ->
  Rsum (nth k (all_xcorr st) [])
  = summed_score f w CF (scored_angles w angles0) g rotaxis proplane k
  /\ mean (nth k (all_da st) [])
     = mean_da f w CF (scored_angles w angles0) g rotaxis proplane k
  /\ mean (nth k (all_db st) [])
     = mean_db f w CF (scored_angles w angles0) g rotaxis proplane k.
Proof.
  intros (A & S1 & S2 & S3 & V) Hk.
  assert (L1 := shaped_row _ _ _ k S1 Hk).
  assert (L2 := shaped_row _ _ _ k S2 Hk).
  assert (L3 := shaped_row _ _ _ k S3 Hk).
  set (sc := scored_angles w angles0) in *.
  assert (P : forall j, In j (seq 0 (length (locs w))) ->
              get2 (all_xcorr st) k j
              = fst (fst (entry f w CF sc g rotaxis proplane k j))
              /\ get2 (all_da st) k j
                 = snd (fst (entry f w CF sc g rotaxis proplane k j))
              /\ get2 (all_db st) k j
                 = snd (entry f w CF sc g rotaxis proplane k j)).
  { intros j Hj. apply in_seq in Hj.
    assert (E := V k j Hk (proj2 Hj)). unfold stored in E.
    rewrite <- E. simpl. auto. }
  unfold summed_score, mean_da, mean_db, mean.
  rewrite (Rsum_nth (nth k (all_xcorr st) [])),
          (Rsum_nth (nth k (all_da st) [])),
          (Rsum_nth (nth k (all_db st) [])), L1, L2, L3.
  assert (Q : forall (u v : nat -> R) n,
            (forall j, In j (seq 0 n) -> u j = v j) ->
            Rsum (map u (seq 0 n)) = Rsum (map v (seq 0 n))).
  { intros u v n H. apply (f_equal Rsum). apply map_ext_in. exact H. }
  repeat split.
  - apply Q. intros j Hj. apply (P j Hj).
  - apply (f_equal (fun v => v / INR (length (locs w)))).
    apply Q. intros j Hj. apply (P j Hj).
  - apply (f_equal (fun v => v / INR (length (locs w)))).
    apply Q. intros j Hj. apply (P j Hj).
Qed.

(** The choice after the loops: the first row of largest sum, and the
    angle that the list [angles] holds at its number, if any. *)
Lemma tabulated_choose {T : Type}
    (f : Window -> T -> Image -> option (R * R * R))
    (w : Window) (CF : list T) (angles0 : list R) (g : nat)
    (rotaxis proplane : string) (st : Scores) :
  tabulated f w CF angles0 g rotaxis proplane st ->
  angles0 <> [] ->
  exists maximumcc,
    winning_row (all_xcorr st) maximumcc
    /\ (maximumcc < length angles0)%nat
    /\ choose st
       = (rotfinal <- nth_error (final_angles w angles0) maximumcc ;;
          Some (maximumcc, rotfinal,
                mean (nth maximumcc (all_da st) []),
                mean (nth maximumcc (all_db st) []))).
Proof.
  intros (A & S1 & S2 & S3 & V) Hne.
  assert (Lt : length (all_xcorr st) = length angles0) by apply S1.
  assert (Lm : length (map Rsum (all_xcorr st)) = length angles0)
    by (rewrite length_map; exact Lt).
  destruct (argmax_spec (map Rsum (all_xcorr st)))
    as (k & Ek & Hk & Hmax & Hfst).
  { intros E. rewrite E in Lm. simpl in Lm.
    destruct angles0; [congruence | discriminate]. }
  rewrite Lm in Hk, Hmax.
  assert (Hrow : forall p, (p < length angles0)%nat ->
            nth p (map Rsum (all_xcorr st)) 0
            = Rsum (nth p (all_xcorr st) [])).
  { intros p Hp. apply nth_map_lt. lia. }
  exists k. split; [|split; [exact Hk|]].
  - split; [lia|]. split.
    + intros p Hp. rewrite <- !Hrow by lia. apply Hmax. lia.
    + intros p Hp. rewrite <- !Hrow by lia. apply Hfst. exact Hp.
  - unfold choose. rewrite Ek. cbn [bind]. rewrite A. reflexivity.
Qed.


(** ** The scores written out *)

Lemma concat_shaped_length {A : Type} (M : list (list A)) (rows cols : nat) :
  shaped M rows cols -> length (concat M) = (rows * cols)%nat.
Proof.
  revert rows. induction M as [|row M IH]; intros rows [L F].
  - simpl in *. subst rows. reflexivity.
  - simpl in L. subst rows.
    apply Forall_cons_iff in F. destruct F as [Hr Ht].
    simpl. rewrite length_app, Hr, (IH (length M)); [reflexivity|].
    split; [reflexivity | exact Ht].
Qed.

Lemma concat_shaped_nth (M : Image) (rows cols b a : nat) :
  shaped M rows cols -> (b < rows)%nat -> (a < cols)%nat ->
  nth (b * cols + a) (concat M) 0 = get2 M b a.
Proof.
  revert rows b. induction M as [|row M IH]; intros rows b [L F] Hb Ha.
  - simpl in L. lia.
  - simpl in L. apply Forall_cons_iff in F. destruct F as [Hr Ht].
    simpl concat. destruct b as [|b].
    + simpl. rewrite app_nth1 by lia. reflexivity.
    + rewrite app_nth2 by (simpl; lia).
      replace (S b * cols + a - length row)%nat
        with (b * cols + a)%nat by (simpl; lia).
      rewrite (IH (length M) b); [reflexivity | | lia | exact Ha].
      split; [reflexivity | exact Ht].
Qed.

(** The triple [peak] returns is the one [peak_spec] describes. *)
Lemma peak_meets_spec (w : Window) (CFj : CImage) (image : Image)
    (rows cols : nat) :
  shaped image rows cols -> (0 < rows)%nat -> (0 < cols)%nat ->
  same_shape (zeros rows cols) CFj = true ->
  exists t, peak w CFj image = Some t /\ peak_spec w CFj image t.
Proof.
  intros Si Hr Hc HC.
  destruct (compute_xcorr_shaped CFj image rows cols Si Hr HC)
    as (xcorr & Ex & Sx).
  destruct (argmax_spec (concat xcorr)) as (flat & Ef & Hf & Hmax & Hfst).
  { eapply concat_nonempty; eassumption. }
  rewrite (concat_shaped_length _ _ _ Sx) in Hf, Hmax.
  assert (Ecols : snd (shape xcorr) = cols)
    by (eapply shaped_hd; eassumption).
  assert (Hb : (flat / cols < rows)%nat)
    by (apply Nat.Div0.div_lt_upper_bound; lia).
  assert (Ha : (flat mod cols < cols)%nat)
    by (apply Nat.mod_upper_bound; lia).
  assert (Eflat : flat = (flat / cols * cols + flat mod cols)%nat).
  { rewrite (Nat.div_mod_eq flat cols) at 1. lia. }
  assert (Eg : nth flat (concat xcorr) 0
               = get2 xcorr (flat / cols) (flat mod cols)).
  { rewrite Eflat at 1. apply (concat_shaped_nth _ rows); assumption. }
  unfold peak. rewrite Ex. cbn [bind].
  destruct (shape image) as [n_pixelb n_pixela] eqn:Es.
  rewrite Ef. cbn [bind]. rewrite Ecols.
  eexists. split; [reflexivity|].
  exists xcorr, (flat / cols)%nat, (flat mod cols)%nat.
  split; [exact Ex|]. split; [|rewrite Es; reflexivity].
  assert (Lx : length xcorr = rows) by apply Sx.
  assert (Lrow : forall b, (b < rows)%nat -> length (nth b xcorr []) = cols)
    by (intros b Hb'; apply (shaped_row _ _ _ b Sx Hb')).
  split; [lia|]. split; [rewrite Lrow; assumption|]. split.
  - intros b a Hb' Ha'. rewrite Lx in Hb'. rewrite Lrow in Ha' by exact Hb'.
    rewrite <- Eg, <- (concat_shaped_nth _ rows cols b a Sx Hb' Ha').
    apply Hmax. nia.
  - intros b a Hb' Ha' Hlt. rewrite Lx in Hb'.
    rewrite Lrow in Ha' by exact Hb'.
    rewrite <- Eg, <- (concat_shaped_nth _ rows cols b a Sx Hb' Ha').
    apply Hfst. nia.
Qed.

Lemma same_shape_zeros_shaped {A : Type} (X : list (list A))
    (rows cols : nat) :
  same_shape (zeros rows cols) X = true -> shaped X rows cols.
Proof.
  intros H. eapply same_shape_shaped; [apply zeros_shaped | exact H].
Qed.

(** The triple [conv3] returns is the one [conv_spec] describes. *)
Lemma conv_meets_spec (w : Window) (CFj image : Image) (rows cols : nat) :
  shaped image rows cols ->
  same_shape (zeros rows cols) CFj = true ->
  conv3 w CFj image = Some (product_sum CFj image, 0, 0).
Proof.
  intros Si HC.
  assert (Sc : shaped CFj rows cols)
    by (apply same_shape_zeros_shaped; exact HC).
  assert (Hs : same_shape CFj image = true).
  { eapply same_shape_trans; [apply same_shape_sym; exact HC|].
    apply shaped_same_shape with (rows := rows) (cols := cols);
      [apply zeros_shaped | exact Si]. }
  destruct (zip2_defined Rmult _ _ Hs) as (prod & Ep).
  unfold conv3, conv_score. rewrite Ep. cbn [bind].
  do 2 f_equal. f_equal.
  assert (Sp : shaped prod rows cols).
  { eapply same_shape_shaped; [exact Sc|]. eapply zip2_shape. exact Ep. }
  assert (Lc : length CFj = rows) by apply Sc.
  unfold product_sum, shape. cbn [fst snd]. rewrite Lc.
  rewrite (Rsum_nth (map Rsum prod)), length_map.
  replace (length prod) with rows by (symmetry; apply Sp).
  apply (f_equal Rsum). apply map_ext_in. intros b Hb. apply in_seq in Hb.
  rewrite (nth_map_lt _ _ _ []) by (destruct Sp as [L _]; lia).
  rewrite (Rsum_nth (nth b prod [])).
  rewrite (shaped_row _ _ _ b Sp) by lia.
  replace (length (hd [] CFj)) with cols
    by (symmetry; eapply shaped_hd; [exact Sc | lia]).
  apply (f_equal Rsum). apply map_ext_in. intros a Ha. apply in_seq in Ha.
  unfold get2.
  apply (zip2_nth Rmult CFj image prod 0 0 0 b a Ep); [lia|].
  rewrite (shaped_row _ _ _ b Sc) by lia. lia.
Qed.


(** ** The tables of the two functions *)

Lemma peak_cells_specified (w : Window) (CF : list CImage) (angles0 : list R)
    (g : nat) (rotaxis proplane : string) :
  well_formed w -> group_present w g ->
  In rotaxis ["x"; "y"; "z"]%string ->
  view_ok w proplane -> references_fit w proplane CF ->
  forall k j lj index angle,
    nth_error (checks w) j = Some true ->
    nth_error (locs w) j = Some lj ->
    members w j g = Some index ->
    nth_error angles0 k = Some angle ->
    exists N image CFj t,
      group_image w lj index rotaxis proplane angle = Some (N, image)
      /\ nth_error CF j = Some CFj
      /\ peak w CFj image = Some t
      /\ peak_spec w CFj image t.
Proof.
  intros WF GP Hax Hv HR k j lj index angle Hc Hl Hm Ha.
  destruct (members_rows w g j lj index WF GP Hl Hm) as (Hx & Lxy & Lyz).
  destruct (group_image_defined w lj index rotaxis proplane angle
              Hax Hv Hx Lxy Lyz) as (N & image & Eg & Si & _).
  destruct (references_nth w proplane CF j HR) as (CFj & EC & SC).
  { apply nth_error_Some. congruence. }
  destruct Hv as (_ & Hb & Hpa).
  destruct (peak_meets_spec w CFj image _ _ Si) as (t & Et & Hs);
    try lia; auto.
  exists N, image, CFj, t. auto.
Qed.

Lemma conv_cells_specified (w : Window) (CF : list Image) (angles0 : list R)
    (g : nat) (rotaxis proplane : string) :
  well_formed w -> group_present w g ->
  In rotaxis ["x"; "y"; "z"]%string ->
  view_ok w proplane -> references_fit w proplane CF ->
  forall k j lj index angle,
    nth_error (checks w) j = Some true ->
    nth_error (locs w) j = Some lj ->
    members w j g = Some index ->
    nth_error angles0 k = Some angle ->
    exists N image CFj t,
      group_image w lj index rotaxis proplane angle = Some (N, image)
      /\ nth_error CF j = Some CFj
      /\ conv3 w CFj image = Some t
      /\ conv_spec w CFj image t.
Proof.
  intros WF GP Hax Hv HR k j lj index angle Hc Hl Hm Ha.
  destruct (members_rows w g j lj index WF GP Hl Hm) as (Hx & Lxy & Lyz).
  destruct (group_image_defined w lj index rotaxis proplane angle
              Hax Hv Hx Lxy Lyz) as (N & image & Eg & Si & _).
  destruct (references_nth w proplane CF j HR) as (CFj & EC & SC).
  { apply nth_error_Some. congruence. }
  exists N, image, CFj, (product_sum CFj image, 0, 0).
  split; [exact Eg|]. split; [exact EC|].
  split; [exact (conv_meets_spec w CFj image _ _ Si SC) | reflexivity].
Qed.

Lemma get2_outside (M : Image) (rows cols k j : nat) :
  shaped M rows cols -> (rows <= k)%nat \/ (cols <= j)%nat ->
  get2 M k j = 0.
Proof.
  intros S H. unfold get2.
  destruct (Nat.lt_ge_cases k rows) as [Hk|Hk].
  - apply nth_overflow. rewrite (shaped_row _ _ _ k S Hk). lia.
  - rewrite (nth_overflow M) by (destruct S as [L _]; lia).
    destruct j; reflexivity.
Qed.

Lemma scored_angle_row (w : Window) (angles0 : list R) (k : nat)
    (angle : R) :
  angles0 <> [] ->
  nth_error (scored_angles w angles0) k = Some angle ->
  (k < length angles0)%nat.
Proof.
  intros Hne. unfold scored_angles. destruct (translatebtn w); intros E.
  - destruct k as [|[|k]]; simpl in E; try discriminate.
    destruct angles0; [congruence | simpl; lia].
  - apply nth_error_Some. congruence.
Qed.

(** From the filled tables to their description. *)
Lemma tabulated_table {T : Type}
    (f : Window -> T -> Image -> option (R * R * R))
    (spec : Window -> T -> Image -> R * R * R -> Prop)
    (w : Window) (CF : list T) (angles0 : list R) (g : nat)
    (rotaxis proplane : string) (st : Scores) :
  angles0 <> [] ->
  (forall k j lj index angle,
     nth_error (checks w) j = Some true ->
     nth_error (locs w) j = Some lj ->
     members w j g = Some index ->
     nth_error (scored_angles w angles0) k = Some angle ->
     exists N image CFj t,
       group_image w lj index rotaxis proplane angle = Some (N, image)
       /\ nth_error CF j = Some CFj
       /\ f w CFj image = Some t
       /\ spec w CFj image t) ->
  tabulated f w CF angles0 g rotaxis proplane st ->
  table_of spec w CF angles0 g rotaxis proplane st.
Proof.
  intros Hne cells (A & S1 & S2 & S3 & V).
  split; [exact S1|]. split; [exact S2|]. split; [exact S3|]. split.
  - intros k j H.
    destruct (Nat.lt_ge_cases k (length angles0)) as [Hk|Hk];
      [destruct (Nat.lt_ge_cases j (length (locs w))) as [Hj|Hj]|].
    + rewrite V by assumption. destruct H as [H|H].
      * apply entry_unchecked. exact H.
      * apply entry_no_angle. apply nth_error_None. exact H.
    + unfold stored.
      rewrite (get2_outside _ _ _ k j S1), (get2_outside _ _ _ k j S2),
              (get2_outside _ _ _ k j S3) by (right; exact Hj).
      reflexivity.
    + unfold stored.
      rewrite (get2_outside _ _ _ k j S1), (get2_outside _ _ _ k j S2),
              (get2_outside _ _ _ k j S3) by (left; exact Hk).
      reflexivity.
  - intros k j lj index angle Hc Hl Hm Ha.
    destruct (cells k j lj index angle Hc Hl Hm Ha)
      as (N & image & CFj & t & Hg & HC & Hf & Hs).
    exists N, image, CFj. split; [exact Hg|]. split; [exact HC|].
    rewrite V.
    + rewrite (entry_of_cell f w CF (scored_angles w angles0) g rotaxis
                 proplane k j lj index angle N image CFj t
                 Hc Hl Hm Ha Hg HC Hf).
      exact Hs.
    + exact (scored_angle_row w angles0 k angle Hne Ha).
    + apply nth_error_Some. congruence.
Qed.

Lemma Rsum_indicator (p : nat -> bool) (c : R) (l : list nat) :
  Rsum (map (fun j => if p j then c else 0) l)
  = INR (length (filter p l)) * c.
Proof.
  induction l as [|j t IH]; simpl; [ring|].
  rewrite IH. destruct (p j).
  - change (length (j :: filter p t)) with (S (length (filter p t))).
    rewrite S_INR. ring.
  - ring.
Qed.

Lemma Rsum_all_zero {A : Type} (f : A -> R) (l : list A) :
  (forall a, In a l -> f a = 0) -> Rsum (map f l) = 0.
Proof.
  induction l as [|a t IH]; intros H; simpl; [reflexivity|].
  rewrite H, IH by (simpl; auto; intros; apply H; simpl; auto). ring.
Qed.

Lemma final_angles_rotation (w : Window) (angles0 : list R) :
  translatebtn w = false -> final_angles w angles0 = angles0.
Proof.
  intros E. unfold final_angles. rewrite E. reflexivity.
Qed.

Lemma final_angles_first (w : Window) (angles0 : list R) :
  angles0 <> [] ->
  nth_error (final_angles w angles0) 0
  = Some (if translatebtn w && any_checked w then 0 else hd 0 angles0).
Proof.
  intros Hne. unfold final_angles.
  destruct (translatebtn w && any_checked w); [reflexivity|].
  destruct angles0; [congruence | reflexivity].
Qed.

(** With "Translate only" on, only the first row of the tables is
    written: a first row of sum at least zero wins. *)
Lemma single_angle_winner {T : Type}
    (f : Window -> T -> Image -> option (R * R * R))
    (w : Window) (CF : list T) (angles0 : list R) (g : nat)
    (rotaxis proplane : string) (st : Scores) (maximumcc : nat) :
  translatebtn w = true ->
  tabulated f w CF angles0 g rotaxis proplane st ->
  winning_row (all_xcorr st) maximumcc ->
  0 <= Rsum (nth 0 (all_xcorr st) []) ->
  maximumcc = 0%nat.
Proof.
  intros Htr Ht (Hk & _ & Hfst) H0.
  destruct maximumcc as [|m]; [reflexivity | exfalso].
  assert (Hlt := Hfst 0%nat (Nat.lt_0_succ m)).
  assert (Lt : length (all_xcorr st) = length angles0) by apply Ht.
  destruct (tabulated_row f w CF angles0 g rotaxis proplane st (S m) Ht)
    as (Hs & _); [lia|].
  rewrite Hs in Hlt. unfold summed_score in Hlt.
  rewrite Rsum_all_zero in Hlt; [lra|].
  intros j _. rewrite entry_no_angle; [reflexivity|].
  unfold scored_angles. rewrite Htr. apply nth_error_None. simpl. lia.
Qed.

(** align_group in both modes: the tables, the winning row, and the write
    back when the list [angles] holds an angle at the number of the winning
    row. *)
Lemma align_group_table (w : Window) (CF : list CImage) (angles0 : list R)
    (g : nat) (rotaxis proplane : string) :
  search_ready w g rotaxis proplane ->
  references_fit w proplane CF ->
  angles0 <> [] ->
  exists st maximumcc,
    score_all record_peak w CF angles0 g rotaxis proplane = Some st
    /\ tabulated peak w CF angles0 g rotaxis proplane st
    /\ table_of peak_spec w CF angles0 g rotaxis proplane st
    /\ winning_row (all_xcorr st) maximumcc
    /\ (nth_error (final_angles w angles0) maximumcc = None ->
        align_group w CF angles0 g rotaxis proplane = None)
    /\ forall rotfinal,
         nth_error (final_angles w angles0) maximumcc = Some rotfinal ->
         exists w',
           align_group w CF angles0 g rotaxis proplane = Some w'
           /\ group_moved w w' g
                (fun p =>
                   shifted proplane
                     (mean (nth maximumcc (all_da st) []))
                     (if translatebtn w then 0
                      else mean (nth maximumcc (all_db st) []))
                     (pixelsize w)
                     (rotated rotaxis rotfinal (pixelsize w) p)).
Proof.
  intros (WF & GP & Hax & Hv & Hps) HR Hne.
  destruct (score_all_tabulated record_peak peak
              w CF angles0 g rotaxis proplane record_peak_stores WF GP Hne
              (peak_cells_defined w CF _ g rotaxis proplane
                 WF GP Hax Hv HR)) as (st & Es & Ht).
  destruct (tabulated_choose peak w CF angles0 g rotaxis proplane st Ht Hne)
    as (k & Hw & Hk & Ec).
  exists st, k. split; [exact Es|]. split; [exact Ht|]. split.
  { apply (tabulated_table peak); [exact Hne | | exact Ht].
    apply peak_cells_specified; assumption. }
  split; [exact Hw|]. split.
  - intros En. unfold align_group. rewrite Es. cbn [bind].
    rewrite Ec, En. reflexivity.
  - intros rot Er.
    destruct (align_writeback w g rotaxis proplane rot
                (mean (nth k (all_da st) []))
                (mean (nth k (all_db st) [])) WF GP Hax)
      as (ls & El & Hl).
    exists (set_locs w ls). split.
    + unfold align_group. rewrite Es. cbn [bind]. rewrite Ec, Er.
      cbn [bind]. rewrite El. reflexivity.
    + exact Hl.
Qed.

(** rotatexy_convolution_group in both modes. *)
Lemma rotatexy_convolution_group_table (w : Window) (CF : list Image)
    (angles0 : list R) (g : nat) (rotaxis proplane : string) :
  search_ready w g rotaxis proplane ->
  references_fit w proplane CF ->
  angles0 <> [] ->
  exists st maximumcc,
    score_all record_conv w CF angles0 g rotaxis proplane = Some st
    /\ tabulated conv3 w CF angles0 g rotaxis proplane st
    /\ table_of conv_spec w CF angles0 g rotaxis proplane st
    /\ winning_row (all_xcorr st) maximumcc
    /\ (nth_error (final_angles w angles0) maximumcc = None ->
        rotatexy_convolution_group w CF angles0 g rotaxis proplane = None)
    /\ forall rotfinal,
         nth_error (final_angles w angles0) maximumcc = Some rotfinal ->
         exists w',
           rotatexy_convolution_group w CF angles0 g rotaxis proplane
           = Some w'
           /\ group_moved w w' g (rotated rotaxis rotfinal (pixelsize w)).
Proof.
  intros (WF & GP & Hax & Hv & Hps) HR Hne.
  destruct (score_all_tabulated record_conv conv3
              w CF angles0 g rotaxis proplane record_conv_stores WF GP Hne
              (conv_cells_defined w CF _ g rotaxis proplane
                 WF GP Hax Hv HR)) as (st & Es & Ht).
  destruct (tabulated_choose conv3 w CF angles0 g rotaxis proplane st Ht Hne)
    as (k & Hw & Hk & Ec).
  exists st, k. split; [exact Es|]. split; [exact Ht|]. split.
  { apply (tabulated_table conv3); [exact Hne | | exact Ht].
    apply conv_cells_specified; assumption. }
  split; [exact Hw|]. split.
  - intros En. unfold rotatexy_convolution_group. rewrite Es. cbn [bind].
    rewrite Ec, En. reflexivity.
  - intros rot Er.
    destruct (rotate_writeback w g rotaxis rot WF GP Hax) as (ls & El & Hl).
    exists (set_locs w ls). split.
    + unfold rotatexy_convolution_group. rewrite Es. cbn [bind].
      rewrite Ec, Er. cbn [bind]. rewrite El. reflexivity.
    + exact Hl.
Qed.

(** In rotation mode the winning row has an angle. *)
Lemma winning_angle_exists (w : Window) (angles0 : list R) (st : Scores)
    (maximumcc : nat) :
  translatebtn w = false ->
  shaped (all_xcorr st) (length angles0) (length (locs w)) ->
  winning_row (all_xcorr st) maximumcc ->
  exists rotfinal,
    nth_error angles0 maximumcc = Some rotfinal
    /\ nth_error (final_angles w angles0) maximumcc = Some rotfinal.
Proof.
  intros Htr [L _] (Hk & _). rewrite (final_angles_rotation w angles0 Htr).
  destruct (nth_error angles0 maximumcc) as [rot|] eqn:E; [eauto|].
  apply nth_error_None in E. lia.
Qed.


(** ** The two per-group functions *)

(** align_group returns; its winner is the first angle of maximal summed
    score, its shift the mean of the stored shifts over all channels, and
    every channel has the members of the group rotated and shifted. *)
Lemma align_group_effect (w : Window) (CF : list CImage) (angles0 : list R)
    (g : nat) (rotaxis proplane : string) :
  search_ready w g rotaxis proplane ->
  translatebtn w = false ->
  references_fit w proplane CF ->
  angles0 <> [] ->
  exists st maximumcc rotfinal w',
    score_all record_peak w CF angles0 g rotaxis proplane = Some st
    /\ choose st
       = Some (maximumcc, rotfinal,
               mean_da peak w CF angles0 g rotaxis proplane maximumcc,
               mean_db peak w CF angles0 g rotaxis proplane maximumcc)
    /\ nth_error angles0 maximumcc = Some rotfinal
    /\ (forall k, (k < length angles0)%nat ->
          summed_score peak w CF angles0 g rotaxis proplane k
          <= summed_score peak w CF angles0 g rotaxis proplane maximumcc)
    /\ (forall k, (k < maximumcc)%nat ->
          summed_score peak w CF angles0 g rotaxis proplane k
          < summed_score peak w CF angles0 g rotaxis proplane maximumcc)
    /\ align_group w CF angles0 g rotaxis proplane = Some w'
    /\ forall j lj, nth_error (locs w) j = Some lj ->
         exists lj' index,
           nth_error (locs w') j = Some lj'
           /\ members w j g = Some index
           /\ group lj' = group lj
           /\ (forall i, In i index ->
                 point lj' i
                 = shifted proplane
                     (mean_da peak w CF angles0 g rotaxis proplane maximumcc)
                     (mean_db peak w CF angles0 g rotaxis proplane maximumcc)
                     (pixelsize w)
                     (rotated rotaxis rotfinal (pixelsize w) (point lj i)))
           /\ (forall i, ~ In i index -> point lj' i = point lj i).
Proof.
  intros (WF & GP & Hax & Hv & Hps) Htr HR Hne.
  destruct (score_all_filled record_peak peak record_peak_stores
              w CF angles0 g rotaxis proplane WF GP Htr
              (peak_cells_defined w CF angles0 g rotaxis proplane
                 WF GP Hax Hv HR)) as (st & Es & Fs).
  destruct (choose_spec peak w CF angles0 g rotaxis proplane st Fs Hne)
    as (k & rot & Ec & Er & Hmax & Hfst).
  destruct (align_writeback w g rotaxis proplane rot
              (mean_da peak w CF angles0 g rotaxis proplane k)
              (mean_db peak w CF angles0 g rotaxis proplane k) WF GP Hax)
    as (ls & El & Hl).
  exists st, k, rot, (set_locs w ls).
  repeat split; auto.
  - unfold align_group. rewrite Es. simpl. rewrite Ec. simpl.
    rewrite El. reflexivity.
  - intros j lj E. destruct (Hl j lj E) as (lj' & index & H).
    rewrite Htr in H. exists lj', index. exact H.
Qed.

(** rotatexy_convolution_group returns; its winner is the first angle of
    maximal summed score, and every channel has the members of the group
    rotated. *)
Lemma rotatexy_convolution_group_effect (w : Window) (CF : list Image)
    (angles0 : list R) (g : nat) (rotaxis proplane : string) :
  search_ready w g rotaxis proplane ->
  translatebtn w = false ->
  references_fit w proplane CF ->
  angles0 <> [] ->
  exists st maximumcc rotfinal dafinal dbfinal w',
    score_all record_conv w CF angles0 g rotaxis proplane = Some st
    /\ choose st = Some (maximumcc, rotfinal, dafinal, dbfinal)
    /\ nth_error angles0 maximumcc = Some rotfinal
    /\ (forall k, (k < length angles0)%nat ->
          summed_score conv3 w CF angles0 g rotaxis proplane k
          <= summed_score conv3 w CF angles0 g rotaxis proplane maximumcc)
    /\ (forall k, (k < maximumcc)%nat ->
          summed_score conv3 w CF angles0 g rotaxis proplane k
          < summed_score conv3 w CF angles0 g rotaxis proplane maximumcc)
    /\ rotatexy_convolution_group w CF angles0 g rotaxis proplane = Some w'
    /\ forall j lj, nth_error (locs w) j = Some lj ->
         exists lj' index,
           nth_error (locs w') j = Some lj'
           /\ members w j g = Some index
           /\ group lj' = group lj
           /\ (forall i, In i index ->
                 point lj' i
                 = rotated rotaxis rotfinal (pixelsize w) (point lj i))
           /\ (forall i, ~ In i index -> point lj' i = point lj i).
Proof.
  intros (WF & GP & Hax & Hv & Hps) Htr HR Hne.
  destruct (score_all_filled record_conv conv3 record_conv_stores
              w CF angles0 g rotaxis proplane WF GP Htr
              (conv_cells_defined w CF angles0 g rotaxis proplane
                 WF GP Hax Hv HR)) as (st & Es & Fs).
  destruct (choose_spec conv3 w CF angles0 g rotaxis proplane st Fs Hne)
    as (k & rot & Ec & Er & Hmax & Hfst).
  destruct (rotate_writeback w g rotaxis rot WF GP Hax) as (ls & El & Hl).
  exists st, k, rot,
    (mean_da conv3 w CF angles0 g rotaxis proplane k),
    (mean_db conv3 w CF angles0 g rotaxis proplane k), (set_locs w ls).
  split; [exact Es|]. split; [exact Ec|]. split; [exact Er|].
  split; [exact Hmax|]. split; [exact Hfst|]. split.
  - unfold rotatexy_convolution_group. rewrite Es. simpl. rewrite Ec. simpl.
    rewrite El. reflexivity.
  - exact Hl.
Qed.

(** C1.  In both per-group functions the table [all_xcorr] has a row per
    candidate angle and a column per channel; a channel that is not checked
    keeps the score zero at every angle; a checked channel has in row [k]
    the score of the group rendered at angle [k] (for align_group the
    largest value of the cross-correlation with the reference, for
    rotatexy_convolution_group the sum of the products with the reference);
    [maximumcc] is the first row of largest sum over all channels, and the
    angle of that row is the rotation written back to the members of the
    group in every channel.  With "Translate only" on, only the angle 0 is
    scored, in row 0: when the sum of that row is not negative, row 0 wins,
    and the rotation written back is 0 when a channel is checked and the
    first candidate angle otherwise. *)
Theorem winning_angle_maximises_summed_score (w : Window)
    (CFp : list CImage) (CFc : list Image) (angles0 : list R) (g : nat)
    (rotaxis proplane : string) :
  search_ready w g rotaxis proplane ->
  angles0 <> [] ->
  references_fit w proplane CFp ->
  references_fit w proplane CFc ->
  (exists st maximumcc,
     score_all record_peak w CFp angles0 g rotaxis proplane = Some st
     /\ table_of peak_spec w CFp angles0 g rotaxis proplane st
     /\ winning_row (all_xcorr st) maximumcc
     /\ (translatebtn w = false ->
         exists rotfinal da db w',
           nth_error angles0 maximumcc = Some rotfinal
           /\ align_group w CFp angles0 g rotaxis proplane = Some w'
           /\ group_moved w w' g
                (fun p => shifted proplane da db (pixelsize w)
                            (rotated rotaxis rotfinal (pixelsize w) p)))
     /\ (translatebtn w = true ->
         0 <= Rsum (nth 0 (all_xcorr st) []) ->
         maximumcc = 0%nat
         /\ exists da w',
              align_group w CFp angles0 g rotaxis proplane = Some w'
              /\ group_moved w w' g
                   (fun p =>
                      shifted proplane da 0 (pixelsize w)
                        (rotated rotaxis
                           (if any_checked w then 0 else hd 0 angles0)
                           (pixelsize w) p))))
  /\ (exists st maximumcc,
        score_all record_conv w CFc angles0 g rotaxis proplane = Some st
        /\ table_of conv_spec w CFc angles0 g rotaxis proplane st
        /\ winning_row (all_xcorr st) maximumcc
        /\ (translatebtn w = false ->
            exists rotfinal w',
              nth_error angles0 maximumcc = Some rotfinal
              /\ rotatexy_convolution_group w CFc angles0 g rotaxis proplane
                 = Some w'
              /\ group_moved w w' g (rotated rotaxis rotfinal (pixelsize w)))
        /\ (translatebtn w = true ->
            0 <= Rsum (nth 0 (all_xcorr st) []) ->
            maximumcc = 0%nat
            /\ exists w',
                 rotatexy_convolution_group w CFc angles0 g rotaxis proplane
                 = Some w'
                 /\ group_moved w w' g
                      (rotated rotaxis
                         (if any_checked w then 0 else hd 0 angles0)
                         (pixelsize w)))).
Proof.
  intros Hr Hne Hp Hc. split.
  - destruct (align_group_table w CFp angles0 g rotaxis proplane Hr Hp Hne)
      as (st & k & Es & Ht & Htab & Hw & _ & Hret).
    exists st, k. split; [exact Es|]. split; [exact Htab|].
    split; [exact Hw|]. split.
    + intros Htr.
      destruct (winning_angle_exists w angles0 st k Htr (proj1 Htab) Hw)
        as (rot & Er & Ef).
      destruct (Hret rot Ef) as (w' & Ea & Hm).
      exists rot, (mean (nth k (all_da st) [])),
        (mean (nth k (all_db st) [])), w'.
      split; [exact Er|]. split; [exact Ea|].
      rewrite Htr in Hm. exact Hm.
    + intros Htr H0.
      assert (k = 0%nat)
        by exact (single_angle_winner peak w CFp angles0 g rotaxis proplane
                    st k Htr Ht Hw H0).
      subst k. split; [reflexivity|].
      destruct (Hret _ (final_angles_first w angles0 Hne))
        as (w' & Ea & Hm).
      exists (mean (nth 0 (all_da st) [])), w'.
      split; [exact Ea|]. rewrite Htr in Hm. exact Hm.
  - destruct (rotatexy_convolution_group_table w CFc angles0 g rotaxis
                proplane Hr Hc Hne)
      as (st & k & Es & Ht & Htab & Hw & _ & Hret).
    exists st, k. split; [exact Es|]. split; [exact Htab|].
    split; [exact Hw|]. split.
    + intros Htr.
      destruct (winning_angle_exists w angles0 st k Htr (proj1 Htab) Hw)
        as (rot & Er & Ef).
      destruct (Hret rot Ef) as (w' & Ea & Hm).
      exists rot, w'. auto.
    + intros Htr H0.
      assert (k = 0%nat)
        by exact (single_angle_winner conv3 w CFc angles0 g rotaxis proplane
                    st k Htr Ht Hw H0).
      subst k. split; [reflexivity|].
      destruct (Hret _ (final_angles_first w angles0 Hne))
        as (w' & Ea & Hm).
      exists w'. split; [exact Ea|]. rewrite Htr in Hm. exact Hm.
Qed.

(** The concrete sessions are ready for a search about 'z' in the 'xy'
    plane. *)
Lemma session_view (ls : list Locs) (gi : list (list (list nat)))
    (cs : list bool) :
  plane_shape (session ls gi cs) "xy" = (2%Z, 2%Z).
Proof.
  unfold plane_shape. simpl.
  rewrite (ceil_unique (1 * (1 - -1)) 2) by (simpl; lra). reflexivity.
Qed.

Lemma outlier_session_ready : search_ready outlier_session 0 "z" "xy".
Proof.
  unfold search_ready, well_formed, group_present, view_ok, outlier_session.
  rewrite session_view. simpl.
  repeat split; auto; try lia; try lra.
  repeat constructor; simpl; auto.
Qed.

Lemma mixed_session_ready : search_ready mixed_session 0 "z" "xy".
Proof.
  unfold search_ready, well_formed, group_present, view_ok, mixed_session.
  rewrite session_view. simpl.
  repeat split; auto; try lia; try lra.
  repeat constructor; simpl; auto.
Qed.

Lemma lit_session_ready : search_ready lit_session 0 "z" "xy".
Proof.
  unfold search_ready, well_formed, group_present, view_ok, lit_session.
  rewrite session_view. simpl.
  repeat split; auto; try lia; try lra.
  repeat constructor; simpl; auto.
Qed.

Lemma flat_reference_fits (ls : list Locs) (gi : list (list (list nat)))
    (cs : list bool) :
  references_fit (session ls gi cs) "xy" (map (fun _ => flat_reference) ls)
  /\ references_fit (session ls gi cs) "xy" (map (fun _ => flat_image) ls).
Proof.
  unfold references_fit. rewrite session_view. simpl.
  rewrite !length_map.
  repeat split; apply Forall_map, Forall_forall; intros; reflexivity.
Qed.

Lemma winning_angle_maximises_summed_score_witness :
  search_ready lit_session 0 "z" "xy"
  /\ [0; PI] <> []
  /\ exists st maximumcc w',
       score_all record_peak lit_session [flat_reference; flat_reference]
                 [0; PI] 0 "z" "xy" = Some st
       /\ winning_row (all_xcorr st) maximumcc
       /\ align_group lit_session [flat_reference; flat_reference]
                      [0; PI] 0 "z" "xy" = Some w'
       /\ stored st 0 1 = (0, 0, 0) /\ stored st 1 1 = (0, 0, 0).
Proof.
  assert (Hne : [0; PI] <> []) by discriminate.
  split; [exact lit_session_ready|]. split; [exact Hne|].
  destruct (winning_angle_maximises_summed_score lit_session
              [flat_reference; flat_reference] [flat_image; flat_image]
              [0; PI] 0 "z" "xy" lit_session_ready Hne
              (proj1 (flat_reference_fits _ _ _))
              (proj2 (flat_reference_fits _ _ _)))
    as ((st & k & Es & (_ & _ & _ & Hz & _) & Hw & Hrot & _) & _).
  destruct (Hrot eq_refl) as (rot & da & db & w' & _ & Ea & _).
  exists st, k, w'. split; [exact Es|]. split; [exact Hw|].
  split; [exact Ea|].
  split; apply Hz; left; reflexivity.
Defined.

(** The render of a group of one localization at [(5, 5, 0)], outside the
    view, retains no point. *)
Lemma outlier_group_image (ls : list Locs) (gi : list (list (list nat)))
    (cs : list bool) :
  group_image (session ls gi cs) (single 5 5 0) [0%nat] "z" "xy" 0
  = Some (0%nat, zeros 2 2).
Proof.
  unfold group_image, gather, rotate_axis_arr. simpl.
  rewrite cos_0, sin_0.
  unfold render_planes_N, plane_args, render_histxyz. simpl.
  rewrite (ceil_unique (1 * (1 - -1)) 2) by (simpl; lra). simpl.
  unfold in_view, Rltb. simpl.
  decide_Rlt; reflexivity.
Qed.

Lemma corner_of_two_pixels : IZR (ceil (0 - INR 2 / 2)) / 1 = -1.
Proof.
  rewrite (ceil_unique (0 - INR 2 / 2) (-1)) by (simpl; lra). lra.
Qed.

Lemma outlier_entry (ls : list Locs) (gi : list (list (list nat)))
    (cs : list bool) (CFs : list CImage) (j : nat) :
  nth j cs false = true ->
  nth_error ls j = Some (single 5 5 0) ->
  nth_error gi j = Some [[0%nat]] ->
  nth_error CFs j = Some flat_reference ->
  entry peak (session ls gi cs) CFs [0] 0 "z" "xy" 0 j = (0, -1, -1).
Proof.
  intros Hc Hl Hg HC. unfold entry, members. simpl.
  rewrite Hc, Hl. simpl. rewrite Hg. simpl.
  rewrite outlier_group_image. cbn [bind]. rewrite HC. cbn [bind].
  rewrite (peak_zeros _ flat_reference 2 2) by (try lia; reflexivity).
  cbn [oversampling session]. rewrite corner_of_two_pixels. reflexivity.
Qed.

Lemma single_angle (k : nat) (rot : R) :
  nth_error [0] k = Some rot -> k = 0%nat /\ rot = 0.
Proof.
  destruct k as [|[|k]]; simpl; intros H; inversion H; auto.
Qed.

Lemma rotated_by_zero (a b c : R) : rotated "z" 0 1 (a, b, c) = (a, b, c).
Proof.
  unfold rotated, rotate_axis. simpl. rewrite cos_0, sin_0.
  split_pairs; ring.
Qed.

Lemma mean_of_row (M : Image) (rows cols k : nat) :
  shaped M rows cols -> (k < rows)%nat ->
  mean (nth k M [])
  = Rsum (map (fun j => get2 M k j) (seq 0 cols)) / INR cols.
Proof.
  intros S Hk. unfold mean.
  rewrite (Rsum_nth (nth k M [])), (shaped_row _ _ _ k S Hk). reflexivity.
Qed.



(** What align_group does to the mixed session: the unchecked channel is
    shifted too, by half the shift of the only checked channel. *)
Lemma mixed_session_aligned :
  exists w' lj0' lj1',
    align_group mixed_session [flat_reference; flat_reference] [0] 0
                "z" "xy" = Some w'
    /\ nth_error (locs w') 0 = Some lj0'
    /\ nth_error (locs w') 1 = Some lj1'
    /\ point lj0' 0 = (5 + 1 / 2, 5 + 1 / 2, 0)
    /\ point lj1' 0 = (3 / 4, 3 / 4, 0).
Proof.
  assert (Hne : [0] <> []) by discriminate.
  destruct (align_group_effect mixed_session
              [flat_reference; flat_reference] [0] 0 "z" "xy"
              mixed_session_ready eq_refl
              (proj1 (flat_reference_fits _ _ _)) Hne)
    as (st & k & rot & w' & _ & _ & Er & _ & _ & Ea & Hl).
  destruct (single_angle k rot Er) as [-> ->].
  assert (E0 : entry peak mixed_session [flat_reference; flat_reference]
                 [0] 0 "z" "xy" 0 0 = (0, -1, -1))
    by (apply outlier_entry; reflexivity).
  assert (Da : mean_da peak mixed_session [flat_reference; flat_reference]
                 [0] 0 "z" "xy" 0 = - (1 / 2)).
  { unfold mean_da. cbn [locs mixed_session session length seq map].
    rewrite E0. unfold entry. cbn [checks session nth]. simpl. field. }
  assert (Db : mean_db peak mixed_session [flat_reference; flat_reference]
                 [0] 0 "z" "xy" 0 = - (1 / 2)).
  { unfold mean_db. cbn [locs mixed_session session length seq map].
    rewrite E0. unfold entry. cbn [checks session nth]. simpl. field. }
  rewrite Da, Db in Hl.
  destruct (Hl 0%nat _ eq_refl) as (lj0' & i0 & N0 & M0 & _ & P0 & _).
  destruct (Hl 1%nat _ eq_refl) as (lj1' & i1 & N1 & M1 & _ & P1 & _).
  exists w', lj0', lj1'.
  split; [exact Ea|]. split; [exact N0|]. split; [exact N1|].
  inversion M0; subst i0. inversion M1; subst i1.
  rewrite (P0 0%nat) by (simpl; auto). rewrite (P1 0%nat) by (simpl; auto).
  unfold point. simpl nth. rewrite !rotated_by_zero.
  unfold shifted. simpl. split; split_pairs; lra.
Qed.


(** ** A group without any retained point *)

(** The entries the peak search stores when every checked channel renders
    the group without a retained point. *)
Lemma empty_render_entry (w : Window) (CF : list CImage) (angles0 : list R)
    (g : nat) (rotaxis proplane : string) :
  search_ready w g rotaxis proplane ->
  references_fit w proplane CF ->
  (forall j lj index k angle,
     nth_error (checks w) j = Some true ->
     nth_error (locs w) j = Some lj ->
     members w j g = Some index ->
     nth_error angles0 k = Some angle ->
     exists image,
       group_image w lj index rotaxis proplane angle = Some (0%nat, image)) ->
  forall k j, (k < length angles0)%nat -> (j < length (locs w))%nat ->
    entry peak w CF angles0 g rotaxis proplane k j
    = if nth j (checks w) false
      then (0, corner_shift w (snd (plane_shape w proplane)),
            corner_shift w (fst (plane_shape w proplane)))
      else (0, 0, 0).
Proof.
  intros (WF & GP & Hax & Hv & Hps) HR Hdeg k j Hk Hj.
  unfold entry. destruct (nth j (checks w) false) eqn:Ec; [|reflexivity].
  assert (Ec' : nth_error (checks w) j = Some true).
  { rewrite <- Ec. apply nth_error_nth'. destruct WF as [L _]. lia. }
  destruct (nth_error (locs w) j) as [lj|] eqn:El;
    [|apply nth_error_None in El; lia].
  destruct (members_ok w g j lj WF GP El) as (index & Hm & Hx & Lxy & Lyz).
  destruct (nth_error angles0 k) as [angle|] eqn:Ea;
    [|apply nth_error_None in Ea; lia].
  destruct (Hdeg j lj index k angle Ec' El Hm Ea) as (image & Eg).
  destruct (group_image_defined w lj index rotaxis proplane angle
              Hax Hv Hx Lxy Lyz) as (N & image' & Eg' & _ & Hz).
  rewrite Eg in Eg'. inversion Eg'; subst N image'.
  rewrite (Hz eq_refl) in Eg.
  destruct (references_nth w proplane CF j HR Hj) as (CFj & EC & SC).
  assert (EC' : nth_error CF j = Some CFj) by exact EC.
  cbn [bind]. rewrite Hm. cbn [bind]. rewrite Eg. cbn [bind].
  rewrite EC'. cbn [bind].
  destruct Hv as (_ & Hb & Hpa).
  rewrite peak_zeros by (try lia; exact SC). reflexivity.
Qed.

Lemma rotated_by_zero_angle (axis : string) (pixelsize : R) (p : R * R * R) :
  rotated axis 0 pixelsize p = p.
Proof.
  destruct p as [[a b] c]. unfold rotated, rotate_axis. simpl.
  rewrite cos_0, sin_0.
  destruct (String.eqb axis "z"); [split_pairs; ring|].
  destruct (String.eqb axis "y"); [split_pairs; unfold Rdiv; ring|].
  destruct (String.eqb axis "x"); [split_pairs; unfold Rdiv; ring|].
  reflexivity.
Qed.

Lemma shifted_by_zero (proplane : string) (pixelsize : R) (p : R * R * R) :
  shifted proplane 0 0 pixelsize p = p.
Proof.
  destruct p as [[a b] c]. unfold shifted. simpl.
  destruct (String.eqb proplane "xy"); [split_pairs; ring|].
  destruct (String.eqb proplane "yz"); [split_pairs; ring|].
  destruct (String.eqb proplane "xz"); [split_pairs; ring|].
  reflexivity.
Qed.

Lemma none_checked (w : Window) :
  enabled_channels w = [] -> any_checked w = false.
Proof.
  unfold enabled_channels, any_checked.
  induction (seq 0 (length (locs w))) as [|j l IH]; simpl; [reflexivity|].
  destruct (nth j (checks w) false); [discriminate | exact IH].
Qed.


Lemma outlier_session_renders_empty :
  forall j lj index k angle,
    nth_error (locs outlier_session) j = Some lj ->
    members outlier_session j 0 = Some index ->
    nth_error [0] k = Some angle ->
    group_image outlier_session lj index "z" "xy" angle
    = Some (0%nat, zeros 2 2).
Proof.
  intros j lj index k angle El Hm Ea.
  destruct (single_angle k angle Ea) as [-> ->].
  destruct j as [|[|j]]; simpl in El; try discriminate.
  inversion El; subst lj. inversion Hm; subst index.
  apply outlier_group_image.
Qed.


(** What align_group does to the outlier session: the group moves. *)
Lemma outlier_session_aligned :
  exists w' lj',
    align_group outlier_session [flat_reference] [0] 0 "z" "xy" = Some w'
    /\ nth_error (locs w') 0 = Some lj'
    /\ point lj' 0 = (6, 6, 0).
Proof.
  assert (Hne : [0] <> []) by discriminate.
  destruct (align_group_effect outlier_session [flat_reference] [0] 0
              "z" "xy" outlier_session_ready eq_refl
              (proj1 (flat_reference_fits _ _ _)) Hne)
    as (st & k & rot & w' & _ & _ & Er & _ & _ & Ea & Hl).
  destruct (single_angle k rot Er) as [-> ->].
  assert (E0 : entry peak outlier_session [flat_reference] [0] 0 "z" "xy" 0 0
               = (0, -1, -1))
    by (apply outlier_entry; reflexivity).
  assert (Da : mean_da peak outlier_session [flat_reference] [0] 0
                 "z" "xy" 0 = -1).
  { unfold mean_da. cbn [locs outlier_session session length seq map].
    rewrite E0. simpl. field. }
  assert (Db : mean_db peak outlier_session [flat_reference] [0] 0
                 "z" "xy" 0 = -1).
  { unfold mean_db. cbn [locs outlier_session session length seq map].
    rewrite E0. simpl. field. }
  rewrite Da, Db in Hl.
  destruct (Hl 0%nat _ eq_refl) as (lj' & i0 & N0 & M0 & _ & P0 & _).
  exists w', lj'. split; [exact Ea|]. split; [exact N0|].
  inversion M0; subst i0. rewrite (P0 0%nat) by (simpl; auto).
  unfold point. simpl nth. rewrite rotated_by_zero.
  unfold shifted. simpl. split_pairs; lra.
Qed.


(** ** The redraw *)

Lemma mapM_Forall2 {A B : Type} (f : A -> option B) (l : list A)
    (l' : list B) :
  mapM f l = Some l' -> Forall2 (fun a b => f a = Some b) l l'.
Proof.
  revert l'. induction l as [|a t IH]; intros l' E; simpl in E.
  - inversion E. constructor.
  - destruct (f a) as [b|] eqn:Ea; [|discriminate]. cbn [bind] in E.
    destruct (mapM f t) as [r|]; [|discriminate]. cbn [bind] in E.
    inversion E; subst l'. constructor; [exact Ea | apply IH; reflexivity].
Qed.

(** What updateLayout leaves when it returns: the session with the dialog's
    oversampling. *)
Lemma updateLayout_effect (w w' : Window) :
  updateLayout w = Some w' ->
  w' = set_oversampling w (dialog_oversampling w).
Proof.
  unfold updateLayout, hist_multi_channel. intros E.
  destruct (locs w); [discriminate|].
  destruct (mapM _ _) as [checked|]; [|discriminate]. cbn [bind] in E.
  destruct (existsb _ checked); [|discriminate]. now inversion E.
Qed.

(** It returns on a session with a check box per channel, one of them
    checked. *)
Lemma updateLayout_returns (w : Window) :
  length (checks w) = length (locs w) ->
  (exists j, nth_error (checks w) j = Some true) ->
  updateLayout w = Some (set_oversampling w (dialog_oversampling w)).
Proof.
  intros L (j & Ej). unfold updateLayout, hist_multi_channel.
  assert (Hj : (j < length (locs w))%nat).
  { rewrite <- L. apply nth_error_Some. congruence. }
  destruct (locs w) as [|l0 t] eqn:El; [simpl in Hj; lia|].
  rewrite <- El in *. clear El l0 t.
  rewrite (mapM_In _ (fun i => nth i (checks w) false)).
  - cbn [bind].
    replace (existsb (fun c : bool => c) _) with true; [reflexivity|].
    symmetry. apply existsb_exists. exists true. split; [|reflexivity].
    apply in_map_iff. exists j. split.
    + apply (nth_error_nth _ _ false Ej).
    + apply in_seq. lia.
  - intros i Hi. apply in_seq in Hi. apply nth_error_nth'. lia.
Qed.

(** It raises when no channel is checked. *)
Lemma updateLayout_needs_check (w : Window) :
  (forall j, nth_error (checks w) j <> Some true) ->
  updateLayout w = None.
Proof.
  intros H. unfold updateLayout, hist_multi_channel.
  destruct (locs w); [reflexivity|].
  destruct (mapM _ _) as [checked|] eqn:E; [|reflexivity]. cbn [bind].
  replace (existsb (fun c : bool => c) checked) with false; [reflexivity|].
  symmetry. apply not_true_is_false. intros F.
  apply existsb_exists in F. destruct F as (c & Hc & ->).
  apply mapM_Forall2 in E.
  destruct (In_nth_error _ _ Hc) as (i & Ei).
  destruct (Forall2_nth_error_l _ _ _ _ _ (Forall2_flip E) Ei)
    as (a & _ & Ha).
  exact (H a Ha).
Qed.

(** ** Recentring *)

Lemma mapMi_imap {A B : Type} (f : nat -> A -> option B) (h : nat -> A -> B)
    (l : list A) (j0 : nat) :
  (forall j a, nth_error l j = Some a ->
               f (j0 + j)%nat a = Some (h (j0 + j)%nat a)) ->
  mapMi f j0 l = Some (imap h j0 l).
Proof.
  revert j0. induction l as [|a t IH]; intros j0 H; simpl; [reflexivity|].
  assert (H0 := H 0%nat a eq_refl). rewrite Nat.add_0_r in H0.
  rewrite H0. simpl. rewrite IH; [reflexivity|].
  intros j a' E. specialize (H (S j) a' E).
  now rewrite Nat.add_succ_r in H.
Qed.

Lemma map_imap {A B D : Type} (k : B -> D) (h : nat -> A -> B)
    (l : list A) (j0 : nat) :
  map k (imap h j0 l) = imap (fun j a => k (h j a)) j0 l.
Proof.
  revert j0. induction l as [|a t IH]; intros j0; simpl; [reflexivity|].
  now rewrite IH.
Qed.

Lemma imap_ext_nth {A B : Type} (h h' : nat -> A -> B) (l l' : list A)
    (j0 : nat) :
  length l = length l' ->
  (forall j a a', nth_error l j = Some a -> nth_error l' j = Some a' ->
                  h (j0 + j)%nat a = h' (j0 + j)%nat a') ->
  imap h j0 l = imap h' j0 l'.
Proof.
  revert l' j0. induction l as [|a t IH]; intros [|a' t'] j0 L H;
    simpl in *; try discriminate; [reflexivity|].
  f_equal.
  - specialize (H 0%nat a a' eq_refl eq_refl).
    now rewrite Nat.add_0_r in H.
  - apply IH; [lia|]. intros j b b' E E'.
    specialize (H (S j) b b' E E'). now rewrite Nat.add_succ_r in H.
Qed.

Lemma Forall2_of_nth_error {A B : Type} (P : A -> B -> Prop)
    (l : list A) (l' : list B) :
  length l = length l' ->
  (forall j a b, nth_error l j = Some a -> nth_error l' j = Some b -> P a b) ->
  Forall2 P l l'.
Proof.
  revert l'. induction l as [|a t IH]; intros [|b t'] L H;
    simpl in *; try discriminate; constructor.
  - apply (H 0%nat); reflexivity.
  - apply IH; [lia|]. intros j a' b' E E'. apply (H (S j)); assumption.
Qed.

Lemma members_in (w : Window) (ls : list Locs) (g j : nat) (lj : Locs) :
  Forall2 channel_ok ls (group_index w) -> group_present w g ->
  nth_error ls j = Some lj ->
  exists rows index,
    nth_error (group_index w) j = Some rows
    /\ members w j g = Some index
    /\ channel_ok lj rows
    /\ Forall (fun i => (i < length (x lj))%nat) index.
Proof.
  intros WF GP E.
  destruct (Forall2_nth_error_l _ _ _ _ _ WF E) as (rows & Er & Hok).
  unfold group_present in GP. rewrite Forall_forall in GP.
  assert (Hg : (g < length rows)%nat)
    by (apply GP; eapply nth_error_In; exact Er).
  destruct (nth_error rows g) as [index|] eqn:Ei;
    [|apply nth_error_None in Ei; lia].
  exists rows, index. unfold members. rewrite Er. simpl. rewrite Ei.
  split; [reflexivity|]. split; [reflexivity|]. split; [exact Hok|].
  destruct Hok as [_ _ Rr]. rewrite Forall_forall in Rr. apply Rr.
  eapply nth_error_In. exact Ei.
Qed.

(** One turn of the loop over the groups: the centroid of the row over all
    channels is subtracted from the members of the row in every channel. *)
Lemma centerofmass_group_effect (w : Window) (ls : list Locs) (i : nat) :
  Forall2 channel_ok ls (group_index w) -> group_present w i ->
  exists ls',
    centerofmass_group w ls i = Some ls'
    /\ Forall2 channel_ok ls' (group_index w)
    /\ forall j lj, nth_error ls j = Some lj ->
         exists lj' index,
           nth_error ls' j = Some lj'
           /\ members w j i = Some index
           /\ group lj' = group lj
           /\ (forall m, In m index ->
                 point lj' m = minus3 (point lj m) (centroid w ls i))
           /\ (forall m, ~ In m index -> point lj' m = point lj m).
Proof.
  intros WF GP. unfold centerofmass_group.
  rewrite (mapMi_imap _
             (fun j lj => (member_coords w i x j lj, member_coords w i y j lj,
                           member_coords w i z j lj))).
  2:{ intros j lj E. simpl.
      destruct (members_in w ls i j lj WF GP E)
        as (rows & index & _ & Hm & [Lxy Lyz _] & Hx).
      unfold member_coords. rewrite Hm. simpl.
      rewrite !gather_in_range
        by (try rewrite <- Lyz; try rewrite <- Lxy; exact Hx).
      reflexivity. }
  cbn [bind]. rewrite !map_imap. cbn [fst snd].
  change (mean (concat (imap (fun j a => member_coords w i x j a) 0 ls)))
    with (fst (fst (centroid w ls i))).
  change (mean (concat (imap (fun j a => member_coords w i y j a) 0 ls)))
    with (snd (fst (centroid w ls i))).
  change (mean (concat (imap (fun j a => member_coords w i z j a) 0 ls)))
    with (snd (centroid w ls i)).
  remember (centroid w ls i) as c eqn:Ec. clear Ec.
  destruct (mapMi_pointwise
              (fun j lj =>
                 index <- members w j i ;;
                 lx <- isub (x lj) index (fst (fst c)) ;;
                 ly <- isub (y lj) index (snd (fst c)) ;;
                 lz <- isub (z lj) index (snd c) ;;
                 Some {| x := lx; y := ly; z := lz; group := group lj |})
              (fun j lj lj' =>
                 exists index,
                   members w j i = Some index
                   /\ group lj' = group lj
                   /\ length (x lj') = length (x lj)
                   /\ length (y lj') = length (y lj)
                   /\ length (z lj') = length (z lj)
                   /\ (forall m, In m index ->
                         point lj' m = minus3 (point lj m) c)
                   /\ (forall m, ~ In m index -> point lj' m = point lj m))
              ls 0%nat) as (ls' & Els & F2 & Hn).
  - intros j lj E. simpl.
    destruct (members_in w ls i j lj WF GP E)
      as (rows & index & _ & Hm & [Lxy Lyz _] & Hx).
    assert (Hy : Forall (fun m => (m < length (y lj))%nat) index)
      by (rewrite <- Lxy; exact Hx).
    assert (Hz : Forall (fun m => (m < length (z lj))%nat) index)
      by (rewrite <- Lyz; exact Hy).
    rewrite Hm. simpl.
    destruct (isub_pointwise (x lj) index (fst (fst c)) Hx)
      as (lx & Ex & Lx & Ix & Ox).
    destruct (isub_pointwise (y lj) index (snd (fst c)) Hy)
      as (ly & Ey & Ly & Iy & Oy).
    destruct (isub_pointwise (z lj) index (snd c) Hz)
      as (lz & Ez & Lz & Iz & Oz).
    rewrite Ex, Ey, Ez. simpl. eexists. split; [reflexivity|].
    exists index. simpl. repeat split; auto.
    + intros m Hi. unfold point, minus3. simpl.
      now rewrite Ix, Iy, Iz by exact Hi.
    + intros m Hi. unfold point. simpl.
      now rewrite Ox, Oy, Oz by exact Hi.
  - exists ls'. split; [exact Els|]. split.
    + apply Forall2_of_nth_error.
      * rewrite <- (Forall2_length F2). apply (Forall2_length WF).
      * intros j lj' rows E' Er.
        destruct (nth_error ls j) as [lj|] eqn:El.
        2:{ apply nth_error_None in El.
            assert (nth_error ls' j <> None) by congruence.
            apply nth_error_Some in H.
            rewrite <- (Forall2_length F2) in H. lia. }
        destruct (Hn j lj El) as (lj2 & E2 & index & _ & _ & Lx & Ly & Lz & _).
        simpl in E2. assert (lj2 = lj') by congruence. subst lj2.
        destruct (Forall2_nth_error_l _ _ _ _ _ WF El) as (rows' & Er' & Hok).
        assert (rows' = rows) by congruence. subst rows'.
        destruct Hok as [Cxy Cyz Rr].
        constructor; try congruence. rewrite Lx. exact Rr.
    + intros j lj E.
      destruct (Hn j lj E) as (lj' & E' & index & Hm & G & _ & _ & _ & HI & HO).
      exists lj', index. simpl in E'. auto.
Qed.

Lemma members_row (w : Window) (j i : nat) (rows : list (list nat)) :
  nth_error (group_index w) j = Some rows ->
  members w j i = nth_error rows i.
Proof.
  intros E. unfold members. rewrite E. reflexivity.
Qed.

Lemma point_columns (lj lj' : Locs) (m : nat) :
  point lj' m = point lj m ->
  nth m (x lj') 0 = nth m (x lj) 0
  /\ nth m (y lj') 0 = nth m (y lj) 0
  /\ nth m (z lj') 0 = nth m (z lj) 0.
Proof.
  unfold point. intros H. inversion H. auto.
Qed.

Lemma centroid_stable (w : Window) (ls : list Locs) (i : nat) :
  Forall rows_disjoint (group_index w) ->
  recentred_upto w ls i ->
  centroid w ls i = centroid w (locs w) i.
Proof.
  intros RD (L & WF & Inv).
  assert (Hcol : forall col : Locs -> list R,
            (forall lj lj' m, point lj' m = point lj m ->
                              nth m (col lj') 0 = nth m (col lj) 0) ->
            imap (member_coords w i col) 0 ls
            = imap (member_coords w i col) 0 (locs w)).
  { intros col Hc. apply imap_ext_nth; [exact L|].
    intros j lji lj Ei El. simpl.
    destruct (Forall2_nth_error_l _ _ _ _ _ WF Ei) as (rows & Er & _).
    destruct (Inv j lj rows El Er) as (lj' & E' & _ & _ & Hrest).
    assert (lj' = lji) by congruence. subst lj'.
    unfold member_coords. rewrite (members_row w j i rows Er).
    destruct (nth_error rows i) as [index|] eqn:Eidx; [|reflexivity].
    apply map_ext_in. intros m Hm. apply Hc. apply Hrest.
    intros i' index' Hi' Ei' Hin.
    assert (Hd : rows_disjoint rows).
    { rewrite Forall_forall in RD. apply RD. eapply nth_error_In. exact Er. }
    assert (i' = i) by (eapply Hd; eassumption). lia. }
  unfold centroid.
  rewrite (Hcol x), (Hcol y), (Hcol z); [reflexivity | | |];
    intros lj lj' m H; apply (point_columns lj lj' m H).
Qed.

Lemma centerofmass_step (w : Window) (ls : list Locs) (i : nat) :
  Forall rows_disjoint (group_index w) ->
  group_present w i ->
  recentred_upto w ls i ->
  exists ls',
    centerofmass_group w ls i = Some ls' /\ recentred_upto w ls' (S i).
Proof.
  intros RD GP Hinv.
  assert (Ec := centroid_stable w ls i RD Hinv).
  destruct Hinv as (L & WF & Inv).
  destruct (centerofmass_group_effect w ls i WF GP) as (ls' & Els & WF' & Hn).
  exists ls'. split; [exact Els|]. split.
  { rewrite (Forall2_length WF'), <- (Forall2_length WF). exact L. }
  split; [exact WF'|].
  intros j lj rows El Er.
  destruct (Inv j lj rows El Er) as (lji & Ei & Gi & Hdone & Hrest).
  destruct (Hn j lji Ei) as (lj' & index & E' & Hm & G' & HI & HO).
  rewrite (members_row w j i rows Er) in Hm.
  assert (Hd : rows_disjoint rows).
  { rewrite Forall_forall in RD. apply RD. eapply nth_error_In. exact Er. }
  exists lj'. split; [exact E'|]. split; [congruence|]. split.
  - intros i' index' m Hi' Ei' Hin.
    destruct (Nat.eq_dec i' i) as [->|Hne].
    + assert (index' = index) by congruence. subst index'.
      rewrite (HI m Hin), Ec. f_equal. apply Hrest.
      intros i' index' Hi2 Ei2 Hin2.
      assert (i' = i) by (eapply Hd; eassumption). lia.
    + rewrite HO.
      * apply (Hdone i' index' m); [lia | exact Ei' | exact Hin].
      * intros Hc. apply Hne. eapply Hd; eassumption.
  - intros m Hfree. rewrite HO.
    + apply Hrest. intros i' index' Hi'. apply Hfree. lia.
    + apply (Hfree i index); [lia | exact Hm].
Qed.

Lemma centerofmass_loop (w : Window) (m : nat) :
  Forall rows_disjoint (group_index w) ->
  forall i0 ls,
    (forall i, (i0 <= i < i0 + m)%nat -> group_present w i) ->
    recentred_upto w ls i0 ->
    exists ls',
      foldM (centerofmass_group w) (seq i0 m) ls = Some ls'
      /\ recentred_upto w ls' (i0 + m).
Proof.
  intros RD. induction m as [|m IH]; intros i0 ls GP Hinv; simpl.
  - exists ls. rewrite Nat.add_0_r. auto.
  - destruct (centerofmass_step w ls i0 RD) as (ls1 & E1 & H1);
      [apply GP; lia | exact Hinv |].
    rewrite E1. simpl.
    destruct (IH (S i0) ls1) as (ls' & E' & H'); [|exact H1|].
    + intros i Hi. apply GP. lia.
    + exists ls'. split; [exact E'|]. now rewrite Nat.add_succ_r.
Qed.

Lemma fold_Rmax_spec {A : Type} (f : A -> R) (l : list A) (acc : R) :
  let M := fold_left (fun acc a => Rmax (f a) acc) l acc in
  acc <= M
  /\ (forall a, In a l -> f a <= M)
  /\ (M = acc \/ exists a, In a l /\ M = f a).
Proof.
  revert acc. induction l as [|a t IH]; intros acc; simpl.
  - split; [lra|]. split; [tauto | auto].
  - destruct (IH (Rmax (f a) acc)) as (H1 & H2 & H3).
    assert (Ha := Rmax_l (f a) acc). assert (Hb := Rmax_r (f a) acc).
    split; [lra|]. split.
    + intros b [<- | Hb']; [lra | apply H2; exact Hb'].
    + destruct H3 as [H3 | (b & Hb' & H3)].
      * destruct (Rmax_case (f a) acc (fun v => v = f a \/ v = acc))
          as [E|E]; auto.
        -- right. exists a. split; [auto | congruence].
        -- left. congruence.
      * right. exists b. auto.
Qed.

Lemma fold_Rmax_attained {A : Type} (f : A -> R) (l : list A) :
  l <> [] -> (forall a, 0 <= f a) ->
  let M := fold_left (fun acc a => Rmax (f a) acc) l 0 in
  (forall a, In a l -> f a <= M) /\ exists a, In a l /\ M = f a.
Proof.
  intros Hne Hpos. simpl.
  destruct (fold_Rmax_spec f l 0) as (H1 & H2 & H3).
  split; [exact H2|].
  destruct H3 as [H3 | H3]; [|exact H3].
  destruct l as [|a t]; [congruence|].
  exists a. split; [simpl; auto|].
  assert (Ha := H2 a (or_introl eq_refl)). specialize (Hpos a). lra.
Qed.

(** The loops of centerofmass run through, with every row recentred by its
    centroid over all channels, and hand the recentred session with its new
    bounds to the redraw. *)
Lemma centerofmass_effect (w : Window) :
  recentring_ready w ->
  exists ls,
    foldM (centerofmass_group w) (seq 0 (n_groups w)) (locs w) = Some ls
    /\ recentred_upto w ls (n_groups w)
    /\ centerofmass_state w
       = Some
           {| locs := ls; group_index := group_index w; checks := checks w;
              translatebtn := translatebtn w; radio_sym := radio_sym w;
              radio_sym_custom := radio_sym_custom w; symEdit := symEdit w;
              symcustomEdit := symcustomEdit w;
              dialog_oversampling := dialog_oversampling w;
              pixelsize := pixelsize w; oversampling := 5;
              t_min := - fold_left (fun acc lj => Rmax (spread_xy lj) acc) ls 0;
              t_max := fold_left (fun acc lj => Rmax (spread_xy lj) acc) ls 0;
              z_min := - fold_left (fun acc lj => Rmax (spread_z lj) acc) ls 0;
              z_max := fold_left (fun acc lj => Rmax (spread_z lj) acc) ls 0;
              r := fold_left (fun acc lj => Rmax (spread_xy lj) acc) ls 0;
              r_z := fold_left (fun acc lj => Rmax (spread_z lj) acc) ls 0;
              n_groups := n_groups w |}.
Proof.
  intros (Hne & WF & RD & GP).
  destruct (centerofmass_loop w (n_groups w) RD 0%nat (locs w))
    as (ls & E & Hinv).
  - intros i Hi. apply GP. lia.
  - split; [reflexivity|]. split; [exact WF|].
    intros j lj rows El Er. exists lj.
    split; [exact El|]. split; [reflexivity|]. split.
    + intros i' index m Hi'. lia.
    + reflexivity.
  - exists ls. split; [exact E|]. split; [exact Hinv|].
    unfold centerofmass_state. destruct (locs w) eqn:El; [congruence|].
    rewrite E. reflexivity.
Qed.

(** centerofmass is its loops followed by the redraw. *)
Lemma centerofmass_redraws (w w1 : Window) :
  centerofmass_state w = Some w1 -> centerofmass w = updateLayout w1.
Proof.
  intros E. unfold centerofmass. rewrite E. reflexivity.
Qed.

Lemma imap_as_map {A B : Type} (h : nat -> A -> B) (k : A -> B)
    (l : list A) (j0 : nat) :
  (forall j a, nth_error l j = Some a -> h (j0 + j)%nat a = k a) ->
  imap h j0 l = map k l.
Proof.
  revert j0. induction l as [|a t IH]; intros j0 H; simpl; [reflexivity|].
  assert (H0 := H 0%nat a eq_refl). rewrite Nat.add_0_r in H0.
  rewrite H0, IH; [reflexivity|].
  intros j a' E. specialize (H (S j) a' E).
  now rewrite Nat.add_succ_r in H.
Qed.

(** With shared group ids, row [i] of every channel holds the positions of
    the [i]-th id. *)
Lemma shared_row (w : Window) (ids : list Z) (i j : nat) (lj : Locs)
    (gid : Z) :
  shared_groups w ids ->
  nth_error (locs w) j = Some lj -> nth_error ids i = Some gid ->
  members w j i = Some (where_eq (group lj) gid).
Proof.
  intros (Eg & Hid & _) El Ei. unfold members.
  rewrite Eg, nth_error_map, El. cbn [option_map bind].
  unfold build_group_index. rewrite nth_error_map.
  rewrite (Hid lj (nth_error_In _ _ El)), Ei. reflexivity.
Qed.

(** ... and the centroid of row [i] is the centroid of that group. *)
Lemma shared_centroid (w : Window) (ids : list Z) (ls : list Locs) (i : nat)
    (gid : Z) :
  shared_groups w ids -> nth_error ids i = Some gid ->
  length ls = length (locs w) ->
  (forall j lj lj', nth_error (locs w) j = Some lj ->
                    nth_error ls j = Some lj' -> group lj' = group lj) ->
  centroid w ls i = group_centroid ls gid.
Proof.
  intros HS Ei L HG. unfold centroid, group_centroid.
  assert (Hcol : forall col,
            imap (member_coords w i col) 0 ls
            = map (labelled_coords gid col) ls).
  { intros col. apply imap_as_map. intros j lj' E'. simpl.
    destruct (nth_error (locs w) j) as [lj|] eqn:El.
    2:{ apply nth_error_None in El.
        assert (j < length ls)%nat by (apply nth_error_Some; congruence).
        lia. }
    unfold member_coords, labelled_coords.
    rewrite (shared_row w ids i j lj gid HS El Ei).
    rewrite (HG j lj lj' El E'). reflexivity. }
  rewrite !Hcol. reflexivity.
Qed.

Lemma shared_ready (w : Window) (ids : list Z) :
  shared_groups w ids -> forall i, (i < n_groups w)%nat -> group_present w i.
Proof.
  intros (Eg & Hid & En) i Hi. unfold group_present. rewrite Eg.
  apply Forall_map, Forall_forall. intros lj Hlj.
  unfold build_group_index. rewrite length_map, (Hid lj Hlj). lia.
Qed.


(** C7: the loops of centerofmass run through and hand to the redraw a
    session in which [r] is the largest over the channels of
    [3 * sqrt(mean(x^2 + y^2))] and [r_z] the largest of
    [5 * sqrt(mean(z^2))], both taken on the recentred coordinates, and in
    which [t_min = -r], [t_max = r], [z_min = -r_z], [z_max = r_z]. *)
Theorem bounds_after_recentring (w : Window) :
  recentring_ready w ->
  exists w1,
    centerofmass_state w = Some w1
    /\ centerofmass w = updateLayout w1
    /\ recentred_upto w (locs w1) (n_groups w)
    /\ (forall lj, In lj (locs w1) ->
          3 * sqrt (mean (map (fun p => fst p ^ 2 + snd p ^ 2)
                              (combine (x lj) (y lj)))) <= r w1)
    /\ (exists lj, In lj (locs w1)
          /\ r w1 = 3 * sqrt (mean (map (fun p => fst p ^ 2 + snd p ^ 2)
                                        (combine (x lj) (y lj)))))
    /\ (forall lj, In lj (locs w1) ->
          5 * sqrt (mean (map (fun v => v ^ 2) (z lj))) <= r_z w1)
    /\ (exists lj, In lj (locs w1)
          /\ r_z w1 = 5 * sqrt (mean (map (fun v => v ^ 2) (z lj))))
    /\ t_min w1 = - r w1 /\ t_max w1 = r w1
    /\ z_min w1 = - r_z w1 /\ z_max w1 = r_z w1.
Proof.
  intros Hr.
  destruct (centerofmass_effect w Hr) as (ls & _ & Hinv & Ec).
  eexists. split; [exact Ec|].
  split; [apply centerofmass_redraws; exact Ec|].
  split; [exact Hinv|]. cbn [locs r r_z t_min t_max z_min z_max].
  destruct Hinv as (L & _).
  assert (Hne : ls <> []).
  { destruct Hr as (Hne & _). intros E. subst ls. simpl in L.
    symmetry in L. apply length_zero_iff_nil in L. contradiction. }
  destruct (fold_Rmax_attained spread_xy ls Hne) as (Hx1 & Hx2).
  { intros lj. unfold spread_xy.
    assert (H := sqrt_pos (mean (map (fun p => fst p ^ 2 + snd p ^ 2)
                                     (combine (x lj) (y lj))))). lra. }
  destruct (fold_Rmax_attained spread_z ls Hne) as (Hz1 & Hz2).
  { intros lj. unfold spread_z.
    assert (H := sqrt_pos (mean (map (fun v => v ^ 2) (z lj)))). lra. }
  repeat split; auto.
Qed.

(** ** The concrete sessions once more *)

Lemma pair_session_ready : recentring_ready pair_session.
Proof.
  unfold recentring_ready, pair_session. simpl.
  split; [discriminate|]. split; [|split].
  - repeat constructor; simpl; auto.
  - repeat constructor; intros k1 k2 m i1 i2 E1 E2 _ _;
      destruct k1 as [|[|k1]], k2 as [|[|k2]]; simpl in *;
      try discriminate; reflexivity.
  - intros i Hi. unfold group_present. simpl.
    apply Forall_cons; [simpl; lia|].
    apply Forall_cons; [simpl; lia|]. apply Forall_nil.
Qed.

Lemma pair_session_centroids :
  centroid pair_session (locs pair_session) 0 = (1, 1, 1)
  /\ centroid_enabled pair_session (locs pair_session) 0 = (0, 0, 0).
Proof.
  unfold centroid, centroid_enabled, member_coords, members, mean.
  simpl. split; split_pairs; field.
Qed.

Lemma build_row_nonempty (l : Locs) (k : nat) (row : list nat) :
  nth_error (build_group_index l) k = Some row -> row <> [].
Proof.
  unfold build_group_index. intros E. rewrite nth_error_map in E.
  destruct (nth_error (unique (group l)) k) as [g|] eqn:Eg; [|discriminate].
  simpl in E. inversion E; subst row; clear E.
  assert (Hg : In g (group l))
    by (apply unique_In; eapply nth_error_In; exact Eg).
  destruct (In_nth_error _ _ Hg) as (i & Ei).
  apply where_eq_In in Ei. intros F. rewrite F in Ei. exact Ei.
Qed.

Lemma build_channel_ok (lj : Locs) :
  length (x lj) = length (y lj) -> length (y lj) = length (z lj) ->
  length (z lj) = length (group lj) ->
  channel_ok lj (build_group_index lj).
Proof.
  intros Lxy Lyz Lzg. constructor; [exact Lxy | exact Lyz |].
  apply Forall_forall. intros row Hrow.
  apply in_map_iff in Hrow. destruct Hrow as (g & <- & _).
  apply Forall_forall. intros i Hi. apply where_eq_In in Hi.
  assert (nth_error (group lj) i <> None) by congruence.
  apply nth_error_Some in H. lia.
Qed.

Lemma build_rows_disjoint (lj : Locs) : rows_disjoint (build_group_index lj).
Proof.
  intros k1 k2 m i1 i2 E1 E2 H1 H2. unfold build_group_index in *.
  rewrite nth_error_map in E1, E2.
  destruct (nth_error (unique (group lj)) k1) as [g1|] eqn:G1; [|discriminate].
  destruct (nth_error (unique (group lj)) k2) as [g2|] eqn:G2; [|discriminate].
  simpl in *. inversion E1; subst i1. inversion E2; subst i2.
  apply where_eq_In in H1, H2.
  assert (g1 = g2) by congruence. subst g2.
  assert (N : NoDup (unique (group lj)))
    by (apply sorted_NoDup, unique_sorted).
  apply (proj1 (NoDup_nth_error _) N).
  - apply nth_error_Some. congruence.
  - congruence.
Qed.

Lemma shared_session_groups : shared_groups shared_session [5%Z; 7%Z].
Proof.
  split; [reflexivity|]. split; [|reflexivity].
  intros lj [<- | [<- | []]]; reflexivity.
Qed.

Lemma shared_session_ready : recentring_ready shared_session.
Proof.
  split; [discriminate|]. split; [|split].
  - constructor; [|constructor; [|constructor]];
      apply build_channel_ok; reflexivity.
  - constructor; [|constructor; [|constructor]]; apply build_rows_disjoint.
  - apply (shared_ready shared_session [5%Z; 7%Z] shared_session_groups).
Qed.



Lemma bounds_after_recentring_witness :
  recentring_ready pair_session
  /\ exists w1,
       centerofmass_state pair_session = Some w1
       /\ t_min w1 = - r w1 /\ t_max w1 = r w1
       /\ z_min w1 = - r_z w1 /\ z_max w1 = r_z w1.
Proof.
  split; [exact pair_session_ready|].
  destruct (bounds_after_recentring pair_session pair_session_ready)
    as (w1 & E & _ & _ & _ & _ & _ & _ & T1 & T2 & Z1 & Z2).
  exists w1. auto.
Defined.

Lemma symmetry_builder_sum_witness :
  (2 <= 2)%Z
  /\ (forall (image : Image) (angle : R),
        same_shape image ((fun im (_ : R) => im) image angle) = true)
  /\ exists out,
       symmetrize_order (fun im _ => im) 2 [[[1; 2]; [3; 4]]] = Some [out]
       /\ same_shape [[1; 2]; [3; 4]] out = true.
Proof.
  assert (Hk : (2 <= 2)%Z) by lia.
  assert (Hs : forall (image : Image) (angle : R),
            same_shape image ((fun im (_ : R) => im) image angle) = true)
    by (intros; apply same_shape_refl).
  split; [exact Hk|]. split; [exact Hs|].
  destruct (symmetry_builder_sum (fun im _ => im) Hs 2 [90]
              [[1; 2]; [3; 4]] [] Hk) as ((out & E & S & _) & _).
  exists out. auto.
Defined.

Lemma symmetry_first_channel_only_witness :
  (forall (image : Image) (angle : R),
     same_shape image ((fun im (_ : R) => im) image angle) = true)
  /\ exists out,
       rotatexy_convolution_reference (fun im _ => im)
         symmetric_session [flat_image; flat_image]
       = Some [out; flat_image]
       /\ get2 out 0 0 = 4.
Proof.
  assert (Hs : forall (image : Image) (angle : R),
            same_shape image ((fun im (_ : R) => im) image angle) = true)
    by (intros; apply same_shape_refl).
  split; [exact Hs|].
  destruct (symmetry_first_channel_only (fun im _ => im) Hs
              symmetric_session flat_image [flat_image])
    as (o1 & out & E & _ & _ & _ & V1 & V2 & _).
  exists out. split; [exact E|].
  assert (H1 : get2 o1 0 0 = 1 + (1 + 0)).
  { rewrite (V1 0%nat 0%nat) by (simpl; lia). reflexivity. }
  assert (H2 : get2 out 0 0 = get2 o1 0 0 + (get2 o1 0 0 + 0)).
  { rewrite (V2 0%nat 0%nat) by (simpl; lia). reflexivity. }
  rewrite H2, H1. lra.
Defined.

(** * Further properties of the code *)

(** ** rotate_axis *)

(** Two rotations about one axis compose to the rotation by the sum of the
    angles: trial rotations of the search never accumulate distortion. *)
Theorem rotate_axis_composes (axis : string)
    (vx vy vz a b pixelsize : R) :
  In axis ["x"; "y"; "z"]%string ->
  pixelsize <> 0 ->
  (p <- rotate_axis axis vx vy vz a pixelsize ;;
   rotate_axis axis (fst (fst p)) (snd (fst p)) (snd p) b pixelsize)
  = rotate_axis axis vx vy vz (a + b) pixelsize.
Proof.
  intros Hax Hp. simpl in Hax.
  destruct Hax as [<- | [<- | [<- | []]]]; unfold rotate_axis; simpl;
    rewrite cos_plus, sin_plus; f_equal; split_pairs;
    try reflexivity; field; exact Hp.
Qed.

Lemma rotate_axis_composes_witness :
  In "x"%string ["x"; "y"; "z"]%string /\ 130 <> 0 /\
  (p <- rotate_axis "x" 1 2 3 (PI / 3) 130 ;;
   rotate_axis "x" (fst (fst p)) (snd (fst p)) (snd p) (PI / 6) 130)
  = rotate_axis "x" 1 2 3 (PI / 3 + PI / 6) 130.
Proof.
  assert (Ha : In "x"%string ["x"; "y"; "z"]%string) by (simpl; auto).
  assert (Hp : 130 <> 0) by lra.
  split; [exact Ha | split; [exact Hp |]].
  exact (rotate_axis_composes "x" 1 2 3 (PI / 3) (PI / 6) 130 Ha Hp).
Defined.

(** A rotation keeps the coordinate along its axis and the distance to the
    axis, the distance taken with z divided by the pixelsize. *)
Theorem rotate_axis_keeps_axis_distance (axis : string)
    (vx vy vz angle pixelsize : R) :
  In axis ["x"; "y"; "z"]%string ->
  pixelsize <> 0 ->
  exists q,
    rotate_axis axis vx vy vz angle pixelsize = Some q
    /\ axis_coordinate axis q = axis_coordinate axis (vx, vy, vz)
    /\ axis_distance2 axis pixelsize q
       = axis_distance2 axis pixelsize (vx, vy, vz).
Proof.
  intros Hax Hp. assert (U := cos_sin_unit angle). simpl in Hax.
  destruct Hax as [<- | [<- | [<- | []]]]; unfold rotate_axis; simpl;
    eexists; (split; [reflexivity|]);
    unfold axis_coordinate, axis_distance2; simpl;
    (split; [reflexivity|]).
  - transitivity ((vy ^ 2 + (vz / pixelsize) ^ 2)
                  * (cos angle * cos angle + sin angle * sin angle));
      [field; exact Hp | rewrite U; ring].
  - transitivity ((vx ^ 2 + (vz / pixelsize) ^ 2)
                  * (cos angle * cos angle + sin angle * sin angle));
      [field; exact Hp | rewrite U; ring].
  - transitivity ((vx ^ 2 + vy ^ 2)
                  * (cos angle * cos angle + sin angle * sin angle));
      [ring | rewrite U; ring].
Qed.

Lemma rotate_axis_keeps_axis_distance_witness :
  In "y"%string ["x"; "y"; "z"]%string /\ 130 <> 0 /\
  exists q,
    rotate_axis "y" 1 2 3 1 130 = Some q
    /\ axis_coordinate "y" q = axis_coordinate "y" (1, 2, 3).
Proof.
  assert (Ha : In "y"%string ["x"; "y"; "z"]%string) by (simpl; auto).
  assert (Hp : 130 <> 0) by lra.
  split; [exact Ha | split; [exact Hp |]].
  destruct (rotate_axis_keeps_axis_distance "y" 1 2 3 1 130 Ha Hp)
    as (q & E & C & _).
  exists q. auto.
Defined.

(** ** render_histxyz *)

Lemma Rsum_upd (f : R -> R) (n : nat) (l : list R) :
  (n < length l)%nat ->
  Rsum (upd f n l) = Rsum l + (f (nth n l 0) - nth n l 0).
Proof.
  revert n. induction l as [|a t IH]; intros [|n] H; simpl in *; try lia.
  - ring.
  - rewrite IH by lia. ring.
Qed.

Lemma total_upd (f : list R -> list R) (n : nat) (image : Image) :
  (n < length image)%nat ->
  total (upd f n image)
  = total image + (Rsum (f (nth n image [])) - Rsum (nth n image [])).
Proof.
  unfold total. revert n.
  induction image as [|a t IH]; intros [|n] H; simpl in *; try lia.
  - ring.
  - rewrite IH by lia. ring.
Qed.

Lemma deposit_total (image : Image) (i j : Z) :
  (0 <= j < Z.of_nat (length image))%Z ->
  (0 <= i < Z.of_nat (length (nth (Z.to_nat j) image [])))%Z ->
  total (deposit image i j) = total image + 1.
Proof.
  intros Hj Hi. unfold deposit.
  destruct (Z.ltb_spec i 0); [lia|]. destruct (Z.ltb_spec j 0); [lia|].
  simpl. rewrite total_upd by lia. rewrite Rsum_upd by lia. ring.
Qed.

Lemma fill_total (pts : list (R * R)) (image : Image) (rows cols : nat) :
  shaped image rows cols ->
  Forall (fun p => (0 <= trunc (fst p) < Z.of_nat cols)%Z
                   /\ (0 <= trunc (snd p) < Z.of_nat rows)%Z) pts ->
  total (fold_left (fun img p => deposit img (trunc (fst p)) (trunc (snd p)))
                   pts image)
  = total image + INR (length pts).
Proof.
  revert image. induction pts as [|p t IH]; intros image S F.
  - simpl. ring.
  - apply Forall_cons_iff in F. destruct F as [[Hc Hr] Ft].
    cbn [fold_left length]. rewrite IH; [|
      split; [rewrite deposit_length; apply S|];
      apply rows_of_nth; intros k Hk; rewrite deposit_length in Hk;
      rewrite deposit_row_length;
      apply (shaped_row image rows cols k S); destruct S; lia
      | exact Ft].
    rewrite deposit_total.
    + rewrite S_INR. ring.
    + destruct S as [L _]. lia.
    + rewrite (shaped_row image rows cols (Z.to_nat (trunc (snd p))) S) by lia.
      lia.
Qed.

(** A retained point falls into a pixel of the image. *)
Lemma retained_in_image (oversampling a_min a_max b_min b_max : R)
    (p : R * R) :
  0 < oversampling ->
  in_view a_min a_max b_min b_max p = true ->
  (0 <= trunc (fst (to_pixel oversampling a_min b_min p))
   < ceil (oversampling * (a_max - a_min)))%Z
  /\ (0 <= trunc (snd (to_pixel oversampling a_min b_min p))
      < ceil (oversampling * (b_max - b_min)))%Z.
Proof.
  intros Hos Hp. apply in_view_true_iff in Hp.
  destruct Hp as [[A1 A2] [B1 B2]]. unfold to_pixel; simpl.
  assert (Xa : 0 <= oversampling * (fst p - a_min)) by nra.
  assert (Xb : 0 <= oversampling * (snd p - b_min)) by nra.
  destruct (trunc_nonneg _ Xa) as [Ta1 Ta2].
  destruct (trunc_nonneg _ Xb) as [Tb1 Tb2].
  destruct (ceil_bounds (oversampling * (a_max - a_min))) as [_ Ca].
  destruct (ceil_bounds (oversampling * (b_max - b_min))) as [_ Cb].
  assert (Ya : oversampling * (fst p - a_min)
               < oversampling * (a_max - a_min)) by nra.
  assert (Yb : oversampling * (snd p - b_min)
               < oversampling * (b_max - b_min)) by nra.
  split; split.
  - apply le_IZR. apply Rnot_lt_le. intros F.
    assert (IZR (trunc (oversampling * (fst p - a_min))) <= -1).
    { apply (IZR_le _ (-1)). apply lt_IZR in F. lia. }
    lra.
  - apply lt_IZR. lra.
  - apply le_IZR. apply Rnot_lt_le. intros F.
    assert (IZR (trunc (oversampling * (snd p - b_min))) <= -1).
    { apply (IZR_le _ (-1)). apply lt_IZR in F. lia. }
    lra.
  - apply lt_IZR. lra.
Qed.

Lemma total_zeros (rows cols : nat) : total (zeros rows cols) = 0.
Proof.
  unfold total, zeros. apply Rsum_all_zero. intros row H.
  apply repeat_spec in H. subst.
  induction cols as [|c IH]; simpl; [reflexivity | rewrite IH; ring].
Qed.

(** Counts are conserved: with a positive oversampling, the pixels of the
    rendered image sum to the returned number of retained points. *)
Theorem render_histxyz_conserves_counts (a b : list R)
    (oversampling a_min a_max b_min b_max : R) (N : nat) (image : Image) :
  0 < oversampling ->
  render_histxyz a b oversampling a_min a_max b_min b_max = Some (N, image) ->
  total image = INR N.
Proof.
  intros Hos E. unfold render_histxyz in E.
  destruct (Z.ltb_spec (ceil (oversampling * (a_max - a_min))) 0) as [|Ha];
    [discriminate|].
  destruct (Z.ltb_spec (ceil (oversampling * (b_max - b_min))) 0) as [|Hb];
    [discriminate|].
  simpl in E. inversion E; subst; clear E.
  unfold render_fill. rewrite combine_map_same.
  rewrite (fill_total _ _ (Z.to_nat (ceil (oversampling * (b_max - b_min))))
                          (Z.to_nat (ceil (oversampling * (a_max - a_min))))).
  - rewrite total_zeros, !length_map. ring.
  - apply zeros_shaped.
  - apply Forall_map, Forall_forall. intros p Hp.
    apply filter_In in Hp. destruct Hp as [_ Hp].
    destruct (retained_in_image oversampling a_min a_max b_min b_max p Hos Hp)
      as [Ha' Hb'].
    unfold to_pixel in Ha', Hb'. simpl in *. lia.
Qed.

Lemma render_histxyz_conserves_counts_witness :
  0 < 1
  /\ exists N image,
       render_histxyz [1 / 2; 2; 1] [1 / 2; 0; 0] 1 (-1) 1 (-1) 1
         = Some (N, image)
       /\ total image = INR N.
Proof.
  assert (Hos : 0 < 1) by lra.
  split; [exact Hos|].
  destruct (render_histxyz_shaped [1 / 2; 2; 1] [1 / 2; 0; 0] 1 (-1) 1 (-1) 1)
    as (N & image & E & _).
  - apply Z.lt_le_incl, ceil_pos. lra.
  - apply Z.lt_le_incl, ceil_pos. lra.
  - exists N, image. split; [exact E|].
    exact (render_histxyz_conserves_counts _ _ _ _ _ _ _ N image Hos E).
Defined.

Lemma filter_permutation {A : Type} (f : A -> bool) (l l' : list A) :
  Permutation l l' -> Permutation (filter f l) (filter f l').
Proof.
  intros H. induction H as [|a l l' H IH|a b l|l l' l'' H1 IH1 H2 IH2]; simpl.
  - constructor.
  - destruct (f a); [constructor|]; exact IH.
  - destruct (f a), (f b); try reflexivity. constructor.
  - etransitivity; eassumption.
Qed.

Lemma image_ext (A B : Image) (rows cols : nat) :
  shaped A rows cols -> shaped B rows cols ->
  (forall row col, (row < rows)%nat -> (col < cols)%nat ->
                   get2 A row col = get2 B row col) ->
  A = B.
Proof.
  intros SA SB H.
  apply (nth_ext _ _ [] []); [destruct SA, SB; congruence|].
  intros row Hr. assert (Hr' : (row < rows)%nat) by (destruct SA; lia).
  apply (nth_ext _ _ 0 0).
  - rewrite (shaped_row A rows cols row SA Hr').
    rewrite (shaped_row B rows cols row SB Hr'). reflexivity.
  - intros col Hc. rewrite (shaped_row A rows cols row SA Hr') in Hc.
    apply H; assumption.
Qed.

Lemma fill_shaped (pts : list (R * R)) (rows cols : nat) :
  shaped (fold_left (fun img p => deposit img (trunc (fst p)) (trunc (snd p)))
                    pts (zeros rows cols)) rows cols.
Proof.
  split; [now rewrite fill_length, zeros_length|].
  apply rows_of_nth. intros k Hk.
  rewrite fill_length, zeros_length in Hk.
  rewrite fill_row_length, zeros_row by exact Hk. apply repeat_length.
Qed.

(** The render does not depend on the order of the points: two arrays pairs
    holding the same points in another order give the same count and the
    same image. *)
Theorem render_histxyz_order_independent (a b a' b' : list R)
    (oversampling a_min a_max b_min b_max : R) :
  Permutation (combine a b) (combine a' b') ->
  render_histxyz a b oversampling a_min a_max b_min b_max
  = render_histxyz a' b' oversampling a_min a_max b_min b_max.
Proof.
  intros HP. unfold render_histxyz, render_fill.
  destruct ((ceil (oversampling * (a_max - a_min)) <? 0)%Z
            || (ceil (oversampling * (b_max - b_min)) <? 0)%Z);
    [reflexivity|].
  assert (HF := filter_permutation (in_view a_min a_max b_min b_max) _ _ HP).
  rewrite !combine_map_same, !length_map.
  rewrite (Permutation_length HF). do 2 f_equal.
  eapply image_ext; try apply fill_shaped.
  intros row col Hr Hc.
  rewrite !fill_get2
    by (rewrite ?zeros_length, ?zeros_row, ?repeat_length; assumption).
  do 2 f_equal. apply Permutation_length.
  apply filter_permutation, Permutation_map. exact HF.
Qed.

Lemma render_histxyz_order_independent_witness :
  Permutation (combine [0; 1 / 2] [1 / 4; 0]) (combine [1 / 2; 0] [0; 1 / 4])
  /\ render_histxyz [0; 1 / 2] [1 / 4; 0] 1 (-1) 1 (-1) 1
     = render_histxyz [1 / 2; 0] [0; 1 / 4] 1 (-1) 1 (-1) 1.
Proof.
  assert (HP : Permutation (combine [0; 1 / 2] [1 / 4; 0])
                           (combine [1 / 2; 0] [0; 1 / 4]))
    by (simpl; apply perm_swap).
  split; [exact HP|].
  exact (render_histxyz_order_independent _ _ _ _ 1 (-1) 1 (-1) 1 HP).
Defined.

(** ** The group index, row by row *)

Lemma where_from_sorted (n : nat) (g : Z) (groups : list Z) :
  StronglySorted lt (where_from n g groups).
Proof.
  revert n. induction groups as [|h t IH]; intros n; simpl; [constructor|].
  destruct (h =? g)%Z; [|apply IH].
  constructor; [apply IH|].
  apply Forall_forall. intros i Hi. apply where_from_In in Hi. lia.
Qed.

(** The rows of the group index follow the group ids in ascending order;
    row [k] lists, in increasing order, exactly the row numbers of the
    localizations that carry the [k]-th smallest group id, and no row is
    empty. *)
Theorem group_index_rows (l : Locs) :
  StronglySorted Z.lt (unique (group l))
  /\ length (build_group_index l) = length (unique (group l))
  /\ forall k row,
       nth_error (build_group_index l) k = Some row ->
       row <> []
       /\ StronglySorted lt row
       /\ exists g,
            nth_error (unique (group l)) k = Some g
            /\ forall i, In i row <-> nth_error (group l) i = Some g.
Proof.
  split; [apply unique_sorted|]. unfold build_group_index.
  split; [apply length_map|].
  intros k row E. rewrite nth_error_map in E.
  destruct (nth_error (unique (group l)) k) as [g|] eqn:Eg; [|discriminate].
  simpl in E. inversion E; subst row; clear E.
  split; [|split].
  - assert (Hg : In g (group l))
      by (apply unique_In; eapply nth_error_In; exact Eg).
    destruct (In_nth_error _ _ Hg) as (i & Ei).
    apply where_eq_In in Ei. intros F. rewrite F in Ei. exact Ei.
  - apply where_from_sorted.
  - exists g. split; [reflexivity|]. intros i. apply where_eq_In.
Qed.

(** ** centerofmass_all *)

Lemma Rsum_app (l l' : list R) : Rsum (l ++ l') = Rsum l + Rsum l'.
Proof.
  induction l as [|a t IH]; simpl; [ring | rewrite IH; ring].
Qed.

Lemma Rsum_shift (c : R) (l : list R) :
  Rsum (map (fun v => v - c) l) = Rsum l - INR (length l) * c.
Proof.
  induction l as [|a t IH]; [simpl; ring|].
  cbn [map Rsum fold_right length]. fold (Rsum (map (fun v => v - c) t)).
  fold (Rsum t). rewrite IH, S_INR. ring.
Qed.

Lemma mean_shift (c : R) (l : list R) :
  l <> [] -> mean (map (fun v => v - c) l) = mean l - c.
Proof.
  intros Hne. unfold mean. rewrite Rsum_shift, length_map.
  assert (INR (length l) <> 0).
  { apply not_0_INR. destruct l; [congruence | discriminate]. }
  field. assumption.
Qed.

Lemma concat_map_map {A B D : Type} (f : B -> D) (g : A -> list B)
    (l : list A) :
  concat (map (fun a => map f (g a)) l) = map f (concat (map g l)).
Proof.
  induction l as [|a t IH]; simpl; [reflexivity|].
  now rewrite IH, map_app.
Qed.



(** ** centerofmass on a loaded session *)

Lemma loaded_structure (w : Window) :
  loaded w ->
  Forall2 channel_ok (locs w) (group_index w)
  /\ Forall rows_disjoint (group_index w).
Proof.
  intros (Eg & _ & F). rewrite Eg. split.
  - apply Forall2_of_nth_error; [now rewrite length_map|].
    intros j lj rows El Er. rewrite nth_error_map, El in Er.
    simpl in Er. inversion Er; subst rows.
    rewrite Forall_forall in F.
    destruct (F lj (nth_error_In _ _ El)) as (A & B & D).
    apply build_channel_ok; assumption.
  - apply Forall_map, Forall_forall. intros lj _. apply build_rows_disjoint.
Qed.

Lemma loaded_ready (w : Window) :
  loaded w -> locs w <> [] ->
  (forall lj, In lj (locs w) ->
     (n_groups w <= length (unique (group lj)))%nat) ->
  recentring_ready w.
Proof.
  intros HL Hne Hn. destruct (loaded_structure w HL) as [WF RD].
  split; [exact Hne|]. split; [exact WF|]. split; [exact RD|].
  intros i Hi. unfold group_present. destruct HL as (Eg & _).
  rewrite Eg. apply Forall_map, Forall_forall. intros lj Hlj.
  unfold build_group_index. rewrite length_map.
  specialize (Hn lj Hlj). lia.
Qed.

Lemma mapMi_length {A B : Type} (f : nat -> A -> option B) (l : list A)
    (j0 : nat) (l' : list B) :
  mapMi f j0 l = Some l' -> length l' = length l.
Proof.
  revert j0 l'. induction l as [|a t IH]; intros j0 l' E; simpl in E.
  - inversion E. reflexivity.
  - destruct (f j0 a); [|discriminate]. simpl in E.
    destruct (mapMi f (S j0) t) eqn:Et; [|discriminate].
    simpl in E. inversion E; subst. simpl. f_equal. eapply IH. exact Et.
Qed.

Lemma mapMi_each {A B : Type} (f : nat -> A -> option B) (l : list A)
    (j0 : nat) (l' : list B) :
  mapMi f j0 l = Some l' ->
  forall j a, nth_error l j = Some a -> f (j0 + j)%nat a <> None.
Proof.
  revert j0 l'. induction l as [|a t IH]; intros j0 l' E j a' Ej;
    simpl in E.
  - destruct j; discriminate.
  - destruct (f j0 a) eqn:Ef; [|discriminate]. simpl in E.
    destruct (mapMi f (S j0) t) eqn:Et; [|discriminate].
    destruct j as [|j]; simpl in Ej.
    + inversion Ej; subst. rewrite Nat.add_0_r. congruence.
    + rewrite Nat.add_succ_r. apply (IH (S j0) _ Et j a' Ej).
Qed.

Lemma centerofmass_group_needs_rows (w : Window) (ls ls' : list Locs)
    (i j : nat) :
  centerofmass_group w ls i = Some ls' ->
  (j < length ls)%nat ->
  length ls' = length ls /\ members w j i <> None.
Proof.
  unfold centerofmass_group. intros E Hj.
  match type of E with
  | bind ?m _ = _ => destruct m as [sel|] eqn:Es; [|discriminate]
  end.
  cbn [bind] in E. split; [eapply mapMi_length; exact E|].
  destruct (nth_error ls j) as [lj|] eqn:El;
    [|apply nth_error_None in El; lia].
  assert (H := mapMi_each _ _ _ _ Es j lj El). simpl in H.
  intros F. rewrite F in H. apply H. reflexivity.
Qed.

Lemma foldM_reaches {St : Type} (f : St -> nat -> option St) (P : St -> Prop)
    (n : nat) :
  (forall s i t, P s -> f s i = Some t -> P t) ->
  forall i0 s s',
    foldM f (seq i0 n) s = Some s' -> P s ->
    forall i, (i0 <= i < i0 + n)%nat ->
      exists s_i t, P s_i /\ f s_i i = Some t.
Proof.
  intros Hstep. induction n as [|n IH]; intros i0 s s' E Hs i Hi; [lia|].
  simpl in E. destruct (f s i0) as [s1|] eqn:E1; [|discriminate].
  simpl in E. destruct (Nat.eq_dec i i0) as [->|Hne].
  - exists s, s1. auto.
  - apply (IH (S i0) s1 s' E (Hstep _ _ _ Hs E1)). lia.
Qed.

(** On a loaded session with a channel, the loops of centerofmass run
    through exactly when every channel has at least [n_groups] distinct
    group ids; with a channel of fewer groups the row lookup raises, and so
    does centerofmass.  centerofmass also raises when no channel is checked:
    the redraw has nothing to draw then. *)
Theorem centerofmass_runs_iff (w : Window) :
  loaded w -> locs w <> [] ->
  ((exists w1, centerofmass_state w = Some w1) <->
   forall lj, In lj (locs w) ->
     (n_groups w <= length (unique (group lj)))%nat)
  /\ ((exists lj, In lj (locs w)
                  /\ (length (unique (group lj)) < n_groups w)%nat) ->
      centerofmass w = None)
  /\ ((forall j, nth_error (checks w) j <> Some true) ->
      centerofmass w = None).
Proof.
  intros HL Hne.
  assert (Hiff : (exists w1, centerofmass_state w = Some w1) <->
                 forall lj, In lj (locs w) ->
                   (n_groups w <= length (unique (group lj)))%nat).
  { split.
    - intros (w' & E) lj Hlj.
      destruct (Nat.le_gt_cases (n_groups w) (length (unique (group lj))))
        as [H|H]; [exact H | exfalso].
      unfold centerofmass_state in E. destruct (locs w) as [|l0 t] eqn:El;
        [congruence|]. rewrite <- El in *.
      destruct (foldM (centerofmass_group w) (seq 0 (n_groups w)) (locs w))
        as [ls|] eqn:Ef; [|discriminate].
      destruct (In_nth_error _ _ Hlj) as (j & Ej).
      assert (Hj : (j < length (locs w))%nat)
        by (apply nth_error_Some; congruence).
      destruct (foldM_reaches (centerofmass_group w)
                  (fun ls => length ls = length (locs w)) (n_groups w))
        with (i0 := 0%nat) (s := locs w) (s' := ls)
             (i := length (unique (group lj)))
        as (ls_i & t' & Li & Ei); auto; try lia.
      { intros s i t0 Ls Es.
        destruct s as [|s0 s1]; [simpl in Ls; lia|].
        destruct (centerofmass_group_needs_rows w _ t0 i 0%nat Es) as [L' _];
          [simpl; lia | congruence]. }
      destruct (centerofmass_group_needs_rows w ls_i t'
                  (length (unique (group lj))) j Ei) as [_ Hm]; [lia|].
      apply Hm. unfold members. destruct HL as (Eg & _). rewrite Eg.
      rewrite nth_error_map, Ej. simpl.
      apply nth_error_None. unfold build_group_index. rewrite length_map. lia.
    - intros Hn.
      destruct (centerofmass_effect w (loaded_ready w HL Hne Hn))
        as (ls & _ & _ & E).
      eexists. exact E. }
  split; [exact Hiff|]. split.
  - intros (lj & Hlj & Hlt). unfold centerofmass.
    destruct (centerofmass_state w) as [w1|] eqn:E; [|reflexivity].
    assert (H := proj1 Hiff (ex_intro _ w1 eq_refl) lj Hlj). lia.
  - intros Hc. unfold centerofmass.
    destruct (centerofmass_state w) as [w1|] eqn:E; [|reflexivity].
    cbn [bind]. apply updateLayout_needs_check.
    unfold centerofmass_state in E. destruct (locs w); [discriminate|].
    destruct (foldM _ _ _); [|discriminate]. cbn [bind] in E.
    inversion E; subst w1. exact Hc.
Qed.

Lemma loaded_pair_session : loaded pair_session.
Proof.
  unfold loaded, pair_session. simpl. repeat split; auto.
Qed.

Lemma centerofmass_runs_iff_witness :
  loaded pair_session /\ locs pair_session <> []
  /\ exists w1, centerofmass_state pair_session = Some w1.
Proof.
  assert (Hne : locs pair_session <> []) by discriminate.
  split; [exact loaded_pair_session|]. split; [exact Hne|].
  apply (proj2 (proj1 (centerofmass_runs_iff pair_session
                         loaded_pair_session Hne))).
  intros lj [<- | [<- | []]]; simpl; lia.
Defined.

Lemma concat_imap_map {A : Type} (f : R -> R) (h : nat -> A -> list R)
    (l : list A) (j0 : nat) :
  concat (imap (fun j a => map f (h j a)) j0 l)
  = map f (concat (imap h j0 l)).
Proof.
  revert j0. induction l as [|a t IH]; intros j0; simpl; [reflexivity|].
  now rewrite IH, map_app.
Qed.

Lemma recentred_column (w : Window) (ls : list Locs) (n i : nat)
    (col : Locs -> list R) (pr : R * R * R -> R) :
  (forall lj m, nth m (col lj) 0 = pr (point lj m)) ->
  (forall p c, pr (minus3 p c) = pr p - pr c) ->
  loaded w -> locs w <> [] ->
  group_present w i -> (i < n)%nat ->
  recentred_upto w ls n ->
  mean (concat (imap (member_coords w i col) 0 ls))
  = mean (concat (imap (member_coords w i col) 0 (locs w)))
    - pr (centroid w (locs w) i).
Proof.
  intros Hcol Hpr HL Hne GP Hi (L & WF & Inv).
  set (c := pr (centroid w (locs w) i)).
  assert (E : imap (member_coords w i col) 0 ls
              = imap (fun j lj => map (fun v => v - c)
                                      (member_coords w i col j lj))
                     0 (locs w)).
  { apply imap_ext_nth; [exact L|].
    intros j lj' lj E' El. simpl.
    destruct (Forall2_nth_error_l _ _ _ _ _ WF E') as (rows & Er & _).
    destruct (Inv j lj rows El Er) as (lj2 & E2 & _ & Hdone & _).
    assert (lj2 = lj') by congruence. subst lj2.
    unfold member_coords. rewrite (members_row w j i rows Er).
    destruct (nth_error rows i) as [index|] eqn:Eidx; [|reflexivity].
    rewrite map_map. apply map_ext_in. intros m Hm.
    rewrite !Hcol, (Hdone i index m Hi Eidx Hm), Hpr. reflexivity. }
  rewrite E, concat_imap_map. apply mean_shift.
  destruct (locs w) as [|l0 t] eqn:El; [congruence|].
  simpl. unfold member_coords at 1. unfold members.
  destruct HL as (Eg & _). rewrite Eg, El. simpl.
  unfold group_present in GP. rewrite Eg, El in GP. simpl in GP.
  apply Forall_cons_iff in GP. destruct GP as [G0 _].
  destruct (nth_error (build_group_index l0) i) as [index|] eqn:Ei;
    [|apply nth_error_None in Ei; lia].
  assert (Hn := build_row_nonempty l0 i index Ei).
  destruct index; [congruence | discriminate].
Qed.

(** The loops of centerofmass on a loaded session leave every row, and
    with shared group ids every group, with its centroid at the origin. *)
Lemma centerofmass_centres (w : Window) :
  loaded w -> locs w <> [] ->
  (forall lj, In lj (locs w) ->
     (n_groups w <= length (unique (group lj)))%nat) ->
  exists w1,
    centerofmass_state w = Some w1
    /\ centerofmass w = updateLayout w1
    /\ (forall i, (i < n_groups w)%nat ->
          centroid w (locs w1) i = (0, 0, 0))
    /\ forall ids, shared_groups w ids ->
         forall gid, In gid ids -> group_centroid (locs w1) gid = (0, 0, 0).
Proof.
  intros HL Hne Hn.
  assert (Hr := loaded_ready w HL Hne Hn).
  destruct (centerofmass_effect w Hr) as (ls & _ & Hinv & E).
  eexists. split; [exact E|].
  split; [apply centerofmass_redraws; exact E|]. cbn [locs].
  assert (Rank : forall i, (i < n_groups w)%nat ->
            centroid w ls i = (0, 0, 0)).
  { intros i Hi.
    assert (GP : group_present w i) by (apply Hr; exact Hi).
    unfold centroid at 1.
    rewrite (recentred_column w ls (n_groups w) i x (fun p => fst (fst p)));
      auto.
    rewrite (recentred_column w ls (n_groups w) i y (fun p => snd (fst p)));
      auto.
    rewrite (recentred_column w ls (n_groups w) i z (fun p => snd p)); auto.
    unfold centroid. simpl. split_pairs; ring. }
  split; [exact Rank|].
  intros ids HS gid Hin.
  destruct (In_nth_error _ _ Hin) as (i & Ei).
  assert (Hi : (i < n_groups w)%nat).
  { destruct HS as (_ & _ & ->). apply nth_error_Some. congruence. }
  rewrite <- (Rank i Hi). symmetry.
  destruct Hinv as (L & WF & Inv).
  apply (shared_centroid w ids ls i gid HS Ei L).
  intros j lj lj' El E'.
  destruct (Forall2_nth_error_l _ _ _ _ _ WF E') as (rows & Er & _).
  destruct (Inv j lj rows El Er) as (lj2 & E2 & G2 & _).
  congruence.
Qed.


Lemma loaded_shared_session : loaded shared_session.
Proof.
  unfold loaded, shared_session. simpl. repeat split; auto.
Qed.


(** ** add *)

Lemma fold_Rmin_le (l : list R) (v0 : R) :
  fold_left Rmin l v0 <= v0
  /\ forall v, In v l -> fold_left Rmin l v0 <= v.
Proof.
  revert v0. induction l as [|a t IH]; intros v0; simpl.
  - split; [lra | tauto].
  - destruct (IH (Rmin v0 a)) as [H1 H2].
    assert (A := Rmin_l v0 a). assert (B := Rmin_r v0 a).
    split; [lra|]. intros v [<- | Hv]; [lra | apply H2; exact Hv].
Qed.

Lemma fold_Rmax_ge (l : list R) (v0 : R) :
  v0 <= fold_left Rmax l v0
  /\ forall v, In v l -> v <= fold_left Rmax l v0.
Proof.
  revert v0. induction l as [|a t IH]; intros v0; simpl.
  - split; [lra | tauto].
  - destruct (IH (Rmax v0 a)) as [H1 H2].
    assert (A := Rmax_l v0 a). assert (B := Rmax_r v0 a).
    split; [lra|]. intros v [<- | Hv]; [lra | apply H2; exact Hv].
Qed.

Lemma np_min_le (l : list R) (m : R) :
  np_min l = Some m -> forall v, In v l -> m <= v.
Proof.
  destruct l as [|v0 t]; [discriminate|]. simpl. intros E v Hv.
  inversion E; subst m. destruct (fold_Rmin_le t v0) as [H1 H2].
  destruct Hv as [<- | Hv]; [exact H1 | apply H2; exact Hv].
Qed.

Lemma np_max_ge (l : list R) (m : R) :
  np_max l = Some m -> forall v, In v l -> v <= m.
Proof.
  destruct l as [|v0 t]; [discriminate|]. simpl. intros E v Hv.
  inversion E; subst m. destruct (fold_Rmax_ge t v0) as [H1 H2].
  destruct Hv as [<- | Hv]; [exact H1 | apply H2; exact Hv].
Qed.

(** What a successful load of a file with groups leaves in the session. *)
Lemma add_channel (w w' : Window) (data : Loaded) (answer : option Z)
    (groups : list Z) :
  file_group data = Some groups ->
  add w data answer = Some w' ->
  exists min_x min_y max_x max_y min_z max_z,
    let zs := match file_z data with
              | None => file_x data
              | Some zs => zs
              end in
    let lj := {| x := file_x data; y := file_y data; z := zs;
                 group := groups |} in
    np_min (file_x data) = Some min_x /\ np_min (file_y data) = Some min_y
    /\ np_max (file_x data) = Some max_x /\ np_max (file_y data) = Some max_y
    /\ np_min zs = Some min_z /\ np_max zs = Some max_z
    /\ locs w' = locs w ++ [lj]
    /\ group_index w' = group_index w ++ [build_group_index lj]
    /\ checks w' = checks w ++ [true]
    /\ n_groups w' = length (unique groups)
    /\ oversampling w'
       = match locs w with [] => 1 | _ => dialog_oversampling w end
    /\ (locs w = [] ->
        t_min w' = Rmin min_x min_y /\ t_max w' = Rmax max_x max_y
        /\ z_min w' = min_z /\ z_max w' = max_z)
    /\ (locs w <> [] ->
        t_min w' = Rmin (Rmin min_x min_y) (t_min w)
        /\ t_max w' = Rmax (Rmax max_x max_y) (t_max w)
        /\ z_min w' = Rmin min_z (z_min w)
        /\ z_max w' = Rmin max_z (z_max w)).
Proof.
  intros Eg E. unfold add in E. rewrite Eg in E. cbn [x y z] in E.
  destruct (np_min (file_x data)) as [min_x|]; [|discriminate].
  destruct (np_min (file_y data)) as [min_y|]; [|discriminate].
  destruct (np_max (file_x data)) as [max_x|]; [|discriminate].
  destruct (np_max (file_y data)) as [max_y|]; [|discriminate].
  cbn [bind] in E.
  destruct (np_min match file_z data with
                   | Some zs => zs | None => file_x data end)
    as [min_z|] eqn:Emin; [|discriminate].
  destruct (np_max match file_z data with
                   | Some zs => zs | None => file_x data end)
    as [max_z|] eqn:Emax; [|discriminate].
  cbn [bind] in E. inversion E; subst w'; clear E.
  exists min_x, min_y, max_x, max_y, min_z, max_z. cbn.
  rewrite Emin, Emax.
  repeat split; auto; destruct (locs w); try congruence; reflexivity.
Qed.

(** The bounds the first load leaves enclose the session: every x and y
    lies in [[t_min, t_max]] and every z in [[z_min, z_max]].  A further
    load keeps the lateral bounds and the lower axial bound enclosing. *)
Theorem add_encloses (w w' : Window) (data : Loaded) (answer : option Z) :
  add w data answer = Some w' ->
  (locs w = [] -> enclosed w')
  /\ (enclosed_below w -> enclosed_below w').
Proof.
  intros E. destruct (file_group data) as [groups|] eqn:Eg.
  - destruct (add_channel w w' data answer groups Eg E)
      as (min_x & min_y & max_x & max_y & min_z & max_z & Hmx & Hmy & HMx
          & HMy & Hmz & HMz & El & _ & _ & _ & _ & Hfirst & Hlater).
    assert (A1 := Rmin_l min_x min_y). assert (A2 := Rmin_r min_x min_y).
    assert (B1 := Rmax_l max_x max_y). assert (B2 := Rmax_r max_x max_y).
    assert (New : forall t0 t1 z0,
              t0 <= Rmin min_x min_y -> Rmax max_x max_y <= t1 ->
              z0 <= min_z ->
              forall l0, In l0 [{| x := file_x data; y := file_y data;
                                   z := match file_z data with
                                        | Some zs => zs
                                        | None => file_x data
                                        end; group := groups |}] ->
                (forall v, In v (x l0) \/ In v (y l0) -> t0 <= v <= t1)
                /\ (forall v, In v (z l0) -> z0 <= v <= max_z)).
    { intros t0 t1 z0 H0 H1 H2 l0 [<- | []]. cbn [x y z]. split.
      - intros v [Hv | Hv].
        + assert (P := np_min_le _ _ Hmx v Hv).
          assert (Q := np_max_ge _ _ HMx v Hv). lra.
        + assert (P := np_min_le _ _ Hmy v Hv).
          assert (Q := np_max_ge _ _ HMy v Hv). lra.
      - intros v Hv. assert (P := np_min_le _ _ Hmz v Hv).
        assert (Q := np_max_ge _ _ HMz v Hv). lra. }
    split.
    + intros Elw lj Hlj. rewrite El, Elw in Hlj.
      destruct (Hfirst Elw) as (T1 & T2 & Z1 & Z2).
      rewrite T1, T2, Z1, Z2. apply New; auto; lra.
    + intros Hw lj Hlj. rewrite El in Hlj. apply in_app_or in Hlj.
      assert (Hcase : locs w = [] \/ locs w <> [])
        by (destruct (locs w); [left | right]; congruence).
      destruct Hcase as [Elw | Elw].
      * destruct (Hfirst Elw) as (T1 & T2 & Z1 & _).
        rewrite T1, T2, Z1. rewrite Elw in Hlj. destruct Hlj as [[] | Hlj].
        destruct (New (Rmin min_x min_y) (Rmax max_x max_y) min_z
                    ltac:(lra) ltac:(lra) ltac:(lra) lj Hlj) as [Ht Hz].
        split; [exact Ht|]. intros v Hv. apply (Hz v Hv).
      * destruct (Hlater Elw) as (T1 & T2 & Z1 & _).
        rewrite T1, T2, Z1.
        assert (C1 := Rmin_l (Rmin min_x min_y) (t_min w)).
        assert (C2 := Rmin_r (Rmin min_x min_y) (t_min w)).
        assert (D1 := Rmax_l (Rmax max_x max_y) (t_max w)).
        assert (D2 := Rmax_r (Rmax max_x max_y) (t_max w)).
        assert (F1 := Rmin_l min_z (z_min w)).
        assert (F2 := Rmin_r min_z (z_min w)).
        destruct Hlj as [Hold | Hnew].
        -- destruct (Hw lj Hold) as [Ht Hz]. split.
           ++ intros v Hv. specialize (Ht v Hv). lra.
           ++ intros v Hv. specialize (Hz v Hv). lra.
        -- destruct (New (Rmin (Rmin min_x min_y) (t_min w))
                      (Rmax (Rmax max_x max_y) (t_max w))
                      (Rmin min_z (z_min w))
                      ltac:(lra) ltac:(lra) ltac:(lra) lj Hnew) as [Ht Hz].
           split; [exact Ht|]. intros v Hv. apply (Hz v Hv).
  - unfold add in E. rewrite Eg in E. inversion E; subst w'; clear E.
    split.
    + intros Elw lj Hlj. cbn in Hlj. rewrite Elw in Hlj. destruct Hlj.
    + intros Hw lj Hlj. cbn in *. apply Hw. exact Hlj.
Qed.

Lemma add_encloses_witness :
  exists w',
    add empty_session two_groups_file (Some 130%Z) = Some w'
    /\ enclosed w'.
Proof.
  eexists. split; [reflexivity|].
  exact (proj1 (add_encloses empty_session _ two_groups_file (Some 130%Z)
                  eq_refl) eq_refl).
Defined.

(** With a further channel the lateral view and the lower axial bound only
    widen, whereas the upper axial bound only shrinks: it becomes the smaller
    of the old bound and the largest z of the new channel. *)
Theorem add_bounds_monotone (w w' : Window) (data : Loaded)
    (answer : option Z) :
  locs w <> [] ->
  add w data answer = Some w' ->
  t_min w' <= t_min w /\ t_max w <= t_max w'
  /\ z_min w' <= z_min w /\ z_max w' <= z_max w.
Proof.
  intros Hne E. destruct (file_group data) as [groups|] eqn:Eg.
  - destruct (add_channel w w' data answer groups Eg E)
      as (min_x & min_y & max_x & max_y & min_z & max_z & _ & _ & _ & _ & _
          & _ & _ & _ & _ & _ & _ & _ & Hlater).
    destruct (Hlater Hne) as (T1 & T2 & Z1 & Z2). rewrite T1, T2, Z1, Z2.
    repeat split; try apply Rmin_r; apply Rmax_r.
  - unfold add in E. rewrite Eg in E. inversion E; subst w'. cbn. lra.
Qed.

Lemma add_bounds_monotone_witness :
  locs pair_session <> []
  /\ exists w',
       add pair_session two_groups_file None = Some w'
       /\ z_max w' <= z_max pair_session.
Proof.
  assert (Hne : locs pair_session <> []) by discriminate.
  split; [exact Hne|]. eexists. split; [reflexivity|].
  exact (proj2 (proj2 (proj2
           (add_bounds_monotone pair_session _ two_groups_file None
              Hne eq_refl)))).
Defined.

Lemma np_min_defined (l : list R) : l <> [] -> exists m, np_min l = Some m.
Proof.
  destruct l; [congruence|]. intros _. eexists. reflexivity.
Qed.

Lemma np_max_defined (l : list R) : l <> [] -> exists m, np_max l = Some m.
Proof.
  destruct l; [congruence|]. intros _. eexists. reflexivity.
Qed.

Lemma same_length_nonempty {A B : Type} (l : list A) (l' : list B) :
  length l' = length l -> l <> [] -> l' <> [].
Proof.
  destruct l, l'; simpl; congruence.
Qed.

(** A file with group information but without a single localization makes
    the load raise: the minimum of its empty x column has no value. *)
Theorem add_raises_on_empty_file (w : Window) (data : Loaded)
    (answer : option Z) (groups : list Z) :
  file_group data = Some groups -> file_x data = [] ->
  add w data answer = None.
Proof.
  intros Eg Ex. unfold add. rewrite Eg. cbn [x]. rewrite Ex. reflexivity.
Qed.

Lemma add_raises_on_empty_file_witness :
  add pair_session
      {| file_x := []; file_y := []; file_z := None; file_group := Some [] |}
      None
  = None.
Proof.
  exact (add_raises_on_empty_file pair_session
           {| file_x := []; file_y := []; file_z := None;
              file_group := Some [] |}
           None [] eq_refl eq_refl).
Defined.

Lemma two_groups_file_ok : file_ok two_groups_file.
Proof.
  unfold file_ok, two_groups_file. simpl. split; [reflexivity|].
  split; intros l E; inversion E; reflexivity.
Qed.

(** A load keeps the structure of a session: afterwards every channel,
    the new one included, has the group index built from its group column,
    columns of one length and a check box, the new one's ticked; the group
    count is that of the new channel. *)
Theorem add_keeps_loaded (w w' : Window) (data : Loaded)
    (answer : option Z) :
  loaded w -> file_ok data ->
  add w data answer = Some w' ->
  loaded w'
  /\ (file_group data = None -> locs w' = locs w)
  /\ (forall groups, file_group data = Some groups ->
        length (locs w') = S (length (locs w))
        /\ nth_error (checks w') (length (locs w)) = Some true
        /\ n_groups w' = length (unique groups)).
Proof.
  intros (HG & HC & HF) (Lxy & Lz & Lg) E.
  destruct (file_group data) as [groups|] eqn:Eg.
  - destruct (add_channel w w' data answer groups Eg E)
      as (min_x & min_y & max_x & max_y & min_z & max_z & _ & _ & _ & _ & _
          & _ & El & Egi & Ec & En & _).
    split; [|split; [discriminate|]].
    + unfold loaded. rewrite El, Egi, Ec, HG, map_app, !length_app, HC.
      split; [reflexivity|]. split; [reflexivity|].
      apply Forall_app. split; [exact HF|].
      constructor; [|constructor]. cbn [x y z group].
      specialize (Lg groups eq_refl).
      destruct (file_z data) as [zs|] eqn:Ez.
      * specialize (Lz zs eq_refl). repeat split; congruence.
      * repeat split; congruence.
    + intros g Hg. inversion Hg; subst g.
      rewrite El, Ec, length_app. simpl.
      split; [lia|]. split; [|exact En].
      rewrite <- HC, nth_error_app2, Nat.sub_diag by lia. reflexivity.
  - unfold add in E. rewrite Eg in E. inversion E; subst w'; clear E.
    split; [|split; [reflexivity | discriminate]].
    unfold loaded. cbn. auto.
Qed.

Lemma add_keeps_loaded_witness :
  loaded pair_session /\ file_ok two_groups_file
  /\ exists w',
       add pair_session two_groups_file None = Some w' /\ loaded w'.
Proof.
  split; [exact loaded_pair_session|]. split; [exact two_groups_file_ok|].
  eexists. split; [reflexivity|].
  exact (proj1 (add_keeps_loaded pair_session _ two_groups_file None
                  loaded_pair_session two_groups_file_ok eq_refl)).
Defined.



(** ** An empty list of candidate angles *)

Lemma foldM_invariant {A St : Type} (f : St -> A -> option St)
    (P : St -> Prop) (l : list A) :
  (forall s a t, P s -> f s a = Some t -> P t) ->
  forall s s', foldM f l s = Some s' -> P s -> P s'.
Proof.
  intros Hstep. induction l as [|a t IH]; intros s s' E Hs; simpl in E.
  - inversion E; subst. exact Hs.
  - destruct (f s a) as [s1|] eqn:E1; [|discriminate].
    apply (IH s1 s' E). eapply Hstep; eassumption.
Qed.

Lemma foldM_all_raise {A St : Type} (f : St -> A -> option St)
    (l : list A) (s s' : St) :
  (forall a, f s a = None) ->
  foldM f l s = Some s' -> l = [] /\ s' = s.
Proof.
  intros Hf E. destruct l as [|a t]; simpl in E.
  - inversion E. auto.
  - rewrite Hf in E. discriminate.
Qed.

Lemma record_peak_empty (w : Window) (CFj : CImage) (image : Image)
    (k j : nat) (st : Scores) :
  all_xcorr st = [] -> record_peak w CFj image k j st = None.
Proof.
  intros E. unfold record_peak.
  destruct (peak w CFj image) as [[[s da] db]|]; [|reflexivity].
  cbn [bind]. rewrite E. unfold set2. destruct k; reflexivity.
Qed.

Lemma record_conv_empty (w : Window) (CFj image : Image)
    (k j : nat) (st : Scores) :
  all_xcorr st = [] -> record_conv w CFj image k j st = None.
Proof.
  intros E. unfold record_conv.
  destruct (conv_score CFj image) as [s|]; [|reflexivity].
  cbn [bind]. rewrite E. unfold set2. destruct k; reflexivity.
Qed.

Lemma score_all_empty {T : Type}
    (record : Window -> T -> Image -> nat -> nat -> Scores -> option Scores)
    (w : Window) (CF : list T) (g : nat) (rotaxis proplane : string)
    (st : Scores) :
  (forall w CFj image k j st,
     all_xcorr st = [] -> record w CFj image k j st = None) ->
  score_all record w CF [] g rotaxis proplane = Some st ->
  all_xcorr st = [].
Proof.
  intros Hrec E. unfold score_all in E.
  apply (foldM_invariant _ (fun st => all_xcorr st = [] /\ n_angles st = 0%nat)
           _) with (s' := st) in E; [apply E | | split; reflexivity].
  clear E st. intros st j st' [Hx Hn] E.
  unfold score_channel in E.
  destruct (nth_error (checks w) j) as [[|]|]; cbn [bind] in E;
    [| inversion E; subst; auto | discriminate].
  destruct (nth_error (locs w) j) as [lj|]; [|discriminate]. cbn [bind] in E.
  destruct (members w j g) as [index|]; [|discriminate]. cbn [bind] in E.
  destruct (gather (x lj) index) as [x0|]; [|discriminate]. cbn [bind] in E.
  destruct (gather (y lj) index) as [y0|]; [|discriminate]. cbn [bind] in E.
  destruct (gather (z lj) index) as [z0|]; [|discriminate]. cbn [bind] in E.
  destruct (translatebtn w) eqn:Et.
  - apply foldM_all_raise in E; [destruct E as [E _]; discriminate E|].
    intros k. unfold score_angle. cbn [angles all_xcorr].
    destruct (nth_error [0] k) as [angle|]; [|reflexivity]. cbn [bind].
    destruct (rotate_axis_arr rotaxis x0 y0 z0 angle (pixelsize w))
      as [[[xr yr] zr]|]; [|reflexivity]. cbn [bind].
    destruct (render_planes w xr yr zr proplane (pixelsize w));
      [|reflexivity]. cbn [bind].
    destruct (nth_error CF j); [|reflexivity]. cbn [bind].
    apply Hrec. exact Hx.
  - rewrite Hn in E. simpl in E. inversion E; subst. auto.
Qed.

(** With no candidate angle the score tables have no row, so the search
    raises: either at the first write into the table (translate mode with
    a checked channel) or at the argmax over no angle. *)
Theorem empty_angle_list_raises (w : Window) (CFp : list CImage)
    (CFc : list Image) (g : nat) (rotaxis proplane : string) :
  align_group w CFp [] g rotaxis proplane = None /\
  rotatexy_convolution_group w CFc [] g rotaxis proplane = None.
Proof.
  split.
  - unfold align_group.
    destruct (score_all record_peak w CFp [] g rotaxis proplane) as [st|] eqn:E;
      [|reflexivity].
    apply score_all_empty in E;
      [|intros; apply record_peak_empty; assumption].
    cbn [bind]. unfold choose. rewrite E. reflexivity.
  - unfold rotatexy_convolution_group.
    destruct (score_all record_conv w CFc [] g rotaxis proplane) as [st|] eqn:E;
      [|reflexivity].
    apply score_all_empty in E;
      [|intros; apply record_conv_empty; assumption].
    cbn [bind]. unfold choose. rewrite E. reflexivity.
Qed.

(** ** The loops over the groups *)

Lemma set_locs_same (w : Window) : set_locs w (locs w) = w.
Proof. destruct w; reflexivity. Qed.

Lemma channel_rows (w : Window) (ls : list Locs) (j g : nat) (lj : Locs)
    (index : list nat) :
  Forall2 channel_ok ls (group_index w) ->
  nth_error ls j = Some lj ->
  members w j g = Some index ->
  Forall (fun i => (i < length (x lj))%nat) index
  /\ length (x lj) = length (y lj) /\ length (y lj) = length (z lj).
Proof.
  intros H E Em.
  destruct (Forall2_nth_error_l _ _ _ _ _ H E) as (rows & Er & [Lxy Lyz Hr]).
  rewrite (members_row w j g rows Er) in Em.
  repeat split; auto.
  rewrite Forall_forall in Hr. apply Hr. eapply nth_error_In; exact Em.
Qed.

Lemma gather_agree (a a' : list R) (index : list nat) :
  Forall (fun i => (i < length a)%nat) index ->
  Forall (fun i => (i < length a')%nat) index ->
  (forall m, In m index -> nth m a' 0 = nth m a 0) ->
  gather a' index = gather a index.
Proof.
  intros H H' Hn. rewrite !gather_in_range by assumption.
  f_equal. apply map_ext_in. exact Hn.
Qed.

(** The score of group [g] reads the members of [g] only. *)
Lemma entry_frame {T : Type} (f : Window -> T -> Image -> option (R * R * R))
    (w : Window) (ls : list Locs) (CF : list T) (angles0 : list R) (g : nat)
    (rotaxis proplane : string) (k j : nat) :
  (forall CFj image, f (set_locs w ls) CFj image = f w CFj image) ->
  Forall2 channel_ok (locs w) (group_index w) ->
  Forall2 channel_ok ls (group_index w) ->
  (forall j lj lj' index m,
     nth_error (locs w) j = Some lj -> nth_error ls j = Some lj' ->
     members w j g = Some index -> In m index ->
     point lj' m = point lj m) ->
  entry f (set_locs w ls) CF angles0 g rotaxis proplane k j
  = entry f w CF angles0 g rotaxis proplane k j.
Proof.
  intros Hf H0 H1 Hp. unfold entry.
  change (checks (set_locs w ls)) with (checks w).
  destruct (nth j (checks w) false); [|reflexivity].
  change (locs (set_locs w ls)) with ls.
  change (members (set_locs w ls) j g) with (members w j g).
  assert (Hlen : length ls = length (locs w)).
  { rewrite (Forall2_length H0), (Forall2_length H1). reflexivity. }
  destruct (nth_error (locs w) j) as [lj|] eqn:E0.
  - destruct (nth_error ls j) as [lj'|] eqn:E1.
    2:{ apply nth_error_None in E1.
        assert (j < length (locs w))%nat
          by (apply nth_error_Some; congruence). lia. }
    cbn [bind].
    destruct (members w j g) as [index|] eqn:Em; [|reflexivity].
    cbn [bind].
    destruct (nth_error angles0 k) as [angle|]; [|reflexivity]. cbn [bind].
    assert (Eg : group_image (set_locs w ls) lj' index rotaxis proplane angle
                 = group_image w lj index rotaxis proplane angle).
    { destruct (channel_rows w _ j g lj index H0 E0 Em) as (R0 & _ & _).
      destruct (channel_rows w _ j g lj' index H1 E1 Em) as (R1 & X1 & Y1).
      destruct (channel_rows w _ j g lj index H0 E0 Em) as (_ & X0 & Y0).
      unfold group_image.
      rewrite (gather_agree (x lj) (x lj') index), (gather_agree (y lj) (y lj') index),
        (gather_agree (z lj) (z lj') index); auto.
      - rewrite <- Y0, <- X0. exact R0.
      - rewrite <- Y1, <- X1. exact R1.
      - intros m Hm. specialize (Hp j lj lj' index m E0 E1 Em Hm).
        unfold point in Hp. congruence.
      - rewrite <- X0. exact R0.
      - rewrite <- X1. exact R1.
      - intros m Hm. specialize (Hp j lj lj' index m E0 E1 Em Hm).
        unfold point in Hp. congruence.
      - intros m Hm. specialize (Hp j lj lj' index m E0 E1 Em Hm).
        unfold point in Hp. congruence. }
    rewrite Eg.
    destruct (group_image w lj index rotaxis proplane angle) as [[N image]|];
      [|reflexivity]. cbn [bind].
    destruct (nth_error CF j) as [CFj|]; [|reflexivity]. cbn [bind].
    rewrite Hf. reflexivity.
  - destruct (nth_error ls j) as [lj'|] eqn:E1; [|reflexivity].
    apply nth_error_None in E0.
    assert (j < length ls)%nat by (apply nth_error_Some; congruence). lia.
Qed.

Section GroupFrame.

Context {T : Type}.
Variable f : Window -> T -> Image -> option (R * R * R).
Variables (w : Window) (ls : list Locs) (CF : list T) (angles0 : list R).
Variables (g : nat) (rotaxis proplane : string).

Hypothesis f_frame :
  forall CFj image, f (set_locs w ls) CFj image = f w CFj image.
Hypothesis before : Forall2 channel_ok (locs w) (group_index w).
Hypothesis after : Forall2 channel_ok ls (group_index w).
Hypothesis untouched :
  forall j lj lj' index m,
    nth_error (locs w) j = Some lj -> nth_error ls j = Some lj' ->
    members w j g = Some index -> In m index ->
    point lj' m = point lj m.

Lemma channels_frame : length ls = length (locs w).
Proof.
  rewrite (Forall2_length before), (Forall2_length after). reflexivity.
Qed.

Lemma summed_score_frame (k : nat) :
  summed_score f (set_locs w ls) CF angles0 g rotaxis proplane k
  = summed_score f w CF angles0 g rotaxis proplane k.
Proof.
  unfold summed_score. change (locs (set_locs w ls)) with ls.
  rewrite channels_frame. f_equal. apply map_ext. intros j.
  rewrite entry_frame; auto.
Qed.

Lemma mean_da_frame (k : nat) :
  mean_da f (set_locs w ls) CF angles0 g rotaxis proplane k
  = mean_da f w CF angles0 g rotaxis proplane k.
Proof.
  unfold mean_da. change (locs (set_locs w ls)) with ls.
  rewrite channels_frame. f_equal. f_equal. apply map_ext. intros j.
  rewrite entry_frame; auto.
Qed.

Lemma mean_db_frame (k : nat) :
  mean_db f (set_locs w ls) CF angles0 g rotaxis proplane k
  = mean_db f w CF angles0 g rotaxis proplane k.
Proof.
  unfold mean_db. change (locs (set_locs w ls)) with ls.
  rewrite channels_frame. f_equal. f_equal. apply map_ext. intros j.
  rewrite entry_frame; auto.
Qed.

Lemma best_angle_frame (k : nat) (rot : R) :
  best_angle f (set_locs w ls) CF angles0 rotaxis proplane g k rot ->
  best_angle f w CF angles0 rotaxis proplane g k rot.
Proof.
  intros (E & Hmax & Hfst). split; [exact E|]. split.
  - intros k' Hk. rewrite <- !summed_score_frame. apply Hmax, Hk.
  - intros k' Hk. rewrite <- !summed_score_frame. apply Hfst, Hk.
Qed.

End GroupFrame.

(** The write-back loops keep the channels fit for their group index. *)
Lemma Forall2_channel_ok_lengths (ls ls' : list Locs)
    (gi : list (list (list nat))) :
  Forall2 channel_ok ls gi ->
  Forall2 (fun lj lj' => length (x lj') = length (x lj)
                         /\ length (y lj') = length (y lj)
                         /\ length (z lj') = length (z lj)) ls ls' ->
  Forall2 channel_ok ls' gi.
Proof.
  intros H. revert ls'. induction H as [|lj rows ls gi [Lxy Lyz Hr] H IH];
    intros ls' H'; inversion H' as [|? lj' ? ls1 (X & Y & Z) Ht]; subst.
  - constructor.
  - constructor; [|apply IH; exact Ht].
    split; [congruence | congruence |]. rewrite X. exact Hr.
Qed.

Lemma align_writeback_channels (w : Window) (g : nat)
    (rotaxis proplane : string) (rotfinal dafinal dbfinal : R)
    (ls : list Locs) :
  well_formed w -> group_present w g ->
  In rotaxis ["x"; "y"; "z"]%string ->
  mapMi (fun j lj =>
           lj' <- rotate_members w j g rotaxis rotfinal lj ;;
           shift_members w j g proplane dafinal dbfinal lj')
        0 (locs w) = Some ls ->
  Forall2 channel_ok ls (group_index w).
Proof.
  intros WF GP Hax Els.
  destruct (mapMi_pointwise
              (fun j lj =>
                 lj' <- rotate_members w j g rotaxis rotfinal lj ;;
                 shift_members w j g proplane dafinal dbfinal lj')
              (fun j lj lj' =>
                 length (x lj') = length (x lj)
                 /\ length (y lj') = length (y lj)
                 /\ length (z lj') = length (z lj))
              (locs w) 0%nat) as (ls0 & Els0 & HF & _).
  - intros j lj E. simpl.
    destruct (members_ok w g j lj WF GP E) as (index & Hm & Hx & Lxy & Lyz).
    destruct (rotate_members_effect w j g rotaxis rotfinal lj index
                Hax Hm Hx Lxy Lyz)
      as (l1 & E1 & G1 & X1 & Y1 & Z1 & I1 & O1).
    rewrite E1. simpl.
    destruct (shift_members_effect w j g proplane dafinal dbfinal l1 index Hm)
      as (l2 & E2 & G2 & X2 & Y2 & Z2 & I2 & O2);
      try congruence.
    { rewrite X1. exact Hx. }
    exists l2. split; [exact E2|]. repeat split; congruence.
  - rewrite Els in Els0. inversion Els0; subst ls0.
    apply (Forall2_channel_ok_lengths (locs w)); [apply WF|].
    eapply Forall2_impl; [|exact HF]. intros a b (j & H). exact H.
Qed.

Lemma rotate_writeback_channels (w : Window) (g : nat) (rotaxis : string)
    (rotfinal : R) (ls : list Locs) :
  well_formed w -> group_present w g ->
  In rotaxis ["x"; "y"; "z"]%string ->
  mapMi (fun j lj => rotate_members w j g rotaxis rotfinal lj)
        0 (locs w) = Some ls ->
  Forall2 channel_ok ls (group_index w).
Proof.
  intros WF GP Hax Els.
  destruct (mapMi_pointwise
              (fun j lj => rotate_members w j g rotaxis rotfinal lj)
              (fun j lj lj' =>
                 length (x lj') = length (x lj)
                 /\ length (y lj') = length (y lj)
                 /\ length (z lj') = length (z lj))
              (locs w) 0%nat) as (ls0 & Els0 & HF & _).
  - intros j lj E. simpl.
    destruct (members_ok w g j lj WF GP E) as (index & Hm & Hx & Lxy & Lyz).
    destruct (rotate_members_effect w j g rotaxis rotfinal lj index
                Hax Hm Hx Lxy Lyz)
      as (l1 & E1 & G1 & X1 & Y1 & Z1 & I1 & O1).
    exists l1. split; [exact E1|]. repeat split; congruence.
  - rewrite Els in Els0. inversion Els0; subst ls0.
    apply (Forall2_channel_ok_lengths (locs w)); [apply WF|].
    eapply Forall2_impl; [|exact HF]. intros a b (j & H). exact H.
Qed.

Section GroupLoop.

Context {Px : Type}.
Variable f : Window -> list (list Px) -> Image -> option (R * R * R).
Variable step : Window -> nat -> option Window.
Variable apply_move : R -> R -> R -> R * R * R -> R * R * R.
Variables (w : Window) (CF : list (list (list Px))) (angles0 : list R).
Variables (rotaxis proplane : string).

Hypothesis f_frame :
  forall w ls CFj image, f (set_locs w ls) CFj image = f w CFj image.
Hypothesis WF : well_formed w.
Hypothesis disjoint : Forall rows_disjoint (group_index w).

(** One pass of the loop body on the session with channels [ls]. *)
Hypothesis step_effect :
  forall ls g,
    well_formed (set_locs w ls) -> group_present w g ->
    exists k rot ls',
      best_angle f (set_locs w ls) CF angles0 rotaxis proplane g k rot
      /\ step (set_locs w ls) g = Some (set_locs w ls')
      /\ Forall2 channel_ok ls' (group_index w)
      /\ forall j lj, nth_error ls j = Some lj ->
           exists lj' index,
             nth_error ls' j = Some lj'
             /\ members w j g = Some index
             /\ (forall i, In i index ->
                   point lj' i
                   = apply_move
                       (mean_da f (set_locs w ls) CF angles0 g
                                rotaxis proplane k)
                       (mean_db f (set_locs w ls) CF angles0 g
                                rotaxis proplane k)
                       rot (point lj i))
             /\ (forall i, ~ In i index -> point lj' i = point lj i).

Local Abbreviation Move :=
  (fun g k rot => apply_move (mean_da f w CF angles0 g rotaxis proplane k)
                             (mean_db f w CF angles0 g rotaxis proplane k)
                             rot).
Local Abbreviation Done :=
  (groups_done w (best_angle f w CF angles0 rotaxis proplane) Move).

Lemma other_row (j g i : nat) (index index' : list nat) (m : nat) :
  members w j g = Some index -> members w j i = Some index' ->
  In m index -> In m index' -> g = i.
Proof.
  intros Eg Ei Hm Hm'. unfold members in Eg, Ei.
  destruct (nth_error (group_index w) j) as [rows|] eqn:Er; [|discriminate].
  cbn [bind] in Eg, Ei.
  rewrite Forall_forall in disjoint.
  exact (disjoint rows (nth_error_In _ _ Er) g i m index index' Eg Ei Hm Hm').
Qed.

Lemma same_channel (ls : list Locs) (j : nat) (lj : Locs) :
  Forall2 channel_ok ls (group_index w) ->
  nth_error (locs w) j = Some lj ->
  exists lj', nth_error ls j = Some lj'.
Proof.
  intros H E. destruct WF as [_ H0].
  assert (L : length ls = length (locs w)).
  { rewrite (Forall2_length H0), (Forall2_length H). reflexivity. }
  destruct (nth_error ls j) as [lj'|] eqn:E'; [eauto|].
  apply nth_error_None in E'.
  assert (j < length (locs w))%nat by (apply nth_error_Some; congruence).
  lia.
Qed.

Lemma group_step (ls : list Locs) (i : nat) :
  group_present w i -> Done ls i ->
  exists ls',
    step (set_locs w ls) i = Some (set_locs w ls') /\ Done ls' (S i).
Proof.
  intros GP (Hok & Hdone & Hfree).
  pose proof WF as [Lc H0].
  assert (WFi : well_formed (set_locs w ls)).
  { split; [|exact Hok]. cbn [checks locs set_locs].
    rewrite Lc, (Forall2_length H0), (Forall2_length Hok). reflexivity. }
  assert (Hun : forall j lj lj' index m,
            nth_error (locs w) j = Some lj -> nth_error ls j = Some lj' ->
            members w j i = Some index -> In m index ->
            point lj' m = point lj m).
  { intros j lj lj' index m E0 E1 Em Hm. apply (Hfree j lj lj' m E0 E1).
    intros g index' Hg Eg Hm'.
    pose proof (other_row j g i index' index m Eg Em Hm' Hm). lia. }
  destruct (step_effect ls i WFi GP) as (k & rot & ls' & Hb & Es & Hok' & He).
  exists ls'. split; [exact Es|]. split; [exact Hok'|]. split.
  - intros g Hg. destruct (Nat.eq_dec g i) as [->|Hne].
    + exists k, rot. split.
      * apply (best_angle_frame f w ls CF angles0 i rotaxis proplane
                 (f_frame w ls) H0 Hok Hun). exact Hb.
      * intros j lj lj'' index m E0 E2 Em Hm.
        destruct (same_channel ls j lj Hok E0) as (lj' & E1).
        destruct (He j lj' E1) as (l2 & index2 & E2' & Em2 & Hin & _).
        rewrite E2 in E2'. inversion E2'; subst l2.
        rewrite Em in Em2. inversion Em2; subst index2.
        rewrite (Hin m Hm).
        rewrite (mean_da_frame f w ls CF angles0 i rotaxis proplane
                   (f_frame w ls) H0 Hok Hun),
                (mean_db_frame f w ls CF angles0 i rotaxis proplane
                   (f_frame w ls) H0 Hok Hun).
        rewrite (Hun j lj lj' index m E0 E1 Em Hm). reflexivity.
    + assert (Hlt : (g < i)%nat) by lia.
      destruct (Hdone g Hlt) as (k0 & rot0 & Hb0 & Hm0).
      exists k0, rot0. split; [exact Hb0|].
      intros j lj lj'' index m E0 E2 Em Hm.
      destruct (same_channel ls j lj Hok E0) as (lj' & E1).
      destruct (He j lj' E1) as (l2 & index2 & E2' & Em2 & _ & Hout).
      rewrite E2 in E2'. inversion E2'; subst l2.
      rewrite Hout.
      * apply (Hm0 j lj lj' index m E0 E1 Em Hm).
      * intros Hm2. apply Hne.
        exact (other_row j g i index index2 m Em Em2 Hm Hm2).
  - intros j lj lj'' m E0 E2 Hnone.
    destruct (same_channel ls j lj Hok E0) as (lj' & E1).
    destruct (He j lj' E1) as (l2 & index2 & E2' & Em2 & _ & Hout).
    rewrite E2 in E2'. inversion E2'; subst l2.
    rewrite Hout.
    + apply (Hfree j lj lj' m E0 E1). intros g index Hg. apply Hnone. lia.
    + apply (Hnone i index2); [lia | exact Em2].
Qed.

Lemma group_loop (n : nat) :
  forall i ls,
    (forall g, (i <= g < i + n)%nat -> group_present w g) ->
    Done ls i ->
    exists ls',
      foldM step (seq i n) (set_locs w ls) = Some (set_locs w ls')
      /\ Done ls' (i + n).
Proof.
  induction n as [|n IH]; intros i ls GP HD.
  - exists ls. rewrite Nat.add_0_r. split; [reflexivity | exact HD].
  - destruct (group_step ls i (GP i ltac:(lia)) HD) as (l1 & E1 & D1).
    destruct (IH (S i) l1) as (l2 & E2 & D2).
    { intros g Hg. apply GP. lia. }
    { exact D1. }
    exists l2. cbn [seq foldM]. rewrite E1. cbn [bind].
    split; [exact E2|]. replace (i + S n)%nat with (S i + n)%nat by lia.
    exact D2.
Qed.

Lemma group_loop_all (n : nat) :
  (forall g, (g < n)%nat -> group_present w g) ->
  exists ls',
    foldM step (seq 0 n) w = Some (set_locs w ls') /\ Done ls' n.
Proof.
  intros GP.
  destruct (group_loop n 0 (locs w)) as (ls' & El & HD).
  - intros g Hg. apply GP. lia.
  - split; [apply WF|]. split.
    + intros g Hg. lia.
    + intros j lj lj' m E0 E1 _. congruence.
  - rewrite set_locs_same in El. exists ls'. split; [exact El | exact HD].
Qed.

End GroupLoop.

(** The body of the loop of rotate_groups on a session that differs from
    [w] in its coordinates only. *)
Lemma align_group_step (w : Window) (CF : list CImage) (angles0 : list R)
    (rotaxis proplane : string) (ls : list Locs) (g : nat) :
  In rotaxis ["x"; "y"; "z"]%string -> view_ok w proplane ->
  pixelsize w <> 0 -> translatebtn w = false -> angles0 <> [] ->
  references_fit w proplane CF -> length ls = length (locs w) ->
  well_formed (set_locs w ls) -> group_present w g ->
  exists k rot ls',
    best_angle peak (set_locs w ls) CF angles0 rotaxis proplane g k rot
    /\ align_group (set_locs w ls) CF angles0 g rotaxis proplane
       = Some (set_locs w ls')
    /\ Forall2 channel_ok ls' (group_index w)
    /\ forall j lj, nth_error ls j = Some lj ->
         exists lj' index,
           nth_error ls' j = Some lj'
           /\ members w j g = Some index
           /\ (forall i, In i index ->
                 point lj' i
                 = shifted proplane
                     (mean_da peak (set_locs w ls) CF angles0 g
                              rotaxis proplane k)
                     (mean_db peak (set_locs w ls) CF angles0 g
                              rotaxis proplane k)
                     (pixelsize w)
                     (rotated rotaxis rot (pixelsize w) (point lj i)))
           /\ (forall i, ~ In i index -> point lj' i = point lj i).
Proof.
  intros Hax Hv Hps Htr Hne [HRl HRs] Hlen WFi GP.
  assert (SR : search_ready (set_locs w ls) g rotaxis proplane).
  { split; [exact WFi|]. split; [exact GP|]. split; [exact Hax|].
    split; [exact Hv | exact Hps]. }
  assert (HR : references_fit (set_locs w ls) proplane CF).
  { split; [|exact HRs]. cbn [locs set_locs]. congruence. }
  destruct (align_group_effect (set_locs w ls) CF angles0 g rotaxis proplane
              SR Htr HR Hne)
    as (st & k & rot & w' & Es & Ec & Er & Hmax & Hfst & Ea & He).
  unfold align_group in Ea. rewrite Es in Ea. cbn [bind] in Ea.
  rewrite Ec in Ea. cbn [bind] in Ea.
  match type of Ea with
  | bind ?m _ = _ => destruct m as [ls'|] eqn:El; [|discriminate]
  end.
  cbn [bind] in Ea. inversion Ea; subst w'. clear Ea.
  exists k, rot, ls'. split; [split; [exact Er|split; assumption]|].
  split.
  { unfold align_group. rewrite Es. cbn [bind]. rewrite Ec. cbn [bind].
    rewrite El. reflexivity. }
  split.
  - exact (align_writeback_channels (set_locs w ls) g rotaxis proplane _ _ _
             ls' WFi GP Hax El).
  - intros j lj E. destruct (He j lj E) as (lj' & index & E' & Em & _ & H).
    exists lj', index. split; [exact E'|]. split; [exact Em|]. exact H.
Qed.

Lemma rotatexy_convolution_group_step (w : Window) (CF : list Image)
    (angles0 : list R) (rotaxis proplane : string) (ls : list Locs)
    (g : nat) :
  In rotaxis ["x"; "y"; "z"]%string -> view_ok w proplane ->
  pixelsize w <> 0 -> translatebtn w = false -> angles0 <> [] ->
  references_fit w proplane CF -> length ls = length (locs w) ->
  well_formed (set_locs w ls) -> group_present w g ->
  exists k rot ls',
    best_angle conv3 (set_locs w ls) CF angles0 rotaxis proplane g k rot
    /\ rotatexy_convolution_group (set_locs w ls) CF angles0 g
                                  rotaxis proplane
       = Some (set_locs w ls')
    /\ Forall2 channel_ok ls' (group_index w)
    /\ forall j lj, nth_error ls j = Some lj ->
         exists lj' index,
           nth_error ls' j = Some lj'
           /\ members w j g = Some index
           /\ (forall i, In i index ->
                 point lj' i
                 = rotated rotaxis rot (pixelsize w) (point lj i))
           /\ (forall i, ~ In i index -> point lj' i = point lj i).
Proof.
  intros Hax Hv Hps Htr Hne [HRl HRs] Hlen WFi GP.
  assert (SR : search_ready (set_locs w ls) g rotaxis proplane).
  { split; [exact WFi|]. split; [exact GP|]. split; [exact Hax|].
    split; [exact Hv | exact Hps]. }
  assert (HR : references_fit (set_locs w ls) proplane CF).
  { split; [|exact HRs]. cbn [locs set_locs]. congruence. }
  destruct (rotatexy_convolution_group_effect (set_locs w ls) CF angles0 g
              rotaxis proplane SR Htr HR Hne)
    as (st & k & rot & da & db & w' & Es & Ec & Er & Hmax & Hfst & Ea & He).
  unfold rotatexy_convolution_group in Ea. rewrite Es in Ea.
  cbn [bind] in Ea. rewrite Ec in Ea. cbn [bind] in Ea.
  match type of Ea with
  | bind ?m _ = _ => destruct m as [ls'|] eqn:El; [|discriminate]
  end.
  cbn [bind] in Ea. inversion Ea; subst w'. clear Ea.
  exists k, rot, ls'. split; [split; [exact Er|split; assumption]|].
  split.
  { unfold rotatexy_convolution_group. rewrite Es. cbn [bind]. rewrite Ec.
    cbn [bind]. rewrite El. reflexivity. }
  split.
  - exact (rotate_writeback_channels (set_locs w ls) g rotaxis _
             ls' WFi GP Hax El).
  - intros j lj E. destruct (He j lj E) as (lj' & index & E' & Em & _ & H).
    exists lj', index. split; [exact E'|]. split; [exact Em|]. exact H.
Qed.

Lemma well_formed_channels (w : Window) (ls : list Locs) :
  well_formed w -> well_formed (set_locs w ls) ->
  length ls = length (locs w).
Proof.
  intros [L _] [L' _]. cbn [checks locs set_locs] in L'. congruence.
Qed.

Section GroupLoops.

Variable ndimage_rotate : Image -> R -> Image.



End GroupLoops.

Lemma two_groups_session_ready :
  well_formed two_groups_session
  /\ Forall rows_disjoint (group_index two_groups_session)
  /\ view_ok two_groups_session "xy".
Proof.
  split; [|split].
  - split; [reflexivity|]. constructor; [|constructor].
    apply build_channel_ok; reflexivity.
  - constructor; [|constructor]. apply build_rows_disjoint.
  - unfold view_ok, two_groups_session. rewrite session_view. simpl.
    repeat split; auto; lia.
Qed.

Lemma two_groups_session_present (g : nat) :
  (g < length (build_group_index two_groups_channel))%nat ->
  group_present two_groups_session g.
Proof.
  intros Hg. constructor; [exact Hg | constructor].
Qed.

Lemma two_groups_references :
  references_fit two_groups_session "xy"
    (map (fun im => map (map Cconj) (fft2 (map (map RtoC) im))) [flat_image])
  /\ references_fit two_groups_session "xy" [flat_image].
Proof.
  unfold references_fit, two_groups_session. rewrite session_view.
  split; (split; [reflexivity|]); constructor; try constructor; reflexivity.
Qed.

Lemma two_groups_pixelsize : pixelsize two_groups_session <> 0.
Proof.
  simpl. lra.
Qed.



(** ** adjust_viewport_to_view *)

Lemma pydiv_defined (a b : R) : b <> 0 -> pydiv a b = Some (a / b).
Proof.
  intros H. unfold pydiv. destruct (Req_dec_T b 0); [contradiction|].
  reflexivity.
Qed.

Lemma aspect_le (a b c d : R) :
  0 < b -> 0 < d -> (a / b <= c / d <-> a * d <= c * b).
Proof.
  intros Hb Hd. split; intros H.
  - apply (Rmult_le_compat_r (b * d)) in H; [|nra].
    replace (a / b * (b * d)) with (a * d) in H by (field; lra).
    replace (c / d * (b * d)) with (c * b) in H by (field; lra).
    exact H.
  - apply (Rmult_le_reg_r (b * d)); [nra|].
    replace (a / b * (b * d)) with (a * d) by (field; lra).
    replace (c / d * (b * d)) with (c * b) by (field; lra).
    exact H.
Qed.

(** For a viewport and a widget of positive height and width,
    adjust_viewport_to_view returns a viewport that contains the given one,
    has the same centre, has the aspect ratio of the widget, and keeps the
    height or the width of the given one. *)
Theorem adjust_viewport_to_view_fits (view_height view_width : R)
    (viewport : Viewport) :
  0 < view_height -> 0 < view_width ->
  0 < fst (viewport_size viewport) -> 0 < snd (viewport_size viewport) ->
  exists v',
    adjust_viewport_to_view view_height view_width viewport = Some v'
    /\ viewport_within viewport v'
    /\ fst (fst v') + fst (snd v')
       = fst (fst viewport) + fst (snd viewport)
    /\ snd (fst v') + snd (snd v')
       = snd (fst viewport) + snd (snd viewport)
    /\ snd (viewport_size v') * view_height
       = fst (viewport_size v') * view_width
    /\ (fst (viewport_size v') = fst (viewport_size viewport)
        \/ snd (viewport_size v') = snd (viewport_size viewport)).
Proof.
  destruct viewport as [[y0 x0] [y1 x1]]. unfold viewport_size. simpl.
  intros Hvh Hvw Hh Hw.
  unfold adjust_viewport_to_view. simpl.
  rewrite !pydiv_defined by lra. cbn [bind].
  destruct (Rle_dec ((x1 - x0) / (y1 - y0)) (view_width / view_height))
    as [Hle|Hgt].
  - apply (proj1 (aspect_le _ _ _ _ Hh Hvh)) in Hle.
    eexists. split; [reflexivity|]. unfold viewport_within. simpl.
    assert (Hm : 0 <= (y1 - y0) * (view_width / view_height) - (x1 - x0)).
    { apply (Rmult_le_reg_r view_height); [lra|].
      replace (((y1 - y0) * (view_width / view_height) - (x1 - x0))
               * view_height)
        with ((y1 - y0) * view_width - (x1 - x0) * view_height)
        by (field; lra).
      nra. }
    repeat split; try lra. field. lra.
  - assert (Hlt : view_width * (y1 - y0) < (x1 - x0) * view_height).
    { apply Rnot_le_lt. intros H. apply Hgt.
      apply (proj2 (aspect_le _ _ _ _ Hh Hvh)). lra. }
    assert (Hva : view_width / view_height <> 0).
    { apply Rgt_not_eq. apply Rdiv_lt_0_compat; lra. }
    rewrite pydiv_defined by exact Hva. cbn [bind].
    eexists. split; [reflexivity|]. unfold viewport_within. simpl.
    assert (Hm : 0 <= (x1 - x0) / (view_width / view_height) - (y1 - y0)).
    { apply (Rmult_le_reg_r view_width); [lra|].
      replace (((x1 - x0) / (view_width / view_height) - (y1 - y0))
               * view_width)
        with ((x1 - x0) * view_height - (y1 - y0) * view_width)
        by (field; lra).
      nra. }
    repeat split; try lra. field. lra.
Qed.

Lemma adjust_viewport_to_view_fits_witness :
  exists v',
    adjust_viewport_to_view 3 4 ((0, 0), (1, 1)) = Some v'
    /\ viewport_within ((0, 0), (1, 1)) v'
    /\ snd (viewport_size v') * 3 = fst (viewport_size v') * 4.
Proof.
  destruct (adjust_viewport_to_view_fits 3 4 ((0, 0), (1, 1)))
    as (v' & E & W & _ & _ & A & _); try (simpl; lra).
  exists v'. split; [exact E|]. split; [exact W | exact A].
Defined.

(** Adjusting an adjusted viewport changes nothing. *)
Theorem adjust_viewport_to_view_idempotent (view_height view_width : R)
    (viewport v' : Viewport) :
  0 < view_height -> 0 < view_width ->
  0 < fst (viewport_size viewport) -> 0 < snd (viewport_size viewport) ->
  adjust_viewport_to_view view_height view_width viewport = Some v' ->
  adjust_viewport_to_view view_height view_width v' = Some v'.
Proof.
  destruct viewport as [[y0 x0] [y1 x1]]. unfold viewport_size. simpl.
  intros Hvh Hvw Hh Hw E.
  assert (Hva : view_width / view_height <> 0).
  { apply Rgt_not_eq. apply Rdiv_lt_0_compat; lra. }
  unfold adjust_viewport_to_view in E. simpl in E.
  rewrite !pydiv_defined in E by lra. cbn [bind] in E.
  destruct (Rle_dec ((x1 - x0) / (y1 - y0)) (view_width / view_height))
    as [Hle|Hgt].
  - inversion E; subst v'; clear E.
    unfold adjust_viewport_to_view. simpl.
    rewrite !pydiv_defined by lra. cbn [bind].
    match goal with
    | |- context [Rle_dec ?a ?b] => destruct (Rle_dec a b) as [_|Hn]
    end.
    + apply f_equal. split_pairs; try reflexivity; field; lra.
    + exfalso. apply Hn. right. field. lra.
  - rewrite pydiv_defined in E by exact Hva. cbn [bind] in E.
    inversion E; subst v'; clear E.
    assert (Hr : 0 < (x1 - x0) / (view_width / view_height)).
    { apply Rdiv_lt_0_compat; [lra|]. apply Rdiv_lt_0_compat; lra. }
    unfold adjust_viewport_to_view. simpl.
    rewrite (pydiv_defined view_width) by lra.
    rewrite pydiv_defined by lra. cbn [bind].
    match goal with
    | |- context [Rle_dec ?a ?b] => destruct (Rle_dec a b) as [_|Hn]
    end.
    + apply f_equal. split_pairs; try reflexivity; field; repeat split; lra.
    + exfalso. apply Hn. right.
      set (q := (x1 - x0) / (view_width / view_height)) in *.
      replace (y1 + (q - (y1 - y0)) / 2 - (y0 - (q - (y1 - y0)) / 2))
        with q by lra.
      unfold q. field. repeat split; lra.
Qed.

Lemma adjust_viewport_example :
  adjust_viewport_to_view 3 4 ((0, 0), (1, 1))
  = Some ((0, 0 - ((1 - 0) * (4 / 3) - (1 - 0)) / 2),
          (1, 1 + ((1 - 0) * (4 / 3) - (1 - 0)) / 2)).
Proof.
  unfold adjust_viewport_to_view. simpl.
  rewrite !pydiv_defined by lra. cbn [bind].
  destruct (Rle_dec ((1 - 0) / (1 - 0)) (4 / 3)) as [_|H]; [reflexivity|].
  exfalso. apply H. lra.
Qed.

Lemma adjust_viewport_to_view_idempotent_witness :
  exists v',
    adjust_viewport_to_view 3 4 ((0, 0), (1, 1)) = Some v'
    /\ adjust_viewport_to_view 3 4 v' = Some v'.
Proof.
  eexists. split; [exact adjust_viewport_example|].
  apply (adjust_viewport_to_view_idempotent 3 4 ((0, 0), (1, 1)));
    try (simpl; lra).
  exact adjust_viewport_example.
Defined.

(** ** translate_group *)

Lemma iadd_pointwise (a : list R) (index : list nat) (d : R) :
  Forall (fun i => (i < length a)%nat) index ->
  exists a',
    iadd_at a index d = Some a'
    /\ length a' = length a
    /\ (forall i, In i index -> nth i a' 0 = nth i a 0 + d)
    /\ (forall i, ~ In i index -> nth i a' 0 = nth i a 0).
Proof.
  intros H. unfold iadd_at. rewrite gather_in_range by exact H. simpl.
  rewrite map_map.
  apply (scatter_pointwise (fun i => nth i a 0 + d)). exact H.
Qed.

Lemma correlate_nonempty (in1 in2 : list R) :
  in1 <> [] -> in2 <> [] -> correlate in1 in2 <> [].
Proof.
  intros H1 H2 E. apply (f_equal (@length R)) in E.
  destruct in1 as [|a t]; [contradiction|].
  destruct in2 as [|b u]; [contradiction|].
  unfold correlate in E. rewrite length_map, length_seq in E.
  simpl in E. lia.
Qed.

Lemma projection_defined (translateaxis : string) (plane : Image)
    (rows cols : nat) :
  In translateaxis ["x"; "y"; "z"]%string ->
  shaped plane rows cols -> (0 < rows)%nat -> (0 < cols)%nat ->
  exists projection,
    projection_of translateaxis plane = Some projection
    /\ projection <> [].
Proof.
  intros Hax [L F] Hr Hc.
  assert (H0 : sum_axis0 plane <> []).
  { intros E. apply (f_equal (@length R)) in E.
    unfold sum_axis0 in E. rewrite length_map, length_seq in E.
    destruct plane as [|row t]; [simpl in L; lia|].
    inversion F; subst. simpl in E. lia. }
  assert (H1 : sum_axis1 plane <> []).
  { intros E. apply (f_equal (@length R)) in E.
    unfold sum_axis1 in E. rewrite length_map in E. simpl in E. lia. }
  unfold projection_of.
  destruct Hax as [<-|[<-|[<-|[]]]]; simpl; eauto.
Qed.

Lemma np_max_nonempty (l : list R) : l <> [] -> exists v, np_max l = Some v.
Proof.
  destruct l as [|a t]; [contradiction|]. intros _. simpl. eauto.
Qed.

Lemma translate_plane_known (translateaxis proplane : string) :
  translate_plane translateaxis = Some proplane ->
  In translateaxis ["x"; "y"; "z"]%string.
Proof.
  unfold translate_plane. intros E.
  destruct (String.eqb_spec translateaxis "x"); [subst; simpl; auto|].
  destruct (String.eqb_spec translateaxis "y"); [subst; simpl; auto|].
  destruct (String.eqb_spec translateaxis "z"); [subst; simpl; auto|].
  discriminate.
Qed.

Lemma group_projection_defined (w : Window) (signalimg : list (list R))
    (g : nat) (translateaxis : string) (j : nat) :
  translate_ready w signalimg translateaxis -> group_present w g ->
  (j < length (locs w))%nat ->
  exists projection,
    group_projection w g translateaxis j = Some projection
    /\ projection <> [].
Proof.
  intros (WF & (proplane & Ep & Hv) & Ls & Hs) GP Hj.
  unfold group_projection.
  destruct (nth_error (locs w) j) as [lj|] eqn:El;
    [|apply nth_error_None in El; lia].
  cbn [bind].
  destruct (members_ok w g j lj WF GP El) as (index & Hm & Hx & Lxy & Lyz).
  rewrite Hm. cbn [bind].
  rewrite !gather_in_range
    by (try rewrite <- Lyz; try rewrite <- Lxy; exact Hx).
  cbn [bind]. rewrite Ep. cbn [bind].
  destruct (render_planes_N_defined w
              (map (fun i => nth i (x lj) 0) index)
              (map (fun i => nth i (y lj) 0) index)
              (map (fun i => nth i (z lj) 0) index) proplane Hv)
    as (N & plane & Er & Sh & _).
  unfold render_planes. rewrite Er. cbn [bind].
  destruct Hv as (_ & Hrows & Hcols).
  apply (projection_defined translateaxis plane _ _
           (translate_plane_known _ _ Ep) Sh); lia.
Qed.

Lemma translate_score_defined (w : Window) (signalimg : list (list R))
    (g : nat) (translateaxis : string) (j : nat) :
  translate_ready w signalimg translateaxis -> group_present w g ->
  (j < length (locs w))%nat ->
  exists t, translate_score w signalimg g translateaxis j = Some t.
Proof.
  intros Hr GP Hj.
  destruct (group_projection_defined w signalimg g translateaxis j Hr GP Hj)
    as (projection & Epr & Hpr).
  destruct Hr as (WF & _ & Ls & Hs).
  unfold translate_score. rewrite Epr. cbn [bind].
  destruct (nth_error signalimg j) as [sig|] eqn:Es;
    [|apply nth_error_None in Es; lia].
  cbn [bind].
  assert (Hsig : sig <> []).
  { rewrite Forall_forall in Hs. apply Hs. eapply nth_error_In; exact Es. }
  assert (Hc := correlate_nonempty sig projection Hsig Hpr).
  destruct (np_max_nonempty _ Hc) as (v & Ev). rewrite Ev. cbn [bind].
  destruct (argmax_spec _ Hc) as (am & Ea & _). rewrite Ea. cbn [bind].
  eauto.
Qed.

Lemma translate_channel_step (w : Window) (signalimg : list (list R))
    (g : nat) (translateaxis : string) (j : nat) (st : Image * Image) :
  translate_ready w signalimg translateaxis -> group_present w g ->
  (j < length (locs w))%nat ->
  lags_stored w signalimg g translateaxis j st ->
  exists st',
    translate_channel w signalimg g translateaxis st j = Some st'
    /\ lags_stored w signalimg g translateaxis (S j) st'.
Proof.
  intros Hr GP Hj (S1 & S2 & V).
  assert (WF : well_formed w) by apply Hr.
  unfold translate_channel.
  destruct (nth_error (checks w) j) as [checked|] eqn:Ec;
    [|apply nth_error_None in Ec; destruct WF as [Lc _]; lia].
  cbn [bind]. destruct checked.
  - destruct (translate_score_defined w signalimg g translateaxis j Hr GP Hj)
      as ([corrval da] & Et).
    rewrite Et. cbn [bind].
    destruct (set2_shaped (fst st) 1 (length (locs w)) 0 j corrval S1)
      as (xc & Ex & Sx & _); try lia.
    destruct (set2_shaped (snd st) 1 (length (locs w)) 0 j da S2)
      as (da' & Ed & Sd & Vd); try lia.
    rewrite Ex. cbn [bind]. rewrite Ed. cbn [bind].
    exists (xc, da'). split; [reflexivity|].
    split; [exact Sx|]. split; [exact Sd|].
    intros j' Hj'. cbn [snd]. rewrite Vd. simpl.
    destruct (Nat.eqb_spec j' j) as [->|Hne].
    + replace (j <? S j)%nat with true by (symmetry; apply Nat.ltb_lt; lia).
      unfold lag. rewrite (nth_error_nth _ _ false Ec), Et. reflexivity.
    + rewrite (V j' Hj').
      destruct (Nat.ltb_spec j' j), (Nat.ltb_spec j' (S j));
        try reflexivity; lia.
  - exists st. split; [reflexivity|].
    split; [exact S1|]. split; [exact S2|].
    intros j' Hj'. rewrite (V j' Hj').
    destruct (Nat.eqb_spec j' j) as [->|Hne].
    + replace (j <? S j)%nat with true by (symmetry; apply Nat.ltb_lt; lia).
      replace (j <? j)%nat with false by (symmetry; apply Nat.ltb_ge; lia).
      unfold lag. rewrite (nth_error_nth _ _ false Ec). reflexivity.
    + destruct (Nat.ltb_spec j' j), (Nat.ltb_spec j' (S j));
        try reflexivity; lia.
Qed.

Lemma translate_channels_loop (w : Window) (signalimg : list (list R))
    (g : nat) (translateaxis : string) :
  translate_ready w signalimg translateaxis -> group_present w g ->
  forall n j st,
    (j + n <= length (locs w))%nat ->
    lags_stored w signalimg g translateaxis j st ->
    exists st',
      foldM (translate_channel w signalimg g translateaxis) (seq j n) st
        = Some st'
      /\ lags_stored w signalimg g translateaxis (j + n) st'.
Proof.
  intros Hr GP. induction n as [|n IH]; intros j st Hn Hl.
  - exists st. rewrite Nat.add_0_r. split; [reflexivity | exact Hl].
  - destruct (translate_channel_step w signalimg g translateaxis j st
                Hr GP ltac:(lia) Hl) as (s1 & E1 & L1).
    destruct (IH (S j) s1 ltac:(lia) L1) as (s2 & E2 & L2).
    exists s2. cbn [seq foldM]. rewrite E1. cbn [bind].
    split; [exact E2|]. replace (j + S n)%nat with (S j + n)%nat by lia.
    exact L2.
Qed.

Lemma translate_member_effect (w : Window) (j g : nat)
    (translateaxis : string) (dafinal : R) (lj : Locs) (index : list nat) :
  members w j g = Some index ->
  Forall (fun i => (i < length (x lj))%nat) index ->
  length (x lj) = length (y lj) -> length (y lj) = length (z lj) ->
  exists lj',
    translate_member w j g translateaxis dafinal lj = Some lj'
    /\ group lj' = group lj
    /\ length (x lj') = length (x lj)
    /\ length (y lj') = length (y lj)
    /\ length (z lj') = length (z lj)
    /\ (forall i, In i index ->
          point lj' i
          = translated translateaxis dafinal (pixelsize w) (point lj i))
    /\ (forall i, ~ In i index -> point lj' i = point lj i).
Proof.
  intros Hm Hx Lxy Lyz.
  assert (Hy : Forall (fun i => (i < length (y lj))%nat) index)
    by (rewrite <- Lxy; exact Hx).
  assert (Hz : Forall (fun i => (i < length (z lj))%nat) index)
    by (rewrite <- Lyz; exact Hy).
  unfold translate_member, translated. rewrite Hm. cbn [bind].
  destruct (String.eqb translateaxis "x").
  { destruct (iadd_pointwise (x lj) index dafinal Hx)
      as (lx & Ex & Lx & Ix & Ox).
    rewrite Ex. cbn [bind]. eexists. split; [reflexivity|]. simpl.
    repeat split; auto.
    - intros i Hi. unfold point. simpl. now rewrite Ix by exact Hi.
    - intros i Hi. unfold point. simpl. now rewrite Ox by exact Hi. }
  destruct (String.eqb translateaxis "y").
  { destruct (iadd_pointwise (y lj) index dafinal Hy)
      as (ly & Ey & Ly & Iy & Oy).
    rewrite Ey. cbn [bind]. eexists. split; [reflexivity|]. simpl.
    repeat split; auto.
    - intros i Hi. unfold point. simpl. now rewrite Iy by exact Hi.
    - intros i Hi. unfold point. simpl. now rewrite Oy by exact Hi. }
  destruct (String.eqb translateaxis "z").
  { destruct (iadd_pointwise (z lj) index (dafinal * pixelsize w) Hz)
      as (lz & Ez & Lz & Iz & Oz).
    rewrite Ez. cbn [bind]. eexists. split; [reflexivity|]. simpl.
    repeat split; auto.
    - intros i Hi. unfold point. simpl. now rewrite Iz by exact Hi.
    - intros i Hi. unfold point. simpl. now rewrite Oz by exact Hi. }
  exists lj. repeat split; auto.
Qed.

(** translate_group as a whole: the state it returns, the lengths it keeps
    and what it does to every localization. *)
Lemma translate_group_effect (w : Window) (signalimg : list (list R))
    (g : nat) (translateaxis : string) :
  translate_ready w signalimg translateaxis -> group_present w g ->
  exists ls,
    translate_group w signalimg g translateaxis = Some (set_locs w ls)
    /\ Forall2 (fun lj lj' => length (x lj') = length (x lj)
                              /\ length (y lj') = length (y lj)
                              /\ length (z lj') = length (z lj))
               (locs w) ls
    /\ forall j lj, nth_error (locs w) j = Some lj ->
         exists lj' index,
           nth_error ls j = Some lj'
           /\ members w j g = Some index
           /\ group lj' = group lj
           /\ (forall i, In i index ->
                 point lj' i
                 = translated translateaxis
                     (mean_lag w signalimg g translateaxis) (pixelsize w)
                     (point lj i))
           /\ (forall i, ~ In i index -> point lj' i = point lj i).
Proof.
  intros Hr GP. assert (WF : well_formed w) by apply Hr.
  destruct (translate_channels_loop w signalimg g translateaxis Hr GP
              (length (locs w)) 0%nat
              (zeros 1 (length (locs w)), zeros 1 (length (locs w))))
    as ([xc da] & El & S1 & S2 & V).
  { lia. }
  { split; [apply zeros_shaped|]. split; [apply zeros_shaped|].
    intros j' Hj'. cbn [snd]. rewrite get2_zeros. reflexivity. }
  cbn [fst snd] in S1, S2, V.
  assert (Ea : argmax (map Rsum xc) = Some 0%nat).
  { destruct S1 as [L _]. destruct xc as [|row [|? ?]]; try discriminate.
    reflexivity. }
  assert (Em : mean (nth 0 da []) = mean_lag w signalimg g translateaxis).
  { assert (Lr := shaped_row da 1 (length (locs w)) 0 S2 ltac:(lia)).
    unfold mean, mean_lag. rewrite (Rsum_nth (nth 0 da [])), Lr.
    f_equal. f_equal. apply map_ext_in. intros j Hj. apply in_seq in Hj.
    change (nth j (nth 0 da []) 0) with (get2 da 0 j).
    rewrite V by lia.
    replace (j <? 0 + length (locs w))%nat with true
      by (symmetry; apply Nat.ltb_lt; lia).
    reflexivity. }
  destruct (mapMi_pointwise
              (fun j lj =>
                 translate_member w j g translateaxis
                   (mean_lag w signalimg g translateaxis) lj)
              (fun j lj lj' =>
                 (length (x lj') = length (x lj)
                  /\ length (y lj') = length (y lj)
                  /\ length (z lj') = length (z lj))
                 /\ exists index,
                      members w j g = Some index
                      /\ group lj' = group lj
                      /\ (forall i, In i index ->
                            point lj' i
                            = translated translateaxis
                                (mean_lag w signalimg g translateaxis)
                                (pixelsize w) (point lj i))
                      /\ (forall i, ~ In i index ->
                            point lj' i = point lj i))
              (locs w) 0%nat) as (ls & Els & HF & Hn).
  { intros j lj E. simpl.
    destruct (members_ok w g j lj WF GP E) as (index & Hm & Hx & Lxy & Lyz).
    destruct (translate_member_effect w j g translateaxis
                (mean_lag w signalimg g translateaxis) lj index
                Hm Hx Lxy Lyz)
      as (l1 & E1 & G1 & X1 & Y1 & Z1 & I1 & O1).
    exists l1. split; [exact E1|]. split; [auto|].
    exists index. auto. }
  exists ls. split; [|split].
  - unfold translate_group. rewrite El. cbn [bind]. rewrite Ea. cbn [bind].
    rewrite Em, Els. reflexivity.
  - eapply Forall2_impl; [|exact HF]. intros a b (j & H & _). exact H.
  - intros j lj E. destruct (Hn j lj E) as (lj' & E' & _ & index & H).
    exists lj', index. simpl in H. tauto.
Qed.


Lemma two_groups_translate_ready :
  translate_ready two_groups_session [[1; 2]] "x".
Proof.
  destruct two_groups_session_ready as (WF & _ & Hv).
  split; [exact WF|]. split; [exists "xy"%string; split; [reflexivity|exact Hv]|].
  split; [reflexivity|]. constructor; [discriminate | constructor].
Qed.

Lemma two_groups_present_0 : group_present two_groups_session 0.
Proof.
  apply two_groups_session_present. vm_compute. lia.
Qed.


(** *** translate *)

Lemma lengths_kept_trans (l1 l2 l3 : list Locs) :
  Forall2 (fun lj lj' => length (x lj') = length (x lj)
                         /\ length (y lj') = length (y lj)
                         /\ length (z lj') = length (z lj)) l1 l2 ->
  Forall2 (fun lj lj' => length (x lj') = length (x lj)
                         /\ length (y lj') = length (y lj)
                         /\ length (z lj') = length (z lj)) l2 l3 ->
  Forall2 (fun lj lj' => length (x lj') = length (x lj)
                         /\ length (y lj') = length (y lj)
                         /\ length (z lj') = length (z lj)) l1 l3.
Proof.
  intros H. revert l3. induction H as [|a b l1 l2 (X & Y & Z) H IH];
    intros l3 H'; inversion H' as [|? c ? l3' (X' & Y' & Z') Ht]; subst.
  - constructor.
  - constructor; [repeat split; congruence | apply IH; exact Ht].
Qed.

Lemma lengths_kept_refl (l : list Locs) :
  Forall2 (fun lj lj' => length (x lj') = length (x lj)
                         /\ length (y lj') = length (y lj)
                         /\ length (z lj') = length (z lj)) l l.
Proof.
  induction l; constructor; auto.
Qed.

Lemma lengths_kept_stacked (l l' : list Locs) :
  Forall2 (fun lj lj' => length (x lj') = length (x lj)
                         /\ length (y lj') = length (y lj)
                         /\ length (z lj') = length (z lj)) l l' ->
  length (concat (map x l')) = length (concat (map x l))
  /\ length (concat (map y l')) = length (concat (map y l))
  /\ length (concat (map z l')) = length (concat (map z l)).
Proof.
  induction 1 as [|a b l l' (X & Y & Z) H (IX & IY & IZ)]; simpl; auto.
  rewrite !length_app. repeat split; congruence.
Qed.

Lemma translate_ready_frame (w : Window) (signalimg : list (list R))
    (translateaxis : string) (ls : list Locs) :
  translate_ready w signalimg translateaxis ->
  Forall2 (fun lj lj' => length (x lj') = length (x lj)
                         /\ length (y lj') = length (y lj)
                         /\ length (z lj') = length (z lj)) (locs w) ls ->
  translate_ready (set_locs w ls) signalimg translateaxis.
Proof.
  intros ([Lc Hok] & Hp & Ls & Hs) HL.
  assert (Ll := Forall2_length HL).
  split; [|split; [exact Hp|split; [|exact Hs]]].
  - split.
    + cbn [checks locs set_locs]. congruence.
    + apply (Forall2_channel_ok_lengths (locs w)); assumption.
  - cbn [locs set_locs]. congruence.
Qed.

Lemma translate_loop (w : Window) (signalimg : list (list R))
    (translateaxis : string) :
  translate_ready w signalimg translateaxis ->
  forall n i ls,
    (forall g, (i <= g < i + n)%nat -> group_present w g) ->
    Forall2 (fun lj lj' => length (x lj') = length (x lj)
                           /\ length (y lj') = length (y lj)
                           /\ length (z lj') = length (z lj)) (locs w) ls ->
    exists ls',
      foldM (fun w i => translate_group w signalimg i translateaxis)
            (seq i n) (set_locs w ls) = Some (set_locs w ls')
      /\ Forall2 (fun lj lj' => length (x lj') = length (x lj)
                                /\ length (y lj') = length (y lj)
                                /\ length (z lj') = length (z lj))
                 (locs w) ls'.
Proof.
  intros Hr. induction n as [|n IH]; intros i ls GP HL.
  - exists ls. split; [reflexivity | exact HL].
  - destruct (translate_group_effect (set_locs w ls) signalimg i
                translateaxis (translate_ready_frame _ _ _ _ Hr HL)
                (GP i ltac:(lia))) as (l1 & E1 & H1 & _).
    destruct (IH (S i) l1) as (l2 & E2 & H2).
    { intros g Hg. apply GP. lia. }
    { eapply lengths_kept_trans; [exact HL | exact H1]. }
    exists l2. cbn [seq foldM]. rewrite E1. cbn [bind].
    split; [exact E2 | exact H2].
Qed.

Lemma centerofmass_all_zero_mean (w : Window) :
  concat (map x (locs w)) <> [] ->
  concat (map y (locs w)) <> [] ->
  concat (map z (locs w)) <> [] ->
  mean (concat (map x (locs (centerofmass_all w)))) = 0
  /\ mean (concat (map y (locs (centerofmass_all w)))) = 0
  /\ mean (concat (map z (locs (centerofmass_all w)))) = 0.
Proof.
  intros Hx Hy Hz. unfold centerofmass_all. cbn [locs set_locs].
  rewrite !map_map. cbn [x y z].
  rewrite (concat_map_map (fun v => v - mean (concat (map x (locs w)))) x).
  rewrite (concat_map_map (fun v => v - mean (concat (map y (locs w)))) y).
  rewrite (concat_map_map (fun v => v - mean (concat (map z (locs w)))) z).
  rewrite !mean_shift by assumption. repeat split; ring.
Qed.

Lemma nonempty_of_length {A : Type} (l l' : list A) :
  length l' = length l -> l <> [] -> l' <> [].
Proof.
  intros E H ->. destruct l; [contradiction | discriminate].
Qed.

(** translate on a ready session that holds a localization and has every
    group of the first channel in every channel: its loop over the groups
    and the recentring run through and hand to the redraw a session in
    which the stacked coordinates of all channels have mean zero, on the
    translated axis as on the two others; where the redraw returns, it
    keeps the coordinates and stores the dialog's oversampling. *)
Theorem translate_leaves_centred (w : Window) (signalimg : list (list R))
    (translateaxis : string) (gi0 : list (list nat)) :
  translate_ready w signalimg translateaxis ->
  nth_error (group_index w) 0 = Some gi0 ->
  (forall g, (g < length gi0)%nat -> group_present w g) ->
  concat (map x (locs w)) <> [] ->
  exists w1,
    translate_state w signalimg translateaxis = Some w1
    /\ translate w signalimg translateaxis = updateLayout w1
    /\ mean (concat (map x (locs w1))) = 0
    /\ mean (concat (map y (locs w1))) = 0
    /\ mean (concat (map z (locs w1))) = 0
    /\ forall w', translate w signalimg translateaxis = Some w' ->
         locs w' = locs w1 /\ oversampling w' = dialog_oversampling w.
Proof.
  intros Hr Egi GP Hx.
  destruct (translate_loop w signalimg translateaxis Hr (length gi0) 0
              (locs w)) as (ls & El & HL).
  { intros g Hg. apply GP. lia. }
  { apply lengths_kept_refl. }
  rewrite set_locs_same in El.
  destruct (lengths_kept_stacked _ _ HL) as (LX & LY & LZ).
  assert (WF : Forall2 channel_ok (locs w) (group_index w)) by apply Hr.
  assert (Lxy : length (concat (map y (locs w)))
                = length (concat (map x (locs w)))
                /\ length (concat (map z (locs w)))
                   = length (concat (map x (locs w)))).
  { clear -WF. induction WF as [|lj rows l gi [Lxy Lyz _] H [IY IZ]];
      simpl; auto.
    rewrite !length_app. split; congruence. }
  destruct Lxy as [LYX LZX].
  destruct Hr as (_ & (proplane & Ep & _) & _).
  assert (Es : translate_state w signalimg translateaxis
               = Some (centerofmass_all (set_locs w ls))).
  { unfold translate_state. rewrite Ep. cbn [bind]. rewrite Egi.
    cbn [bind]. rewrite El. reflexivity. }
  assert (Et : translate w signalimg translateaxis
               = updateLayout (centerofmass_all (set_locs w ls))).
  { unfold translate. rewrite Es. reflexivity. }
  exists (centerofmass_all (set_locs w ls)).
  split; [exact Es|]. split; [exact Et|].
  assert (Hm := centerofmass_all_zero_mean (set_locs w ls)).
  cbn [locs set_locs] in Hm.
  destruct Hm as (Mx & My & Mz).
  - exact (nonempty_of_length _ _ LX Hx).
  - apply (nonempty_of_length (concat (map x (locs w)))); [congruence|].
    exact Hx.
  - apply (nonempty_of_length (concat (map x (locs w)))); [congruence|].
    exact Hx.
  - split; [exact Mx|]. split; [exact My|]. split; [exact Mz|].
    intros w' E. rewrite Et in E. apply updateLayout_effect in E.
    subst w'. split; reflexivity.
Qed.

Lemma translate_leaves_centred_witness :
  exists w1,
    translate_state two_groups_session [[1; 2]] "x" = Some w1
    /\ mean (concat (map x (locs w1))) = 0.
Proof.
  destruct (translate_leaves_centred two_groups_session [[1; 2]] "x" _
              two_groups_translate_ready eq_refl two_groups_session_present)
    as (w1 & E & _ & Hx & _).
  { discriminate. }
  exists w1. split; [exact E | exact Hx].
Defined.

(** *** The peak of an autocorrelation *)

Lemma seq_from (a n : nat) : seq a n = map (fun l => (l + a)%nat) (seq 0 n).
Proof.
  revert a. induction n as [|n IH]; intros a; [reflexivity|].
  cbn [seq map]. f_equal. rewrite <- (seq_shift n 0), map_map, (IH (S a)).
  apply map_ext. intros l. lia.
Qed.

Lemma Rsum_seq_shift (f : nat -> R) (a n : nat) :
  Rsum (map f (seq a n)) = Rsum (map (fun l => f (l + a)%nat) (seq 0 n)).
Proof.
  rewrite (seq_from a n), map_map. reflexivity.
Qed.

Lemma Rsum_seq_split (f : nat -> R) (a b : nat) :
  Rsum (map f (seq 0 (a + b)))
  = Rsum (map f (seq 0 a)) + Rsum (map f (seq a b)).
Proof.
  rewrite seq_app, map_app, Rsum_app. reflexivity.
Qed.

Lemma Rsum_nonneg {A : Type} (f : A -> R) (l : list A) :
  (forall a, In a l -> 0 <= f a) -> 0 <= Rsum (map f l).
Proof.
  induction l as [|a t IH]; intros H; simpl; [lra|].
  assert (0 <= f a) by (apply H; simpl; auto).
  assert (0 <= Rsum (map f t)) by (apply IH; intros; apply H; simpl; auto).
  lra.
Qed.

Lemma Rsum_nonneg_zero {A : Type} (f : A -> R) (l : list A) :
  (forall a, In a l -> 0 <= f a) -> Rsum (map f l) = 0 ->
  forall a, In a l -> f a = 0.
Proof.
  induction l as [|a t IH]; intros H E b Hb; [destruct Hb|].
  simpl in E.
  assert (0 <= f a) by (apply H; simpl; auto).
  assert (0 <= Rsum (map f t))
    by (apply Rsum_nonneg; intros; apply H; simpl; auto).
  destruct Hb as [<-|Hb]; [lra|].
  apply IH; auto; [intros; apply H; simpl; auto | lra].
Qed.

Lemma Rsum_square_difference {A : Type} (u v : A -> R) (l : list A) :
  Rsum (map (fun a => (u a - v a) * (u a - v a)) l)
  = Rsum (map (fun a => u a * u a) l) + Rsum (map (fun a => v a * v a) l)
    - 2 * Rsum (map (fun a => u a * v a) l).
Proof.
  induction l as [|a t IH]; simpl; [ring|]. rewrite IH. ring.
Qed.

(** The energy of the tail of a signal shifted by [d] is its energy
    without the first [d] entries. *)
Lemma shifted_energy (s : list R) (d : nat) :
  Rsum (map (fun l => nth (l + d) s 0 * nth (l + d) s 0)
            (seq 0 (length s)))
  = Rsum (map (fun l => nth l s 0 * nth l s 0) (seq 0 (length s)))
    - Rsum (map (fun l => nth l s 0 * nth l s 0) (seq 0 d)).
Proof.
  rewrite <- (Rsum_seq_shift (fun l => nth l s 0 * nth l s 0) d (length s)).
  assert (E1 := Rsum_seq_split (fun l => nth l s 0 * nth l s 0)
                  d (length s)).
  assert (E2 := Rsum_seq_split (fun l => nth l s 0 * nth l s 0)
                  (length s) d).
  rewrite (Nat.add_comm (length s) d) in E2.
  assert (Z : Rsum (map (fun l => nth l s 0 * nth l s 0) (seq (length s) d))
              = 0).
  { apply Rsum_all_zero. intros l Hl. apply in_seq in Hl.
    rewrite (nth_overflow s) by lia. ring. }
  lra.
Qed.

(** Away from lag zero an autocorrelation stays strictly below the energy
    of the signal. *)
Lemma autocorrelation_below_energy (s : list R) (d : nat) :
  (1 <= d)%nat -> (exists l, nth l s 0 <> 0) ->
  Rsum (map (fun l => nth l s 0 * nth (l + d) s 0) (seq 0 (length s)))
  < Rsum (map (fun l => nth l s 0 * nth l s 0) (seq 0 (length s))).
Proof.
  intros Hd (l0 & Hl0).
  set (S := Rsum (map (fun l => nth l s 0 * nth l s 0) (seq 0 (length s)))).
  set (T := Rsum (map (fun l => nth l s 0 * nth (l + d) s 0)
                      (seq 0 (length s)))).
  set (P := Rsum (map (fun l => nth l s 0 * nth l s 0) (seq 0 d))).
  set (D := Rsum (map (fun l => (nth l s 0 - nth (l + d) s 0)
                                * (nth l s 0 - nth (l + d) s 0))
                      (seq 0 (length s)))).
  assert (ED : D = S + (S - P) - 2 * T).
  { unfold D. rewrite (Rsum_square_difference (fun l => nth l s 0)
                         (fun l => nth (l + d)%nat s 0)).
    rewrite shifted_energy. reflexivity. }
  assert (HD : 0 <= D).
  { apply Rsum_nonneg. intros a _. apply Rle_0_sqr. }
  assert (HP : 0 <= P).
  { apply Rsum_nonneg. intros a _. apply Rle_0_sqr. }
  destruct (Rlt_dec T S) as [Hlt|Hge]; [exact Hlt|]. exfalso.
  assert (D0 : D = 0) by lra. assert (P0 : P = 0) by lra.
  assert (Hsame : forall l, (l < length s)%nat ->
            nth l s 0 = nth (l + d) s 0).
  { intros l Hl.
    assert (E := Rsum_nonneg_zero _ _ (fun a _ => Rle_0_sqr _) D0 l).
    cbv beta in E. specialize (E ltac:(apply in_seq; lia)).
    apply Rsqr_0_uniq in E. lra. }
  assert (Hhead : forall l, (l < d)%nat -> nth l s 0 = 0).
  { intros l Hl.
    assert (E := Rsum_nonneg_zero _ _ (fun a _ => Rle_0_sqr _) P0 l).
    cbv beta in E. specialize (E ltac:(apply in_seq; lia)).
    apply Rsqr_0_uniq in E. exact E. }
  apply Hl0. clear Hl0.
  induction l0 as [l0 IH] using lt_wf_ind.
  destruct (Nat.lt_ge_cases l0 d) as [H|H]; [apply Hhead, H|].
  destruct (Nat.lt_ge_cases l0 (length s)) as [H'|H'];
    [|apply nth_overflow; lia].
  replace l0 with (l0 - d + d)%nat by lia.
  rewrite <- Hsame by lia. apply IH. lia.
Qed.

Lemma correlate_unfold (in1 in2 : list R) :
  in1 <> [] -> in2 <> [] ->
  correlate in1 in2
  = map (fun k =>
           Rsum (map (fun l =>
                        if (k <=? l + (length in2 - 1))%nat
                           && (l + (length in2 - 1) - k <? length in2)%nat
                        then nth l in1 0 * nth (l + (length in2 - 1) - k) in2 0
                        else 0)
                     (seq 0 (length in1))))
        (seq 0 (length in1 + length in2 - 1)).
Proof.
  intros H1 H2. destruct in1 as [|a t]; [contradiction|].
  destruct in2 as [|b u]; [contradiction|]. reflexivity.
Qed.

Lemma correlate_self_entry (s : list R) (k : nat) :
  s <> [] -> (k < length s + length s - 1)%nat ->
  nth k (correlate s s) 0
  = autocorrelation s (if (k <=? length s - 1)%nat
                       then length s - 1 - k else k - (length s - 1)).
Proof.
  intros Hs Hk. rewrite (correlate_unfold s s Hs Hs).
  rewrite (nth_map_lt _ _ _ 0%nat) by (rewrite length_seq; exact Hk).
  rewrite seq_nth by exact Hk. cbn [Nat.add].
  unfold autocorrelation.
  destruct (Nat.leb_spec k (length s - 1)) as [Hle|Hgt].
  - f_equal. apply map_ext_in. intros l Hl. apply in_seq in Hl.
    replace (k <=? l + (length s - 1))%nat with true
      by (symmetry; apply Nat.leb_le; lia).
    replace (l + (length s - 1) - k)%nat with (l + (length s - 1 - k))%nat
      by lia.
    cbn [andb].
    destruct (Nat.ltb_spec (l + (length s - 1 - k)) (length s)) as [H|H];
      [reflexivity|].
    rewrite (nth_overflow s (n := (l + (length s - 1 - k))%nat)) by lia. ring.
  - set (e := (k - (length s - 1))%nat).
    assert (He : (1 <= e <= length s - 1)%nat) by (unfold e; lia).
    transitivity (Rsum (map (fun l => nth (l + e) s 0 * nth l s 0)
                            (seq 0 (length s - e)))).
    + replace (seq 0 (length s)) with (seq 0 (e + (length s - e)))
        by (f_equal; lia).
      rewrite Rsum_seq_split.
      rewrite (Rsum_all_zero _ (seq 0 e)).
      2:{ intros l Hl. apply in_seq in Hl.
          replace (k <=? l + (length s - 1))%nat with false
            by (symmetry; apply Nat.leb_gt; unfold e in *; lia).
          reflexivity. }
      rewrite (Rsum_seq_shift _ e (length s - e)).
      rewrite Rplus_0_l. f_equal. apply map_ext_in.
      intros l Hl. apply in_seq in Hl.
      replace (k <=? l + e + (length s - 1))%nat with true
        by (symmetry; apply Nat.leb_le; unfold e in *; lia).
      replace (l + e + (length s - 1) - k)%nat with l
        by (unfold e in *; lia).
      replace (l <? length s)%nat with true
        by (symmetry; apply Nat.ltb_lt; lia).
      reflexivity.
    + replace (seq 0 (length s)) with (seq 0 ((length s - e) + e))
        by (f_equal; lia).
      rewrite Rsum_seq_split.
      rewrite (Rsum_all_zero _ (seq (length s - e) e)).
      2:{ intros l Hl. apply in_seq in Hl.
          rewrite (nth_overflow s (n := (l + e)%nat)) by lia. ring. }
      rewrite Rplus_0_r. f_equal. apply map_ext. intros l. ring.
Qed.

(** The correlation of a signal that is not identically zero with itself
    has its only maximum at lag zero, entry [len - 1]. *)
Lemma autocorrelation_peak (s : list R) :
  (exists l, nth l s 0 <> 0) ->
  argmax (correlate s s) = Some (length s - 1)%nat.
Proof.
  intros Hnz.
  assert (Hs : s <> []).
  { destruct Hnz as (l & Hl). intros ->. apply Hl. now destruct l. }
  assert (HM : (1 <= length s)%nat).
  { destruct s; [contradiction | simpl; lia]. }
  assert (Lc : length (correlate s s) = (length s + length s - 1)%nat).
  { rewrite (correlate_unfold s s Hs Hs), length_map, length_seq.
    reflexivity. }
  destruct (argmax_spec (correlate s s) (correlate_nonempty s s Hs Hs))
    as (k & Ek & Hk & Hmax & _).
  rewrite Ek. f_equal.
  destruct (Nat.eq_dec k (length s - 1)) as [E|Hne]; [exact E|]. exfalso.
  specialize (Hmax (length s - 1)%nat ltac:(lia)).
  rewrite (correlate_self_entry s k Hs ltac:(lia)) in Hmax.
  rewrite (correlate_self_entry s (length s - 1) Hs ltac:(lia)) in Hmax.
  replace (length s - 1 <=? length s - 1)%nat with true in Hmax
    by (symmetry; apply Nat.leb_le; lia).
  replace (length s - 1 - (length s - 1))%nat with 0%nat in Hmax by lia.
  assert (E0 : autocorrelation s 0
               = Rsum (map (fun l => nth l s 0 * nth l s 0)
                           (seq 0 (length s)))).
  { unfold autocorrelation. f_equal. apply map_ext. intros l.
    now rewrite Nat.add_0_r. }
  rewrite E0 in Hmax.
  assert (Hlt := autocorrelation_below_energy s
                   (if (k <=? length s - 1)%nat
                    then length s - 1 - k else k - (length s - 1))%nat).
  fold (autocorrelation s (if (k <=? length s - 1)%nat
                           then length s - 1 - k else k - (length s - 1))%nat)
    in Hlt.
  assert (Hd : (1 <= (if (k <=? length s - 1)%nat
                      then length s - 1 - k else k - (length s - 1)))%nat).
  { destruct (Nat.leb_spec k (length s - 1)); lia. }
  specialize (Hlt Hd Hnz). lra.
Qed.

Lemma lag_of_reference (w : Window) (signalimg : list (list R)) (g : nat)
    (translateaxis : string) (j : nat) (sig : list R) :
  group_projection w g translateaxis j = Some sig ->
  nth_error signalimg j = Some sig ->
  (exists l, nth l sig 0 <> 0) ->
  lag w signalimg g translateaxis j = 0.
Proof.
  intros Ep Es Hnz. unfold lag.
  destruct (nth j (checks w) false); [|reflexivity].
  unfold translate_score. rewrite Ep. cbn [bind]. rewrite Es. cbn [bind].
  assert (Hs : sig <> []).
  { destruct Hnz as (l & Hl). intros ->. apply Hl. now destruct l. }
  destruct (np_max_nonempty _ (correlate_nonempty sig sig Hs Hs)) as (v & Ev).
  rewrite Ev. cbn [bind]. rewrite (autocorrelation_peak sig Hnz). cbn [bind snd].
  replace (Z.of_nat (length sig - 1) - Z.of_nat (length sig) + 1)%Z with 0%Z.
  - unfold Rdiv. ring.
  - destruct sig; [contradiction | simpl length; lia].
Qed.

Lemma translated_by_zero (translateaxis : string) (pixelsize : R)
    (p : R * R * R) :
  translated translateaxis 0 pixelsize p = p.
Proof.
  destruct p as [[px py] pz]. unfold translated. simpl.
  destruct (String.eqb translateaxis "x"); [split_pairs; ring|].
  destruct (String.eqb translateaxis "y"); [split_pairs; ring|].
  destruct (String.eqb translateaxis "z"); [split_pairs; ring|].
  reflexivity.
Qed.

(** A group that already lies on the reference is not moved: when, in every
    checked channel, the projection of the group equals the reference
    signal of the channel and is not identically zero, every stored shift
    is zero and translate_group leaves every localization where it was. *)
Theorem translate_group_keeps_aligned_group (w : Window)
    (signalimg : list (list R)) (g : nat) (translateaxis : string) :
  translate_ready w signalimg translateaxis -> group_present w g ->
  (forall j sig,
     nth_error (checks w) j = Some true ->
     nth_error signalimg j = Some sig ->
     group_projection w g translateaxis j = Some sig
     /\ exists l, nth l sig 0 <> 0) ->
  exists w',
    translate_group w signalimg g translateaxis = Some w'
    /\ forall j lj, nth_error (locs w) j = Some lj ->
         exists lj',
           nth_error (locs w') j = Some lj'
           /\ forall i, point lj' i = point lj i.
Proof.
  intros Hr GP Hal.
  destruct (translate_group_effect w signalimg g translateaxis Hr GP)
    as (ls & E & _ & H).
  assert (Em : mean_lag w signalimg g translateaxis = 0).
  { unfold mean_lag. rewrite Rsum_all_zero; [unfold Rdiv; ring|].
    intros j Hj. apply in_seq in Hj.
    destruct Hr as ([Lc _] & _ & Ls & _).
    destruct (nth_error (checks w) j) as [[|]|] eqn:Ec.
    - destruct (nth_error signalimg j) as [sig|] eqn:Es;
        [|apply nth_error_None in Es; lia].
      destruct (Hal j sig Ec Es) as (Ep & Hnz).
      exact (lag_of_reference w signalimg g translateaxis j sig Ep Es Hnz).
    - unfold lag. rewrite (nth_error_nth _ _ false Ec). reflexivity.
    - apply nth_error_None in Ec. lia. }
  exists (set_locs w ls). split; [exact E|].
  intros j lj El. destruct (H j lj El) as (lj' & index & E' & _ & _ & Hin & Hout).
  exists lj'. split; [exact E'|]. intros i.
  destruct (in_dec Nat.eq_dec i index) as [Hi|Hi].
  - rewrite (Hin i Hi), Em. apply translated_by_zero.
  - apply Hout, Hi.
Qed.

Lemma trunc_unique (v : R) (n : Z) :
  0 <= v -> IZR n <= v < IZR n + 1 -> trunc v = n.
Proof.
  intros H0 [H1 H2]. destruct (trunc_nonneg v H0) as [A B].
  assert (C1 : IZR (trunc v) < IZR (n + 1)) by (rewrite plus_IZR; lra).
  assert (C2 : IZR n < IZR (trunc v + 1)) by (rewrite plus_IZR; lra).
  apply lt_IZR in C1, C2. lia.
Qed.

Lemma two_groups_projection :
  group_projection two_groups_session 0 "x" 0
  = Some [0 + (0 + 0); 0 + (0 + 1 + 0)].
Proof.
  unfold group_projection, gather. simpl.
  unfold render_planes, render_planes_N, plane_args, render_histxyz. simpl.
  rewrite (ceil_unique (1 * (1 - -1)) 2) by (simpl; lra). simpl.
  unfold in_view, Rltb. simpl.
  decide_Rlt. simpl. unfold render_fill. simpl.
  rewrite (trunc_unique (1 * (1 / 2 - -1)) 1) by (simpl; lra).
  reflexivity.
Qed.

Lemma translate_group_keeps_aligned_group_witness :
  exists w',
    translate_group two_groups_session [[0 + (0 + 0); 0 + (0 + 1 + 0)]]
                    0 "x" = Some w'
    /\ forall j lj, nth_error (locs two_groups_session) j = Some lj ->
         exists lj',
           nth_error (locs w') j = Some lj'
           /\ forall i, point lj' i = point lj i.
Proof.
  apply (translate_group_keeps_aligned_group two_groups_session
           [[0 + (0 + 0); 0 + (0 + 1 + 0)]] 0 "x").
  - destruct two_groups_session_ready as (WF & _ & Hv).
    split; [exact WF|].
    split; [exists "xy"%string; split; [reflexivity|exact Hv]|].
    split; [reflexivity|]. constructor; [discriminate | constructor].
  - exact two_groups_present_0.
  - intros [|j] sig Hc Hs; [|destruct j; discriminate].
    inversion Hs; subst sig. split; [exact two_groups_projection|].
    exists 1%nat. simpl. lra.
Defined.

(** ** The viewport methods of render.py's View *)

Lemma adjust_fitted (view_height view_width : R) (v : Viewport) :
  0 < view_height -> 0 < view_width ->
  0 < viewport_height v -> 0 < viewport_width v ->
  viewport_width v * view_height = viewport_height v * view_width ->
  adjust_viewport_to_view view_height view_width v = Some v.
Proof.
  destruct v as [[y0 x0] [y1 x1]]. unfold viewport_height, viewport_width.
  simpl. intros Hh Hw Hvh Hvw Ha.
  assert (Hm : (y1 - y0) * (view_width / view_height) = x1 - x0).
  { apply (Rmult_eq_reg_r view_height); [|lra].
    rewrite Ha. field. lra. }
  unfold adjust_viewport_to_view. simpl.
  rewrite !pydiv_defined by lra. cbn [bind].
  destruct (Rle_dec ((x1 - x0) / (y1 - y0)) (view_width / view_height))
    as [_|Hn].
  - rewrite Hm. apply f_equal. split_pairs; lra.
  - exfalso. apply Hn. right. rewrite <- Hm. field. lra.
Qed.

Lemma update_scene_fitted (s : View) (new : Viewport) :
  0 < width s -> 0 < height s -> n_loaded s <> 0%nat ->
  0 < viewport_height new -> 0 < viewport_width new ->
  viewport_width new * height s = viewport_height new * width s ->
  update_scene s new
  = Some {| width := width s; height := height s; viewport := new;
            n_loaded := n_loaded s |}.
Proof.
  intros Hw Hh Hn Hvh Hvw Ha. unfold update_scene.
  destruct (Nat.eqb_spec (n_loaded s) 0) as [E|_]; [contradiction|].
  rewrite (adjust_fitted _ _ new Hh Hw Hvh Hvw Ha). cbn [bind].
  unfold display_pixels_per_viewport_pixels. cbn [width height viewport].
  rewrite !pydiv_defined by lra. reflexivity.
Qed.

Lemma zoom_fitted (s : View) (factor : R) :
  fitted s -> 0 < factor ->
  zoom s factor
  = Some {| width := width s; height := height s;
            viewport :=
              ((fst (viewport_center (viewport s))
                - 0.5 * viewport_height (viewport s) * factor,
                snd (viewport_center (viewport s))
                - 0.5 * viewport_width (viewport s) * factor),
               (fst (viewport_center (viewport s))
                + 0.5 * viewport_height (viewport s) * factor,
                snd (viewport_center (viewport s))
                + 0.5 * viewport_width (viewport s) * factor));
            n_loaded := n_loaded s |}.
Proof.
  intros (Hw & Hh & Hvh & Hvw & Ha & Hn) Hf. unfold zoom.
  destruct (viewport_center (viewport s)) as [cy cx] eqn:Ec. cbn [fst snd].
  apply update_scene_fitted; auto;
    unfold viewport_height, viewport_width in *; cbn [fst snd]; try nra.
Qed.

Lemma zoom_keeps_fitted (s s' : View) (factor : R) :
  fitted s -> 0 < factor -> zoom s factor = Some s' -> fitted s'.
Proof.
  intros Hs Hf E. rewrite (zoom_fitted s factor Hs Hf) in E.
  inversion E; subst s'; clear E.
  destruct Hs as (Hw & Hh & Hvh & Hvw & Ha & Hn).
  destruct s as [w h [[y0 x0] [y1 x1]] n].
  unfold fitted, viewport_center, viewport_height, viewport_width in *.
  cbn [width height viewport n_loaded fst snd] in *.
  repeat split; try assumption; nra.
Qed.

(** zoom on a fitted view returns a fitted view with the same centre, the
    viewport scaled by the factor on both axes. *)
Theorem zoom_scales_about_centre (s : View) (factor : R) :
  fitted s -> 0 < factor ->
  exists s',
    zoom s factor = Some s'
    /\ fitted s'
    /\ viewport_center (viewport s') = viewport_center (viewport s)
    /\ viewport_height (viewport s') = factor * viewport_height (viewport s)
    /\ viewport_width (viewport s') = factor * viewport_width (viewport s).
Proof.
  intros Hs Hf. rewrite (zoom_fitted s factor Hs Hf).
  eexists. split; [reflexivity|].
  destruct Hs as (Hw & Hh & Hvh & Hvw & Ha & Hn).
  destruct s as [w h [[y0 x0] [y1 x1]] n].
  unfold fitted, viewport_center, viewport_height, viewport_width in *.
  cbn [width height viewport n_loaded fst snd] in *.
  repeat split; try assumption; try nra.
  split_pairs; lra.
Qed.

Lemma fitted_example :
  fitted {| width := 4; height := 3; viewport := ((0, 0), (3, 4));
            n_loaded := 1 |}.
Proof.
  unfold fitted, viewport_height, viewport_width. simpl.
  repeat split; try lra. discriminate.
Qed.

Lemma zoom_scales_about_centre_witness :
  exists s',
    zoom {| width := 4; height := 3; viewport := ((0, 0), (3, 4));
            n_loaded := 1 |} 2 = Some s'
    /\ viewport_height (viewport s') = 2 * (3 - 0).
Proof.
  destruct (zoom_scales_about_centre _ 2 fitted_example ltac:(lra))
    as (s' & E & _ & _ & H & _).
  exists s'. split; [exact E | exact H].
Defined.

Lemma view_ext (s s' : View) :
  width s' = width s -> height s' = height s ->
  viewport s' = viewport s -> n_loaded s' = n_loaded s -> s' = s.
Proof.
  destruct s, s'. cbn. intros -> -> -> ->. reflexivity.
Qed.

(** zoom_out undoes zoom_in on a fitted view. *)
Theorem zoom_in_then_out_restores (s : View) :
  fitted s ->
  exists s', zoom_in s = Some s' /\ zoom_out s' = Some s.
Proof.
  intros Hs. unfold zoom_in, zoom_out, ZOOM.
  rewrite pydiv_defined by lra. cbn [bind].
  assert (E := zoom_fitted s (1 / (10 / 7)) Hs ltac:(lra)).
  assert (Hs' := zoom_keeps_fitted s _ (1 / (10 / 7)) Hs ltac:(lra) E).
  eexists. split; [exact E|].
  rewrite (zoom_fitted _ (10 / 7) Hs' ltac:(lra)).
  f_equal. apply view_ext; try reflexivity.
  destruct s as [w h [[y0 x0] [y1 x1]] n].
  unfold viewport_center, viewport_height, viewport_width.
  cbn [width height viewport n_loaded fst snd].
  split_pairs; lra.
Qed.

Lemma zoom_in_then_out_restores_witness :
  exists s',
    zoom_in {| width := 4; height := 3; viewport := ((0, 0), (3, 4));
               n_loaded := 1 |} = Some s'
    /\ zoom_out s'
       = Some {| width := 4; height := 3; viewport := ((0, 0), (3, 4));
                 n_loaded := 1 |}.
Proof.
  exact (zoom_in_then_out_restores _ fitted_example).
Defined.

Lemma fitted_zoom (s : View) :
  fitted s ->
  display_pixels_per_viewport_pixels s
  = Some (width s / viewport_width (viewport s)).
Proof.
  intros (Hw & Hh & Hvh & Hvw & Ha & Hn).
  unfold display_pixels_per_viewport_pixels.
  rewrite !pydiv_defined by lra. cbn [bind].
  replace (height s / viewport_height (viewport s))
    with (width s / viewport_width (viewport s)).
  - rewrite Rmax_left by lra. reflexivity.
  - apply (Rmult_eq_reg_r (viewport_width (viewport s)
                           * viewport_height (viewport s))); [|nra].
    transitivity (width s * viewport_height (viewport s)); [field; lra|].
    transitivity (height s * viewport_width (viewport s)); [lra|].
    field. lra.
Qed.

(** set_zoom reaches the requested zoom: afterwards the view shows the
    requested number of display pixels per viewport pixel. *)
Theorem set_zoom_reaches (s : View) (z : R) :
  fitted s -> 0 < z ->
  exists s',
    set_zoom s z = Some s'
    /\ fitted s'
    /\ display_pixels_per_viewport_pixels s' = Some z.
Proof.
  intros Hs Hz. unfold set_zoom.
  rewrite (fitted_zoom s Hs). cbn [bind].
  rewrite pydiv_defined by lra. cbn [bind].
  assert (Hf : 0 < width s / viewport_width (viewport s) / z).
  { destruct Hs as (Hw & Hh & Hvh & Hvw & _).
    apply Rdiv_lt_0_compat; [|exact Hz]. apply Rdiv_lt_0_compat; lra. }
  assert (E := zoom_fitted s _ Hs Hf).
  assert (Hs' := zoom_keeps_fitted s _ _ Hs Hf E).
  eexists. split; [exact E|]. split; [exact Hs'|].
  rewrite (fitted_zoom _ Hs'). f_equal.
  destruct Hs as (Hw & Hh & Hvh & Hvw & _).
  destruct s as [w h [[y0 x0] [y1 x1]] n].
  unfold viewport_center, viewport_height, viewport_width in *.
  cbn [width height viewport n_loaded fst snd] in *.
  replace 0.5 with (1 / 2) by lra. field. lra.
Qed.

Lemma set_zoom_reaches_witness :
  exists s',
    set_zoom {| width := 4; height := 3; viewport := ((0, 0), (3, 4));
                n_loaded := 1 |} 5 = Some s'
    /\ display_pixels_per_viewport_pixels s' = Some 5.
Proof.
  destruct (set_zoom_reaches _ 5 fitted_example ltac:(lra))
    as (s' & E & _ & H).
  exists s'. split; [exact E | exact H].
Defined.

(** map_to_view undoes map_to_movie, and map_to_movie undoes map_to_view,
    on a view whose widget and viewport have non-zero height and width. *)
Theorem map_to_movie_round_trip (s : View) (px py mx my : R) :
  width s <> 0 -> height s <> 0 ->
  viewport_width (viewport s) <> 0 -> viewport_height (viewport s) <> 0 ->
  (map_to_movie s px py = Some (mx, my) ->
   map_to_view s mx my = Some (px, py))
  /\ (map_to_view s mx my = Some (px, py) ->
      map_to_movie s px py = Some (mx, my)).
Proof.
  intros Hw Hh Hvw Hvh. unfold map_to_movie, map_to_view.
  rewrite !pydiv_defined by assumption. cbn [bind].
  split; intros E; inversion E; subst; clear E; apply f_equal;
    split_pairs; field; repeat split; assumption.
Qed.

Lemma map_to_movie_round_trip_witness :
  map_to_view {| width := 4; height := 3; viewport := ((0, 0), (3, 4));
                 n_loaded := 1 |}
              (2 / 4 * (4 - 0) + 0) (1 / 3 * (3 - 0) + 0)
  = Some (2, 1).
Proof.
  apply (map_to_movie_round_trip _ 2 1); simpl;
    unfold viewport_width, viewport_height; simpl; try lra.
  unfold map_to_movie. rewrite !pydiv_defined by (simpl; lra). reflexivity.
Defined.

(** pan_relative on a fitted view moves the viewport by the given
    fractions of its height and width, keeps its size, and is undone by
    the opposite pan. *)
Theorem pan_relative_moves (s : View) (dy dx : R) :
  fitted s ->
  exists s',
    pan_relative s dy dx = Some s'
    /\ fitted s'
    /\ viewport_height (viewport s') = viewport_height (viewport s)
    /\ viewport_width (viewport s') = viewport_width (viewport s)
    /\ viewport_center (viewport s')
       = (fst (viewport_center (viewport s))
          - dy * viewport_height (viewport s),
          snd (viewport_center (viewport s))
          - dx * viewport_width (viewport s))
    /\ pan_relative s' (- dy) (- dx) = Some s.
Proof.
  intros Hs. pose proof Hs as (Hw & Hh & Hvh & Hvw & Ha & Hn).
  destruct s as [w h [[y0 x0] [y1 x1]] n].
  unfold viewport_center, viewport_height, viewport_width in *.
  cbn [width height viewport n_loaded fst snd] in *.
  assert (E : pan_relative
                {| width := w; height := h; viewport := ((y0, x0), (y1, x1));
                   n_loaded := n |} dy dx
              = Some {| width := w; height := h;
                        viewport := ((y0 - dy * (y1 - y0),
                                      x0 - dx * (x1 - x0)),
                                     (y1 - dy * (y1 - y0),
                                      x1 - dx * (x1 - x0)));
                        n_loaded := n |}).
  { unfold pan_relative. rewrite update_scene_fitted; auto;
      unfold viewport_height, viewport_width;
      cbn [width height viewport n_loaded fst snd]; lra. }
  eexists. split; [exact E|].
  unfold fitted, viewport_height, viewport_width.
  cbn [width height viewport n_loaded fst snd].
  split; [repeat split; try assumption; lra|].
  split; [lra|]. split; [lra|]. split; [split_pairs; lra|].
  unfold pan_relative. rewrite update_scene_fitted;
    unfold viewport_height, viewport_width;
    cbn [width height viewport n_loaded fst snd]; auto; try lra.
  f_equal. apply view_ext; try reflexivity.
  cbn [viewport]. split_pairs; lra.
Qed.

Lemma pan_relative_moves_witness :
  exists s',
    pan_relative {| width := 4; height := 3; viewport := ((0, 0), (3, 4));
                    n_loaded := 1 |} 0 0.8 = Some s'
    /\ viewport_width (viewport s') = 4 - 0.
Proof.
  destruct (pan_relative_moves _ 0 0.8 fitted_example)
    as (s' & E & _ & _ & H & _).
  exists s'. split; [exact E | exact H].
Defined.

(** ** align_all *)

(** Without a checked channel [rotaxis] is never bound, and the loop that
    rotates the channels raises on the first of them. *)
Theorem align_all_needs_checked_channel (w : Window) (angles0 : list R)
    (alignaxis : string) :
  locs w <> [] ->
  (forall j, nth_error (checks w) j <> Some true) ->
  align_all w angles0 alignaxis = None.
Proof.
  intros Hne Hun. unfold align_all.
  destruct (foldM (align_channel w angles0 alignaxis)
                  (seq 0 (length (locs w))) _) as [st|] eqn:E;
    [|reflexivity].
  cbn [bind].
  apply (foldM_invariant _ (fun st => rotaxis_bound st = None)) in E.
  - destruct (argmax (map Rsum (all_corr st))) as [k|]; [|reflexivity].
    cbn [bind].
    destruct (nth_error angles0 k) as [rot|]; [|reflexivity]. cbn [bind].
    destruct (locs w) as [|lj t]; [contradiction|].
    cbn [mapM]. rewrite E. reflexivity.
  - intros s j t Hs Et. unfold align_channel in Et.
    destruct (nth_error (checks w) j) as [[|]|] eqn:Ec.
    + exfalso. exact (Hun j Ec).
    + cbn [bind] in Et. inversion Et; subst. exact Hs.
    + discriminate.
  - reflexivity.
Qed.

Lemma align_all_needs_checked_channel_witness :
  align_all (session [single 0 0 0] [build_group_index (single 0 0 0)]
                     [false]) [0; PI] "x" = None.
Proof.
  apply align_all_needs_checked_channel.
  - discriminate.
  - intros [|[|j]]; discriminate.
Defined.

Lemma pyindex_in_range (n : nat) (i : Z) (r : nat) :
  pyindex n i = Some r -> (r < n)%nat.
Proof.
  unfold pyindex. intros E.
  destruct ((0 <=? i)%Z && (i <? Z.of_nat n)%Z) eqn:E1.
  - apply andb_prop in E1. destruct E1 as [A B].
    apply Z.leb_le in A. apply Z.ltb_lt in B. inversion E; subst. lia.
  - destruct ((- Z.of_nat n <=? i)%Z && (i <? 0)%Z) eqn:E2; [|discriminate].
    apply andb_prop in E2. destruct E2 as [A B].
    apply Z.leb_le in A. apply Z.ltb_lt in B. inversion E; subst. lia.
Qed.

Lemma pyindex_defined (n : nat) (i : Z) :
  (- Z.of_nat n <= i < Z.of_nat n)%Z -> exists r, pyindex n i = Some r.
Proof.
  intros H. unfold pyindex.
  destruct ((0 <=? i)%Z && (i <? Z.of_nat n)%Z) eqn:E1; [eauto|].
  destruct ((- Z.of_nat n <=? i)%Z && (i <? 0)%Z) eqn:E2; [eauto|].
  exfalso. apply andb_false_iff in E1, E2.
  destruct E1 as [E1|E1], E2 as [E2|E2];
    try apply Z.leb_gt in E1; try apply Z.ltb_ge in E1;
    try apply Z.leb_gt in E2; try apply Z.ltb_ge in E2; lia.
Qed.

Lemma shape_shaped {A : Type} (M : list (list A)) (rows cols : nat) :
  shaped M rows cols -> (0 < rows)%nat -> shape M = (rows, cols).
Proof.
  intros [L F] Hr. unfold shape. destruct M as [|row t]; [simpl in L; lia|].
  inversion F; subst. reflexivity.
Qed.

Lemma add_row_shaped (M : Image) (rows cols : nat) (i : Z) (v : R) :
  shaped M rows cols -> (0 < rows)%nat ->
  (- Z.of_nat rows <= i < Z.of_nat rows)%Z ->
  exists M', add_row M i v = Some M' /\ shaped M' rows cols.
Proof.
  intros S Hr Hi. unfold add_row.
  rewrite (shape_shaped M rows cols S Hr). cbn [fst].
  destruct (pyindex_defined rows i Hi) as (r & Er). rewrite Er. cbn [bind].
  eexists. split; [reflexivity|].
  destruct S as [L F]. split; [now rewrite upd_length|].
  apply rows_of_nth. intros k Hk. rewrite upd_length in Hk.
  destruct (Nat.eq_dec k r) as [->|Hne].
  - rewrite nth_upd_same by lia. rewrite length_map.
    rewrite Forall_forall in F. apply F. apply nth_In. lia.
  - rewrite nth_upd_other by exact Hne.
    rewrite Forall_forall in F. apply F. apply nth_In. lia.
Qed.

Lemma add_col_shaped (M : Image) (rows cols : nat) (i : Z) (v : R) :
  shaped M rows cols -> (0 < rows)%nat ->
  (- Z.of_nat cols <= i < Z.of_nat cols)%Z ->
  exists M', add_col M i v = Some M' /\ shaped M' rows cols.
Proof.
  intros S Hr Hi. unfold add_col.
  rewrite (shape_shaped M rows cols S Hr). cbn [snd].
  destruct (pyindex_defined cols i Hi) as (c & Ec). rewrite Ec. cbn [bind].
  eexists. split; [reflexivity|].
  destruct S as [L F]. split; [now rewrite length_map|].
  apply Forall_map. eapply Forall_impl; [|exact F].
  intros row Hrow. cbv beta. now rewrite upd_length.
Qed.

Lemma half_below (n : nat) : (3 <= n)%nat -> (1 <= n / 2 /\ n / 2 + 1 < n)%nat.
Proof.
  intros H. pose proof (Nat.div_mod_eq n 2) as E.
  pose proof (Nat.mod_upper_bound n 2 ltac:(lia)). lia.
Qed.

Lemma template_defined (alignaxis : string) (rows cols : nat) :
  template_fits alignaxis rows cols ->
  exists T, template alignaxis rows cols = Some T /\ shaped T rows cols.
Proof.
  intros H. assert (S0 := zeros_shaped rows cols). unfold template.
  destruct H as [[[-> | ->] Hr] | [(-> & Hr & Hc) | (-> & Hr & Hc)]];
    cbn [String.eqb Ascii.eqb Bool.eqb andb].
  - destruct (half_below rows Hr) as [H1 H2].
    destruct (add_row_shaped _ rows cols (Z.of_nat (rows / 2)) 2 S0)
      as (a1 & E1 & S1); try lia.
    destruct (add_row_shaped _ rows cols (Z.of_nat (rows / 2) + 1) 1 S1)
      as (a2 & E2 & S2); try lia.
    destruct (add_row_shaped _ rows cols (Z.of_nat (rows / 2) - 1) 1 S2)
      as (a3 & E3 & S3); try lia.
    rewrite E1. cbn [bind]. rewrite E2. cbn [bind]. rewrite E3. eauto.
  - destruct (half_below rows Hr) as [H1 H2].
    destruct (add_row_shaped _ rows cols (Z.of_nat (rows / 2)) 2 S0)
      as (a1 & E1 & S1); try lia.
    destruct (add_row_shaped _ rows cols (Z.of_nat (rows / 2) + 1) 1 S1)
      as (a2 & E2 & S2); try lia.
    destruct (add_row_shaped _ rows cols (Z.of_nat (rows / 2) - 1) 1 S2)
      as (a3 & E3 & S3); try lia.
    rewrite E1. cbn [bind]. rewrite E2. cbn [bind]. rewrite E3. eauto.
  - destruct (half_below cols Hc) as [H1 H2].
    destruct (add_col_shaped _ rows cols (Z.of_nat (cols / 2)) 2 S0)
      as (a1 & E1 & S1); try lia.
    destruct (add_col_shaped _ rows cols (Z.of_nat (cols / 2) - 1) 1 S1)
      as (a2 & E2 & S2); try lia.
    destruct (add_col_shaped _ rows cols (Z.of_nat (cols / 2) + 1) 1 S2)
      as (a3 & E3 & S3); try lia.
    rewrite E1. cbn [bind]. rewrite E2. cbn [bind]. rewrite E3. eauto.
  - destruct (add_col_shaped _ rows cols (Z.of_nat (rows / 2)) 2 S0)
      as (a1 & E1 & S1); try lia.
    destruct (add_col_shaped _ rows cols (Z.of_nat (rows / 2) + 1) 1 S1)
      as (a2 & E2 & S2); try lia.
    destruct (add_col_shaped _ rows cols (Z.of_nat (rows / 2) - 1) 1 S2)
      as (a3 & E3 & S3); try lia.
    rewrite E1. cbn [bind]. rewrite E2. cbn [bind]. rewrite E3. eauto.
Qed.

Lemma list_as_map (l : list R) :
  l = map (fun i => nth i l 0) (seq 0 (length l)).
Proof.
  apply (nth_ext _ _ 0 0).
  - now rewrite length_map, length_seq.
  - intros n Hn.
    rewrite (nth_map_lt _ _ _ 0%nat) by (rewrite length_seq; exact Hn).
    now rewrite seq_nth by exact Hn.
Qed.

(** rotate_axis on the whole columns of a channel. *)
Lemma rotate_axis_arr_all (axis : string) (lj : Locs) (angle pixelsize : R) :
  In axis ["x"; "y"; "z"]%string ->
  length (x lj) = length (y lj) -> length (y lj) = length (z lj) ->
  rotate_axis_arr axis (x lj) (y lj) (z lj) angle pixelsize
  = Some
      (map (fun i => fst (fst (rotated axis angle pixelsize (point lj i))))
           (seq 0 (length (x lj))),
       map (fun i => snd (fst (rotated axis angle pixelsize (point lj i))))
           (seq 0 (length (x lj))),
       map (fun i => snd (rotated axis angle pixelsize (point lj i)))
           (seq 0 (length (x lj)))).
Proof.
  intros Hax Lxy Lyz. unfold point.
  rewrite <- (rotate_axis_arr_members axis
                (fun i => nth i (x lj) 0) (fun i => nth i (y lj) 0)
                (fun i => nth i (z lj) 0) (seq 0 (length (x lj)))
                angle pixelsize Hax).
  f_equal.
  - apply list_as_map.
  - rewrite Lxy. apply list_as_map.
  - rewrite Lxy, Lyz. apply list_as_map.
Qed.

Lemma align_planes_known (alignaxis proplane rotaxis : string) :
  align_planes alignaxis = Some (proplane, rotaxis) ->
  In rotaxis ["x"; "y"; "z"]%string.
Proof.
  unfold align_planes. intros E.
  destruct (String.eqb alignaxis "zz");
    [inversion E; subst; simpl; auto|].
  destruct (String.eqb alignaxis "zy");
    [inversion E; subst; simpl; auto|].
  destruct (String.eqb alignaxis "y");
    [inversion E; subst; simpl; auto|].
  destruct (String.eqb alignaxis "x");
    [inversion E; subst; simpl; auto|].
  discriminate.
Qed.

Lemma correlations_stored_ext (w : Window) (angles0 : list R)
    (alignaxis : string) (done done' : nat -> nat -> bool) (st : Aligning) :
  (forall k j, (k < length angles0)%nat -> (j < length (locs w))%nat ->
               done k j = done' k j) ->
  correlations_stored w angles0 alignaxis done st ->
  correlations_stored w angles0 alignaxis done' st.
Proof.
  intros E [S V]. split; [exact S|].
  intros k j Hk Hj. rewrite <- E by assumption. apply V; assumption.
Qed.

Section AlignAll.

Variables (w : Window) (angles0 : list R) (alignaxis : string).
Variables (proplane rotaxis : string) (T0 : Image).

Hypothesis checks_fit : length (checks w) = length (locs w).
Hypothesis columns_fit :
  Forall (fun lj => length (x lj) = length (y lj)
                    /\ length (y lj) = length (z lj)) (locs w).
Hypothesis planes : align_planes alignaxis = Some (proplane, rotaxis).
Hypothesis view : view_ok w proplane.
Hypothesis template_made :
  template alignaxis (Z.to_nat (fst (plane_shape w proplane)))
                     (Z.to_nat (snd (plane_shape w proplane))) = Some T0.
Hypothesis template_shaped :
  shaped T0 (Z.to_nat (fst (plane_shape w proplane)))
            (Z.to_nat (snd (plane_shape w proplane))).

(** What one pass of the innermost loop computes. *)
Lemma align_cell (k j : nat) (lj : Locs) (angle : R) :
  nth_error (checks w) j = Some true ->
  nth_error (locs w) j = Some lj ->
  nth_error angles0 k = Some angle ->
  exists x_rot y_rot z_rot image prod,
    rotate_axis_arr rotaxis (x lj) (y lj) (z lj) angle (pixelsize w)
      = Some (x_rot, y_rot, z_rot)
    /\ render_planes w x_rot y_rot z_rot proplane (pixelsize w) = Some image
    /\ template alignaxis (fst (shape image)) (snd (shape image)) = Some T0
    /\ zip2 Rmult T0 image = Some prod
    /\ align_entry w angles0 alignaxis k j = Rsum (map Rsum prod).
Proof.
  intros Hc Hl Ha.
  assert (Hcol : length (x lj) = length (y lj)
                 /\ length (y lj) = length (z lj)).
  { rewrite Forall_forall in columns_fit. apply columns_fit.
    eapply nth_error_In; exact Hl. }
  destruct Hcol as [Lxy Lyz].
  assert (Er := rotate_axis_arr_all rotaxis lj angle (pixelsize w)
                  (align_planes_known _ _ _ planes) Lxy Lyz).
  destruct (render_planes_N_defined w
              (map (fun i => fst (fst (rotated rotaxis angle (pixelsize w)
                                               (point lj i))))
                   (seq 0 (length (x lj))))
              (map (fun i => snd (fst (rotated rotaxis angle (pixelsize w)
                                               (point lj i))))
                   (seq 0 (length (x lj))))
              (map (fun i => snd (rotated rotaxis angle (pixelsize w)
                                          (point lj i)))
                   (seq 0 (length (x lj)))) proplane view)
    as (N & image & En & Sh & _).
  assert (Ei : render_planes w
                 (map (fun i => fst (fst (rotated rotaxis angle (pixelsize w)
                                                  (point lj i))))
                      (seq 0 (length (x lj))))
                 (map (fun i => snd (fst (rotated rotaxis angle (pixelsize w)
                                                  (point lj i))))
                      (seq 0 (length (x lj))))
                 (map (fun i => snd (rotated rotaxis angle (pixelsize w)
                                             (point lj i)))
                      (seq 0 (length (x lj)))) proplane (pixelsize w)
               = Some image).
  { unfold render_planes. rewrite En. reflexivity. }
  destruct view as (_ & Hrows & Hcols).
  assert (Es : shape image
               = (Z.to_nat (fst (plane_shape w proplane)),
                  Z.to_nat (snd (plane_shape w proplane)))).
  { apply shape_shaped; [exact Sh | lia]. }
  assert (Et : template alignaxis (fst (shape image)) (snd (shape image))
               = Some T0).
  { rewrite Es. exact template_made. }
  destruct (zip2_defined Rmult T0 image
              (shaped_same_shape _ _ _ _ template_shaped Sh)) as (prod & Ez).
  do 5 eexists. split; [exact Er|]. split; [exact Ei|].
  split; [exact Et|]. split; [exact Ez|].
  unfold align_entry. rewrite (nth_error_nth _ _ false Hc), Hl. cbn [bind].
  rewrite Ha. cbn [bind]. rewrite planes. cbn [bind]. rewrite Er.
  cbn [bind]. rewrite Ei. cbn [bind]. rewrite Et. cbn [bind].
  rewrite Ez. reflexivity.
Qed.

Lemma align_angle_step (j k : nat) (lj : Locs) (st : Aligning) :
  nth_error (checks w) j = Some true ->
  nth_error (locs w) j = Some lj ->
  (k < length angles0)%nat ->
  correlations_stored w angles0 alignaxis (processed j k) st ->
  alignimage st = None \/ alignimage st = Some T0 ->
  exists st',
    align_angle w angles0 alignaxis lj j st k = Some st'
    /\ correlations_stored w angles0 alignaxis (processed j (S k)) st'
    /\ alignimage st' = Some T0
    /\ rotaxis_bound st' = Some rotaxis.
Proof.
  intros Hc Hl Hk [Sh V] Hal.
  assert (Hj : (j < length (locs w))%nat).
  { apply nth_error_Some. congruence. }
  destruct (nth_error angles0 k) as [angle|] eqn:Ea;
    [|apply nth_error_None in Ea; lia].
  destruct (align_cell k j lj angle Hc Hl Ea)
    as (xr & yr & zr & image & prod & Er & Ei & Et & Ez & Ee).
  destruct (set2_shaped (all_corr st) _ _ k j (Rsum (map Rsum prod)) Sh Hk Hj)
    as (corr & Ec & Sc & Vc).
  unfold align_angle. rewrite Ea. cbn [bind]. rewrite planes. cbn [bind].
  rewrite Er. cbn [bind]. rewrite Ei. cbn [bind].
  assert (Eal : match alignimage st with
                | Some a => Some a
                | None => template alignaxis (fst (shape image))
                                   (snd (shape image))
                end = Some T0).
  { destruct Hal as [-> | ->]; [exact Et | reflexivity]. }
  rewrite Eal. cbn [bind]. rewrite Ez. cbn [bind]. rewrite Ec. cbn [bind].
  eexists. split; [reflexivity|]. cbn [all_corr alignimage rotaxis_bound].
  split; [|split; reflexivity].
  split; [exact Sc|].
  intros k' j' Hk' Hj'. rewrite Vc, V by assumption. unfold processed.
  destruct (Nat.eqb_spec k' k) as [->|Hnk];
    destruct (Nat.eqb_spec j' j) as [->|Hnj]; cbn [andb].
  - replace (k <? S k)%nat with true by (symmetry; apply Nat.ltb_lt; lia).
    rewrite orb_true_r. symmetry. exact Ee.
  - reflexivity.
  - replace (k' <? S k)%nat with (k' <? k)%nat; [reflexivity|].
    destruct (Nat.ltb_spec k' k), (Nat.ltb_spec k' (S k)); auto; lia.
  - reflexivity.
Qed.

Lemma align_angles_loop (j : nat) (lj : Locs) (n : nat) :
  nth_error (checks w) j = Some true ->
  nth_error (locs w) j = Some lj ->
  forall k st,
    (k + n <= length angles0)%nat ->
    correlations_stored w angles0 alignaxis (processed j k) st ->
    alignimage st = None \/ alignimage st = Some T0 ->
    exists st',
      foldM (align_angle w angles0 alignaxis lj j) (seq k n) st = Some st'
      /\ correlations_stored w angles0 alignaxis (processed j (k + n)) st'
      /\ ((0 < n)%nat -> rotaxis_bound st' = Some rotaxis)
      /\ (n = 0%nat -> rotaxis_bound st' = rotaxis_bound st).
Proof.
  intros Hc Hl. induction n as [|n IH]; intros k st Hn Hs Hal.
  - exists st. rewrite Nat.add_0_r.
    split; [reflexivity|]. split; [exact Hs|]. split; [lia | reflexivity].
  - destruct (align_angle_step j k lj st Hc Hl ltac:(lia) Hs Hal)
      as (s1 & E1 & S1 & A1 & R1).
    destruct (IH (S k) s1 ltac:(lia) S1 (or_intror A1))
      as (s2 & E2 & S2 & R2 & R2').
    exists s2. cbn [seq foldM]. rewrite E1. cbn [bind].
    split; [exact E2|].
    split; [replace (k + S n)%nat with (S k + n)%nat by lia; exact S2|].
    split; [|lia]. intros _.
    destruct n as [|n']; [rewrite (R2' eq_refl); exact R1 | apply R2; lia].
Qed.

Lemma align_channel_step (j : nat) (st : Aligning) :
  angles0 <> [] ->
  (j < length (locs w))%nat ->
  correlations_stored w angles0 alignaxis (processed j 0) st ->
  exists st',
    align_channel w angles0 alignaxis st j = Some st'
    /\ correlations_stored w angles0 alignaxis (processed (S j) 0) st'
    /\ (nth_error (checks w) j = Some true ->
        rotaxis_bound st' = Some rotaxis)
    /\ (rotaxis_bound st = Some rotaxis -> rotaxis_bound st' = Some rotaxis).
Proof.
  intros Hne Hj Hs. unfold align_channel.
  destruct (nth_error (checks w) j) as [checked|] eqn:Ec;
    [|apply nth_error_None in Ec; lia].
  destruct (nth_error (locs w) j) as [lj|] eqn:El;
    [|apply nth_error_None in El; lia].
  cbn [bind]. destruct checked.
  - cbn [bind].
    destruct (align_angles_loop j lj (length angles0) Ec El 0%nat
                {| all_corr := all_corr st;
                   rotaxis_bound := rotaxis_bound st;
                   alignimage := None |})
      as (st' & E' & S' & R' & _).
    + lia.
    + exact Hs.
    + left. reflexivity.
    + exists st'. split; [exact E'|].
      assert (Hpos : (0 < length angles0)%nat).
      { destruct angles0; [contradiction | simpl; lia]. }
      split; [|split; intros _; apply R'; exact Hpos].
      eapply correlations_stored_ext; [|exact S']. intros k j' Hk Hj'.
      unfold processed. simpl.
      replace (k <? length angles0)%nat with true
        by (symmetry; apply Nat.ltb_lt; lia).
      rewrite andb_true_r, andb_false_r, orb_false_r.
      destruct (Nat.ltb_spec j' j), (Nat.eqb_spec j' j),
        (Nat.ltb_spec j' (S j)); simpl; auto; lia.
  - exists st. split; [reflexivity|].
    split; [|split; [discriminate | auto]].
    destruct Hs as [Sh V]. split; [exact Sh|].
    intros k j' Hk Hj'. rewrite V by assumption.
    unfold processed. simpl. rewrite !andb_false_r, !orb_false_r.
    destruct (Nat.ltb_spec j' j), (Nat.ltb_spec j' (S j));
      try reflexivity; try lia.
    assert (j' = j) by lia. subst j'.
    unfold align_entry. rewrite (nth_error_nth _ _ false Ec). reflexivity.
Qed.

Lemma align_channels_loop (m : nat) :
  angles0 <> [] ->
  forall j0 st,
    (j0 + m <= length (locs w))%nat ->
    correlations_stored w angles0 alignaxis (processed j0 0) st ->
    exists st',
      foldM (align_channel w angles0 alignaxis) (seq j0 m) st = Some st'
      /\ correlations_stored w angles0 alignaxis (processed (j0 + m) 0) st'
      /\ (forall j, (j0 <= j < j0 + m)%nat ->
            nth_error (checks w) j = Some true ->
            rotaxis_bound st' = Some rotaxis)
      /\ (rotaxis_bound st = Some rotaxis ->
          rotaxis_bound st' = Some rotaxis).
Proof.
  intros Hne. induction m as [|m IH]; intros j0 st Hm Hs.
  - exists st. rewrite Nat.add_0_r. split; [reflexivity|].
    split; [exact Hs|]. split; [intros; lia | auto].
  - destruct (align_channel_step j0 st Hne ltac:(lia) Hs)
      as (s1 & E1 & S1 & C1 & K1).
    destruct (IH (S j0) s1 ltac:(lia) S1) as (s2 & E2 & S2 & C2 & K2).
    exists s2. cbn [seq foldM]. rewrite E1. cbn [bind].
    split; [exact E2|].
    split; [replace (j0 + S m)%nat with (S j0 + m)%nat by lia; exact S2|].
    split; [|auto].
    intros j Hj Hc. destruct (Nat.eq_dec j j0) as [->|Hn].
    + apply K2, C1, Hc.
    + apply (C2 j); [lia | exact Hc].
Qed.

End AlignAll.

(** align_all on a ready session with a candidate angle: it returns; the
    angle it picks is the first one of maximal summed template score; and
    every localization of every channel, checked or not and whatever its
    group, is rotated by that one angle about the axis that belongs to
    the alignment axis. *)
Theorem align_all_rotates_every_channel (w : Window) (angles0 : list R)
    (alignaxis : string) :
  align_all_ready w alignaxis -> angles0 <> [] ->
  exists w' proplane rotaxis k rot,
    align_all w angles0 alignaxis = Some w'
    /\ align_planes alignaxis = Some (proplane, rotaxis)
    /\ nth_error angles0 k = Some rot
    /\ (forall k', (k' < length angles0)%nat ->
          align_score w angles0 alignaxis k'
          <= align_score w angles0 alignaxis k)
    /\ (forall k', (k' < k)%nat ->
          align_score w angles0 alignaxis k'
          < align_score w angles0 alignaxis k)
    /\ forall j lj, nth_error (locs w) j = Some lj ->
         exists lj',
           nth_error (locs w') j = Some lj'
           /\ group lj' = group lj
           /\ forall i, (i < length (x lj))%nat ->
                point lj' i = rotated rotaxis rot (pixelsize w) (point lj i).
Proof.
  intros (Lc & Hcol & (j0 & Hj0) & proplane & rotaxis & Hp & Hv & Htf) Hne.
  destruct (template_defined _ _ _ Htf) as (T0 & HT & ST).
  destruct (align_channels_loop w angles0 alignaxis proplane rotaxis T0
              Lc Hcol Hp Hv HT ST (length (locs w)) Hne 0%nat
              {| all_corr := zeros (length angles0) (length (locs w));
                 rotaxis_bound := None; alignimage := None |})
    as (st & Est & [Sh V] & Hb & _).
  { lia. }
  { split; [apply zeros_shaped|]. intros k j Hk Hj. cbn [all_corr].
    rewrite get2_zeros. unfold processed. simpl.
    now rewrite andb_false_r. }
  assert (Hbound : rotaxis_bound st = Some rotaxis).
  { apply (Hb j0); [|exact Hj0]. split; [lia|].
    simpl. rewrite <- Lc. apply nth_error_Some. congruence. }
  assert (Hpos : (0 < length angles0)%nat).
  { destruct angles0; [contradiction | simpl; lia]. }
  assert (Lm : length (map Rsum (all_corr st)) = length angles0).
  { rewrite length_map. apply Sh. }
  assert (Hrow : forall k, (k < length angles0)%nat ->
            nth k (map Rsum (all_corr st)) 0
            = align_score w angles0 alignaxis k).
  { intros k Hk.
    rewrite (nth_map_lt _ _ _ []) by (destruct Sh as [L _]; lia).
    assert (Lr := shaped_row _ _ _ k Sh Hk).
    unfold align_score. rewrite (Rsum_nth (nth k (all_corr st) [])), Lr.
    f_equal. apply map_ext_in. intros j Hj. apply in_seq in Hj.
    change (nth j (nth k (all_corr st) []) 0) with (get2 (all_corr st) k j).
    rewrite V by lia. unfold processed. simpl.
    replace (j <? length (locs w))%nat with true
      by (symmetry; apply Nat.ltb_lt; lia).
    reflexivity. }
  destruct (argmax_spec (map Rsum (all_corr st))) as (k & Ek & Hk & Hmax & Hfst).
  { intros E. rewrite E in Lm. simpl in Lm. lia. }
  rewrite Lm in Hk, Hmax.
  destruct (nth_error angles0 k) as [rot|] eqn:Er;
    [|apply nth_error_None in Er; lia].
  set (turn := fun lj : Locs =>
         {| x := map (fun i => fst (fst (rotated rotaxis rot (pixelsize w)
                                                 (point lj i))))
                     (seq 0 (length (x lj)));
            y := map (fun i => snd (fst (rotated rotaxis rot (pixelsize w)
                                                 (point lj i))))
                     (seq 0 (length (x lj)));
            z := map (fun i => snd (rotated rotaxis rot (pixelsize w)
                                            (point lj i)))
                     (seq 0 (length (x lj)));
            group := group lj |}).
  assert (Els : mapM (fun lj =>
                        rotaxis <- rotaxis_bound st ;;
                        '(x_rot, y_rot, z_rot) <-
                          rotate_axis_arr rotaxis (x lj) (y lj) (z lj) rot
                                          (pixelsize w) ;;
                        Some {| x := x_rot; y := y_rot; z := z_rot;
                                group := group lj |})
                     (locs w)
                = Some (map turn (locs w))).
  { apply mapM_In. intros lj Hlj. rewrite Hbound. cbn [bind].
    rewrite Forall_forall in Hcol. destruct (Hcol lj Hlj) as [Lxy Lyz].
    rewrite (rotate_axis_arr_all rotaxis lj rot (pixelsize w)
               (align_planes_known _ _ _ Hp) Lxy Lyz).
    reflexivity. }
  exists (set_oversampling (set_locs w (map turn (locs w)))
                           (dialog_oversampling w)),
         proplane, rotaxis, k, rot.
  split.
  { unfold align_all. rewrite Est. cbn [bind]. rewrite Ek. cbn [bind].
    rewrite Er. cbn [bind]. rewrite Els. cbn [bind].
    refine (updateLayout_returns (set_locs w (map turn (locs w))) _ _).
    - cbn [checks locs set_locs]. rewrite length_map. exact Lc.
    - exists j0. exact Hj0. }
  split; [exact Hp|]. split; [exact Er|]. split.
  { intros k' Hk'. rewrite <- !Hrow by lia. apply Hmax, Hk'. }
  split.
  { intros k' Hk'. rewrite <- !Hrow by lia. apply Hfst, Hk'. }
  intros j lj El. exists (turn lj). cbn [locs set_oversampling set_locs].
  split; [apply map_nth_error; exact El|]. split; [reflexivity|].
  intros i Hi. unfold point at 1. cbn [x y z turn].
  rewrite !(nth_map_lt _ _ _ 0%nat) by (rewrite length_seq; exact Hi).
  rewrite seq_nth by exact Hi. cbn [Nat.add].
  destruct (rotated rotaxis rot (pixelsize w) (point lj i)) as [[a b] c].
  reflexivity.
Qed.

Lemma wide_session_view : plane_shape wide_session "xy" = (4%Z, 4%Z).
Proof.
  unfold plane_shape. simpl.
  rewrite (ceil_unique (1 * (2 - -2)) 4) by (simpl; lra). reflexivity.
Qed.

Lemma wide_session_ready : align_all_ready wide_session "x".
Proof.
  split; [reflexivity|]. split.
  { constructor; [split; reflexivity | constructor]. }
  split; [exists 0%nat; reflexivity|].
  exists "xy"%string, "z"%string. split; [reflexivity|].
  unfold view_ok. rewrite wide_session_view. simpl.
  split; [repeat split; auto; lia|].
  left. split; [right; reflexivity | lia].
Qed.

Lemma align_all_rotates_every_channel_witness :
  align_all_ready wide_session "x"
  /\ exists w', align_all wide_session [0; PI] "x" = Some w'.
Proof.
  split; [exact wide_session_ready|].
  destruct (align_all_rotates_every_channel wide_session [0; PI] "x"
              wide_session_ready ltac:(discriminate))
    as (w' & _ & _ & _ & _ & E & _).
  exists w'. exact E.
Defined.

(** ** compute_xcorr as a circular cross-correlation *)

(** Complex arithmetic on pairs. *)
Ltac pair_ring :=
  intros;
  repeat match goal with
         | a : C |- _ => destruct a
         end;
  unfold Cadd, Cmul, Cconj, Cscale, RtoC, C0; cbn [fst snd];
  apply injective_projections; cbn [fst snd]; ring.

Lemma Cadd_comm (a b : C) : Cadd a b = Cadd b a.
Proof. pair_ring. Qed.

Lemma Cadd_assoc (a b c : C) : Cadd a (Cadd b c) = Cadd (Cadd a b) c.
Proof. pair_ring. Qed.

Lemma Cadd_0_l (a : C) : Cadd C0 a = a.
Proof. pair_ring. Qed.

Lemma Cadd_0_r (a : C) : Cadd a C0 = a.
Proof. pair_ring. Qed.

Lemma Cmul_comm (a b : C) : Cmul a b = Cmul b a.
Proof. pair_ring. Qed.

Lemma Cmul_assoc (a b c : C) : Cmul a (Cmul b c) = Cmul (Cmul a b) c.
Proof. pair_ring. Qed.

Lemma Cmul_0_r (a : C) : Cmul a C0 = C0.
Proof. pair_ring. Qed.

Lemma Cmul_1_r (a : C) : Cmul a (1, 0) = a.
Proof. pair_ring. Qed.

Lemma Cmul_Cadd_l (a b c : C) :
  Cmul a (Cadd b c) = Cadd (Cmul a b) (Cmul a c).
Proof. pair_ring. Qed.

Lemma Cmul_Cadd_r (a b c : C) :
  Cmul (Cadd a b) c = Cadd (Cmul a c) (Cmul b c).
Proof. pair_ring. Qed.

Lemma Cconj_mul (a b : C) : Cconj (Cmul a b) = Cmul (Cconj a) (Cconj b).
Proof. pair_ring. Qed.

Lemma Cconj_add (a b : C) : Cconj (Cadd a b) = Cadd (Cconj a) (Cconj b).
Proof. pair_ring. Qed.

Lemma Cscale_add (c : R) (a b : C) :
  Cscale c (Cadd a b) = Cadd (Cscale c a) (Cscale c b).
Proof. pair_ring. Qed.

Lemma Cmul_RtoC (u v : R) : Cmul (RtoC u) (RtoC v) = RtoC (u * v).
Proof. pair_ring. Qed.

Lemma cis_add (s t : R) : cis (s + t) = Cmul (cis s) (cis t).
Proof.
  unfold cis, Cmul. cbn [fst snd]. rewrite cos_plus, sin_plus.
  apply injective_projections; cbn [fst snd]; ring.
Qed.

Lemma cis_conj (t : R) : Cconj (cis t) = cis (- t).
Proof.
  unfold cis, Cconj. cbn [fst snd]. now rewrite cos_neg, sin_neg.
Qed.

Lemma cis_0 : cis 0 = (1, 0).
Proof. unfold cis. now rewrite cos_0, sin_0. Qed.

Lemma cis_turns_nat (k : nat) : cis (2 * INR k * PI) = (1, 0).
Proof.
  unfold cis.
  replace (2 * INR k * PI) with (0 + 2 * INR k * PI) by ring.
  rewrite cos_period, sin_period, cos_0, sin_0. reflexivity.
Qed.

(** A whole number of turns. *)
Lemma cis_turns (n : Z) : cis (2 * PI * IZR n) = (1, 0).
Proof.
  destruct (Z_le_gt_dec 0 n) as [H|H].
  - replace (2 * PI * IZR n) with (2 * INR (Z.to_nat n) * PI).
    + apply cis_turns_nat.
    + rewrite INR_IZR_INZ, Z2Nat.id by exact H. ring.
  - replace (2 * PI * IZR n) with (- (2 * INR (Z.to_nat (- n)) * PI)).
    + rewrite <- cis_conj, cis_turns_nat. unfold Cconj. cbn [fst snd].
      now rewrite Ropp_0.
    + rewrite INR_IZR_INZ, Z2Nat.id by lia. rewrite opp_IZR. ring.
Qed.

(** Sums of complex numbers. *)
Lemma Csum_ext {A : Type} (f g : A -> C) (l : list A) :
  (forall a, In a l -> f a = g a) -> Csum (map f l) = Csum (map g l).
Proof.
  intros H. f_equal. apply map_ext_in. exact H.
Qed.

Lemma Csum_add {A : Type} (f g : A -> C) (l : list A) :
  Csum (map (fun a => Cadd (f a) (g a)) l)
  = Cadd (Csum (map f l)) (Csum (map g l)).
Proof.
  induction l as [|a t IH]; cbn [map Csum fold_right].
  - now rewrite Cadd_0_l.
  - fold (Csum (map (fun a => Cadd (f a) (g a)) t)).
    fold (Csum (map f t)). fold (Csum (map g t)). rewrite IH.
    generalize (Csum (map f t)) (Csum (map g t)) (f a) (g a). pair_ring.
Qed.

Lemma Csum_mul_l {A : Type} (c : C) (f : A -> C) (l : list A) :
  Csum (map (fun a => Cmul c (f a)) l) = Cmul c (Csum (map f l)).
Proof.
  induction l as [|a t IH]; cbn [map Csum fold_right].
  - now rewrite Cmul_0_r.
  - fold (Csum (map (fun a => Cmul c (f a)) t)). fold (Csum (map f t)).
    rewrite IH, Cmul_Cadd_l. reflexivity.
Qed.

Lemma Csum_mul_r {A : Type} (c : C) (f : A -> C) (l : list A) :
  Csum (map (fun a => Cmul (f a) c) l) = Cmul (Csum (map f l)) c.
Proof.
  rewrite (Cmul_comm _ c), <- Csum_mul_l. apply Csum_ext.
  intros a _. apply Cmul_comm.
Qed.

Lemma Csum_swap {A B : Type} (f : A -> B -> C) (l : list A) (l' : list B) :
  Csum (map (fun a => Csum (map (fun b => f a b) l')) l)
  = Csum (map (fun b => Csum (map (fun a => f a b) l)) l').
Proof.
  induction l as [|a t IH]; cbn [map Csum fold_right].
  - symmetry. apply Csum_zero.
  - fold (Csum (map (fun a => Csum (map (fun b => f a b) l')) t)).
    rewrite IH, <- Csum_add. reflexivity.
Qed.

Lemma Csum_conj {A : Type} (f : A -> C) (l : list A) :
  Cconj (Csum (map f l)) = Csum (map (fun a => Cconj (f a)) l).
Proof.
  induction l as [|a t IH]; cbn [map Csum fold_right].
  - unfold Cconj, C0. cbn [fst snd]. now rewrite Ropp_0.
  - fold (Csum (map f t)). fold (Csum (map (fun a => Cconj (f a)) t)).
    rewrite Cconj_add, IH. reflexivity.
Qed.

Lemma Csum_scale {A : Type} (c : R) (f : A -> C) (l : list A) :
  Cscale c (Csum (map f l)) = Csum (map (fun a => Cscale c (f a)) l).
Proof.
  induction l as [|a t IH]; cbn [map Csum fold_right].
  - unfold Cscale, C0. cbn [fst snd]. now rewrite Rmult_0_r.
  - fold (Csum (map f t)). fold (Csum (map (fun a => Cscale c (f a)) t)).
    rewrite Cscale_add, IH. reflexivity.
Qed.

Lemma Csum_fst {A : Type} (f : A -> C) (l : list A) :
  fst (Csum (map f l)) = Rsum (map (fun a => fst (f a)) l).
Proof.
  induction l as [|a t IH]; cbn [map Csum Rsum fold_right]; [reflexivity|].
  fold (Csum (map f t)). fold (Rsum (map (fun a => fst (f a)) t)).
  unfold Cadd. cbn [fst]. now rewrite IH.
Qed.

Lemma Csum_app (l l' : list C) : Csum (l ++ l') = Cadd (Csum l) (Csum l').
Proof.
  induction l as [|a t IH]; cbn [app Csum fold_right].
  - now rewrite Cadd_0_l.
  - fold (Csum (t ++ l')). fold (Csum t). rewrite IH. apply Cadd_assoc.
Qed.

Lemma Csum_ones {A : Type} (l : list A) :
  Csum (map (fun _ => (1, 0)) l) = (INR (length l), 0).
Proof.
  induction l as [|a t IH]; [reflexivity|].
  cbn [map Csum fold_right length].
  fold (Csum (map (fun _ : A => (1, 0)) t)). rewrite IH, S_INR.
  unfold Cadd. cbn [fst snd]. apply injective_projections; cbn [fst snd]; ring.
Qed.

(** The geometric sum of the powers of [cis x]. *)
Lemma geometric_telescope (x : R) (n : nat) :
  Cmul (Cadd (cis x) (-1, 0))
       (Csum (map (fun p => cis (INR p * x)) (seq 0 n)))
  = Cadd (cis (INR n * x)) (-1, 0).
Proof.
  induction n as [|n IH].
  - cbn [seq map Csum fold_right]. rewrite Cmul_0_r.
    replace (INR 0 * x) with 0 by (simpl; ring). rewrite cis_0.
    unfold Cadd, C0. cbn [fst snd].
    apply injective_projections; cbn [fst snd]; ring.
  - rewrite seq_S, map_app, Csum_app, Cmul_Cadd_l, IH. cbn [Nat.add].
    cbn [map Csum fold_right]. rewrite Cadd_0_r.
    replace (INR (S n) * x) with (x + INR n * x) by (rewrite S_INR; ring).
    rewrite cis_add.
    generalize (cis x) (cis (INR n * x)). pair_ring.
Qed.

Lemma Cmul_zero_r (a b : C) : Cmul a b = C0 -> a <> C0 -> b = C0.
Proof.
  destruct a as [a1 a2], b as [b1 b2]. unfold Cmul, C0. cbn [fst snd].
  intros E Ha. injection E as E1 E2.
  assert (Hn : a1 * a1 + a2 * a2 <> 0).
  { intros H. apply Ha.
    assert (a1 = 0) by nra. assert (a2 = 0) by nra. subst. reflexivity. }
  assert (B1 : (a1 * a1 + a2 * a2) * b1 = 0).
  { replace ((a1 * a1 + a2 * a2) * b1)
      with (a1 * (a1 * b1 - a2 * b2) + a2 * (a1 * b2 + a2 * b1)) by ring.
    rewrite E1, E2. ring. }
  assert (B2 : (a1 * a1 + a2 * a2) * b2 = 0).
  { replace ((a1 * a1 + a2 * a2) * b2)
      with (a1 * (a1 * b2 + a2 * b1) - a2 * (a1 * b1 - a2 * b2)) by ring.
    rewrite E1, E2. ring. }
  apply Rmult_integral in B1, B2.
  destruct B1 as [B1|B1]; [contradiction|].
  destruct B2 as [B2|B2]; [contradiction|]. now subst.
Qed.

Lemma cis_not_one (x : R) : 0 < x < 2 * PI -> cis x <> (1, 0).
Proof.
  intros [H0 H1] E. unfold cis in E. injection E as Ec Es.
  replace x with (2 * (x / 2)) in Ec by field.
  rewrite cos_2a_sin in Ec.
  assert (Hs : 0 < sin (x / 2)) by (apply sin_gt_0; lra).
  nra.
Qed.

(** The sum of the [M] powers of an [M]-th root of unity: [M] for the
    trivial root, zero for every other. *)
Lemma roots_sum (M : nat) (d : Z) :
  (0 < M)%nat ->
  Csum (map (fun p => cis (INR p * (2 * PI * IZR d / INR M))) (seq 0 M))
  = if (d mod Z.of_nat M =? 0)%Z then (INR M, 0) else C0.
Proof.
  intros HM.
  assert (HMr : 0 < INR M) by (apply lt_0_INR; exact HM).
  assert (Ed := Z.div_mod d (Z.of_nat M) ltac:(lia)).
  assert (Hr := Z.mod_pos_bound d (Z.of_nat M) ltac:(lia)).
  set (q := (d / Z.of_nat M)%Z) in *. set (r := (d mod Z.of_nat M)%Z) in *.
  assert (EM : IZR (Z.of_nat M) = INR M) by (symmetry; apply INR_IZR_INZ).
  assert (Edr : IZR d = INR M * IZR q + IZR r).
  { rewrite Ed, plus_IZR, mult_IZR, EM. reflexivity. }
  destruct (Z.eqb_spec r 0) as [Hz|Hnz].
  - transitivity (Csum (map (fun _ : nat => (1, 0)) (seq 0 M)));
      [|now rewrite Csum_ones, length_seq].
    apply Csum_ext. intros p _.
    replace (INR p * (2 * PI * IZR d / INR M))
      with (2 * PI * IZR (Z.of_nat p * q)).
    + apply cis_turns.
    + rewrite Edr, Hz, mult_IZR, <- INR_IZR_INZ. field. lra.
  - assert (Hw : cis (2 * PI * IZR d / INR M)
                 = cis (2 * PI * IZR r / INR M)).
    { replace (2 * PI * IZR d / INR M)
        with (2 * PI * IZR q + 2 * PI * IZR r / INR M)
        by (rewrite Edr; field; lra).
      rewrite cis_add, cis_turns.
      generalize (cis (2 * PI * IZR r / INR M)). pair_ring. }
    assert (Hne : Cadd (cis (2 * PI * IZR d / INR M)) (-1, 0) <> C0).
    { rewrite Hw. intros E.
      apply (cis_not_one (2 * PI * IZR r / INR M)).
      - assert (0 < IZR r) by (apply (IZR_lt 0); lia).
        assert (IZR r < INR M) by (rewrite <- EM; apply IZR_lt; lia).
        assert (HP := PI_RGT_0).
        split.
        + apply Rdiv_lt_0_compat; [nra | lra].
        + apply (Rmult_lt_reg_r (INR M)); [lra|].
          replace (2 * PI * IZR r / INR M * INR M) with (2 * PI * IZR r)
            by (field; lra).
          nra.
      - destruct (cis (2 * PI * IZR r / INR M)) as [c s].
        unfold Cadd, C0 in E. cbn [fst snd] in E.
        injection E as E1 E2.
        apply injective_projections; cbn [fst snd]; lra. }
    apply (Cmul_zero_r (Cadd (cis (2 * PI * IZR d / INR M)) (-1, 0)));
      [|exact Hne].
    rewrite geometric_telescope.
    replace (INR M * (2 * PI * IZR d / INR M)) with (2 * PI * IZR d)
      by (field; lra).
    rewrite cis_turns. unfold Cadd, C0. cbn [fst snd].
    apply injective_projections; cbn [fst snd]; ring.
Qed.

Lemma Csum_pairs {A B : Type} (h : A -> B -> C) (l1 : list A) (l2 : list B) :
  Csum (map (fun a => Csum (map (fun b => h a b) l2)) l1)
  = Csum (map (fun ab => h (fst ab) (snd ab)) (list_prod l1 l2)).
Proof.
  induction l1 as [|a t IH]; [reflexivity|].
  cbn [list_prod map Csum fold_right].
  fold (Csum (map (fun a => Csum (map (fun b => h a b) l2)) t)).
  rewrite map_app, Csum_app, map_map, IH. reflexivity.
Qed.

Lemma Rsum_pairs {A B : Type} (h : A -> B -> R) (l1 : list A) (l2 : list B) :
  Rsum (map (fun a => Rsum (map (fun b => h a b) l2)) l1)
  = Rsum (map (fun ab => h (fst ab) (snd ab)) (list_prod l1 l2)).
Proof.
  induction l1 as [|a t IH]; [reflexivity|].
  cbn [list_prod map Rsum fold_right].
  fold (Rsum (map (fun a => Rsum (map (fun b => h a b) l2)) t)).
  rewrite map_app, Rsum_app, map_map, IH. reflexivity.
Qed.

(** The double sum of the phases of a displacement [(a, b)]: the size of
    the grid when the displacement is a multiple of the grid, zero
    otherwise. *)
Lemma kernel_sum (M N : nat) (a b : Z) :
  (0 < M)%nat -> (0 < N)%nat ->
  Csum (map (fun pq =>
              cis (2 * PI * (INR (fst pq) * IZR a / INR M
                             + INR (snd pq) * IZR b / INR N)))
            (list_prod (seq 0 M) (seq 0 N)))
  = if ((a mod Z.of_nat M =? 0) && (b mod Z.of_nat N =? 0))%Z
    then (INR M * INR N, 0) else C0.
Proof.
  intros HM HN.
  assert (HMr : 0 < INR M) by (apply lt_0_INR; exact HM).
  assert (HNr : 0 < INR N) by (apply lt_0_INR; exact HN).
  rewrite <- (Csum_pairs
                (fun p q => cis (2 * PI * (INR p * IZR a / INR M
                                           + INR q * IZR b / INR N)))).
  transitivity
    (Cmul (Csum (map (fun p => cis (INR p * (2 * PI * IZR a / INR M)))
                     (seq 0 M)))
          (Csum (map (fun q => cis (INR q * (2 * PI * IZR b / INR N)))
                     (seq 0 N)))).
  - rewrite <- Csum_mul_r. apply Csum_ext. intros p _.
    rewrite <- Csum_mul_l. apply Csum_ext. intros q _.
    rewrite <- cis_add. f_equal. field. lra.
  - rewrite (roots_sum M a HM), (roots_sum N b HN).
    destruct (a mod Z.of_nat M =? 0)%Z, (b mod Z.of_nat N =? 0)%Z;
      cbn [andb]; unfold Cmul, C0; cbn [fst snd];
      apply injective_projections; cbn [fst snd]; ring.
Qed.

(** Exactly one index of the grid lies a multiple of the grid away. *)
Lemma Rsum_pick (h : nat -> R) (M k : nat) :
  (k < M)%nat ->
  Rsum (map (fun m => if (m =? k)%nat then h m else 0) (seq 0 M)) = h k.
Proof.
  intros Hk.
  replace M with (k + (1 + (M - k - 1)))%nat by lia.
  rewrite !seq_app, !map_app, !Rsum_app. cbn [seq map Rsum fold_right].
  rewrite Nat.eqb_refl.
  rewrite (Rsum_all_zero _ (seq 0 k)).
  2:{ intros m Hm. apply in_seq in Hm.
      destruct (Nat.eqb_spec m k); [lia | reflexivity]. }
  rewrite (Rsum_all_zero _ (seq (0 + k + 1) (M - k - 1))).
  2:{ intros m Hm. apply in_seq in Hm.
      destruct (Nat.eqb_spec m k); [lia | reflexivity]. }
  cbn [Nat.add]. ring.
Qed.

Lemma multiple_away (M u m' m : nat) :
  (0 < M)%nat -> (m < M)%nat ->
  ((Z.of_nat u + Z.of_nat m' - Z.of_nat m) mod Z.of_nat M =? 0)%Z
  = (m =? (m' + u) mod M)%nat.
Proof.
  intros HM Hm.
  assert (Hb := Nat.mod_upper_bound (m' + u) M ltac:(lia)).
  assert (Ed := Nat.div_mod_eq (m' + u) M).
  destruct (Nat.eqb_spec m ((m' + u) mod M)) as [E|Hne].
  - apply Z.eqb_eq.
    replace (Z.of_nat u + Z.of_nat m' - Z.of_nat m)%Z
      with (Z.of_nat ((m' + u) / M) * Z.of_nat M)%Z by nia.
    apply Z.mod_mul. lia.
  - apply Z.eqb_neq. intros H0. apply Hne.
    apply Z.mod_divide in H0; [|lia]. destruct H0 as (c & Hc).
    assert (Hd : (Z.of_nat ((m' + u) mod M) - Z.of_nat m
                  = (c - Z.of_nat ((m' + u) / M)) * Z.of_nat M)%Z) by nia.
    assert (c - Z.of_nat ((m' + u) / M) = 0)%Z by nia.
    lia.
Qed.

Lemma Rsum_ext {A : Type} (f g : A -> R) (l : list A) :
  (forall a, In a l -> f a = g a) -> Rsum (map f l) = Rsum (map g l).
Proof.
  intros H. f_equal. apply map_ext_in. exact H.
Qed.

Section CorrelationCore.

Variables (M N : nat) (f g : nat -> nat -> R).
Hypothesis HM : (0 < M)%nat.
Hypothesis HN : (0 < N)%nat.

Local Abbreviation IJ := (list_prod (seq 0 M) (seq 0 N)).

Lemma spectrum_flat (h : nat -> nat -> R) (s : R) (p q : nat) :
  spectrum M N h s p q
  = Csum (map (fun a => Cmul (RtoC (h (fst a) (snd a)))
                             (cis (phase M N s p q (fst a) (snd a))))
              IJ).
Proof.
  unfold spectrum.
  apply (Csum_pairs (fun m n => Cmul (RtoC (h m n))
                                     (cis (phase M N s p q m n)))).
Qed.

Lemma spectrum_conj (h : nat -> nat -> R) (p q : nat) :
  Cconj (spectrum M N h (-1) p q)
  = Csum (map (fun b => Cmul (RtoC (h (fst b) (snd b)))
                             (cis (phase M N 1 p q (fst b) (snd b))))
              IJ).
Proof.
  rewrite spectrum_flat, Csum_conj. apply Csum_ext. intros b _.
  rewrite Cconj_mul, cis_conj. f_equal.
  - unfold Cconj, RtoC. cbn [fst snd]. now rewrite Ropp_0.
  - f_equal. unfold phase. ring.
Qed.

(** One term of the expanded product: the three phases add up to the
    phase of the displacement between the two grid points. *)
Lemma product_term (u v : nat) (pq a b : nat * nat) :
  Cmul (Cmul (Cmul (RtoC (f (fst a) (snd a)))
                   (cis (phase M N (-1) (fst pq) (snd pq) (fst a) (snd a))))
             (Cmul (RtoC (g (fst b) (snd b)))
                   (cis (phase M N 1 (fst pq) (snd pq) (fst b) (snd b)))))
       (cis (phase M N 1 u v (fst pq) (snd pq)))
  = Cmul (RtoC (f (fst a) (snd a) * g (fst b) (snd b)))
         (cis (2 * PI
               * (INR (fst pq)
                  * IZR (Z.of_nat u + Z.of_nat (fst b) - Z.of_nat (fst a))
                  / INR M
                  + INR (snd pq)
                    * IZR (Z.of_nat v + Z.of_nat (snd b) - Z.of_nat (snd a))
                    / INR N))).
Proof.
  assert (HMr : 0 < INR M) by (apply lt_0_INR; exact HM).
  assert (HNr : 0 < INR N) by (apply lt_0_INR; exact HN).
  replace (2 * PI
           * (INR (fst pq)
              * IZR (Z.of_nat u + Z.of_nat (fst b) - Z.of_nat (fst a))
              / INR M
              + INR (snd pq)
                * IZR (Z.of_nat v + Z.of_nat (snd b) - Z.of_nat (snd a))
                / INR N))
    with (phase M N (-1) (fst pq) (snd pq) (fst a) (snd a)
          + phase M N 1 (fst pq) (snd pq) (fst b) (snd b)
          + phase M N 1 u v (fst pq) (snd pq)).
  - rewrite !cis_add.
    generalize (cis (phase M N (-1) (fst pq) (snd pq) (fst a) (snd a)))
               (cis (phase M N 1 (fst pq) (snd pq) (fst b) (snd b)))
               (cis (phase M N 1 u v (fst pq) (snd pq)))
               (f (fst a) (snd a)) (g (fst b) (snd b)).
    pair_ring.
  - unfold phase. rewrite !minus_IZR, !plus_IZR, <- !INR_IZR_INZ.
    field. lra.
Qed.

(** The transform of the product of one spectrum with the conjugate of
    another, as a sum over pairs of grid points. *)
Lemma product_transform (u v : nat) :
  Csum (map (fun p =>
    Csum (map (fun q =>
      Cmul (Cmul (spectrum M N f (-1) p q)
                 (Cconj (spectrum M N g (-1) p q)))
           (cis (phase M N 1 u v p q)))
      (seq 0 N)))
    (seq 0 M))
  = Csum (map (fun b =>
      Csum (map (fun a =>
        Cmul (RtoC (f (fst a) (snd a) * g (fst b) (snd b)))
             (if ((Z.of_nat u + Z.of_nat (fst b) - Z.of_nat (fst a))
                    mod Z.of_nat M =? 0)%Z
                 && ((Z.of_nat v + Z.of_nat (snd b) - Z.of_nat (snd a))
                       mod Z.of_nat N =? 0)%Z
              then (INR M * INR N, 0) else C0))
        IJ))
      IJ).
Proof.
  rewrite (Csum_pairs
             (fun p q =>
                Cmul (Cmul (spectrum M N f (-1) p q)
                           (Cconj (spectrum M N g (-1) p q)))
                     (cis (phase M N 1 u v p q)))).
  transitivity
    (Csum (map (fun pq =>
       Csum (map (fun b =>
         Csum (map (fun a =>
           Cmul (Cmul (Cmul (RtoC (f (fst a) (snd a)))
                            (cis (phase M N (-1) (fst pq) (snd pq)
                                        (fst a) (snd a))))
                      (Cmul (RtoC (g (fst b) (snd b)))
                            (cis (phase M N 1 (fst pq) (snd pq)
                                        (fst b) (snd b)))))
                (cis (phase M N 1 u v (fst pq) (snd pq))))
           IJ))
         IJ))
       IJ)).
  { apply Csum_ext. intros pq _.
    rewrite spectrum_flat, spectrum_conj.
    rewrite <- Csum_mul_l, <- Csum_mul_r. apply Csum_ext. intros b _.
    rewrite <- Csum_mul_r, <- Csum_mul_r. apply Csum_ext. intros a _.
    reflexivity. }
  rewrite Csum_swap. apply Csum_ext. intros b _.
  rewrite Csum_swap. apply Csum_ext. intros a _.
  rewrite <- (kernel_sum M N _ _ HM HN), <- Csum_mul_l.
  apply Csum_ext. intros pq _. apply product_term.
Qed.

Lemma picked_entry (u v : nat) (b : nat * nat) (c : R) :
  Rsum (map (fun a =>
          if ((Z.of_nat u + Z.of_nat (fst b) - Z.of_nat (fst a))
                mod Z.of_nat M =? 0)%Z
             && ((Z.of_nat v + Z.of_nat (snd b) - Z.of_nat (snd a))
                   mod Z.of_nat N =? 0)%Z
          then f (fst a) (snd a) * c else 0)
        IJ)
  = f ((fst b + u) mod M) ((snd b + v) mod N) * c.
Proof.
  rewrite <- (Rsum_pairs
                (fun m n =>
                   if ((Z.of_nat u + Z.of_nat (fst b) - Z.of_nat m)
                         mod Z.of_nat M =? 0)%Z
                      && ((Z.of_nat v + Z.of_nat (snd b) - Z.of_nat n)
                            mod Z.of_nat N =? 0)%Z
                   then f m n * c else 0)).
  transitivity
    (Rsum (map (fun m => if (m =? (fst b + u) mod M)%nat
                         then f m ((snd b + v) mod N) * c else 0)
               (seq 0 M))).
  - apply Rsum_ext. intros m Hm. apply in_seq in Hm.
    rewrite (multiple_away M u (fst b) m HM) by lia.
    destruct (m =? (fst b + u) mod M)%nat; cbn [andb].
    + rewrite (Rsum_ext _ (fun n => if (n =? (snd b + v) mod N)%nat
                                    then f m n * c else 0)).
      * apply (Rsum_pick (fun n => f m n * c)).
        apply Nat.mod_upper_bound. lia.
      * intros n Hn. apply in_seq in Hn.
        now rewrite (multiple_away N v (snd b) n HN) by lia.
    + apply Rsum_all_zero. reflexivity.
  - apply (Rsum_pick (fun m => f m ((snd b + v) mod N) * c)).
    apply Nat.mod_upper_bound. lia.
Qed.

(** The cross-correlation theorem on the grid. *)
Lemma correlation_by_transforms (u v : nat) :
  fst (Cscale (/ (INR M * INR N))
         (Csum (map (fun p =>
            Csum (map (fun q =>
              Cmul (Cmul (spectrum M N f (-1) p q)
                         (Cconj (spectrum M N g (-1) p q)))
                   (cis (phase M N 1 u v p q)))
              (seq 0 N)))
            (seq 0 M))))
  = circular_correlation M N g f u v.
Proof.
  assert (HMr : 0 < INR M) by (apply lt_0_INR; exact HM).
  assert (HNr : 0 < INR N) by (apply lt_0_INR; exact HN).
  rewrite product_transform, Csum_scale, Csum_fst.
  unfold circular_correlation.
  rewrite (Rsum_pairs
             (fun m n => g m n * f ((m + u) mod M) ((n + v) mod N))).
  apply Rsum_ext. intros b _.
  rewrite Csum_scale, Csum_fst.
  rewrite <- (Rmult_comm (f _ _)), <- picked_entry.
  apply Rsum_ext. intros a _.
  destruct (((Z.of_nat u + Z.of_nat (fst b) - Z.of_nat (fst a))
               mod Z.of_nat M =? 0)%Z
            && ((Z.of_nat v + Z.of_nat (snd b) - Z.of_nat (snd a))
                  mod Z.of_nat N =? 0)%Z);
    unfold Cscale, Cmul, RtoC, C0; cbn [fst snd]; [field; lra | ring].
Qed.

End CorrelationCore.

Lemma dft2_entry (sign : R) (X : CImage) (u v : nat) :
  (u < length X)%nat -> (v < length (hd [] X))%nat ->
  nth v (nth u (dft2 sign X) []) C0
  = Csum (map (fun m =>
      Csum (map (fun n =>
        Cmul (nth n (nth m X []) C0)
             (cis (phase (length X) (length (hd [] X)) sign u v m n)))
        (seq 0 (length (hd [] X)))))
      (seq 0 (length X))).
Proof.
  intros Hu Hv. unfold dft2, phase.
  rewrite (nth_map_lt _ _ _ 0%nat) by (rewrite length_seq; exact Hu).
  rewrite (nth_map_lt _ _ _ 0%nat) by (rewrite length_seq; exact Hv).
  rewrite !seq_nth by assumption. reflexivity.
Qed.

Lemma lifted_entry (image : Image) (m n : nat) :
  nth n (nth m (map (map RtoC) image) []) C0 = RtoC (get2 image m n).
Proof.
  unfold get2.
  change (@nil C) with (map RtoC []).
  rewrite (map_nth (map RtoC) image [] m).
  change C0 with (RtoC 0). apply map_nth.
Qed.

(** The transform of a real array is the spectrum of its entries. *)
Lemma fft2_entry (image : Image) (M N p q : nat) :
  shaped image M N -> (p < M)%nat -> (q < N)%nat ->
  nth q (nth p (fft2 (map (map RtoC) image)) []) C0
  = spectrum M N (get2 image) (-1) p q.
Proof.
  intros Sh Hp Hq.
  assert (S' := shaped_map RtoC image M N Sh).
  assert (LM : length (map (map RtoC) image) = M) by apply S'.
  assert (LN : length (hd [] (map (map RtoC) image)) = N)
    by (eapply shaped_hd; [exact S' | lia]).
  unfold fft2. rewrite dft2_entry by lia. rewrite LM, LN.
  unfold spectrum. apply Csum_ext. intros m _. apply Csum_ext. intros n _.
  now rewrite lifted_entry.
Qed.

Lemma roll_entry {A : Type} (d : A) (s : nat) (l : list A) (i : nat) :
  (i < length l)%nat ->
  nth i (roll d s l) d = nth ((i + (length l - s)) mod length l) l d.
Proof.
  intros Hi. unfold roll.
  rewrite (nth_map_lt _ _ _ 0%nat) by (rewrite length_seq; exact Hi).
  now rewrite seq_nth by exact Hi.
Qed.

Lemma fftshift_entry (Y : Image) (M N b a : nat) :
  shaped Y M N -> (b < M)%nat -> (a < N)%nat ->
  get2 (fftshift Y) b a
  = get2 Y ((b + (M - M / 2)) mod M) ((a + (N - N / 2)) mod N).
Proof.
  intros Sh Hb Ha. pose proof Sh as [L F]. unfold fftshift, get2.
  rewrite roll_entry by (rewrite length_map; lia).
  rewrite length_map, L.
  assert (Hu : ((b + (M - M / 2)) mod M < M)%nat)
    by (apply Nat.mod_upper_bound; lia).
  rewrite (nth_map_lt _ _ _ []) by lia.
  assert (Lr := shaped_row Y M N _ Sh Hu).
  rewrite roll_entry by lia. rewrite Lr. reflexivity.
Qed.

Lemma fft2_shaped (image : Image) (M N : nat) :
  shaped image M N -> (0 < M)%nat ->
  shaped (fft2 (map (map RtoC) image)) M N.
Proof.
  intros Sh HM. unfold fft2.
  assert (S' := shaped_map RtoC image M N Sh).
  replace M with (length (map (map RtoC) image)) at 1 by apply S'.
  replace N with (length (hd [] (map (map RtoC) image)))
    by (eapply shaped_hd; eassumption).
  apply dft2_shaped.
Qed.

(** An index below a length that is known up to unfolding. *)
Ltac below H E :=
  eapply Nat.lt_le_trans; [exact H|];
  apply Nat.eq_le_incl; symmetry; exact E.

(** compute_xcorr, called with the conjugate transform of a reference as
    rotate_groups passes it, returns the circular cross-correlation of the
    reference with the image: entry [(b, a)] is the sum over the grid of
    [ref[m, n] * image[m + b - M/2, n + a - N/2]], indices modulo the
    shape, so that zero displacement sits at the centre pixel. *)
Theorem compute_xcorr_is_circular_correlation (ref image : Image)
    (M N : nat) :
  shaped ref M N -> shaped image M N -> (0 < M)%nat -> (0 < N)%nat ->
  exists xcorr,
    compute_xcorr (map (map Cconj) (fft2 (map (map RtoC) ref))) image
      = Some xcorr
    /\ shaped xcorr M N
    /\ forall b a, (b < M)%nat -> (a < N)%nat ->
         get2 xcorr b a
         = circular_correlation M N (get2 ref) (get2 image)
             ((b + (M - M / 2)) mod M) ((a + (N - N / 2)) mod N).
Proof.
  intros Sr Si HM HN.
  assert (SF := fft2_shaped image M N Si HM).
  assert (SC : shaped (map (map Cconj) (fft2 (map (map RtoC) ref))) M N)
    by (apply shaped_map, fft2_shaped; assumption).
  destruct (zip2_defined Cmul _ _ (shaped_same_shape _ _ _ _ SF SC))
    as (prod & Ep).
  assert (SP : shaped prod M N).
  { eapply same_shape_shaped; [exact SF|]. eapply zip2_shape. exact Ep. }
  assert (LP : length prod = M) by apply SP.
  assert (LH : length (hd [] prod) = N)
    by (eapply shaped_hd; [exact SP | lia]).
  assert (SD : shaped (dft2 1 prod) M N).
  { rewrite <- LP at 1. rewrite <- LH. apply dft2_shaped. }
  assert (SI : shaped (ifft2 prod) M N) by (apply shaped_map; exact SD).
  assert (SY : shaped (map (map fst) (ifft2 prod)) M N)
    by (apply shaped_map; exact SI).
  exists (fftshift (map (map fst) (ifft2 prod))).
  split; [unfold compute_xcorr; rewrite Ep; reflexivity|].
  split; [apply fftshift_shaped; exact SY|].
  intros b a Hb Ha.
  rewrite (fftshift_entry _ M N b a SY Hb Ha).
  set (u := ((b + (M - M / 2)) mod M)%nat).
  set (v := ((a + (N - N / 2)) mod N)%nat).
  assert (Hu : (u < M)%nat) by (apply Nat.mod_upper_bound; lia).
  assert (Hv : (v < N)%nat) by (apply Nat.mod_upper_bound; lia).
  clearbody u v.
  assert (EY : get2 (map (map fst) (ifft2 prod)) u v
               = fst (nth v (nth u (ifft2 prod) []) C0)).
  { unfold get2.
    rewrite (nth_map_lt (map fst) (ifft2 prod) u [] [])
      by (below Hu (proj1 SI)).
    apply (nth_map_lt fst). below Hv (shaped_row _ M N u SI Hu). }
  assert (EI : nth v (nth u (ifft2 prod) []) C0
               = Cscale (/ (INR M * INR N))
                        (nth v (nth u (dft2 1 prod) []) C0)).
  { unfold ifft2. rewrite LP, LH.
    rewrite (nth_map_lt (map (Cscale (/ (INR M * INR N)))) (dft2 1 prod)
               u [] []) by (below Hu (proj1 SD)).
    apply (nth_map_lt (Cscale (/ (INR M * INR N)))).
    below Hv (shaped_row _ M N u SD Hu). }
  assert (SFr := fft2_shaped ref M N Sr HM).
  rewrite EY, EI, dft2_entry by lia. rewrite LP, LH.
  rewrite <- (correlation_by_transforms M N (get2 image) (get2 ref) HM HN).
  f_equal. f_equal.
  apply Csum_ext. intros p Hp. apply in_seq in Hp. destruct Hp as [_ Hp].
  apply Csum_ext. intros q Hq. apply in_seq in Hq. destruct Hq as [_ Hq].
  cbn [Nat.add] in Hp, Hq.
  f_equal.
  rewrite (zip2_nth Cmul _ _ prod C0 C0 C0 p q Ep);
    [| below Hp (proj1 SF) | below Hq (shaped_row _ M N p SF Hp)].
  rewrite (fft2_entry image M N p q Si Hp Hq).
  f_equal.
  rewrite (nth_map_lt (map Cconj) (fft2 (map (map RtoC) ref)) p [] [])
    by (below Hp (proj1 SFr)).
  rewrite (nth_map_lt Cconj _ q C0 C0)
    by (below Hq (shaped_row _ M N p SFr Hp)).
  rewrite (fft2_entry ref M N p q Sr Hp Hq). reflexivity.
Qed.

Lemma compute_xcorr_is_circular_correlation_witness :
  exists xcorr,
    compute_xcorr (map (map Cconj) (fft2 (map (map RtoC) flat_image)))
                  [[1; 0]; [0; 0]] = Some xcorr
    /\ get2 xcorr 1 1
       = circular_correlation 2 2 (get2 flat_image) (get2 [[1; 0]; [0; 0]])
           ((1 + (2 - 2 / 2)) mod 2) ((1 + (2 - 2 / 2)) mod 2).
Proof.
  destruct (compute_xcorr_is_circular_correlation flat_image
              [[1; 0]; [0; 0]] 2 2) as (xcorr & E & _ & H).
  - split; [reflexivity|]. repeat constructor.
  - split; [reflexivity|]. repeat constructor.
  - lia.
  - lia.
  - exists xcorr. split; [exact E|]. apply H; lia.
Defined.

(** ** scale_contrast and to_8bit *)

Lemma scale_with_range (upper v : R) : 0 <= scale_with upper v <= 1.
Proof.
  unfold scale_with. split.
  - apply Rmax_r.
  - apply Rmax_lub; [apply Rmin_r | lra].
Qed.

Lemma round_half_even_range (v : R) :
  0 <= v <= 255 -> (0 <= round_half_even v <= 255)%Z.
Proof.
  intros [H0 H1]. unfold round_half_even.
  destruct (base_Int_part v) as [A B].
  assert (L : (0 <= Int_part v)%Z).
  { assert (IZR (-1) < IZR (Int_part v)) by (simpl; lra).
    apply lt_IZR in H. lia. }
  assert (U : (Int_part v <= 255)%Z).
  { apply le_IZR. lra. }
  destruct (Rlt_dec (v - IZR (Int_part v)) (1 / 2)) as [Hlt|Hge]; [lia|].
  assert (Int_part v <> 255%Z).
  { intros E. rewrite E in Hge. apply Hge. lra. }
  destruct (Rlt_dec (1 / 2) (v - IZR (Int_part v))); [lia|].
  destruct (Z.even (Int_part v)); lia.
Qed.

(** On an image with a pixel scale_contrast returns an image of the same
    shape whose pixels all lie in [[0, 1]], so that to_8bit of it is the
    rounding of [255 * pixel] to a value in [[0, 255]]: the cast to uint8
    never wraps. *)
Theorem to_8bit_of_scaled_never_wraps (contrast : R) (image : Image) :
  concat image <> [] ->
  exists out,
    scale_contrast contrast image = Some out
    /\ same_shape image out = true
    /\ Forall (Forall (fun v => 0 <= v <= 1)) out
    /\ to_8bit out = map (map (fun v => round_half_even (255 * v))) out
    /\ Forall (Forall (fun z => (0 <= z <= 255)%Z)) (to_8bit out).
Proof.
  intros Hne. unfold scale_contrast.
  destruct (np_max_nonempty _ Hne) as (max_ & Em). rewrite Em. cbn [bind].
  eexists. split; [reflexivity|].
  assert (Hr : Forall (Forall (fun v => 0 <= v <= 1))
                      (map (map (scale_with (contrast * max_))) image)).
  { apply Forall_map, Forall_forall. intros row _.
    apply Forall_map, Forall_forall. intros v _. apply scale_with_range. }
  assert (Hz : forall v, 0 <= v <= 1 ->
               (0 <= round_half_even (255 * v) <= 255)%Z).
  { intros v Hv. apply round_half_even_range. lra. }
  split; [|split; [exact Hr|split]].
  - apply same_shape_spec. split; [now rewrite length_map|].
    intros k Hk. rewrite (nth_map_lt _ _ _ []) by exact Hk.
    now rewrite length_map.
  - unfold to_8bit. apply map_ext_in. intros row Hrow.
    apply map_ext_in. intros v Hv. apply Z.mod_small.
    rewrite Forall_forall in Hr. specialize (Hr row Hrow).
    rewrite Forall_forall in Hr. specialize (Hz v (Hr v Hv)). lia.
  - unfold to_8bit. apply Forall_map, Forall_forall. intros row Hrow.
    apply Forall_map, Forall_forall. intros v Hv.
    rewrite Forall_forall in Hr. specialize (Hr row Hrow).
    rewrite Forall_forall in Hr. specialize (Hz v (Hr v Hv)).
    rewrite Z.mod_small; lia.
Qed.

Lemma to_8bit_of_scaled_never_wraps_witness :
  exists out,
    scale_contrast 2 [[1; 0]; [0; 3]] = Some out
    /\ Forall (Forall (fun z => (0 <= z <= 255)%Z)) (to_8bit out).
Proof.
  destruct (to_8bit_of_scaled_never_wraps 2 [[1; 0]; [0; 3]])
    as (out & E & _ & _ & _ & H).
  - discriminate.
  - exists out. split; [exact E | exact H].
Defined.
